(** * py-radix: the Patricia trie of [radix.c] and its Python binding [_radix.c]

    The development embeds the C code as executable Rocq functions over an
    explicit node heap (a finite map from addresses to [radix_node_t]
    records, with the [l], [r] and [parent] pointers of the source), and
    proves the properties of the trie against that embedding.  A pure tree
    that the heap represents is used in the proofs only. *)

From stdpp Require Import gmap list.

Open Scope Z_scope.

(** ** Errors of the embedding *)

(** The C code has undefined behaviour when it dereferences NULL; its loops
    are modelled with fuel.  Both are kept apart from the results the code
    can return, so that theorems can state that they do not happen. *)
Inductive fault := NullDeref | BitOutOfRange | OutOfFuel.

Inductive res (A : Type) : Type :=
| Ok (a : A)
| Err (e : fault).
Arguments Ok {A} a.
Arguments Err {A} e.

#[global] Instance res_bind : MBind res := λ A B f x,
  match x with
  | Ok a => f a
  | Err e => Err e
  end.

#[global] Instance res_ret : MRet res := λ A a, Ok a.

(** ** Data model (radix.h) *)

Definition loc := positive.
Abbreviation ptr := (option loc).
Definition pyobj := positive.

Inductive family_t := AF_INET | AF_INET6.

#[global] Instance family_eq_dec : EqDecision family_t.
Proof. solve_decision. Defined.

(** [prefix_t]: the address bytes are in network order.  Prefix objects are
    immutable once built, apart from [ref_count], and are stored in the nodes
    by value: [Ref_Prefix] is the identity on values. *)
Record prefix_t := {
  family : family_t;
  bitlen : Z;
  add : list Z
}.

#[global] Instance prefix_eq_dec : EqDecision prefix_t.
Proof. solve_decision. Defined.

Record radix_node_t := {
  bit : Z;
  prefix : option prefix_t;
  l : ptr;
  r : ptr;
  parent : ptr;
  data : option pyobj
}.

#[global] Instance radix_node_eq_dec : EqDecision radix_node_t.
Proof. solve_decision. Defined.

Record radix_tree_t := {
  head_ipv4 : ptr;
  head_ipv6 : ptr;
  num_active_node : Z
}.

Abbreviation heap := (gmap loc radix_node_t).

Definition set_bit (v : Z) (n : radix_node_t) : radix_node_t :=
  {| bit := v; prefix := prefix n; l := l n; r := r n;
     parent := parent n; data := data n |}.
Definition set_prefix (v : option prefix_t) (n : radix_node_t) : radix_node_t :=
  {| bit := bit n; prefix := v; l := l n; r := r n;
     parent := parent n; data := data n |}.
Definition set_l (v : ptr) (n : radix_node_t) : radix_node_t :=
  {| bit := bit n; prefix := prefix n; l := v; r := r n;
     parent := parent n; data := data n |}.
Definition set_r (v : ptr) (n : radix_node_t) : radix_node_t :=
  {| bit := bit n; prefix := prefix n; l := l n; r := v;
     parent := parent n; data := data n |}.
Definition set_parent (v : ptr) (n : radix_node_t) : radix_node_t :=
  {| bit := bit n; prefix := prefix n; l := l n; r := r n;
     parent := v; data := data n |}.
Definition set_data (v : option pyobj) (n : radix_node_t) : radix_node_t :=
  {| bit := bit n; prefix := prefix n; l := l n; r := r n;
     parent := parent n; data := v |}.

Definition set_head_ipv4 (v : ptr) (t : radix_tree_t) : radix_tree_t :=
  {| head_ipv4 := v; head_ipv6 := head_ipv6 t;
     num_active_node := num_active_node t |}.
Definition set_head_ipv6 (v : ptr) (t : radix_tree_t) : radix_tree_t :=
  {| head_ipv4 := head_ipv4 t; head_ipv6 := v;
     num_active_node := num_active_node t |}.
Definition set_num_active_node (v : Z) (t : radix_tree_t) : radix_tree_t :=
  {| head_ipv4 := head_ipv4 t; head_ipv6 := head_ipv6 t;
     num_active_node := v |}.

(** [node->field] on a pointer that is NULL or not allocated. *)
Definition deref (h : heap) (p : loc) : res radix_node_t :=
  match h !! p with
  | Some n => Ok n
  | None => Err NullDeref
  end.

(** [p->field = v] *)
Definition store (h : heap) (p : loc) (f : radix_node_t → radix_node_t) : res heap :=
  n ← deref h p; Ok (<[p := f n]> h).

(** [PyMem_Malloc]: [ok] says whether the allocator has memory left; the
    address is one that is not in use. *)
Definition PyMem_Malloc (ok : bool) (h : heap) : ptr :=
  if ok then Some (fresh (dom h)) else None.

Definition PyMem_Free (p : loc) (h : heap) : heap := delete p h.

Definition Ref_Prefix (p : prefix_t) : option prefix_t := Some p.

(** ** Macros of radix.c *)

Definition BIT_TEST (f b : Z) : bool := negb (Z.land f b =? 0).

(** [BIT_TEST_SEARCH_BIT(addr, bit)]; [None] when the byte read lies outside
    of the address. *)
Definition BIT_TEST_SEARCH_BIT (addr : list Z) (bit : Z) : option bool :=
  match addr !! Z.to_nat (Z.shiftr bit 3) with
  | Some byte => Some (BIT_TEST byte (Z.shiftr 0x80 (Z.land bit 0x07)))
  | None => None
  end.

Definition RADIX_HEAD_BY_PREFIX (t : radix_tree_t) (p : prefix_t) : ptr :=
  match family p with
  | AF_INET => head_ipv4 t
  | AF_INET6 => head_ipv6 t
  end.

(** [*RADIX_PHEAD_BY_PREFIX(tree, prefix) = v] *)
Definition set_head_by_prefix (p : prefix_t) (v : ptr) (t : radix_tree_t) : radix_tree_t :=
  match family p with
  | AF_INET => set_head_ipv4 v t
  | AF_INET6 => set_head_ipv6 v t
  end.

Definition RADIX_MAXBITS_BY_PREFIX (p : prefix_t) : Z :=
  match family p with
  | AF_INET => 32
  | AF_INET6 => 128
  end.

Definition RADIX_MIN (a b : Z) : Z := if a <? b then a else b.

(** A byte of an address; the code never reads past the address when the
    mask is at most the width of the family. *)
Definition byte_at (addr : list Z) (i : Z) : Z :=
  default 0 (addr !! Z.to_nat i).

(** [memcmp(addr, dest, n) == 0] *)
Definition memcmp_eq (addr dest : list Z) (n : Z) : bool :=
  bool_decide (take (Z.to_nat n) addr = take (Z.to_nat n) dest).

Definition comp_with_mask (addr dest : list Z) (mask : Z) : bool :=
  if memcmp_eq addr dest (mask / 8) then
    let n := mask / 8 in
    let m := (Z.shiftl (-1) (8 - mask mod 8)) mod 2 ^ 32 in
    (mask mod 8 =? 0) || (Z.land (byte_at addr n) m =? Z.land (byte_at dest n) m)
  else false.

Definition non_null {A : Type} (p : option A) : bool :=
  match p with
  | Some _ => true
  | None => false
  end.

(** Every loop over the nodes follows pointers of the heap; a walk that is
    longer than the number of allocated nodes does not end in the C code. *)
Definition fuel_of (h : heap) : nat := S (size h).

(** [BIT_TEST_SEARCH(addr, node)] as the search macros use it, without a
    guard on the index: a read past the address yields whatever the memory
    holds there, [oob]. *)
Definition BIT_TEST_SEARCH (oob : bool) (addr : list Z) (n : radix_node_t) : bool :=
  default oob (BIT_TEST_SEARCH_BIT addr (bit n)).

Definition search_next (oob : bool) (p : prefix_t) (n : radix_node_t) : ptr :=
  if BIT_TEST_SEARCH oob (add p) n then r n else l n.

(** ** Creation: New_Radix *)

Definition New_Radix : radix_tree_t :=
  {| head_ipv4 := None; head_ipv6 := None; num_active_node := 0 |}.

(** The nodes a walk of the tree visits from [node] on, through the [l] and
    [r] pointers, in the order of [RADIX_WALK]. *)
Fixpoint radix_walk (fuel : nat) (h : heap) (node : ptr) : list loc :=
  match fuel with
  | O => []
  | S f =>
    match node with
    | None => []
    | Some a =>
      match h !! a with
      | None => []
      | Some n => a :: radix_walk f h (l n) ++ radix_walk f h (r n)
      end
    end
  end.

(** The nodes of the two tries, real and glue. *)
Definition tree_nodes (h : heap) (t : radix_tree_t) : list loc :=
  radix_walk (fuel_of h) h (head_ipv4 t) ++ radix_walk (fuel_of h) h (head_ipv6 t).

(** ** Searches *)

(** [RADIX_SEARCH_FOREACH(node, head, prefix);] *)
Fixpoint radix_search_foreach (fuel : nat) (oob : bool) (h : heap) (p : prefix_t)
    (node : ptr) : res ptr :=
  match fuel with
  | O => Err OutOfFuel
  | S f =>
    match node with
    | None => Ok None
    | Some a =>
      n ← deref h a;
      if bit n <? bitlen p
      then radix_search_foreach f oob h p (search_next oob p n)
      else Ok (Some a)
    end
  end.

Definition radix_search_exact (oob : bool) (h : heap) (t : radix_tree_t)
    (p : prefix_t) : res ptr :=
  match RADIX_HEAD_BY_PREFIX t p with
  | None => Ok None
  | Some head =>
    node ← radix_search_foreach (fuel_of h) oob h p (Some head);
    match node with
    | None => Ok None
    | Some a =>
      n ← deref h a;
      if bitlen p <? bit n then Ok None
      else match prefix n with
           | None => Ok None
           | Some np =>
             if comp_with_mask (add np) (add p) (bitlen p)
             then Ok (Some a) else Ok None
           end
    end
  end.

(** The loop of [RADIX_SEARCH_FOREACH_INCLUSIVE] in the best and worst
    searches; the stack array is a list whose head is the last push. *)
Fixpoint radix_search_stack (fuel : nat) (oob : bool) (h : heap) (p : prefix_t)
    (inclusive : bool) (node : ptr) (stack : list loc) : res (list loc) :=
  match fuel with
  | O => Err OutOfFuel
  | S f =>
    match node with
    | None => Ok stack
    | Some a =>
      n ← deref h a;
      if bit n <=? bitlen p
      then
        let stack' :=
          if non_null (prefix n) && (inclusive || negb (bit n =? bitlen p))
          then a :: stack else stack in
        radix_search_stack f oob h p inclusive (search_next oob p n) stack'
      else Ok stack
    end
  end.

(** [while (--cnt >= 0)]: from the last push to the first. *)
Fixpoint radix_best_scan (h : heap) (p : prefix_t) (stack : list loc) : res ptr :=
  match stack with
  | [] => Ok None
  | a :: rest =>
    n ← deref h a;
    match prefix n with
    | None => Err NullDeref
    | Some np =>
      if comp_with_mask (add np) (add p) (bitlen np) && (bitlen np <=? bitlen p)
      then Ok (Some a)
      else radix_best_scan h p rest
    end
  end.

Definition radix_search_best2 (oob : bool) (h : heap) (t : radix_tree_t)
    (p : prefix_t) (inclusive : bool) : res ptr :=
  match RADIX_HEAD_BY_PREFIX t p with
  | None => Ok None
  | Some head =>
    stack ← radix_search_stack (fuel_of h) oob h p inclusive (Some head) [];
    radix_best_scan h p stack
  end.

Definition radix_search_best (oob : bool) (h : heap) (t : radix_tree_t)
    (p : prefix_t) : res ptr :=
  radix_search_best2 oob h t p true.

(** [for (iterator = 0; iterator < cnt; ++iterator)]: from the first push. *)
Fixpoint radix_worst_scan (h : heap) (p : prefix_t) (stack : list loc) : res ptr :=
  match stack with
  | [] => Ok None
  | a :: rest =>
    n ← deref h a;
    match prefix n with
    | None => Err NullDeref
    | Some np =>
      if comp_with_mask (add np) (add p) (bitlen np)
      then Ok (Some a)
      else radix_worst_scan h p rest
    end
  end.

Definition radix_search_worst2 (oob : bool) (h : heap) (t : radix_tree_t)
    (p : prefix_t) (inclusive : bool) : res ptr :=
  match RADIX_HEAD_BY_PREFIX t p with
  | None => Ok None
  | Some head =>
    stack ← radix_search_stack (fuel_of h) oob h p inclusive (Some head) [];
    radix_worst_scan h p (rev stack)
  end.

(** A search callback returns an [int]; the walks record, in order, the
    nodes on which they called it. *)
Definition rdx_search_cb_t := loc → Z.

(** The [do ... while ((node = node->parent) != NULL)] of
    [radix_search_covering]. *)
Fixpoint radix_covering_walk (fuel : nat) (h : heap) (func : rdx_search_cb_t)
    (node : loc) (calls : list loc) : res (list loc * Z) :=
  match fuel with
  | O => Err OutOfFuel
  | S f =>
    n ← deref h node;
    let continue (calls : list loc) :=
      match parent n with
      | None => Ok (calls, 0)
      | Some up => radix_covering_walk f h func up calls
      end in
    match prefix n with
    | None => continue calls
    | Some _ =>
      let rc := func node in
      if rc =? 0 then continue (calls ++ [node]) else Ok (calls ++ [node], rc)
    end
  end.

Definition radix_search_covering (oob : bool) (h : heap) (t : radix_tree_t)
    (p : prefix_t) (func : rdx_search_cb_t) : res (list loc * Z) :=
  node ← radix_search_best oob h t p;
  match node with
  | None => Ok ([], 0)
  | Some a => radix_covering_walk (fuel_of h) h func a []
  end.

(** *** radix_search_covered *)

Inductive radix_state := RADIX_STATE_LEFT | RADIX_STATE_RIGHT | RADIX_STATE_SELF.

Record frame := {
  f_node : loc;
  f_state : radix_state;
  f_checked : bool
}.

Definition COMP_NODE_PREFIX (np p : prefix_t) : bool :=
  comp_with_mask (add np) (add p) (RADIX_MIN (bitlen np) (bitlen p)).

(** The descent; returns [node], [prev_node] and [prefixed_node]. *)
Fixpoint radix_covered_descend (fuel : nat) (oob : bool) (h : heap) (p : prefix_t)
    (node prev_node prefixed_node : ptr) : res (ptr * ptr * ptr) :=
  match fuel with
  | O => Err OutOfFuel
  | S f =>
    match node with
    | None => Ok (None, prev_node, prefixed_node)
    | Some a =>
      n ← deref h a;
      if bit n <=? bitlen p
      then
        if bit n =? bitlen p
        then Ok (Some a, Some a, prefixed_node)
        else radix_covered_descend f oob h p (search_next oob p n) (Some a)
               (if non_null (prefix n) then Some a else prefixed_node)
      else Ok (Some a, prev_node, prefixed_node)
    end
  end.

(** The [while (stackpos >= 0)] loop; the head of [stack] is
    [stack[stackpos]]. *)
Fixpoint radix_covered_loop (fuel : nat) (h : heap) (p : prefix_t)
    (func : rdx_search_cb_t) (inclusive : bool) (stack : list frame)
    (calls : list loc) : res (list loc * Z) :=
  match fuel with
  | O => Err OutOfFuel
  | S f =>
    match stack with
    | [] => Ok (calls, 0)
    | pst :: below =>
      pn ← deref h (f_node pst);
      match f_state pst with
      | RADIX_STATE_SELF =>
        if negb (bool_decide (below = [])) ||
           (if inclusive then bitlen p <=? bit pn else bitlen p <? bit pn)
        then
          match prefix pn with
          | None => radix_covered_loop f h p func inclusive below calls
          | Some _ =>
            let rc := func (f_node pst) in
            if rc =? 0
            then radix_covered_loop f h p func inclusive below (calls ++ [f_node pst])
            else Ok (calls ++ [f_node pst], rc)
          end
        else radix_covered_loop f h p func inclusive below calls
      | st =>
        let pst' :=
          {| f_node := f_node pst;
             f_state := match st with
                        | RADIX_STATE_LEFT => RADIX_STATE_RIGHT
                        | _ => RADIX_STATE_SELF
                        end;
             f_checked := f_checked pst |} in
        let node := match st with
                    | RADIX_STATE_LEFT => l pn
                    | _ => r pn
                    end in
        match node with
        | None => radix_covered_loop f h p func inclusive (pst' :: below) calls
        | Some c =>
          cn ← deref h c;
          let foreign :=
            negb (f_checked pst) &&
            match prefix cn with
            | None => false
            | Some cp => negb (COMP_NODE_PREFIX cp p)
            end in
          if foreign
          then radix_covered_loop f h p func inclusive (pst' :: below) calls
          else radix_covered_loop f h p func inclusive
                 ({| f_node := c; f_state := RADIX_STATE_LEFT;
                     f_checked := f_checked pst || non_null (prefix cn) |}
                  :: pst' :: below) calls
        end
      end
    end
  end.

Definition radix_search_covered (oob : bool) (h : heap) (t : radix_tree_t)
    (p : prefix_t) (func : rdx_search_cb_t) (inclusive : bool)
    : res (list loc * Z) :=
  '(node, prev_node, prefixed_node) ←
    radix_covered_descend (fuel_of h) oob h p (RADIX_HEAD_BY_PREFIX t p) None None;
  match (match node with
         | None => match prev_node with
                   | None => None
                   | Some a => Some (a, prefixed_node)
                   end
         | Some a => Some (a, prefixed_node)
         end) with
  | None => Ok ([], 0)
  | Some (a, prefixed_node) =>
    n ← deref h a;
    let prefixed_node :=
      if non_null node && non_null (prefix n) then Some a else prefixed_node in
    foreign ← match prefixed_node with
              | None => Ok false
              | Some pa =>
                pn ← deref h pa;
                match prefix pn with
                | None => Err NullDeref
                | Some pp => Ok (negb (COMP_NODE_PREFIX pp p))
                end
              end;
    if (foreign : bool) then Ok ([], 0)
    else
      radix_covered_loop (3 * fuel_of h) h p func inclusive
        [ {| f_node := a; f_state := RADIX_STATE_LEFT;
             f_checked := bool_decide (Some a = prefixed_node) &&
                          (bitlen p <=? bit n) |} ] []
  end.

Definition radix_search_intersect (oob : bool) (h : heap) (t : radix_tree_t)
    (p : prefix_t) (func : rdx_search_cb_t) : res (list loc * Z) :=
  '(calls, rc) ← radix_search_covering oob h t p func;
  if rc =? 0
  then '(calls', rc') ← radix_search_covered oob h t p func false;
       Ok (calls ++ calls', rc')
  else Ok (calls, rc).

(** ** Insertion: radix_lookup *)

(** [bit < maxbits && BIT_TEST_SEARCH_BIT(addr, bit)], with the
    short-circuit of [&&]: the bit is read only under the guard, and a read
    outside of the address is a fault. *)
Definition guarded_bit_test (maxbits : Z) (addr : list Z) (b : Z) : res bool :=
  if b <? maxbits
  then match BIT_TEST_SEARCH_BIT addr b with
       | Some v => Ok v
       | None => Err BitOutOfRange
       end
  else Ok false.

(** The [while (node->bit < bitlen || node->prefix == NULL)] descent. *)
Fixpoint radix_lookup_descend (fuel : nat) (h : heap) (addr : list Z)
    (bitlen maxbits : Z) (node : loc) : res loc :=
  match fuel with
  | O => Err OutOfFuel
  | S f =>
    n ← deref h node;
    if (bit n <? bitlen) || negb (non_null (prefix n))
    then
      b ← guarded_bit_test maxbits addr (bit n);
      match (if (b : bool) then r n else l n) with
      | None => Ok node
      | Some c => radix_lookup_descend f h addr bitlen maxbits c
      end
    else Ok node
  end.

(** [for (j = 0; j < 8; j++) if (BIT_TEST(r, (0x80 >> j))) break;] *)
Fixpoint first_set_bit (fuel : nat) (r j : Z) : Z :=
  match fuel with
  | O => j
  | S f => if BIT_TEST r (Z.shiftr 0x80 j) then j else first_set_bit f r (j + 1)
  end.

(** [for (i = 0; i * 8 < check_bit; i++)], the search of the first bit
    that differs. *)
Fixpoint differ_loop (fuel : nat) (addr test_addr : list Z) (check_bit i differ_bit : Z) : Z :=
  match fuel with
  | O => differ_bit
  | S f =>
    if i * 8 <? check_bit
    then
      let r := Z.lxor (byte_at addr i) (byte_at test_addr i) in
      if r =? 0
      then differ_loop f addr test_addr check_bit (i + 1) ((i + 1) * 8)
      else i * 8 + first_set_bit 8 r 0
    else differ_bit
  end.

Definition find_differ_bit (addr test_addr : list Z) (node_bit bitlen : Z) : Z :=
  let check_bit := if node_bit <? bitlen then node_bit else bitlen in
  let differ_bit :=
    differ_loop (Z.to_nat check_bit) addr test_addr check_bit 0 0 in
  if check_bit <? differ_bit then check_bit else differ_bit.

(** [while (parent && parent->bit >= differ_bit)] *)
Fixpoint radix_lookup_ascend (fuel : nat) (h : heap) (differ_bit : Z) (node : loc)
    : res loc :=
  match fuel with
  | O => Err OutOfFuel
  | S f =>
    n ← deref h node;
    match parent n with
    | None => Ok node
    | Some up =>
      pn ← deref h up;
      if differ_bit <=? bit pn
      then radix_lookup_ascend f h differ_bit up
      else Ok node
    end
  end.

(** A node as [radix_lookup] initialises it after [PyMem_Malloc] and
    [memset]. *)
Definition new_real_node (p : prefix_t) : radix_node_t :=
  {| bit := bitlen p; prefix := Ref_Prefix p; l := None; r := None;
     parent := None; data := None |}.

(** The replacement of [node] by [by_node] in the slot that holds it: the
    head of the family, or a child pointer of its parent. *)
Definition replace_in_parent (h : heap) (t : radix_tree_t) (p : prefix_t)
    (node_parent : ptr) (node : loc) (by_node : ptr) : res (heap * radix_tree_t) :=
  match node_parent with
  | None => Ok (h, set_head_by_prefix p by_node t)
  | Some up =>
    pn ← deref h up;
    if bool_decide (r pn = Some node)
    then h' ← store h up (set_r by_node); Ok (h', t)
    else h' ← store h up (set_l by_node); Ok (h', t)
  end.

(** The part of [radix_lookup] that follows the ascent: [node] is the node
    at which the prefix is attached and [test_addr] the address of the node
    the descent ended on.  [ok1] and [ok2] are the outcomes of the first and
    of the second [PyMem_Malloc]. *)
Definition radix_lookup_attach (ok1 ok2 : bool) (h : heap) (t : radix_tree_t)
    (p : prefix_t) (test_addr : list Z) (differ_bit : Z) (node : loc)
    : res (heap * radix_tree_t * ptr) :=
  let maxbits := RADIX_MAXBITS_BY_PREFIX p in
  let addr := add p in
  let bitlen := bitlen p in
  n ← deref h node;
  if (differ_bit =? bitlen) && (bit n =? bitlen)
  then
    match prefix n with
    | None => h ← store h node (set_prefix (Ref_Prefix p)); Ok (h, t, Some node)
    | Some _ => Ok (h, t, Some node)
    end
  else
    match PyMem_Malloc ok1 h with
    | None => Ok (h, t, None)
    | Some new_node =>
      let h := <[new_node := new_real_node p]> h in
      let t := set_num_active_node (num_active_node t + 1) t in
      if bit n =? differ_bit
      then
        h ← store h new_node (set_parent (Some node));
        b ← guarded_bit_test maxbits addr (bit n);
        h ← (if (b : bool)
             then store h node (set_r (Some new_node))
             else store h node (set_l (Some new_node)));
        Ok (h, t, Some new_node)
      else if bitlen =? differ_bit
      then
        b ← guarded_bit_test maxbits test_addr bitlen;
        h ← (if (b : bool)
             then store h new_node (set_r (Some node))
             else store h new_node (set_l (Some node)));
        h ← store h new_node (set_parent (parent n));
        '(h, t) ← replace_in_parent h t p (parent n) node (Some new_node);
        h ← store h node (set_parent (Some new_node));
        Ok (h, t, Some new_node)
      else
        match PyMem_Malloc ok2 h with
        | None => Ok (h, t, None)
        | Some glue =>
          let h := <[glue := {| bit := differ_bit; prefix := None;
                                l := None; r := None;
                                parent := parent n; data := None |}]> h in
          let t := set_num_active_node (num_active_node t + 1) t in
          b ← guarded_bit_test maxbits addr differ_bit;
          h ← (if (b : bool)
               then h ← store h glue (set_r (Some new_node));
                    store h glue (set_l (Some node))
               else h ← store h glue (set_r (Some node));
                    store h glue (set_l (Some new_node)));
          h ← store h new_node (set_parent (Some glue));
          '(h, t) ← replace_in_parent h t p (parent n) node (Some glue);
          h ← store h node (set_parent (Some glue));
          Ok (h, t, Some new_node)
        end
    end.

(** [radix_lookup(radix, prefix)].  The node returned is NULL ([None]) when
    an allocation fails. *)
Definition radix_lookup (ok1 ok2 : bool) (h : heap) (t : radix_tree_t)
    (p : prefix_t) : res (heap * radix_tree_t * ptr) :=
  let maxbits := RADIX_MAXBITS_BY_PREFIX p in
  match RADIX_HEAD_BY_PREFIX t p with
  | None =>
    match PyMem_Malloc ok1 h with
    | None => Ok (h, t, None)
    | Some node =>
      let h := <[node := new_real_node p]> h in
      let t := set_head_by_prefix p (Some node) t in
      let t := set_num_active_node (num_active_node t + 1) t in
      Ok (h, t, Some node)
    end
  | Some head =>
    let addr := add p in
    let bitlen := bitlen p in
    node ← radix_lookup_descend (fuel_of h) h addr bitlen maxbits head;
    n ← deref h node;
    match prefix n with
    | None => Err NullDeref
    | Some np =>
      let test_addr := add np in
      let differ_bit := find_differ_bit addr test_addr (bit n) bitlen in
      node ← radix_lookup_ascend (fuel_of h) h differ_bit node;
      radix_lookup_attach ok1 ok2 h t p test_addr differ_bit node
    end
  end.

(** ** Deletion: radix_remove *)

Definition radix_remove (h : heap) (t : radix_tree_t) (node : loc)
    : res (heap * radix_tree_t) :=
  n ← deref h node;
  match prefix n with
  | None => Err NullDeref
  | Some np =>
    match r n, l n with
    | Some _, Some _ =>
      h ← store h node (set_prefix None);
      h ← store h node (set_data None);
      Ok (h, t)
    | None, None =>
      let up := parent n in
      let h := PyMem_Free node h in
      let t := set_num_active_node (num_active_node t - 1) t in
      match up with
      | None => Ok (h, set_head_by_prefix np None t)
      | Some up =>
        pn ← deref h up;
        '(h, child) ←
          (if bool_decide (r pn = Some node)
           then h ← store h up (set_r None); Ok (h, l pn)
           else h ← store h up (set_l None); Ok (h, r pn));
        match prefix pn with
        | Some _ => Ok (h, t)
        | None =>
          '(h, t) ← replace_in_parent h t np (parent pn) up child;
          match child with
          | None => Err NullDeref
          | Some c =>
            h ← store h c (set_parent (parent pn));
            let h := PyMem_Free up h in
            let t := set_num_active_node (num_active_node t - 1) t in
            Ok (h, t)
          end
        end
      end
    | rc, lc =>
      let child := match rc with Some c => Some c | None => lc end in
      match child with
      | None => Err NullDeref
      | Some c =>
        let up := parent n in
        h ← store h c (set_parent up);
        let h := PyMem_Free node h in
        let t := set_num_active_node (num_active_node t - 1) t in
        replace_in_parent h t np up node (Some c)
      end
    end
  end.

(** ** The Python binding (_radix.c) *)

(** [RadixNodeObject]: the [user_attr] dictionary behind the [data]
    attribute, and the back pointer to the node. *)
Record RadixNodeObject := {
  user_attr : gmap Z Z;
  rn : ptr
}.

(** [RadixObject]; [gen_id] is an [unsigned int]. *)
Record RadixObject := {
  rt : radix_tree_t;
  gen_id : Z
}.

(** The memory the binding works on: the nodes of radix.c, the Python node
    objects and the tree object. *)
Record world := {
  nodes : heap;
  objects : gmap pyobj RadixNodeObject;
  self : RadixObject
}.

Inductive exc := MemoryError | KeyError.

Inductive pyres (A : Type) : Type :=
| Return (a : A)
| Raise (e : exc).
Arguments Return {A} a.
Arguments Raise {A} e.

Definition UINT_MAX : Z := 2 ^ 32 - 1.

(** [self->gen_id++] *)
Definition gen_id_incr (o : RadixObject) : RadixObject :=
  {| rt := rt o; gen_id := (gen_id o + 1) mod (UINT_MAX + 1) |}.

Definition newRadixObject : world :=
  {| nodes := ∅; objects := ∅; self := {| rt := New_Radix; gen_id := 0 |} |}.

(** [newRadixNodeObject(rn)]; [ok] is the outcome of its allocations. *)
Definition newRadixNodeObject (ok : bool) (objs : gmap pyobj RadixNodeObject)
    (node : loc) (n : radix_node_t) : option (pyobj * gmap pyobj RadixNodeObject) :=
  match prefix n with
  | None => None
  | Some _ =>
    if ok
    then let o := fresh (dom objs) in
         Some (o, <[o := {| user_attr := ∅; rn := Some node |}]> objs)
    else None
  end.

(** [create_add_node(self, prefix)], which is [Radix.add] once the
    arguments are parsed. *)
Definition create_add_node (ok1 ok2 ok_obj : bool) (w : world) (p : prefix_t)
    : res (world * pyres pyobj) :=
  '(h, t, node) ← radix_lookup ok1 ok2 (nodes w) (rt (self w)) p;
  let w := {| nodes := h; objects := objects w;
              self := {| rt := t; gen_id := gen_id (self w) |} |} in
  match node with
  | None => Ok (w, Raise MemoryError)
  | Some node =>
    n ← deref h node;
    r ← match data n with
        | None =>
          match newRadixNodeObject ok_obj (objects w) node n with
          | None => Ok None
          | Some (o, objs) =>
            h ← store h node (set_data (Some o));
            Ok (Some ({| nodes := h; objects := objs; self := self w |}, o))
          end
        | Some o => Ok (Some (w, o))
        end;
    match r with
    | None => Ok (w, Raise MemoryError)
    | Some (w, o) =>
      Ok ({| nodes := nodes w; objects := objects w;
             self := gen_id_incr (self w) |}, Return o)
    end
  end.

Definition Radix_add := create_add_node.

(** [node_obj->rn = NULL] *)
Definition clear_rn (o : RadixNodeObject) : RadixNodeObject :=
  {| user_attr := user_attr o; rn := None |}.

(** [Radix.delete] once the arguments are parsed. *)
Definition Radix_delete (oob : bool) (w : world) (p : prefix_t)
    : res (world * pyres unit) :=
  node ← radix_search_exact oob (nodes w) (rt (self w)) p;
  match node with
  | None => Ok (w, Raise KeyError)
  | Some node =>
    n ← deref (nodes w) node;
    let objs := match data n with
                | None => objects w
                | Some o => alter clear_rn o (objects w)
                end in
    '(h, t) ← radix_remove (nodes w) (rt (self w)) node;
    Ok ({| nodes := h; objects := objs;
           self := gen_id_incr {| rt := t; gen_id := gen_id (self w) |} |},
        Return ())
  end.

(** A store into the dictionary of a node object: [rnode.data[k] = v]. *)
Definition set_user_attr (k v : Z) (o : RadixNodeObject) : RadixNodeObject :=
  {| user_attr := <[k := v]> (user_attr o); rn := rn o |}.

Definition data_setitem (o : pyobj) (k v : Z) (w : world) : world :=
  {| nodes := nodes w; objects := alter (set_user_attr k v) o (objects w);
     self := self w |}.

(** *** The iterator *)

Record RadixIterObject := {
  iterstack : list loc;
  iter_rn : ptr;
  af : family_t;
  iter_gen_id : Z
}.

Definition newRadixIterObject (w : world) : RadixIterObject :=
  {| iterstack := []; iter_rn := head_ipv4 (rt (self w));
     af := AF_INET; iter_gen_id := gen_id (self w) |}.

Inductive iter_result :=
| Yield (o : pyobj)
| StopIteration
| RuntimeWarning.

(** From the label [again] on. *)
Fixpoint RadixIter_again (fuel : nat) (h : heap) (t : radix_tree_t)
    (it : RadixIterObject) : res (RadixIterObject * iter_result) :=
  match fuel with
  | O => Err OutOfFuel
  | S f =>
    match iter_rn it with
    | None =>
      match af it with
      | AF_INET6 => Ok (it, StopIteration)
      | AF_INET =>
        RadixIter_again f h t
          {| iterstack := []; iter_rn := head_ipv6 t; af := AF_INET6;
             iter_gen_id := iter_gen_id it |}
      end
    | Some node =>
      n ← deref h node;
      let it' :=
        match l n, r n, iterstack it with
        | Some lc, Some rc, sp =>
          {| iterstack := rc :: sp; iter_rn := Some lc; af := af it;
             iter_gen_id := iter_gen_id it |}
        | Some lc, None, sp =>
          {| iterstack := sp; iter_rn := Some lc; af := af it;
             iter_gen_id := iter_gen_id it |}
        | None, Some rc, sp =>
          {| iterstack := sp; iter_rn := Some rc; af := af it;
             iter_gen_id := iter_gen_id it |}
        | None, None, top :: sp =>
          {| iterstack := sp; iter_rn := Some top; af := af it;
             iter_gen_id := iter_gen_id it |}
        | None, None, [] =>
          {| iterstack := []; iter_rn := None; af := af it;
             iter_gen_id := iter_gen_id it |}
        end in
      match prefix n, data n with
      | Some _, Some o => Ok (it', Yield o)
      | _, _ => RadixIter_again f h t it'
      end
    end
  end.

Definition RadixIter_iternext (w : world) (it : RadixIterObject)
    : res (RadixIterObject * iter_result) :=
  if bool_decide (iter_gen_id it = gen_id (self w))
  then RadixIter_again (2 * fuel_of (nodes w)) (nodes w) (rt (self w)) it
  else Ok (it, RuntimeWarning).

(** ** More of radix.c *)

Definition radix_search_worst (oob : bool) (h : heap) (t : radix_tree_t)
    (p : prefix_t) : res ptr :=
  radix_search_worst2 oob h t p true.

(** ** Destruction: radix_clear_head, Clear_Radix, Destroy_Radix *)

(** The [while (Xrn)] loop of [radix_clear_head].  [func] tells whether a
    callback is supplied; [calls] holds the nodes it was called on, the
    last one at the end, and the head of [Xstack] is the last push.  The
    children are read before the node is freed. *)
Fixpoint radix_clear_loop (fuel : nat) (func : bool) (h : heap) (t : radix_tree_t)
    (calls : list loc) (Xstack : list loc) (Xrn : ptr)
    : res (heap * radix_tree_t * list loc) :=
  match fuel with
  | O => Err OutOfFuel
  | S f =>
    match Xrn with
    | None => Ok (h, t, calls)
    | Some a =>
      n ← deref h a;
      let calls :=
        if non_null (prefix n) && (non_null (data n) && func)
        then calls ++ [a] else calls in
      let h := PyMem_Free a h in
      let t := set_num_active_node (num_active_node t - 1) t in
      match l n, r n with
      | Some lc, Some rc => radix_clear_loop f func h t calls (rc :: Xstack) (Some lc)
      | Some lc, None => radix_clear_loop f func h t calls Xstack (Some lc)
      | None, Some rc => radix_clear_loop f func h t calls Xstack (Some rc)
      | None, None =>
        match Xstack with
        | top :: sp => radix_clear_loop f func h t calls sp (Some top)
        | [] => radix_clear_loop f func h t calls [] None
        end
      end
    end
  end.

Definition radix_clear_head (func : bool) (h : heap) (t : radix_tree_t)
    (calls : list loc) (head : ptr) : res (heap * radix_tree_t * list loc) :=
  match head with
  | Some _ => radix_clear_loop (fuel_of h) func h t calls [] head
  | None => Ok (h, t, calls)
  end.

(** [Clear_Radix(radix, func, cbctx)]: the heap and the tree it leaves, and
    the nodes [func] was called on. *)
Definition Clear_Radix (func : bool) (h : heap) (t : radix_tree_t)
    : res (heap * radix_tree_t * list loc) :=
  '(h, t, calls) ← radix_clear_head func h t [] (head_ipv4 t);
  radix_clear_head func h t calls (head_ipv6 t).

(** [Destroy_Radix(radix, func, cbctx)] frees the tree structure too: the
    heap of the nodes and the calls remain. *)
Definition Destroy_Radix (func : bool) (h : heap) (t : radix_tree_t)
    : res (heap * list loc) :=
  '(h, _, calls) ← Clear_Radix func h t;
  Ok (h, calls).

(** ** Prefixes: sanitise_mask, New_Prefix2, prefix_from_blob_ex *)

(** [addr[i] = f(addr[i])]; a write outside of the address is a fault. *)
Definition store_byte (addr : list Z) (i : Z) (f : Z → Z) : res (list Z) :=
  match addr !! Z.to_nat i with
  | Some x => Ok (<[Z.to_nat i := f x]> addr)
  | None => Err BitOutOfRange
  end.

(** [for (; i < maskbits / 8; i++) addr[i] = 0;] with the number [n] of
    turns that are left. *)
Fixpoint sanitise_loop (n : nat) (addr : list Z) (i : Z) : res (list Z) :=
  match n with
  | O => Ok addr
  | S n' => addr ← store_byte addr i (λ _, 0); sanitise_loop n' addr (i + 1)
  end.

(** [sanitise_mask(addr, masklen, maskbits)]; the bytes are [u_char], the
    mask [(~0) << (8 - j)] an [int]. *)
Definition sanitise_mask (addr : list Z) (masklen maskbits : Z) : res (list Z) :=
  let i := masklen / 8 in
  let j := masklen mod 8 in
  '(addr, i) ← (if negb (j =? 0)
                then addr ← store_byte addr i
                              (λ x, Z.land x (Z.shiftl (-1) (8 - j)) mod 256);
                     Ok (addr, i + 1)
                else Ok (addr, i));
  sanitise_loop (Z.to_nat (maskbits / 8 - i)) addr i.

(** [New_Prefix2(family, dest, bitlen, prefix)] for the two families the
    callers pass: the bytes of the family are copied from [dest].  [ok]
    tells whether the allocation succeeds, which takes place when [prefix]
    is NULL.  The reference count is not modelled. *)
Definition New_Prefix2 (ok : bool) (fam : family_t) (dest : list Z) (len : Z)
    (prefix : option prefix_t) : option prefix_t :=
  let default_bitlen := match fam with AF_INET6 => 128 | AF_INET => 32 end in
  let width := match fam with AF_INET6 => 16%nat | AF_INET => 4%nat end in
  if non_null prefix || ok
  then Some {| family := fam;
               bitlen := if 0 <=? len then len else default_bitlen;
               add := take width dest |}
  else None.

(** [prefix_from_blob_ex(ret, blob, len, prefixlen)] *)
Definition prefix_from_blob_ex (ok : bool) (ret : option prefix_t) (blob : list Z)
    (len prefixlen : Z) : option prefix_t :=
  match (if len =? 4 then Some (AF_INET, 32)
         else if len =? 16 then Some (AF_INET6, 128)
         else None) with
  | None => None
  | Some (fam, maxprefix) =>
    let prefixlen := if prefixlen =? -1 then maxprefix else prefixlen in
    if (prefixlen <? 0) || (maxprefix <? prefixlen)
    then None
    else New_Prefix2 ok fam blob prefixlen ret
  end.

Definition prefix_from_blob (ok : bool) (blob : list Z) (len prefixlen : Z)
    : option prefix_t :=
  prefix_from_blob_ex ok None blob len prefixlen.

(** ** More of the Python binding (_radix.c) *)

(** The object a search of the binding returns for the node found:
    [Py_None] ([None]) when there is no node or the node has no payload. *)
Definition node_object (h : heap) (node : ptr) : res (option pyobj) :=
  match node with
  | None => Ok None
  | Some x => n ← deref h x; Ok (data n)
  end.

(** [Radix.search_exact], [Radix.search_best] and [Radix.search_worst]
    once the arguments are parsed. *)
Definition Radix_search_exact (oob : bool) (w : world) (p : prefix_t)
    : res (option pyobj) :=
  node ← radix_search_exact oob (nodes w) (rt (self w)) p;
  node_object (nodes w) node.

Definition Radix_search_best (oob : bool) (w : world) (p : prefix_t)
    : res (option pyobj) :=
  node ← radix_search_best oob (nodes w) (rt (self w)) p;
  node_object (nodes w) node.

Definition Radix_search_worst (oob : bool) (w : world) (p : prefix_t)
    : res (option pyobj) :=
  node ← radix_search_worst oob (nodes w) (rt (self w)) p;
  node_object (nodes w) node.

(** The [for ( ; ; )] loop of [Radix_parent]. *)
Fixpoint Radix_parent_loop (fuel : nat) (h : heap) (node : ptr) : res (option pyobj) :=
  match fuel with
  | O => Err OutOfFuel
  | S f =>
    match node with
    | None => Ok None
    | Some x =>
      n ← deref h x;
      match parent n with
      | None => Ok None
      | Some up =>
        pn ← deref h up;
        match data pn with
        | Some o => Ok (Some o)
        | None => Radix_parent_loop f h (Some up)
        end
      end
    end
  end.

(** [Radix_parent(self, closure)], the [parent] attribute of the node
    object [o]. *)
Definition Radix_parent (w : world) (o : pyobj) : res (option pyobj) :=
  match objects w !! o with
  | None => Err NullDeref
  | Some obj => Radix_parent_loop (fuel_of (nodes w)) (nodes w) (rn obj)
  end.

(** [add_node_to_list(node, arg)]: the list [ret] with the payload of the
    node appended when it has one; the callback returns 0. *)
Definition add_node_to_list (h : heap) (ret : list pyobj) (node : loc)
    : res (list pyobj) :=
  n ← deref h node;
  Ok (match data n with
      | Some o => ret ++ [o]
      | None => ret
      end).

(** The list the calls of [add_node_to_list] on the nodes [calls] build,
    in the order of the calls. *)
Fixpoint add_nodes_to_list (h : heap) (ret : list pyobj) (calls : list loc)
    : res (list pyobj) :=
  match calls with
  | [] => Ok ret
  | y :: rest => ret ← add_node_to_list h ret y; add_nodes_to_list h ret rest
  end.

(** [Radix.search_covered] and [Radix.search_covering] once the arguments
    are parsed: the search with the callback [add_node_to_list], which
    returns 0 at every call and leaves the nodes as they are. *)
Definition Radix_search_covered (oob : bool) (w : world) (p : prefix_t)
    : res (list pyobj) :=
  '(calls, _) ← radix_search_covered oob (nodes w) (rt (self w)) p (λ _, 0) true;
  add_nodes_to_list (nodes w) [] calls.

Definition Radix_search_covering (oob : bool) (w : world) (p : prefix_t)
    : res (list pyobj) :=
  '(calls, _) ← radix_search_covering oob (nodes w) (rt (self w)) p (λ _, 0);
  add_nodes_to_list (nodes w) [] calls.

(** * Specification-side definitions *)

(** ** Bits of an address *)

Definition getbit (addr : list Z) (i : Z) : bool :=
  Z.testbit (byte_at addr (i / 8)) (7 - i mod 8).

Definition agree (a b : list Z) (n : Z) : Prop :=
  ∀ i, 0 ≤ i < n → getbit a i = getbit b i.

Definition byte_ok (x : Z) : Prop := 0 ≤ x < 256.

(** ** The tree a heap represents *)

(** A node with its address, bit index, prefix, payload and subtrees. *)
Inductive tree :=
| Leaf
| Node (a : loc) (b : Z) (p : option prefix_t) (d : option pyobj) (tl tr : tree).

Definition root (t : tree) : ptr :=
  match t with
  | Leaf => None
  | Node a _ _ _ _ _ => Some a
  end.

Fixpoint locs (t : tree) : list loc :=
  match t with
  | Leaf => []
  | Node a _ _ _ tl tr => a :: locs tl ++ locs tr
  end.

Definition own_prefix (p : option prefix_t) : list prefix_t :=
  match p with
  | Some q => [q]
  | None => []
  end.

Fixpoint prefixes (t : tree) : list prefix_t :=
  match t with
  | Leaf => []
  | Node _ _ p _ tl tr => own_prefix p ++ prefixes tl ++ prefixes tr
  end.

Fixpoint height (t : tree) : nat :=
  match t with
  | Leaf => O
  | Node _ _ _ _ tl tr => S (height tl `max` height tr)
  end.

(** [repr h par t]: the nodes of [t] are in the heap with the child pointers
    of [t], and the parent pointer of the root of [t] is [par]. *)
Fixpoint repr (h : heap) (par : ptr) (t : tree) : Prop :=
  match t with
  | Leaf => True
  | Node a b p d tl tr =>
    h !! a = Some {| bit := b; prefix := p; l := root tl; r := root tr;
                     parent := par; data := d |} ∧
    repr h (Some a) tl ∧ repr h (Some a) tr
  end.

(** ** Prefixes the callers present *)

Definition maxbits (fam : family_t) : Z :=
  match fam with
  | AF_INET => 32
  | AF_INET6 => 128
  end.

(** What [prefix_pton_ex] and [prefix_from_blob_ex] build: the address has
    the bytes of its family and the length is within the family's width. *)
Definition valid_prefix (p : prefix_t) : Prop :=
  0 ≤ bitlen p ≤ maxbits (family p) ∧
  8 * Z.of_nat (length (add p)) = maxbits (family p) ∧
  Forall byte_ok (add p).

(** [contains p q]: the prefix [p] contains the prefix [q]. *)
Definition contains (p q : prefix_t) : Prop :=
  bitlen p ≤ bitlen q ∧ agree (add p) (add q) (bitlen p).

(** ** The Patricia invariant *)

(** [pat fam lo t]: bit indices grow from [lo] on along every path, a real
    node sits at the length of its prefix, a glue node has two children, the
    prefixes below a node agree on the bits before its bit index and are
    split by that bit between its left and its right subtree. *)
Fixpoint pat (fam : family_t) (lo : Z) (t : tree) : Prop :=
  match t with
  | Leaf => True
  | Node a b p d tl tr =>
    lo ≤ b ≤ maxbits fam ∧
    match p with
    | Some q => family q = fam ∧ valid_prefix q ∧ bitlen q = b
    | None => tl ≠ Leaf ∧ tr ≠ Leaf
    end ∧
    (∀ x y, x ∈ (own_prefix p ++ prefixes tl ++ prefixes tr) →
            y ∈ (own_prefix p ++ prefixes tl ++ prefixes tr) →
            agree (add x) (add y) b) ∧
    (∀ x, x ∈ prefixes tl → getbit (add x) b = false) ∧
    (∀ x, x ∈ prefixes tr → getbit (add x) b = true) ∧
    pat fam (b + 1) tl ∧ pat fam (b + 1) tr
  end.

Definition head_of (fam : family_t) (t : radix_tree_t) : ptr :=
  match fam with
  | AF_INET => head_ipv4 t
  | AF_INET6 => head_ipv6 t
  end.

(** The heap and the tree structure hold two Patricia tries without shared
    nodes, and the counter is the number of their nodes. *)
Definition tree_inv (h : heap) (t : radix_tree_t) (t4 t6 : tree) : Prop :=
  head_ipv4 t = root t4 ∧ head_ipv6 t = root t6 ∧
  repr h None t4 ∧ repr h None t6 ∧
  NoDup (locs t4 ++ locs t6) ∧
  pat AF_INET 0 t4 ∧ pat AF_INET6 0 t6 ∧
  num_active_node t = Z.of_nat (length (locs t4 ++ locs t6)).

Definition inv (h : heap) (t : radix_tree_t) : Prop :=
  ∃ t4 t6, tree_inv h t t4 t6.

(** ** Insertion on trees *)

(** The side [radix_lookup] takes at bit [b] of the address [addr]. *)
Definition goes_right (fam : family_t) (addr : list Z) (b : Z) : bool :=
  (b <? maxbits fam) && getbit addr b.

(** The node on which the descent of [radix_lookup] ends: its address, bit
    index and prefix. *)
Fixpoint landing (q : prefix_t) (t : tree) : option (loc * Z * option prefix_t) :=
  match t with
  | Leaf => None
  | Node a b p d tl tr =>
    if (b <? bitlen q) || negb (non_null p)
    then
      match landing q (if goes_right (family q) (add q) b then tr else tl) with
      | Some below => Some below
      | None => Some (a, b, p)
      end
    else Some (a, b, p)
  end.

(** The node at which the ascent of [radix_lookup] stops, with its bit
    index: the first node on the path of [q] whose bit index is at least
    [d]. *)
Fixpoint target (q : prefix_t) (d : Z) (t : tree) : option (loc * Z) :=
  match t with
  | Leaf => None
  | Node a b p dd tl tr =>
    if d <=? b then Some (a, b)
    else target q d (if goes_right (family q) (add q) b then tr else tl)
  end.

Definition new_leaf (new : loc) (q : prefix_t) : tree :=
  Node new (bitlen q) (Some q) None Leaf Leaf.

(** The four cases of [radix_lookup] at the node where the ascent stopped. *)
Definition attach_t (q : prefix_t) (test_addr : list Z) (d : Z) (new glue : loc)
    (x : tree) : tree :=
  match x with
  | Leaf => Leaf
  | Node a b p dd tl tr =>
    if (d =? bitlen q) && (b =? bitlen q)
    then Node a b (match p with None => Some q | Some _ => p end) dd tl tr
    else if b =? d
    then
      if goes_right (family q) (add q) b
      then Node a b p dd tl (new_leaf new q)
      else Node a b p dd (new_leaf new q) tr
    else if bitlen q =? d
    then
      if goes_right (family q) test_addr (bitlen q)
      then Node new (bitlen q) (Some q) None Leaf x
      else Node new (bitlen q) (Some q) None x Leaf
    else
      if goes_right (family q) (add q) d
      then Node glue d None None x (new_leaf new q)
      else Node glue d None None (new_leaf new q) x
  end.

Fixpoint ins_t (q : prefix_t) (test_addr : list Z) (d : Z) (new glue : loc)
    (t : tree) : tree :=
  match t with
  | Leaf => Leaf
  | Node a b p dd tl tr =>
    if d <=? b then attach_t q test_addr d new glue t
    else if goes_right (family q) (add q) b
         then Node a b p dd tl (ins_t q test_addr d new glue tr)
         else Node a b p dd (ins_t q test_addr d new glue tl) tr
  end.

(** [parent->r == node ? parent->r = by : parent->l = by] on a record. *)
Definition replace_child (n : radix_node_t) (node : loc) (by_node : ptr) : radix_node_t :=
  if bool_decide (r n = Some node) then set_r by_node n else set_l by_node n.

(** The number of nodes [radix_lookup] allocates at a node of bit index
    [b] for the differ bit [d]. *)
Definition allocs (q : prefix_t) (d b : Z) : Z :=
  if (d =? bitlen q) && (b =? bitlen q) then 0
  else if b =? d then 1
  else if bitlen q =? d then 1
  else 2.

(** What [radix_lookup] knows of the slot that holds the root of a subtree:
    the head of the family, or a child pointer of the parent. *)
Definition slot_ok (h : heap) (t : radix_tree_t) (fam : family_t) (par : ptr)
    (sub : tree) : Prop :=
  match par with
  | None => head_of fam t = root sub
  | Some pa => (pa ∉ locs sub) ∧
               ∃ pn, h !! pa = Some pn ∧ (r pn = root sub ∨ l pn = root sub)
  end.

(** The relation of the state after a restructuring of the subtree [sub]
    into [sub'] to the state before it: [sub'] is in the heap, the slot
    that held [sub] holds [sub'], and nothing else changed. *)
Definition restructured (h : heap) (t : radix_tree_t) (h' : heap) (t' : radix_tree_t)
    (fam : family_t) (par : ptr) (sub sub' : tree) (fresh_locs : list loc) : Prop :=
  repr h' par sub' ∧
  (∀ y, y ∉ locs sub → y ∉ fresh_locs → par ≠ Some y → h' !! y = h !! y) ∧
  match par with
  | None => head_of fam t' = root sub'
  | Some pa =>
    head_of fam t' = head_of fam t ∧
    ∀ pn c, h !! pa = Some pn → root sub = Some c →
            h' !! pa = Some (replace_child pn c (root sub'))
  end ∧
  (∀ fam', fam' ≠ fam → head_of fam' t' = head_of fam' t).

(** The addresses [radix_lookup] takes from the allocator. *)
Definition alloc_list (q : prefix_t) (d b : Z) (new glue : loc) : list loc :=
  if (d =? bitlen q) && (b =? bitlen q) then []
  else if b =? d then [new]
  else if bitlen q =? d then [new]
  else [new; glue].

(** [node_in t a b p]: the tree has a node at address [a] with bit index
    [b] and prefix [p]. *)
Fixpoint node_in (t : tree) (a : loc) (b : Z) (p : option prefix_t) : Prop :=
  match t with
  | Leaf => False
  | Node a' b' p' _ tl tr =>
    (a' = a ∧ b' = b ∧ p' = p) ∨ node_in tl a b p ∨ node_in tr a b p
  end.

(** What an insertion of [q] with the differ bit [d] at the node [x] of bit
    index [bx] leaves of the tree [t]: a Patricia trie [t'] with the nodes
    of [t] and the allocated ones, no prefix but those of [t] and [q], and
    a real node for [q]. *)
Definition ins_post (q : prefix_t) (d : Z) (new glue : loc) (lo : Z) (t t' : tree)
    (x : loc) (bx : Z) : Prop :=
  pat (family q) lo t' ∧
  (∀ y, y ∈ prefixes t' → y = q ∨ y ∈ prefixes t) ∧
  locs t' ≡ₚ alloc_list q d bx new glue ++ locs t ∧
  ∃ p', node_in t' (if (d =? bitlen q) && (bx =? bitlen q) then x else new)
          (bitlen q) (Some p') ∧
        agree (add p') (add q) (bitlen q).

Definition other (fam : family_t) : family_t :=
  match fam with
  | AF_INET => AF_INET6
  | AF_INET6 => AF_INET
  end.

(** [tree_inv] seen from one family: [T] is the trie of [fam] and [O] the
    trie of the other family. *)
Definition fam_inv (h : heap) (t : radix_tree_t) (fam : family_t) (T O : tree) : Prop :=
  head_of fam t = root T ∧ head_of (other fam) t = root O ∧
  repr h None T ∧ repr h None O ∧
  NoDup (locs T ++ locs O) ∧
  pat fam 0 T ∧ pat (other fam) 0 O ∧
  num_active_node t = Z.of_nat (length (locs T ++ locs O)).

(** ** Deletion on trees *)

(** [is_leaf_node t x]: [t] is the node at address [x] and has no child. *)
Definition is_leaf_node (t : tree) (x : loc) : bool :=
  match t with
  | Node a _ _ _ Leaf Leaf => bool_decide (a = x)
  | _ => false
  end.

(** The three cases of [radix_remove]; the case of a leaf below a glue node
    is taken at the glue node, which leaves the tree with the leaf. *)
Fixpoint del_t (x : loc) (t : tree) : tree :=
  match t with
  | Leaf => Leaf
  | Node a b p d tl tr =>
    if bool_decide (a = x)
    then
      match tr, tl with
      | Node _ _ _ _ _ _, Node _ _ _ _ _ _ => Node a b None None tl tr
      | Leaf, Leaf => Leaf
      | Node _ _ _ _ _ _, Leaf => tr
      | Leaf, Node _ _ _ _ _ _ => tl
      end
    else if negb (non_null p) && is_leaf_node tr x then tl
    else if negb (non_null p) && is_leaf_node tl x then tr
    else Node a b p d (del_t x tl) (del_t x tr)
  end.

(** ** Reachable states *)

(** A real node of the tree: a node of one of the tries that has a
    prefix. *)
Definition real_node (h : heap) (t : radix_tree_t) (x : loc) : Prop :=
  x ∈ tree_nodes h t ∧ ∃ n, h !! x = Some n ∧ prefix n ≠ None.

(** The states that inserts and deletes reach from a new tree: lookups
    that return a node, whatever the allocator did, removals of real nodes
    of the tree, and stores of a payload in a real node. *)
Inductive reachable : heap → radix_tree_t → Prop :=
| reach_new : reachable ∅ New_Radix
| reach_lookup h t ok1 ok2 p h' t' n :
    reachable h t → valid_prefix p →
    radix_lookup ok1 ok2 h t p = Ok (h', t', Some n) →
    reachable h' t'
| reach_remove h t x h' t' :
    reachable h t → real_node h t x →
    radix_remove h t x = Ok (h', t') →
    reachable h' t'
| reach_data h t x o h' :
    reachable h t → real_node h t x →
    store h x (set_data o) = Ok h' →
    reachable h' t.

(** The tree structure with [d] added to its counter of active nodes. *)
Definition add_count (d : Z) (t : radix_tree_t) : radix_tree_t :=
  set_num_active_node (num_active_node t + d) t.

(** The states that inserts and deletes reach from a new tree when the
    lookups that return NULL are followed too.  [radix_lookup] returns NULL
    when its first allocation fails, and when its first allocation succeeds
    and its second one, that of the glue node, fails; the index counts the
    failures of the second kind. *)
Inductive reachable_with_failures : nat → heap → radix_tree_t → Prop :=
| reachf_new : reachable_with_failures 0 ∅ New_Radix
| reachf_lookup k h t ok1 ok2 p h' t' n :
    reachable_with_failures k h t → valid_prefix p →
    radix_lookup ok1 ok2 h t p = Ok (h', t', Some n) →
    reachable_with_failures k h' t'
| reachf_fail_first k h t ok2 p h' t' :
    reachable_with_failures k h t →
    radix_lookup false ok2 h t p = Ok (h', t', None) →
    reachable_with_failures k h' t'
| reachf_fail_glue k h t p h' t' :
    reachable_with_failures k h t →
    radix_lookup true false h t p = Ok (h', t', None) →
    reachable_with_failures (S k) h' t'
| reachf_remove k h t x h' t' :
    reachable_with_failures k h t → real_node h t x →
    radix_remove h t x = Ok (h', t') →
    reachable_with_failures k h' t'
| reachf_data k h t x o h' :
    reachable_with_failures k h t → real_node h t x →
    store h x (set_data o) = Ok h' →
    reachable_with_failures k h' t.

(** The tree with the payload of the node at [x] replaced. *)
Fixpoint set_data_t (x : loc) (o : option pyobj) (t : tree) : tree :=
  match t with
  | Leaf => Leaf
  | Node a b p d tl tr =>
    Node a b p (if bool_decide (a = x) then o else d)
      (set_data_t x o tl) (set_data_t x o tr)
  end.

(** ** Searches on trees *)

(** The prefixes the tree stores: those of the nodes of the two tries. *)
Definition stored (h : heap) (t : radix_tree_t) (x : loc) (p : prefix_t) : Prop :=
  x ∈ tree_nodes h t ∧ ∃ n, h !! x = Some n ∧ prefix n = Some p.

(** The best match on a trie: the deepest node on the path of [q], among
    those the search pushes on its stack, whose prefix passes the test of
    the scan. *)
Fixpoint best_t (q : prefix_t) (inclusive : bool) (t : tree) : option (loc * prefix_t) :=
  match t with
  | Leaf => None
  | Node a b p d tl tr =>
    if b <=? bitlen q
    then
      match best_t q inclusive (if getbit (add q) b then tr else tl) with
      | Some deeper => Some deeper
      | None =>
        match p with
        | Some np =>
          if (inclusive || negb (b =? bitlen q)) &&
             (comp_with_mask (add np) (add q) (bitlen np) && (bitlen np <=? bitlen q))
          then Some (a, np) else None
        | None => None
        end
      end
    else None
  end.

(** The node itself when it is a real node. *)
Definition real_loc (a : loc) (p : option prefix_t) : list loc :=
  match p with
  | Some _ => [a]
  | None => []
  end.

(** The real nodes from the node at [x] up to the root of the tree, [x]
    first, and the number of nodes on that way. *)
Fixpoint ups (x : loc) (t : tree) : list loc :=
  match t with
  | Leaf => []
  | Node a b p d tl tr =>
    if bool_decide (a = x) then real_loc a p
    else if bool_decide (x ∈ locs tl) then ups x tl ++ real_loc a p
    else if bool_decide (x ∈ locs tr) then ups x tr ++ real_loc a p
    else []
  end.

Fixpoint depth (x : loc) (t : tree) : nat :=
  match t with
  | Leaf => O
  | Node a b p d tl tr =>
    if bool_decide (a = x) then 1
    else if bool_decide (x ∈ locs tl) then S (depth x tl)
    else if bool_decide (x ∈ locs tr) then S (depth x tr)
    else O
  end.

(** The real nodes of a tree, children first: left, right, self. *)
Fixpoint post (t : tree) : list loc :=
  match t with
  | Leaf => []
  | Node a b p d tl tr => post tl ++ post tr ++ real_loc a p
  end.

(** The callback was called on [x] exactly once. *)
Definition called_once (x : loc) (calls : list loc) : Prop :=
  ∃ before after, calls = before ++ x :: after ∧ (x ∉ before) ∧ x ∉ after.

(** ** Iteration *)

(** The first node of [rem] that has a prefix and a payload: its payload
    and the nodes after it. *)
Fixpoint next_payload (h : heap) (rem : list loc) : option (pyobj * list loc) :=
  match rem with
  | [] => None
  | x :: rest =>
    match h !! x with
    | Some n =>
      match prefix n, data n with
      | Some _, Some o => Some (o, rest)
      | _, _ => next_payload h rest
      end
    | None => next_payload h rest
    end
  end.

(** The nodes of a list of subtrees, in the order of the walk. *)
Fixpoint locs_all (ts : list tree) : list loc :=
  match ts with
  | [] => []
  | sub :: ts' => locs sub ++ locs_all ts'
  end.

(** [iter_ok h t it rem]: the iterator is at a point of the walk of the two
    tries from which the nodes [rem] remain, in this order. The node the
    iterator is at and the nodes on its stack are the roots of subtrees
    [cur] and [pending]; [rest] is the trie of IPv6 while the iterator is in
    the trie of IPv4. *)
Definition iter_ok (h : heap) (t : radix_tree_t) (it : RadixIterObject)
    (rem : list loc) : Prop :=
  ∃ (cur : tree) (pending : list tree) (rest : tree),
    root cur = iter_rn it ∧
    map root pending = map Some (iterstack it) ∧
    Forall (λ sub, ∃ par, repr h par sub) (cur :: pending) ∧
    repr h None rest ∧
    root rest = match af it with AF_INET => head_ipv6 t | AF_INET6 => None end ∧
    (cur = Leaf → pending = []) ∧
    rem = locs_all (cur :: pending) ++ locs rest ∧
    NoDup rem.

(** The steps the iterator needs to pass the nodes that remain. *)
Definition iter_steps (it : RadixIterObject) (rem : list loc) : nat :=
  length rem + match af it with AF_INET => 2 | AF_INET6 => 1 end.

(** ** More searches on trees *)

(** The node on which the descent of an exact search stops: the first node
    on the path of [q] whose bit index is not below the length of [q]. *)
Fixpoint stop_t (q : prefix_t) (t : tree) : option (loc * Z * option prefix_t) :=
  match t with
  | Leaf => None
  | Node a b p d tl tr =>
    if b <? bitlen q
    then stop_t q (if getbit (add q) b then tr else tl)
    else Some (a, b, p)
  end.

(** The nodes the inclusive search pushes on its stack, in the order of the
    pushes. *)
Fixpoint path_stack (q : prefix_t) (inclusive : bool) (t : tree) : list loc :=
  match t with
  | Leaf => []
  | Node a b p d tl tr =>
    if b <=? bitlen q
    then (if non_null p && (inclusive || negb (b =? bitlen q)) then [a] else [])
         ++ path_stack q inclusive (if getbit (add q) b then tr else tl)
    else []
  end.

(** The worst match on a trie: the first node on the path of [q], among
    those the search pushes on its stack, whose prefix passes the test of
    the scan. *)
Fixpoint worst_t (q : prefix_t) (inclusive : bool) (t : tree) : option (loc * prefix_t) :=
  match t with
  | Leaf => None
  | Node a b p d tl tr =>
    if b <=? bitlen q
    then
      match p with
      | Some np =>
        if (inclusive || negb (b =? bitlen q)) &&
           comp_with_mask (add np) (add q) (bitlen np)
        then Some (a, np)
        else worst_t q inclusive (if getbit (add q) b then tr else tl)
      | None => worst_t q inclusive (if getbit (add q) b then tr else tl)
      end
    else None
  end.

(** ** Walks with a callback *)

(** A walk over the nodes [l] that stops behind the first node on which the
    callback returns a value other than 0: the nodes on which the callback
    was called, and the value the walk returns. *)
Fixpoint run_cb (func : rdx_search_cb_t) (l : list loc) : list loc * Z :=
  match l with
  | [] => ([], 0)
  | y :: rest =>
    if func y =? 0
    then let '(calls, rc) := run_cb func rest in (y :: calls, rc)
    else ([y], func y)
  end.

(** [sorted_by R l]: every node of [l] is in the relation [R] with the
    nodes behind it. *)
Fixpoint sorted_by (R : loc → loc → Prop) (l : list loc) : Prop :=
  match l with
  | [] => True
  | y :: rest => Forall (R y) rest ∧ sorted_by R rest
  end.

(** The nodes of the prefixes that cover [q] in a trie: the real nodes from
    the best match up to the root. *)
Definition cover_t (q : prefix_t) (t : tree) : list loc :=
  match best_t q true t with
  | Some (x, _) => ups x t
  | None => []
  end.

(** ** The covered enumeration on trees *)

(** The test that makes the loop of [radix_search_covered] skip a child:
    the frame is not checked, the child has a prefix, and the prefix does
    not agree with [q]. *)
Definition foreign (q : prefix_t) (chk : bool) (p : option prefix_t) : bool :=
  negb chk &&
  match p with
  | Some cp => negb (COMP_NODE_PREFIX cp q)
  | None => false
  end.

(** The real nodes that a frame for the subtree [t] with the flag [chk]
    passes, children first; [self] tells whether the node of the frame
    itself is passed. *)
Fixpoint visit (q : prefix_t) (chk self : bool) (t : tree) : list loc :=
  match t with
  | Leaf => []
  | Node a b p d tl tr =>
    match tl with
    | Leaf => []
    | Node _ _ pl _ _ _ =>
      if foreign q chk pl then [] else visit q (chk || non_null pl) true tl
    end ++
    match tr with
    | Leaf => []
    | Node _ _ pr _ _ _ =>
      if foreign q chk pr then [] else visit q (chk || non_null pr) true tr
    end ++
    (if self then real_loc a p else [])
  end.

(** The part of a child in [visit]. *)
Definition visit_child (q : prefix_t) (chk : bool) (c : tree) : list loc :=
  match c with
  | Leaf => []
  | Node _ _ pc _ _ _ =>
    if foreign q chk pc then [] else visit q (chk || non_null pc) true c
  end.

(** The number of frames the loop pushes for the subtree [t]. *)
Fixpoint visited (q : prefix_t) (chk : bool) (t : tree) : nat :=
  match t with
  | Leaf => O
  | Node a b p d tl tr =>
    S (match tl with
       | Leaf => O
       | Node _ _ pl _ _ _ =>
         if foreign q chk pl then O else visited q (chk || non_null pl) tl
       end +
       match tr with
       | Leaf => O
       | Node _ _ pr _ _ _ =>
         if foreign q chk pr then O else visited q (chk || non_null pr) tr
       end)
  end.

Definition visited_child (q : prefix_t) (chk : bool) (c : tree) : nat :=
  match c with
  | Leaf => O
  | Node _ _ pc _ _ _ =>
    if foreign q chk pc then O else visited q (chk || non_null pc) c
  end.

(** The descent of [radix_search_covered] on a trie: the subtrees at
    [node] and at [prev_node], and [prefixed_node] with its prefix. *)
Fixpoint cdesc (q : prefix_t) (t prev : tree) (pref : option (loc * prefix_t))
    : tree * tree * option (loc * prefix_t) :=
  match t with
  | Leaf => (Leaf, prev, pref)
  | Node a b p d tl tr =>
    if b <=? bitlen q
    then
      if b =? bitlen q
      then (t, t, pref)
      else cdesc q (if getbit (add q) b then tr else tl) t
             (match p with Some np => Some (a, np) | None => pref end)
    else (t, prev, pref)
  end.

(** What [radix_search_covered] does after the descent. *)
Definition cfinish (q : prefix_t) (inclusive : bool)
    (found : tree * tree * option (loc * prefix_t)) : list loc :=
  let '(node, prev, pref) := found in
  match (match node with Leaf => prev | Node _ _ _ _ _ _ => node end) with
  | Leaf => []
  | Node a b p d tl tr as start =>
    let pref' := match node, p with
                 | Node _ _ _ _ _ _, Some np => Some (a, np)
                 | _, _ => pref
                 end in
    if match pref' with
       | Some (_, pp) => negb (COMP_NODE_PREFIX pp q)
       | None => false
       end
    then []
    else visit q (bool_decide (Some a = fst <$> pref') && (bitlen q <=? b))
           (if inclusive then bitlen q <=? b else bitlen q <? b) start
  end.

(** The nodes of the prefixes that [q] covers in a trie, in the order of
    the enumeration. *)
Definition covered_t (q : prefix_t) (inclusive : bool) (t : tree) : list loc :=
  cfinish q inclusive (cdesc q t Leaf None).

(** The node of [prefixed_node] is in the heap with its prefix. *)
Definition pref_heap (h : heap) (pref : option (loc * prefix_t)) : Prop :=
  match pref with
  | Some (pa, pp) => ∃ n, h !! pa = Some n ∧ prefix n = Some pp
  | None => True
  end.

(** What the descent knows of [prev_node] when it is at the subtree [t]:
    [t] is the child of [prev_node] on the side of [q], and the prefixes on
    the other side differ from [q] in the bit of [prev_node]. *)
Definition prev_ok (q : prefix_t) (fam : family_t) (t prev : tree) : Prop :=
  match prev with
  | Leaf => True
  | Node ap bp pp dp tlp trp =>
    0 ≤ bp < bitlen q ∧
    t = (if getbit (add q) bp then trp else tlp) ∧
    pat fam (bp + 1) (if getbit (add q) bp then tlp else trp) ∧
    ∀ P, P ∈ prefixes (if getbit (add q) bp then tlp else trp) →
         getbit (add P) bp ≠ getbit (add q) bp
  end.

(** What the descent knows of [prefixed_node] when it is at the subtree
    [t]: a node above [t] whose prefix is shorter than [q] and agrees with
    the prefixes of [t]. *)
Definition pref_ok (q : prefix_t) (fam : family_t) (t : tree)
    (pref : option (loc * prefix_t)) : Prop :=
  match pref with
  | None => True
  | Some (pa, pp) =>
    (pa ∉ locs t) ∧ valid_prefix pp ∧ family pp = fam ∧ bitlen pp < bitlen q ∧
    ∀ P, P ∈ prefixes t → agree (add pp) (add P) (bitlen pp)
  end.

(** ** What a node holds *)

(** The bit index, the prefix and the payload of a node: what the
    operations on the tree leave alone when they move a node. *)
Definition payload (n : radix_node_t) : Z * option prefix_t * option pyobj :=
  (bit n, prefix n, data n).

Definition pay (h : heap) : gmap loc (Z * option prefix_t * option pyobj) :=
  payload <$> h.

(** The outcomes of [radix_lookup] for the payloads: nothing changes; or
    the node returned, a glue node before, has the prefix now; or a new
    node has the prefix, with or without a new glue node. *)
Definition lookup_payloads (h h' : heap) (p : prefix_t) (r : ptr) : Prop :=
  (pay h' = pay h) ∨
  (∃ x nx, h !! x = Some nx ∧ prefix nx = None ∧ r = Some x ∧
           pay h' = <[x := (bit nx, Some p, data nx)]> (pay h)) ∨
  (∃ new, h !! new = None ∧ (r = Some new ∨ r = None) ∧
          pay h' = <[new := (bitlen p, Some p, None)]> (pay h)) ∨
  (∃ new glue gb, h !! new = None ∧ h !! glue = None ∧ glue ≠ new ∧ r = Some new ∧
                  pay h' = <[glue := (gb, None, None)]>
                             (<[new := (bitlen p, Some p, None)]> (pay h))).

(** The outcomes of [radix_remove] of the node [x] for the payloads: the
    node stays as a glue node; or it is freed; or it is freed with the
    glue node above it. *)
Definition remove_payloads (h h' : heap) (x : loc) : Prop :=
  ∃ nx, h !! x = Some nx ∧
    (pay h' = <[x := (bit nx, None, None)]> (pay h) ∨
     pay h' = delete x (pay h) ∨
     ∃ up nu, h !! up = Some nu ∧ prefix nu = None ∧
              pay h' = delete up (delete x (pay h))).

(** ** Destruction *)

(** The heap with the nodes [l] freed, one after the other. *)
Definition free_all (l : list loc) (h : heap) : heap :=
  foldl (λ h a, PyMem_Free a h) h l.

(** A node with a prefix and a payload: the nodes the callback of
    [Clear_Radix] is called on. *)
Definition has_payload (h : heap) (a : loc) : bool :=
  match h !! a with
  | Some n => non_null (prefix n) && non_null (data n)
  | None => false
  end.

(** The nodes of a tree with a prefix and a payload, in the order of the walk. *)
Fixpoint payload_nodes (t : tree) : list loc :=
  match t with
  | Leaf => []
  | Node a _ p d tl tr =>
    (if non_null p && non_null d then [a] else []) ++ payload_nodes tl ++ payload_nodes tr
  end.

Fixpoint payload_nodes_all (ts : list tree) : list loc :=
  match ts with
  | [] => []
  | sub :: ts' => payload_nodes sub ++ payload_nodes_all ts'
  end.

(** ** The binding *)

(** Only nodes with a prefix have a payload. *)
Definition data_real (h : heap) : Prop :=
  ∀ y n, h !! y = Some n → data n ≠ None → prefix n ≠ None.

(** The nodes above the node at [x], with their payloads, the nearest
    first. *)
Fixpoint anc (x : loc) (t : tree) : list (loc * option pyobj) :=
  match t with
  | Leaf => []
  | Node a b p d tl tr =>
    if bool_decide (a = x) then []
    else if bool_decide (x ∈ locs tl) then anc x tl ++ [(a, d)]
    else if bool_decide (x ∈ locs tr) then anc x tr ++ [(a, d)]
    else []
  end.

(** The first payload of a list of nodes. *)
Fixpoint first_data (l : list (loc * option pyobj)) : option (loc * pyobj) :=
  match l with
  | [] => None
  | (y, Some o) :: _ => Some (y, o)
  | (_, None) :: rest => first_data rest
  end.

(** The prefixes the tree does not tell apart: those of one family and
    length with the same bits before this length. *)
Definition same_entry (p q : prefix_t) : Prop :=
  family p = family q ∧ bitlen p = bitlen q ∧ agree (add p) (add q) (bitlen p).

(** The worlds the binding reaches from a new tree: by an [add] that
    returns an object, by a [delete], which removes its prefix or raises
    [KeyError], and by a store into the dictionary of a node object. *)
Inductive wreach : world → Prop :=
| wreach_new : wreach newRadixObject
| wreach_add ok1 ok2 ok3 w p w' o :
    wreach w → valid_prefix p →
    Radix_add ok1 ok2 ok3 w p = Ok (w', Return o) →
    wreach w'
| wreach_delete oob w p w' r :
    wreach w → valid_prefix p →
    Radix_delete oob w p = Ok (w', r) →
    wreach w'
| wreach_setitem o k v w :
    wreach w → wreach (data_setitem o k v w).

(** The node objects point back to their nodes: an object with a back
    pointer is the payload of a node of the tree that stores a prefix. *)
Definition objects_linked (w : world) : Prop :=
  ∀ o obj x, objects w !! o = Some obj → rn obj = Some x →
    ∃ P nx, stored (nodes w) (rt (self w)) x P ∧
            nodes w !! x = Some nx ∧ data nx = Some o.

(** The nodes point to their node objects: the payload of a node that
    stores a prefix is an object whose back pointer is the node. *)
Definition nodes_linked (w : world) : Prop :=
  ∀ y P ny o, stored (nodes w) (rt (self w)) y P →
    nodes w !! y = Some ny → data ny = Some o →
    ∃ obj, objects w !! o = Some obj ∧ rn obj = Some y.

(** Every node that stores a prefix has a payload. *)
Definition all_payload (w : world) : Prop :=
  ∀ y P ny, stored (nodes w) (rt (self w)) y P → nodes w !! y = Some ny →
    data ny ≠ None.

(** ** A loop over the tree *)

(** The calls of [next] a loop over the iterator makes, until one does not
    yield: the payloads they yield and the outcome of the last call. *)
Fixpoint drain (fuel : nat) (w : world) (it : RadixIterObject)
    : res (list pyobj * iter_result) :=
  match fuel with
  | O => Err OutOfFuel
  | S f =>
    '(it', r) ← RadixIter_iternext w it;
    match r with
    | Yield o => '(l, e) ← drain f w it'; Ok (o :: l, e)
    | _ => Ok ([], r)
    end
  end.

(** The payloads of the nodes of [rem] that have a prefix and a payload. *)
Fixpoint payloads (h : heap) (rem : list loc) : list pyobj :=
  match rem with
  | [] => []
  | x :: rest =>
    match h !! x with
    | Some n =>
      match prefix n, data n with
      | Some _, Some o => o :: payloads h rest
      | _, _ => payloads h rest
      end
    | None => payloads h rest
    end
  end.

(** The node at [y] has a prefix. *)
Definition is_real (h : heap) (y : loc) : bool :=
  match h !! y with
  | Some n => non_null (prefix n)
  | None => false
  end.

(** ** States used in the examples *)

Definition ipv4 (a b c d len : Z) : prefix_t :=
  {| family := AF_INET; bitlen := len; add := [a; b; c; d] |}.

(** A run of lookups that all return a node. *)
Fixpoint inserts (h : heap) (t : radix_tree_t) (ps : list prefix_t)
    : option (heap * radix_tree_t) :=
  match ps with
  | [] => Some (h, t)
  | p :: ps' =>
    match radix_lookup true true h t p with
    | Ok (h', t', Some _) => inserts h' t' ps'
    | _ => None
    end
  end.

(** 10.0.0.0/16 alone. *)
Definition one_prefix : list prefix_t := [ipv4 10 0 0 0 16].

(** 10.0.0.0/8 with 10.0.0.0/16 below it on the left and 10.128.0.0/16 on
    the right. *)
Definition two_children : list prefix_t :=
  [ipv4 10 0 0 0 8; ipv4 10 0 0 0 16; ipv4 10 128 0 0 16].

(** The world after [Radix.add] of the prefixes of a list, every
    allocation succeeding. *)
Fixpoint adds (w : world) (ps : list prefix_t) : option world :=
  match ps with
  | [] => Some w
  | p :: ps' =>
    match Radix_add true true true w p with
    | Ok (w', Return _) => adds w' ps'
    | _ => None
    end
  end.

(** * Bit-level lemmas *)

Lemma agree_refl a n : agree a a n.
Proof. by intros i _. Qed.

Lemma agree_sym a b n : agree a b n → agree b a n.
Proof. intros H i Hi. symmetry. by apply H. Qed.

Lemma agree_trans a b c n : agree a b n → agree b c n → agree a c n.
Proof. intros H1 H2 i Hi. rewrite H1 by done. by apply H2. Qed.

Lemma agree_le a b n m : m ≤ n → agree a b n → agree a b m.
Proof. intros Hle H i Hi. apply H. lia. Qed.

Lemma BIT_TEST_pow2 x n : 0 ≤ n → BIT_TEST x (2 ^ n) = Z.testbit x n.
Proof.
  intros Hn. unfold BIT_TEST.
  destruct (Z.testbit x n) eqn:Hb.
  - apply negb_true_iff, Z.eqb_neq. intros H0.
    assert (Z.testbit (Z.land x (2 ^ n)) n = true) as Ht.
    { rewrite Z.land_spec, Hb, Z.pow2_bits_true; done. }
    rewrite H0, Z.bits_0 in Ht. done.
  - apply negb_false_iff, Z.eqb_eq. apply Z.bits_inj'. intros k Hk.
    rewrite Z.land_spec, Z.bits_0.
    destruct (decide (k = n)) as [->|Hne].
    + by rewrite Hb.
    + rewrite Z.pow2_bits_false by lia. apply andb_false_r.
Qed.

Lemma shiftr_0x80 k : 0 ≤ k < 8 → Z.shiftr 0x80 k = 2 ^ (7 - k).
Proof.
  intros Hk.
  assert (k = 0 ∨ k = 1 ∨ k = 2 ∨ k = 3 ∨ k = 4 ∨ k = 5 ∨ k = 6 ∨ k = 7) as Hc by lia.
  destruct Hc as [->|[->|[->|[->|[->|[->|[->| ->]]]]]]]; reflexivity.
Qed.

Lemma land_7 b : 0 ≤ b → Z.land b 7 = b mod 8.
Proof. intros Hb. change 7 with (Z.ones 3). rewrite Z.land_ones by lia. done. Qed.

Lemma BIT_TEST_SEARCH_BIT_getbit addr b :
  0 ≤ b → b < 8 * Z.of_nat (length addr) →
  BIT_TEST_SEARCH_BIT addr b = Some (getbit addr b).
Proof.
  intros Hb Hlen. unfold BIT_TEST_SEARCH_BIT, getbit, byte_at.
  rewrite Z.shiftr_div_pow2 by lia. change (2 ^ 3) with 8.
  destruct (lookup_lt_is_Some_2 addr (Z.to_nat (b / 8))) as [x Hx].
  { apply Nat2Z.inj_lt. rewrite Z2Nat.id by (apply Z.div_pos; lia).
    apply Z.div_lt_upper_bound; lia. }
  rewrite Hx. simpl. f_equal.
  rewrite land_7 by done.
  rewrite shiftr_0x80 by (apply Z.mod_pos_bound; lia).
  apply BIT_TEST_pow2. pose proof (Z.mod_pos_bound b 8). lia.
Qed.

Lemma BIT_TEST_SEARCH_BIT_None addr b :
  0 ≤ b → 8 * Z.of_nat (length addr) ≤ b → BIT_TEST_SEARCH_BIT addr b = None.
Proof.
  intros Hb Hlen. unfold BIT_TEST_SEARCH_BIT.
  rewrite Z.shiftr_div_pow2 by lia. change (2 ^ 3) with 8.
  rewrite lookup_ge_None_2; [done|].
  apply Nat2Z.inj_le. rewrite Z2Nat.id by (apply Z.div_pos; lia).
  apply Z.div_le_lower_bound; lia.
Qed.

Lemma byte_bits_high x k : byte_ok x → 8 ≤ k → Z.testbit x k = false.
Proof.
  intros [H0 H1] Hk.
  destruct (decide (x = 0)) as [->|Hx]; [apply Z.bits_0|].
  apply Z.bits_above_log2; [lia|].
  apply Z.lt_le_trans with 8; [|lia].
  apply Z.log2_lt_pow2; [lia|]. done.
Qed.

Lemma byte_eq_bits x y :
  byte_ok x → byte_ok y →
  (∀ k, 0 ≤ k < 8 → Z.testbit x k = Z.testbit y k) → x = y.
Proof.
  intros Hx Hy H. apply Z.bits_inj'. intros k Hk.
  destruct (decide (k < 8)); [apply H; lia|].
  rewrite !byte_bits_high by (done || lia). done.
Qed.

Lemma byte_at_ok addr i : Forall byte_ok addr → byte_ok (byte_at addr i).
Proof.
  intros H. unfold byte_at. destruct (addr !! Z.to_nat i) as [x|] eqn:Hx; simpl.
  - eapply Forall_lookup_1; eauto.
  - unfold byte_ok. lia.
Qed.

Lemma getbit_split addr j e :
  0 ≤ j → 0 ≤ e < 8 → getbit addr (8 * j + e) = Z.testbit (byte_at addr j) (7 - e).
Proof.
  intros Hj He. unfold getbit.
  replace ((8 * j + e) / 8) with j by (apply Z.div_unique with e; lia).
  replace ((8 * j + e) mod 8) with e by (apply Z.mod_unique with j; lia).
  done.
Qed.

Lemma byte_at_eq_agree a b j :
  Forall byte_ok a → Forall byte_ok b → 0 ≤ j →
  byte_at a j = byte_at b j ↔ (∀ e, 0 ≤ e < 8 → getbit a (8 * j + e) = getbit b (8 * j + e)).
Proof.
  intros Ha Hb Hj. split.
  - intros Heq e He. rewrite !getbit_split by done. by rewrite Heq.
  - intros H. apply byte_eq_bits; [by apply byte_at_ok..|].
    intros k Hk. specialize (H (7 - k)). rewrite !getbit_split in H by lia.
    replace (7 - (7 - k)) with k in H by lia. apply H. lia.
Qed.

Lemma take_eq_byte_at (a b : list Z) n :
  (n ≤ length a)%nat → (n ≤ length b)%nat →
  take n a = take n b ↔ (∀ j, 0 ≤ j < Z.of_nat n → byte_at a j = byte_at b j).
Proof.
  intros Ha Hb. split.
  - intros Heq j Hj. unfold byte_at.
    rewrite <- (lookup_take_lt a n), <- (lookup_take_lt b n) by lia. by rewrite Heq.
  - intros H. apply list_eq. intros i.
    destruct (decide (i < n)%nat) as [Hi|Hi].
    + rewrite !lookup_take_lt by done.
      specialize (H (Z.of_nat i)). unfold byte_at in H. rewrite Nat2Z.id in H.
      destruct (lookup_lt_is_Some_2 a i) as [x Hx]; [lia|].
      destruct (lookup_lt_is_Some_2 b i) as [y Hy]; [lia|].
      rewrite Hx, Hy in *. simpl in H. f_equal. apply H. lia.
    + rewrite !lookup_take_ge by lia. done.
Qed.

Lemma mask_bits k j :
  0 < k < 8 → 0 ≤ j < 8 →
  Z.testbit (Z.shiftl (-1) (8 - k) mod 2 ^ 32) j = bool_decide (8 - k ≤ j).
Proof.
  intros Hk Hj. rewrite Z.mod_pow2_bits_low by lia.
  rewrite Z.shiftl_spec by lia.
  case_bool_decide.
  - apply Z.bits_m1. lia.
  - apply Z.testbit_neg_r. lia.
Qed.

Lemma masked_eq_bits x y k :
  byte_ok x → byte_ok y → 0 < k < 8 →
  Z.land x (Z.shiftl (-1) (8 - k) mod 2 ^ 32) = Z.land y (Z.shiftl (-1) (8 - k) mod 2 ^ 32)
  ↔ (∀ e, 0 ≤ e < k → Z.testbit x (7 - e) = Z.testbit y (7 - e)).
Proof.
  intros Hx Hy Hk. split.
  - intros Heq e He.
    assert (Z.testbit (Z.land x (Z.shiftl (-1) (8 - k) mod 2 ^ 32)) (7 - e) =
            Z.testbit (Z.land y (Z.shiftl (-1) (8 - k) mod 2 ^ 32)) (7 - e)) as Hb
      by (by rewrite Heq).
    rewrite !Z.land_spec, mask_bits in Hb by lia.
    rewrite bool_decide_eq_true_2 in Hb by lia.
    by rewrite !andb_true_r in Hb.
  - intros H. apply Z.bits_inj'. intros j Hj. rewrite !Z.land_spec.
    destruct (decide (j < 8)) as [Hj8|Hj8].
    + rewrite mask_bits by lia. case_bool_decide as Hd.
      * rewrite !andb_true_r. specialize (H (7 - j)).
        replace (7 - (7 - j)) with j in H by lia. apply H. lia.
      * by rewrite !andb_false_r.
    + rewrite (byte_bits_high x), (byte_bits_high y) by (done || lia). done.
Qed.

Lemma comp_with_mask_agree a b m :
  Forall byte_ok a → Forall byte_ok b →
  length a = length b → 0 ≤ m ≤ 8 * Z.of_nat (length a) →
  comp_with_mask a b m = true ↔ agree a b m.
Proof.
  intros Ha Hb Hlen Hm.
  pose proof (Z.div_mod m 8 ltac:(lia)) as Hdm.
  pose proof (Z.mod_pos_bound m 8 ltac:(lia)) as Hk.
  assert (0 ≤ m / 8) as Hn by (apply Z.div_pos; lia).
  assert (Z.to_nat (m / 8) ≤ length a)%nat as Hna by lia.
  assert (Z.to_nat (m / 8) ≤ length b)%nat as Hnb by lia.
  unfold comp_with_mask, memcmp_eq.
  case_bool_decide as Htake; cycle 1.
  { split; [done|]. intros Hag. exfalso. apply Htake.
    apply take_eq_byte_at; [done..|]. intros j Hj.
    apply byte_at_eq_agree; [done..|lia|]. intros e He. apply Hag. lia. }
  rewrite take_eq_byte_at in Htake by done.
  rewrite Z2Nat.id in Htake by done.
  assert (agree a b (8 * (m / 8))) as Hlow.
  { intros i Hi.
    pose proof (Z.div_mod i 8 ltac:(lia)) as Hi8.
    pose proof (Z.mod_pos_bound i 8 ltac:(lia)) as Hik.
    rewrite Hi8.
    assert (byte_at a (i / 8) = byte_at b (i / 8)) as Heq.
    { apply Htake. split; [apply Z.div_pos; lia|]. apply Z.div_lt_upper_bound; lia. }
    rewrite byte_at_eq_agree in Heq by (done || apply Z.div_pos; lia).
    by apply Heq. }
  rewrite orb_true_iff, Z.eqb_eq, Z.eqb_eq.
  split.
  - intros [H0|Hmask].
    + intros i Hi. apply Hlow. lia.
    + destruct (decide (m mod 8 = 0)) as [H0|H0].
      { intros i Hi. apply Hlow. lia. }
      rewrite masked_eq_bits in Hmask by (try apply byte_at_ok; done || lia).
      intros i Hi. destruct (decide (i < 8 * (m / 8))) as [Hlt|Hge].
      { apply Hlow. lia. }
      replace i with (8 * (m / 8) + (i - 8 * (m / 8))) by lia.
      rewrite !getbit_split by lia. apply Hmask. lia.
  - intros Hag. destruct (decide (m mod 8 = 0)) as [H0|H0]; [by left|right].
    apply masked_eq_bits; [by apply byte_at_ok..|lia|].
    intros e He. rewrite <- !getbit_split by lia. apply Hag. lia.
Qed.

Lemma first_set_bit_spec r f j0 :
  Z.of_nat f + j0 = 8 → 0 ≤ j0 →
  (∀ e, 0 ≤ e < j0 → Z.testbit r (7 - e) = false) →
  let j := first_set_bit f r j0 in
  j0 ≤ j ≤ 8 ∧ (∀ e, 0 ≤ e < j → Z.testbit r (7 - e) = false) ∧
  (j < 8 → Z.testbit r (7 - j) = true).
Proof.
  revert j0. induction f as [|f IH]; intros j0 Hf Hj0 Hlow; simpl.
  - split; [lia|]. split; [done|lia].
  - rewrite shiftr_0x80 by lia. rewrite BIT_TEST_pow2 by lia.
    destruct (Z.testbit r (7 - j0)) eqn:Hb.
    + split; [lia|]. split; [done|done].
    + destruct (IH (j0 + 1)) as (H1 & H2 & H3); [lia|lia| |].
      { intros e He. destruct (decide (e = j0)) as [->|]; [done|]. apply Hlow. lia. }
      split; [lia|]. split; done.
Qed.

Lemma differ_loop_spec a b check_bit f i :
  Forall byte_ok a → Forall byte_ok b →
  0 ≤ i → check_bit ≤ Z.of_nat f + i → agree a b (8 * i) →
  let d := differ_loop f a b check_bit i (i * 8) in
  8 * i ≤ d ∧ agree a b d ∧ (d < check_bit → getbit a d ≠ getbit b d).
Proof.
  intros Ha Hb. revert i. induction f as [|f IH]; intros i Hi Hf Hag; cbn [differ_loop].
  - split; [lia|]. split; [by replace (i * 8) with (8 * i) by lia|lia].
  - destruct (Z.ltb_spec (i * 8) check_bit) as [Hlt|Hge]; cycle 1.
    { split; [lia|]. split; [by replace (i * 8) with (8 * i) by lia|lia]. }
    destruct (Z.eqb_spec (Z.lxor (byte_at a i) (byte_at b i)) 0) as [Hx|Hx].
    + apply Z.lxor_eq in Hx.
      destruct (IH (i + 1)) as (H1 & H2 & H3); [lia|lia| |].
      { intros k Hk. destruct (decide (k < 8 * i)); [apply Hag; lia|].
        rewrite byte_at_eq_agree in Hx by done.
        replace k with (8 * i + (k - 8 * i)) by lia. apply Hx. lia. }
      split; [lia|]. done.
    + set (rr := Z.lxor (byte_at a i) (byte_at b i)) in *.
      destruct (first_set_bit_spec rr 8 0) as (H1 & H2 & H3); [done|done|lia|].
      set (j := first_set_bit 8 rr 0) in *.
      assert (j < 8) as Hj.
      { destruct (decide (j < 8)); [done|]. exfalso. apply Hx.
        apply Z.bits_inj'. intros k Hk. rewrite Z.bits_0.
        destruct (decide (k < 8)).
        - specialize (H2 (7 - k)). replace (7 - (7 - k)) with k in H2 by lia.
          apply H2. lia.
        - unfold rr. rewrite Z.lxor_spec.
          rewrite !byte_bits_high by (try apply byte_at_ok; done || lia). done. }
      split; [lia|]. split.
      * intros k Hk. destruct (decide (k < 8 * i)); [apply Hag; lia|].
        replace k with (8 * i + (k - 8 * i)) by lia.
        rewrite !getbit_split by lia.
        specialize (H2 (k - 8 * i) ltac:(lia)). unfold rr in H2.
        rewrite Z.lxor_spec in H2. by apply xorb_eq.
      * intros _. replace (i * 8 + j) with (8 * i + j) by lia.
        rewrite !getbit_split by lia.
        specialize (H3 Hj). unfold rr in H3. rewrite Z.lxor_spec in H3.
        intros Heq. rewrite Heq, xorb_nilpotent in H3. done.
Qed.

Lemma find_differ_bit_spec a b node_bit bitlen :
  Forall byte_ok a → Forall byte_ok b → 0 ≤ node_bit → 0 ≤ bitlen →
  let c := Z.min node_bit bitlen in
  let d := find_differ_bit a b node_bit bitlen in
  0 ≤ d ≤ c ∧ agree a b d ∧ (d < c → getbit a d ≠ getbit b d).
Proof.
  intros Ha Hb Hn Hl. simpl. unfold find_differ_bit.
  set (c := if node_bit <? bitlen then node_bit else bitlen).
  assert (c = Z.min node_bit bitlen) as Hc.
  { unfold c. destruct (Z.ltb_spec node_bit bitlen); lia. }
  rewrite <- Hc.
  destruct (differ_loop_spec a b c (Z.to_nat c) 0) as (H1 & H2 & H3);
    [done|done|lia|lia|intros i; lia|].
  change (0 * 8) with 0 in *.
  set (d := differ_loop (Z.to_nat c) a b c 0 0) in *.
  destruct (Z.ltb_spec c d) as [Hlt|Hge].
  - split; [lia|]. split; [|lia]. eapply agree_le; [|done]. lia.
  - split; [lia|]. done.
Qed.

(** * Trees in the heap *)

Lemma repr_frame h h' par t :
  (∀ a, a ∈ locs t → h' !! a = h !! a) → repr h par t → repr h' par t.
Proof.
  revert par. induction t as [|a b p d tl IHl tr IHr]; intros par Hfr; simpl; [done|].
  intros (Ha & Hl & Hr). split; [|split].
  - rewrite Hfr; [done|]. simpl. left.
  - apply IHl; [|done]. intros x Hx. apply Hfr. simpl. right. apply elem_of_app. by left.
  - apply IHr; [|done]. intros x Hx. apply Hfr. simpl. right. apply elem_of_app. by right.
Qed.

Lemma repr_insert_fresh h par t a n :
  a ∉ locs t → repr h par t → repr (<[a := n]> h) par t.
Proof.
  intros Ha. apply repr_frame. intros x Hx.
  apply lookup_insert_ne. intros ->. done.
Qed.

Lemma repr_delete_fresh h par t a :
  a ∉ locs t → repr h par t → repr (delete a h) par t.
Proof.
  intros Ha. apply repr_frame. intros x Hx.
  apply lookup_delete_ne. intros ->. done.
Qed.

Lemma repr_is_Some h par t a : repr h par t → a ∈ locs t → is_Some (h !! a).
Proof.
  revert par. induction t as [|a' b p d tl IHl tr IHr]; intros par; simpl.
  - intros _ Ha. by apply elem_of_nil in Ha.
  - intros (Ha' & Hl & Hr) Ha. apply elem_of_cons in Ha as [->|Ha]; [by eexists|].
    apply elem_of_app in Ha as [Ha|Ha]; eauto.
Qed.

Lemma repr_fresh h par t a : repr h par t → h !! a = None → a ∉ locs t.
Proof.
  intros Hr Hn Ha. destruct (repr_is_Some _ _ _ _ Hr Ha) as [x Hx]. congruence.
Qed.

(** The parent pointer of the root is the only place where [par] occurs. *)
Lemma repr_set_parent h par par' a b p d tl tr :
  a ∉ locs tl → a ∉ locs tr →
  repr h par (Node a b p d tl tr) →
  repr (<[a := {| bit := b; prefix := p; l := root tl; r := root tr;
                  parent := par'; data := d |}]> h) par' (Node a b p d tl tr).
Proof.
  intros Hl Hr (Ha & Hrl & Hrr). simpl. split; [by rewrite lookup_insert_eq|].
  split; by apply repr_insert_fresh.
Qed.

Lemma locs_size h par t :
  NoDup (locs t) → repr h par t → (length (locs t) ≤ size h)%nat.
Proof.
  intros Hnd Hr.
  assert (locs t ⊆+ elements (dom h)) as Hsub.
  { apply NoDup_submseteq; [done|]. intros x Hx.
    apply elem_of_elements, elem_of_dom. by eapply repr_is_Some. }
  apply submseteq_length in Hsub.
  rewrite <- size_dom. unfold size, set_size. simpl. lia.
Qed.

Lemma height_length t : (height t ≤ length (locs t))%nat.
Proof.
  induction t as [|a b p d tl IHl tr IHr]; simpl; [done|].
  rewrite length_app. lia.
Qed.

Lemma height_fuel h par t :
  NoDup (locs t) → repr h par t → (height t < fuel_of h)%nat.
Proof.
  intros Hnd Hr. unfold fuel_of.
  pose proof (locs_size _ _ _ Hnd Hr). pose proof (height_length t). lia.
Qed.

Lemma root_in_locs t a : root t = Some a → a ∈ locs t.
Proof. destruct t; simpl; [done|]. intros [= ->]. left. Qed.

Lemma NoDup_node a tl tr :
  NoDup (a :: locs tl ++ locs tr) →
  (a ∉ locs tl) ∧ (a ∉ locs tr) ∧ NoDup (locs tl) ∧ NoDup (locs tr) ∧
  (∀ x, x ∈ locs tl → x ∉ locs tr).
Proof.
  intros Hnd. apply NoDup_cons in Hnd as [Ha Hnd].
  apply NoDup_app in Hnd as (Hl & Hd & Hr).
  rewrite elem_of_app in Ha. naive_solver.
Qed.

(** ** Facts on the invariant *)

Lemma pat_weaken fam lo lo' t :
  match t with Leaf => True | Node _ b _ _ _ _ => lo' ≤ b end →
  pat fam lo t → pat fam lo' t.
Proof. destruct t; simpl; [done|]. intros Hle (Hb & H). split; [lia|done]. Qed.

Lemma pat_le fam lo lo' t : lo' ≤ lo → pat fam lo t → pat fam lo' t.
Proof.
  intros Hle Hp. eapply pat_weaken; [|done]. destruct t; [done|].
  simpl in Hp. lia.
Qed.

Lemma pat_prefixes fam lo t x :
  pat fam lo t → x ∈ prefixes t →
  family x = fam ∧ valid_prefix x ∧ lo ≤ bitlen x.
Proof.
  revert lo. induction t as [|a b p d tl IHl tr IHr]; intros lo; simpl.
  - intros _ Hx. by apply elem_of_nil in Hx.
  - intros (Hb & Hp & Hag & Hleft & Hright & Hl & Hr) Hx.
    rewrite !elem_of_app in Hx. destruct Hx as [Hx|[Hx|Hx]].
    + destruct p as [q|]; simpl in Hx; [|by apply elem_of_nil in Hx].
      apply list_elem_of_singleton in Hx as ->.
      destruct Hp as (? & ? & ?). split; [done|]. split; [done|]. lia.
    + destruct (IHl _ Hl Hx) as (? & ? & ?). split; [done|]. split; [done|]. lia.
    + destruct (IHr _ Hr Hx) as (? & ? & ?). split; [done|]. split; [done|]. lia.
Qed.

(** A tree that is not empty stores a prefix: leaves of the trie are real. *)
Lemma pat_nonempty fam lo t : pat fam lo t → t ≠ Leaf → ∃ x, x ∈ prefixes t.
Proof.
  revert lo. induction t as [|a b p d tl IHl tr IHr]; intros lo; simpl; [done|].
  intros (Hb & Hp & Hag & Hleft & Hright & Hl & Hr) _.
  destruct p as [q|].
  - exists q. simpl. left.
  - destruct Hp as [Hnl _]. destruct (IHl _ Hl Hnl) as [x Hx].
    exists x. simpl. apply elem_of_app. by left.
Qed.

Lemma valid_prefix_bit_in_range p b :
  valid_prefix p → 0 ≤ b < maxbits (family p) →
  BIT_TEST_SEARCH_BIT (add p) b = Some (getbit (add p) b).
Proof.
  intros (Hl & Hlen & Hb) Hr. apply BIT_TEST_SEARCH_BIT_getbit; lia.
Qed.

Lemma maxbits_by_prefix p : RADIX_MAXBITS_BY_PREFIX p = maxbits (family p).
Proof. done. Qed.

Lemma head_by_prefix t p : RADIX_HEAD_BY_PREFIX t p = head_of (family p) t.
Proof. done. Qed.

(** ** Restructuring below a node *)

Lemma replace_child_same pn c :
  r pn = Some c ∨ l pn = Some c → replace_child pn c (Some c) = pn.
Proof.
  unfold replace_child. destruct pn as [b p lc rc pa d]. simpl.
  intros Hor. case_bool_decide as Hr; simpl in *.
  - unfold set_r. simpl. by rewrite Hr.
  - unfold set_l. simpl. destruct Hor as [ ? | -> ]; done.
Qed.

(** A restructuring of a child subtree is a restructuring of the tree. *)
Lemma restructured_child (side : bool) h t h' t' fam par a b p dd tl tr sub' fl :
  repr h par (Node a b p dd tl tr) → NoDup (locs (Node a b p dd tl tr)) →
  slot_ok h t fam par (Node a b p dd tl tr) →
  (∀ y, y ∈ fl → h !! y = None) →
  root (if side then tr else tl) ≠ None →
  restructured h t h' t' fam (Some a) (if side then tr else tl) sub' fl →
  restructured h t h' t' fam par (Node a b p dd tl tr)
    (if side then Node a b p dd tl sub' else Node a b p dd sub' tr) fl.
Proof.
  intros (Ha & Hrl & Hrr) Hnd Hslot Hfl Hroot (Hrep' & Hframe & [Hhead' Hpa'] & Hheads).
  apply NoDup_node in Hnd as (Hal & Har & Hndl & Hndr & Hdisj).
  assert (∀ y, y ∈ locs tl ∨ y ∈ locs tr → y ∉ fl) as Hnfl.
  { intros y Hy Hyfl. specialize (Hfl _ Hyfl).
    destruct Hy as [Hy|Hy];
      [exact (repr_fresh _ _ _ _ Hrl Hfl Hy)|exact (repr_fresh _ _ _ _ Hrr Hfl Hy)]. }
  assert (a ∉ fl) as Hafl by (intros Hyfl; specialize (Hfl _ Hyfl); congruence).
  split; [|split; [|split]].
  - destruct side.
    + assert (∃ c, root tr = Some c) as [c Hc] by (destruct (root tr); by eauto).
      simpl. split; [|split; [|done]].
      * rewrite (Hpa' _ c Ha Hc). unfold replace_child. simpl.
        rewrite bool_decide_eq_true_2 by done. done.
      * apply (repr_frame h); [|done].
        intros y Hy. apply Hframe; [by apply Hdisj|apply Hnfl; by left|congruence].
    + assert (∃ c, root tl = Some c) as [c Hc] by (destruct (root tl); by eauto).
      simpl. split; [|split; [done|]].
      * rewrite (Hpa' _ c Ha Hc). unfold replace_child. simpl.
        rewrite bool_decide_eq_false_2; [done|].
        intros Hc'. apply root_in_locs in Hc, Hc'. by eapply Hdisj.
      * apply (repr_frame h); [|done].
        intros y Hy. apply Hframe; [|apply Hnfl; by right|congruence].
        intros Hy'. by eapply Hdisj.
  - intros y Hy1 Hy2 Hy3. simpl in Hy1.
    rewrite not_elem_of_cons, not_elem_of_app in Hy1. destruct Hy1 as (? & ? & ?).
    apply Hframe; [destruct side; done|done|congruence].
  - destruct par as [pa|].
    + destruct Hslot as (Hpain & pn & Hpn & Hor).
      simpl in Hpain. rewrite not_elem_of_cons, not_elem_of_app in Hpain.
      destruct Hpain as (? & ? & ?).
      split; [done|]. intros pn' c' Hpn' [= <-].
      rewrite Hframe; [|destruct side; done| |congruence].
      * replace (root (if side then _ else _)) with (Some a) by (by destruct side).
        rewrite replace_child_same; [done|]. simpl in Hor. congruence.
      * intros Hyfl. specialize (Hfl _ Hyfl). congruence.
    + simpl in Hslot. destruct side; simpl; congruence.
  - done.
Qed.

(** * Insertion *)

Lemma guarded_bit_test_addr fam addr b :
  8 * Z.of_nat (length addr) = maxbits fam → 0 ≤ b →
  guarded_bit_test (maxbits fam) addr b = Ok (goes_right fam addr b).
Proof.
  intros Hlen Hb. unfold guarded_bit_test, goes_right.
  destruct (Z.ltb_spec b (maxbits fam)); [|done].
  rewrite BIT_TEST_SEARCH_BIT_getbit by lia. done.
Qed.

Lemma guarded_bit_test_valid q b :
  valid_prefix q → 0 ≤ b →
  guarded_bit_test (maxbits (family q)) (add q) b = Ok (goes_right (family q) (add q) b).
Proof. intros (_ & Hlen & _) Hb. by apply guarded_bit_test_addr. Qed.

Lemma landing_is_Some q t : t ≠ Leaf → is_Some (landing q t).
Proof.
  destruct t as [|a b p d tl tr]; [done|]. intros _. simpl.
  destruct ((b <? bitlen q) || negb (non_null p)); [|by eexists].
  destruct (landing q _); by eexists.
Qed.

Lemma landing_Leaf q : landing q Leaf = None.
Proof. done. Qed.

Lemma landing_root q t x : landing q t = Some x → ∃ a, root t = Some a.
Proof. destruct t; [done|]. by eexists. Qed.

Lemma root_None_landing q t : root t = None → landing q t = None.
Proof. by destruct t. Qed.

(** The descent of [radix_lookup] ends on [landing]. *)
Lemma descend_landing q h t :
  valid_prefix q →
  ∀ lo par fuel c a bL pL,
    0 ≤ lo → pat (family q) lo t → repr h par t → (height t ≤ fuel)%nat →
    root t = Some c → landing q t = Some (a, bL, pL) →
    radix_lookup_descend fuel h (add q) (bitlen q) (maxbits (family q)) c = Ok a ∧
    a ∈ locs t ∧ ∃ n, h !! a = Some n ∧ bit n = bL ∧ prefix n = pL.
Proof.
  intros Hq.
  induction t as [|a b p d tl IHl tr IHr]; intros lo par fuel c a' bL pL Hlo; [done|].
  simpl. intros (Hb & Hp & Hag & Hleft & Hright & Hpl & Hpr) (Ha & Hrl & Hrr) Hfuel [= <-].
  destruct fuel as [|fuel]; [lia|]. simpl.
  unfold deref. rewrite Ha. simpl.
  destruct ((b <? bitlen q) || negb (non_null p)) eqn:Hc; cycle 1.
  { intros [= <- <- <-]. split; [done|]. split; [left|]. by eexists. }
  rewrite guarded_bit_test_valid by (done || lia). simpl.
  destruct (goes_right (family q) (add q) b).
  - destruct (landing q tr) as [[[x bx] px]|] eqn:Hland.
    + intros [= -> -> ->].
      destruct (landing_root _ _ _ Hland) as [c Hc'].
      destruct (IHr (b + 1) (Some a) fuel c a' bL pL) as (H1 & H2 & H3);
        [lia|done|done|lia|done|done|].
      rewrite Hc'. split; [done|]. split; [|done].
      right. apply elem_of_app. by right.
    + intros [= <- <- <-].
      destruct tr as [|c cb cp cd cl cr]; cycle 1.
      { by destruct (landing_is_Some q (Node c cb cp cd cl cr)) as [? ?]; [|congruence]. }
      simpl. split; [done|]. split; [left|]. by eexists.
  - destruct (landing q tl) as [[[x bx] px]|] eqn:Hland.
    + intros [= -> -> ->].
      destruct (landing_root _ _ _ Hland) as [c Hc'].
      destruct (IHl (b + 1) (Some a) fuel c a' bL pL) as (H1 & H2 & H3);
        [lia|done|done|lia|done|done|].
      rewrite Hc'. split; [done|]. split; [|done].
      right. apply elem_of_app. by left.
    + intros [= <- <- <-].
      destruct tl as [|c cb cp cd cl cr]; cycle 1.
      { by destruct (landing_is_Some q (Node c cb cp cd cl cr)) as [? ?]; [|congruence]. }
      simpl. split; [done|]. split; [left|]. by eexists.
Qed.

(** Every node of a subtree has a bit index of at least the lower bound,
    the landing node included. *)
Lemma landing_bit fam q lo t a bL pL :
  pat fam lo t → landing q t = Some (a, bL, pL) → lo ≤ bL.
Proof.
  revert lo. induction t as [|x b p d tl IHl tr IHr]; intros lo; [done|].
  simpl. intros (Hb & Hp & Hag & Hleft & Hright & Hpl & Hpr).
  destruct ((b <? bitlen q) || negb (non_null p)); [|intros [= <- <- <-]; lia].
  destruct (goes_right (family q) (add q) b).
  - destruct (landing q tr) as [x'|] eqn:Hland.
    + intros [= ->]. specialize (IHr _ Hpr eq_refl). lia.
    + intros [= <- <- <-]. lia.
  - destruct (landing q tl) as [x'|] eqn:Hland.
    + intros [= ->]. specialize (IHl _ Hpl eq_refl). lia.
    + intros [= <- <- <-]. lia.
Qed.

(** From the landing node the ascent climbs to the root of the subtree when
    all bit indices of the subtree are at least [d]. *)
Lemma ascend_to_root q h d t :
  ∀ lo par c a bL pL,
    pat (family q) lo t → d ≤ lo → repr h par t →
    root t = Some c → landing q t = Some (a, bL, pL) →
    ∃ k, (k < height t)%nat ∧
      ∀ f, radix_lookup_ascend (k + f) h d a = radix_lookup_ascend f h d c.
Proof.
  induction t as [|x b p dd tl IHl tr IHr]; intros lo par c a bL pL; [done|].
  simpl. intros (Hb & Hp & Hag & Hleft & Hright & Hpl & Hpr) Hd (Hx & Hrl & Hrr) [= <-].
  assert (∀ t', pat (family q) (b + 1) t' → repr h (Some x) t' →
            (∀ lo par c a bL pL,
               pat (family q) lo t' → d ≤ lo → repr h par t' →
               root t' = Some c → landing q t' = Some (a, bL, pL) →
               ∃ k, (k < height t')%nat ∧
                 ∀ f, radix_lookup_ascend (k + f) h d a = radix_lookup_ascend f h d c) →
            landing q t' = Some (a, bL, pL) →
            ∃ k, (k < S (height t'))%nat ∧
              ∀ f, radix_lookup_ascend (k + f) h d a = radix_lookup_ascend f h d x) as Hstep.
  { intros t' Hp' Hr' IH Hland.
    destruct (landing_root _ _ _ Hland) as [c Hc].
    destruct (IH (b + 1) (Some x) c a bL pL) as (k & Hk & Heq); [done|lia|done|done|done|].
    exists (S k). split; [lia|]. intros f.
    replace (S k + f)%nat with (k + S f)%nat by lia. rewrite Heq. simpl.
    destruct t' as [|c' cb cp cd cl cr]; [done|]. simpl in Hc. injection Hc as ->.
    destruct Hr' as (Hc & _). unfold deref. rewrite Hc. simpl. rewrite Hx. simpl.
    rewrite (proj2 (Z.leb_le d b)) by lia. done. }
  pose proof (Hstep tl Hpl Hrl IHl) as Hsl.
  pose proof (Hstep tr Hpr Hrr IHr) as Hsr. clear Hstep IHl IHr.
  destruct ((b <? bitlen q) || negb (non_null p)); cycle 1.
  { intros [= <- <- <-]. exists O. split; [lia|]. done. }
  destruct (goes_right (family q) (add q) b).
  - destruct (landing q tr) as [x'|] eqn:Hland.
    + intros [= ->]. destruct (Hsr eq_refl) as (k & Hk & Heq).
      exists k. split; [lia|done].
    + intros [= <- <- <-]. exists O. split; [lia|]. done.
  - destruct (landing q tl) as [x'|] eqn:Hland.
    + intros [= ->]. destruct (Hsl eq_refl) as (k & Hk & Heq).
      exists k. split; [lia|done].
    + intros [= <- <- <-]. exists O. split; [lia|]. done.
Qed.

Lemma target_root q d t x : target q d t = Some x → ∃ c, root t = Some c.
Proof. destruct t; [done|]. by eexists. Qed.

(** The ascent of [radix_lookup] ends on [target]. *)
Lemma ascend_target q h d t :
  valid_prefix q →
  ∀ lo par fuel a bL pL,
    0 ≤ lo → pat (family q) lo t → repr h par t → (height t < fuel)%nat →
    landing q t = Some (a, bL, pL) → d ≤ Z.min bL (bitlen q) →
    match par with
    | None => True
    | Some pa => ∃ pn, h !! pa = Some pn ∧ bit pn < d
    end →
    ∃ x bx, target q d t = Some (x, bx) ∧ radix_lookup_ascend fuel h d a = Ok x ∧
            x ∈ locs t ∧ d ≤ bx.
Proof.
  intros Hq.
  induction t as [|x b p dd tl IHl tr IHr]; intros lo par fuel a bL pL Hlo; [done|].
  intros Hpat Hrepr Hfuel Hland Hd Hpar.
  cbn [target]. destruct (Z.leb_spec d b) as [Hdb|Hdb].
  - exists x, b. split; [done|]. split; [|split; [left|done]].
    destruct (ascend_to_root q h d (Node x b p dd tl tr) d par x a bL pL)
      as (k & Hk & Heq); [|lia|done..|].
    { eapply pat_weaken; [|done]. done. }
    replace fuel with (k + S (fuel - k - 1))%nat by lia. rewrite Heq.
    destruct Hrepr as (Hx & _). simpl. unfold deref. rewrite Hx. simpl.
    destruct par as [pa|]; [|done].
    destruct Hpar as (pn & Hpa & Hlt). rewrite Hpa. simpl.
    rewrite (proj2 (Z.leb_gt d (bit pn))) by done. done.
  - simpl in Hpat, Hrepr, Hland, Hfuel.
    destruct Hpat as (Hb & Hp & Hag & Hleft & Hright & Hpl & Hpr).
    destruct Hrepr as (Hx & Hrl & Hrr).
    rewrite (proj2 (Z.ltb_lt b (bitlen q))) in Hland by lia. simpl in Hland.
    destruct (goes_right (family q) (add q) b).
    + destruct (landing q tr) as [x'|] eqn:Hland'; [|injection Hland as <- <- <-; lia].
      injection Hland as ->.
      destruct (IHr (b + 1) (Some x) fuel a bL pL) as (y & yb & H1 & H2 & H3 & H4);
        [lia|done|done|lia|done|done| |].
      { eexists. split; [done|]. simpl. lia. }
      exists y, yb. split; [done|]. split; [done|]. split; [|done].
      right. apply elem_of_app. by right.
    + destruct (landing q tl) as [x'|] eqn:Hland'; [|injection Hland as <- <- <-; lia].
      injection Hland as ->.
      destruct (IHl (b + 1) (Some x) fuel a bL pL) as (y & yb & H1 & H2 & H3 & H4);
        [lia|done|done|lia|done|done| |].
      { eexists. split; [done|]. simpl. lia. }
      exists y, yb. split; [done|]. split; [done|]. split; [|done].
      right. apply elem_of_app. by left.
Qed.

(** ** The heap after the attachment *)

Lemma deref_Some h a n : h !! a = Some n → deref h a = Ok n.
Proof. unfold deref. by intros ->. Qed.

Lemma store_Some h a n f : h !! a = Some n → store h a f = Ok (<[a := f n]> h).
Proof. unfold store. intros H. by rewrite (deref_Some _ _ _ H). Qed.

Lemma head_of_set_head q v t :
  head_of (family q) (set_head_by_prefix q v t) = v.
Proof. unfold set_head_by_prefix. by destruct (family q). Qed.

Lemma head_of_set_head_ne q v t fam :
  fam ≠ family q → head_of fam (set_head_by_prefix q v t) = head_of fam t.
Proof. unfold set_head_by_prefix. by destruct (family q), fam. Qed.

Lemma head_of_set_num fam v t : head_of fam (set_num_active_node v t) = head_of fam t.
Proof. by destruct fam. Qed.

Lemma fresh_None (h : heap) : h !! fresh (dom h) = None.
Proof. apply not_elem_of_dom, is_fresh. Qed.

Lemma replace_in_parent_Some h t q pa pn a by_node :
  h !! pa = Some pn →
  replace_in_parent h t q (Some pa) a by_node = Ok (<[pa := replace_child pn a by_node]> h, t).
Proof.
  intros Hpa. unfold replace_in_parent, replace_child. rewrite (deref_Some _ _ _ Hpa).
  cbn [mbind res_bind]. case_bool_decide; by rewrite (store_Some _ _ _ _ Hpa).
Qed.

Lemma num_active_set_head q v t :
  num_active_node (set_head_by_prefix q v t) = num_active_node t.
Proof. unfold set_head_by_prefix. by destruct (family q). Qed.

(** Lookups in a heap built by inserts at addresses known to differ. *)
Ltac look :=
  repeat first
    [ rewrite lookup_insert_eq
    | rewrite lookup_insert_ne by (done || congruence || (intros ->; done))
    | rewrite lookup_delete_ne by (done || congruence || (intros ->; done)) ].

(** One [store] of the code, on a heap in which the address is found. *)
Ltac store_step :=
  match goal with
  | |- context [store ?H ?a ?f] =>
    let Hn := fresh "Hn" in
    eassert (H !! a = Some _) as Hn by (look; done);
    rewrite (store_Some H a _ f Hn); clear Hn;
    cbn [mbind res_bind]
  end.

Ltac frame_rest :=
  let y := fresh "y" in
  let Hy1 := fresh "Hy" in let Hy2 := fresh "Hy" in let Hy3 := fresh "Hy" in
  intros y Hy1 Hy2 Hy3; rewrite !not_elem_of_cons in Hy2;
  destruct Hy2 as (? & ? & _); look; done.

Ltac norm_notin :=
  repeat match goal with
  | H : _ ∉ locs (Node _ _ _ _ _ _) |- _ =>
    simpl in H;
    repeat (rewrite not_elem_of_cons in H || rewrite not_elem_of_app in H);
    destruct_and?
  end.

Ltac frame_rest0 :=
  let y := fresh "y" in
  let Hy1 := fresh "Hy" in let Hy3 := fresh "Hy" in
  intros y Hy1 _ Hy3; simpl in Hy1;
  repeat (rewrite not_elem_of_cons in Hy1 || rewrite not_elem_of_app in Hy1);
  destruct_and?; look; done.

Ltac frame_subtree :=
  match goal with
  | H : repr ?h _ ?t |- repr _ _ ?t =>
    apply (repr_frame h); [|exact H];
    let x := fresh "x" in let Hx := fresh "Hx" in
    intros x Hx; look; done
  end.

Lemma attach_spec h t q test_addr d par a b p dd tl tr :
  valid_prefix q → 8 * Z.of_nat (length test_addr) = maxbits (family q) →
  0 ≤ b → 0 ≤ d →
  repr h par (Node a b p dd tl tr) → NoDup (locs (Node a b p dd tl tr)) →
  slot_ok h t (family q) par (Node a b p dd tl tr) →
  let new := fresh (dom h) in
  let glue := fresh (dom (<[new := new_real_node q]> h)) in
  ∃ h' t',
    radix_lookup_attach true true h t q test_addr d a =
      Ok (h', t', Some (if (d =? bitlen q) && (b =? bitlen q) then a else new)) ∧
    restructured h t h' t' (family q) par (Node a b p dd tl tr)
      (attach_t q test_addr d new glue (Node a b p dd tl tr)) [new; glue] ∧
    num_active_node t' = num_active_node t + allocs q d b.
Proof.
  intros Hq Hlen Hb Hd Hrepr Hnd Hslot new glue.
  pose proof Hrepr as (Ha & Hrl & Hrr).
  apply NoDup_node in Hnd as (Hal & Har & Hndl & Hndr & Hdisj).
  assert (h !! new = None) as Hnew by apply fresh_None.
  assert ((<[new := new_real_node q]> h) !! glue = None) as Hglue by apply fresh_None.
  assert (glue ≠ new) as Hgn by (intros ->; by rewrite lookup_insert_eq in Hglue).
  assert (h !! glue = None) as Hglue' by (by rewrite lookup_insert_ne in Hglue).
  assert (new ≠ a) as Hna by congruence.
  assert (glue ≠ a) as Hga by congruence.
  assert ((new ∉ locs tl) ∧ (new ∉ locs tr) ∧ (glue ∉ locs tl) ∧ glue ∉ locs tr)
    as (Hnl & Hnr & Hgl & Hgr) by (repeat split; by eapply repr_fresh).
  unfold radix_lookup_attach, allocs. rewrite (deref_Some _ _ _ Ha).
  cbn [mbind res_bind bit prefix parent]. unfold attach_t.
  assert (a ∈ locs (Node a b p dd tl tr)) as Hain by left.
  assert (match par with
          | None => True
          | Some pa => pa ≠ a ∧ pa ≠ new ∧ pa ≠ glue ∧ (pa ∉ locs tl) ∧ (pa ∉ locs tr) ∧
                       ∃ pn, h !! pa = Some pn ∧ replace_child pn a (Some a) = pn
          end) as Hpar.
  { destruct par as [pa|]; [|done]. destruct Hslot as (Hpa & pn & Hpn & Hor).
    simpl in Hpa. rewrite not_elem_of_cons, not_elem_of_app in Hpa.
    destruct Hpa as (? & ? & ?).
    split; [done|]. split; [congruence|]. split; [congruence|].
    split; [done|]. split; [done|]. exists pn. split; [done|].
    by apply replace_child_same. }
  destruct ((d =? bitlen q) && (b =? bitlen q)) eqn:Hexact.
  { (* the prefix is at its place *)
    destruct p as [p0|].
    - eexists _, _. split; [done|]. split; [|lia].
      split; [done|]. split; [done|]. split; [|done].
      destruct par as [pa|]; [|done]. split; [done|].
      destruct Hpar as (_ & _ & _ & _ & _ & pn & Hpn & Hsame).
      intros pn' c Hpn' [= <-]. simpl. congruence.
    - repeat store_step. eexists _, _. split; [done|]. split; [|lia].
      split; [|split; [|split]].
      + simpl. split; [look; done|]. split; frame_subtree.
      + frame_rest.
      + destruct par as [pa|]; [|done]. split; [done|].
        destruct Hpar as (? & _ & _ & _ & _ & pn & Hpn & Hsame).
        intros pn' c Hpn' [= <-]. look. simpl. congruence.
      + done. }
  cbn [PyMem_Malloc]. fold new.
  destruct (Z.eqb_spec b d) as [Hbd|Hbd].
  { (* a new leaf below the node *)
    store_step. rewrite maxbits_by_prefix, guarded_bit_test_valid by done.
    cbn [mbind res_bind].
    destruct (goes_right (family q) (add q) b); store_step.
    - eexists _, _. split; [done|]. split; [|simpl; lia].
      split; [|split; [|split]].
      + simpl. split; [look; done|]. split; [frame_subtree|].
        split; [look; done|done].
      + frame_rest.
      + destruct par as [pa|]; [|done]. split; [done|].
        destruct Hpar as (? & ? & _ & _ & _ & pn & Hpn & Hsame).
        intros pn' c Hpn' [= <-]. look. simpl. congruence.
      + done.
    - eexists _, _. split; [done|]. split; [|simpl; lia].
      split; [|split; [|split]].
      + simpl. split; [look; done|]. split; [|frame_subtree].
        split; [look; done|done].
      + frame_rest.
      + destruct par as [pa|]; [|done]. split; [done|].
        destruct Hpar as (? & ? & _ & _ & _ & pn & Hpn & Hsame).
        intros pn' c Hpn' [= <-]. look. simpl. congruence.
      + done. }
  destruct (Z.eqb_spec (bitlen q) d) as [Hqd|Hqd].
  { (* a new node above the node *)
    rewrite maxbits_by_prefix, guarded_bit_test_addr by (done || apply Hq).
    cbn [mbind res_bind].
    destruct (goes_right (family q) test_addr (bitlen q)); repeat store_step.
    - destruct par as [pa|].
      + destruct Hpar as (? & ? & ? & ? & ? & pn & Hpn & Hsame).
        erewrite replace_in_parent_Some by (look; done). cbn [mbind res_bind].
        store_step.
        eexists _, _. split; [done|]. split; [|simpl; lia].
        split; [|split; [|split]].
        * simpl. split; [look; done|]. split; [done|].
          split; [look; done|]. split; frame_subtree.
        * frame_rest.
        * split; [done|]. intros pn' c Hpn' [= <-]. look. simpl. congruence.
        * done.
      + unfold replace_in_parent. cbn [mbind res_bind]. store_step.
        eexists _, _. split; [done|]. split; [|rewrite num_active_set_head; simpl; lia].
        split; [|split; [|split]].
        * simpl. split; [look; done|]. split; [done|].
          split; [look; done|]. split; frame_subtree.
        * frame_rest.
        * by rewrite head_of_set_head.
        * intros fam' Hfam. by rewrite head_of_set_head_ne, head_of_set_num.
    - destruct par as [pa|].
      + destruct Hpar as (? & ? & ? & ? & ? & pn & Hpn & Hsame).
        erewrite replace_in_parent_Some by (look; done). cbn [mbind res_bind].
        store_step.
        eexists _, _. split; [done|]. split; [|simpl; lia].
        split; [|split; [|split]].
        * simpl. split; [look; done|]. split; [|done].
          split; [look; done|]. split; frame_subtree.
        * frame_rest.
        * split; [done|]. intros pn' c Hpn' [= <-]. look. simpl. congruence.
        * done.
      + unfold replace_in_parent. cbn [mbind res_bind]. store_step.
        eexists _, _. split; [done|]. split; [|rewrite num_active_set_head; simpl; lia].
        split; [|split; [|split]].
        * simpl. split; [look; done|]. split; [|done].
          split; [look; done|]. split; frame_subtree.
        * frame_rest.
        * by rewrite head_of_set_head.
        * intros fam' Hfam. by rewrite head_of_set_head_ne, head_of_set_num. }
  (* a glue node above the node *)
  cbn [PyMem_Malloc]. fold glue.
  rewrite maxbits_by_prefix, guarded_bit_test_valid by done.
  cbn [mbind res_bind].
  destruct (goes_right (family q) (add q) d); repeat store_step.
  - destruct par as [pa|].
    + destruct Hpar as (? & ? & ? & ? & ? & pn & Hpn & Hsame).
      erewrite replace_in_parent_Some by (look; done). cbn [mbind res_bind].
      store_step.
      eexists _, _. split; [done|]. split; [|simpl; lia].
      split; [|split; [|split]].
      * simpl. split; [look; done|]. split; [|split; [look; done|done]].
        split; [look; done|]. split; frame_subtree.
      * frame_rest.
      * split; [done|]. intros pn' c Hpn' [= <-]. look. simpl. congruence.
      * done.
    + unfold replace_in_parent. cbn [mbind res_bind]. store_step.
      eexists _, _. split; [done|]. split; [|rewrite num_active_set_head; simpl; lia].
      split; [|split; [|split]].
      * simpl. split; [look; done|]. split; [|split; [look; done|done]].
        split; [look; done|]. split; frame_subtree.
      * frame_rest.
      * by rewrite head_of_set_head.
      * intros fam' Hfam. by rewrite head_of_set_head_ne, !head_of_set_num.
  - destruct par as [pa|].
    + destruct Hpar as (? & ? & ? & ? & ? & pn & Hpn & Hsame).
      erewrite replace_in_parent_Some by (look; done). cbn [mbind res_bind].
      store_step.
      eexists _, _. split; [done|]. split; [|simpl; lia].
      split; [|split; [|split]].
      * simpl. split; [look; done|]. split; [split; [look; done|done]|].
        split; [look; done|]. split; frame_subtree.
      * frame_rest.
      * split; [done|]. intros pn' c Hpn' [= <-]. look. simpl. congruence.
      * done.
    + unfold replace_in_parent. cbn [mbind res_bind]. store_step.
      eexists _, _. split; [done|]. split; [|rewrite num_active_set_head; simpl; lia].
      split; [|split; [|split]].
      * simpl. split; [look; done|]. split; [split; [look; done|done]|].
        split; [look; done|]. split; frame_subtree.
      * frame_rest.
      * by rewrite head_of_set_head.
      * intros fam' Hfam. by rewrite head_of_set_head_ne, !head_of_set_num.
Qed.

(** The attachment at [target] restructures the subtree into [ins_t]. *)
Lemma ins_spec h t q test_addr d :
  valid_prefix q → 8 * Z.of_nat (length test_addr) = maxbits (family q) → 0 ≤ d →
  let new := fresh (dom h) in
  let glue := fresh (dom (<[new := new_real_node q]> h)) in
  ∀ sub lo par x bx,
    0 ≤ lo → pat (family q) lo sub → repr h par sub → NoDup (locs sub) →
    target q d sub = Some (x, bx) → slot_ok h t (family q) par sub →
    ∃ h' t',
      radix_lookup_attach true true h t q test_addr d x =
        Ok (h', t', Some (if (d =? bitlen q) && (bx =? bitlen q) then x else new)) ∧
      restructured h t h' t' (family q) par sub
        (ins_t q test_addr d new glue sub) [new; glue] ∧
      num_active_node t' = num_active_node t + allocs q d bx.
Proof.
  intros Hq Hlen Hd new glue.
  assert (h !! new = None) as Hnew by apply fresh_None.
  assert ((<[new := new_real_node q]> h) !! glue = None) as Hglue by apply fresh_None.
  assert (glue ≠ new) as Hgn by (intros ->; by rewrite lookup_insert_eq in Hglue).
  assert (h !! glue = None) as Hglue' by (by rewrite lookup_insert_ne in Hglue).
  induction sub as [|a b p dd tl IHl tr IHr]; intros lo par x bx Hlo; [done|].
  intros Hpat Hrepr Hnd Htarget Hslot.
  cbn [target ins_t] in *. destruct (Z.leb_spec d b) as [Hdb|Hdb].
  { injection Htarget as <- <-.
    apply attach_spec; try done. simpl in Hpat. lia. }
  pose proof Hpat as (Hb & Hp & Hag & Hleft & Hright & Hpl & Hpr).
  pose proof Hrepr as (Ha & Hrl & Hrr).
  pose proof Hnd as (Hal & Har & Hndl & Hndr & Hdisj)%NoDup_node.
  assert (∀ y, y ∈ [new; glue] → h !! y = None) as Hfl.
  { intros y Hy. rewrite !elem_of_cons in Hy.
    destruct Hy as [->|[->|Hy]]; [done|done|by apply elem_of_nil in Hy]. }
  destruct (target_root _ _ _ _ Htarget) as [c Hc].
  destruct (goes_right (family q) (add q) b) eqn:Hside.
  - destruct (IHr (b + 1) (Some a) x bx) as (h' & t' & Hcall & Hres & Hcnt);
      [lia|done|done|done|done| |].
    { split; [done|]. eexists. split; [done|]. by left. }
    exists h', t'. split; [done|]. split; [|done].
    apply (restructured_child true); try done. by rewrite Hc.
  - destruct (IHl (b + 1) (Some a) x bx) as (h' & t' & Hcall & Hres & Hcnt);
      [lia|done|done|done|done| |].
    { split; [done|]. eexists. split; [done|]. by right. }
    exists h', t'. split; [done|]. split; [|done].
    apply (restructured_child false); try done. by rewrite Hc.
Qed.

(** * Insertion keeps the Patricia invariant *)

Lemma goes_right_lt fam addr b : b < maxbits fam → goes_right fam addr b = getbit addr b.
Proof. intros Hb. unfold goes_right. by rewrite (proj2 (Z.ltb_lt _ _) Hb). Qed.

Lemma elem_of_own_prefix (p : option prefix_t) x : x ∈ own_prefix p ↔ p = Some x.
Proof.
  destruct p as [y|]; simpl.
  - rewrite list_elem_of_singleton. naive_solver.
  - split; [by intros ?%elem_of_nil|done].
Qed.

Lemma elem_of_prefixes_node a b p d tl tr x :
  x ∈ prefixes (Node a b p d tl tr) ↔ p = Some x ∨ x ∈ prefixes tl ∨ x ∈ prefixes tr.
Proof. simpl. by rewrite !elem_of_app, elem_of_own_prefix. Qed.

(** The descent ends on a real node. *)
Lemma landing_real fam q t :
  ∀ lo a bL pL, pat fam lo t → landing q t = Some (a, bL, pL) →
    ∃ np, pL = Some np ∧ np ∈ prefixes t ∧ bitlen np = bL.
Proof.
  induction t as [|a b p d tl IHl tr IHr]; intros lo a' bL pL; [done|].
  intros Hpat. pose proof Hpat as (Hb & Hp & Hag & Hleft & Hright & Hpl & Hpr).
  cbn [landing].
  assert (∀ c, (c = tl ∨ c = tr) → landing q c = None →
            ∃ np, p = Some np ∧ np ∈ prefixes (Node a b p d tl tr) ∧ bitlen np = b) as Hhere.
  { intros c Hc Hnone. destruct p as [p0|].
    - exists p0. split; [done|]. split; [apply elem_of_prefixes_node; by left|]. apply Hp.
    - destruct Hp as [Hnl Hnr]. assert (c ≠ Leaf) as Hne by (by destruct Hc as [-> | ->]).
      destruct (landing_is_Some q c Hne) as [? ?]. congruence. }
  destruct ((b <? bitlen q) || negb (non_null p)) eqn:Hc; cycle 1.
  { intros [= <- <- <-]. apply orb_false_iff in Hc as [_ Hc].
    destruct p as [p0|]; [|done].
    exists p0. split; [done|]. split; [apply elem_of_prefixes_node; by left|]. apply Hp. }
  destruct (goes_right (family q) (add q) b).
  - destruct (landing q tr) as [x'|] eqn:Hland.
    + intros [= ->]. destruct (IHr _ _ _ _ Hpr eq_refl) as (np & ? & ? & ?).
      exists np. split; [done|]. split; [|done]. apply elem_of_prefixes_node. auto.
    + intros [= <- <- <-]. apply (Hhere tr); auto.
  - destruct (landing q tl) as [x'|] eqn:Hland.
    + intros [= ->]. destruct (IHl _ _ _ _ Hpl eq_refl) as (np & ? & ? & ?).
      exists np. split; [done|]. split; [|done]. apply elem_of_prefixes_node. auto.
    + intros [= <- <- <-]. apply (Hhere tl); auto.
Qed.

Lemma ins_t_not_Leaf q ta d new glue t : t ≠ Leaf → ins_t q ta d new glue t ≠ Leaf.
Proof.
  destruct t as [|a b p dd tl tr]; [done|]. intros _. cbn [ins_t attach_t].
  repeat case_match; done.
Qed.

Lemma landing_None_Leaf q t : landing q t = None → t = Leaf.
Proof.
  intros H. destruct t; [done|]. by destruct (landing_is_Some q (Node a b p d t1 t2)) as [? ?];
    [|congruence].
Qed.

Section ins_pure.
Context (q np : prefix_t) (d : Z) (new glue : loc).
Hypothesis Hq : valid_prefix q.
Hypothesis Hd : 0 ≤ d ≤ Z.min (bitlen np) (bitlen q).
Hypothesis Hagree : agree (add q) (add np) d.
Hypothesis Hdiffer :
  d < Z.min (bitlen np) (bitlen q) → getbit (add q) d ≠ getbit (add np) d.

Lemma bitlen_le_maxbits : bitlen q ≤ maxbits (family q).
Proof. apply Hq. Qed.

(** The new prefix agrees, on [n ≤ d] bits, with what agrees with the
    prefix of the landing node. *)
Lemma agree_new x n :
  n ≤ d → agree (add np) (add x) n → agree (add q) (add x) n.
Proof.
  intros Hn Hx. eapply agree_trans; [|done]. by eapply agree_le.
Qed.

(** It suffices that every prefix agrees with the one of the landing
    node. *)
Lemma pat_node lo a b p dd tl tr :
  lo ≤ b ≤ maxbits (family q) →
  match p with
  | Some p0 => family p0 = family q ∧ valid_prefix p0 ∧ bitlen p0 = b
  | None => tl ≠ Leaf ∧ tr ≠ Leaf
  end →
  (∀ x, x ∈ prefixes (Node a b p dd tl tr) → agree (add np) (add x) b) →
  (∀ x, x ∈ prefixes tl → getbit (add x) b = false) →
  (∀ x, x ∈ prefixes tr → getbit (add x) b = true) →
  pat (family q) (b + 1) tl → pat (family q) (b + 1) tr →
  pat (family q) lo (Node a b p dd tl tr).
Proof.
  intros Hb Hp Hnp Hl Hr Hpl Hpr. simpl. split; [done|]. split; [done|].
  split; [|done]. intros x y Hx Hy.
  eapply agree_trans; [apply agree_sym|]; by apply Hnp.
Qed.

Lemma pat_new_leaf lo : lo ≤ bitlen q → pat (family q) lo (new_leaf new q).
Proof.
  intros Hlo. simpl. split; [pose proof bitlen_le_maxbits; lia|].
  split; [done|]. split; [|split; [|split]]; try done.
  - intros x y Hx Hy.
    apply list_elem_of_singleton in Hx as ->. apply list_elem_of_singleton in Hy as ->.
    apply agree_refl.
  - intros x Hx. by apply elem_of_nil in Hx.
  - intros x Hx. by apply elem_of_nil in Hx.
Qed.

Lemma elem_of_prefixes_new_leaf x : x ∈ prefixes (new_leaf new q) ↔ x = q.
Proof. simpl. by rewrite list_elem_of_singleton. Qed.

Lemma attach_pat lo a b p dd tl tr aL :
  0 ≤ lo → lo ≤ d → d ≤ b →
  pat (family q) lo (Node a b p dd tl tr) →
  landing q (Node a b p dd tl tr) = Some (aL, bitlen np, Some np) →
  ins_post q d new glue lo (Node a b p dd tl tr)
    (attach_t q (add np) d new glue (Node a b p dd tl tr)) a b.
Proof.
  intros Hlo Hlod Hdb Hpat Hland.
  pose proof Hpat as (Hb & Hp & Hag & Hleft & Hright & Hpl & Hpr).
  pose proof bitlen_le_maxbits as Hqmax.
  destruct (landing_real _ _ _ _ _ _ _ Hpat Hland) as (np' & [= <-] & Hnp & _).
  assert (b ≤ bitlen np) as HbL.
  { eapply (landing_bit (family q) q b); [|done]. eapply pat_weaken; [|done]. simpl. lia. }
  assert (∀ x, x ∈ prefixes (Node a b p dd tl tr) → agree (add np) (add x) b) as Hold
    by (intros x Hx; by apply Hag).
  assert (agree (add np) (add q) d) as Hnpq by (by apply agree_sym).
  unfold ins_post, alloc_list. cbn [attach_t].
  destruct ((d =? bitlen q) && (b =? bitlen q)) eqn:Hexact.
  { apply andb_true_iff in Hexact as [Hdq%Z.eqb_eq Hbq%Z.eqb_eq].
    destruct p as [p0|].
    - split; [done|]. split; [by right|]. split; [done|].
      exists p0. split; [simpl; by left|].
      eapply agree_trans;
        [apply agree_sym; rewrite <- Hbq; apply Hold|rewrite <- Hdq; exact Hnpq].
      apply elem_of_prefixes_node. by left.
    - split; [|split; [|split]].
      + apply pat_node; try done.
        intros x [[= <-]|Hx]%elem_of_prefixes_node; [by rewrite Hbq, <- Hdq|].
        apply Hold. apply elem_of_prefixes_node. by right.
      + intros y Hy. apply elem_of_prefixes_node in Hy as [[= <-]|Hy]; [by left|].
        right. by apply elem_of_prefixes_node; right.
      + done.
      + exists q. split; [simpl; by left|]. apply agree_refl. }
  apply andb_false_iff in Hexact.
  destruct (Z.eqb_spec b d) as [Hbd|Hbd].
  { (* a new leaf below *)
    assert (d < bitlen q) as Hdq.
    { destruct Hexact as [?%Z.eqb_neq|?%Z.eqb_neq]; lia. }
    assert (landing q (if goes_right (family q) (add q) b then tr else tl) = None) as Hnone.
    { destruct (landing q (if goes_right (family q) (add q) b then tr else tl))
        as [[[x bx] px]|] eqn:Hbelow; [|done]. exfalso.
      assert (pat (family q) (b + 1) (if goes_right (family q) (add q) b then tr else tl))
        as Hpc by (by destruct (goes_right (family q) (add q) b)).
      cbn [landing] in Hland.
      rewrite (proj2 (Z.ltb_lt b (bitlen q))), Hbelow in Hland by lia.
      simpl in Hland. injection Hland as -> -> ->.
      destruct (landing_real _ _ _ _ _ _ _ Hpc Hbelow) as (np' & [= <-] & Hin & _).
      pose proof (landing_bit _ _ _ _ _ _ _ Hpc Hbelow) as Hlt.
      apply Hdiffer; [lia|]. subst b.
      rewrite goes_right_lt in Hin by lia.
      destruct (getbit (add q) d) eqn:Hgb; symmetry; auto. }
    apply landing_None_Leaf in Hnone. subst b.
    destruct (goes_right (family q) (add q) d) eqn:Hside; subst;
      rewrite goes_right_lt in Hside by lia.
    - split; [|split; [|split]].
      + apply pat_node; try done.
        * by destruct p as [?|]; [|destruct Hp].
        * intros x [Hx|[Hx|Hx%elem_of_prefixes_new_leaf]]%elem_of_prefixes_node.
          -- apply Hold, elem_of_prefixes_node. auto.
          -- apply Hold, elem_of_prefixes_node. auto.
          -- by subst x.
        * by intros x ->%elem_of_prefixes_new_leaf.
        * apply pat_new_leaf. lia.
      + intros y [Hy|[Hy|Hy%elem_of_prefixes_new_leaf]]%elem_of_prefixes_node.
        * right. apply elem_of_prefixes_node. auto.
        * right. apply elem_of_prefixes_node. auto.
        * by left.
      + simpl. rewrite app_nil_r. rewrite (Permutation_app_comm (locs tl) [new]).
        simpl. apply perm_swap.
      + exists q. split; [simpl; right; right; by left|]. apply agree_refl.
    - split; [|split; [|split]].
      + apply pat_node; try done.
        * by destruct p as [?|]; [|destruct Hp].
        * intros x [Hx|[Hx%elem_of_prefixes_new_leaf|Hx]]%elem_of_prefixes_node.
          -- apply Hold, elem_of_prefixes_node. auto.
          -- by subst x.
          -- apply Hold, elem_of_prefixes_node. auto.
        * by intros x ->%elem_of_prefixes_new_leaf.
        * apply pat_new_leaf. lia.
      + intros y [Hy|[Hy%elem_of_prefixes_new_leaf|Hy]]%elem_of_prefixes_node.
        * right. apply elem_of_prefixes_node. auto.
        * by left.
        * right. apply elem_of_prefixes_node. auto.
      + simpl. apply perm_swap.
      + exists q. split; [simpl; right; left; by left|]. apply agree_refl. }
  assert (d < b) as Hlt by lia.
  assert (∀ x, x ∈ prefixes (Node a b p dd tl tr) →
            getbit (add x) d = getbit (add np) d) as Hbitd.
  { intros x Hx. symmetry. apply (Hold x Hx). lia. }
  assert (pat (family q) (d + 1) (Node a b p dd tl tr)) as HpatX.
  { eapply pat_weaken; [|done]. simpl. lia. }
  destruct (Z.eqb_spec (bitlen q) d) as [Hqd|Hqd].
  { (* a new node above *)
    assert (∀ x, x ∈ prefixes (Node new (bitlen q) (Some q) None Leaf (Node a b p dd tl tr)) ∨
                 x ∈ prefixes (Node new (bitlen q) (Some q) None (Node a b p dd tl tr) Leaf) →
              x = q ∨ x ∈ prefixes (Node a b p dd tl tr)) as Hmem.
    { intros x [Hx|Hx]; apply elem_of_prefixes_node in Hx as [[= <-]|[Hx|Hx]]; auto;
        by apply elem_of_nil in Hx. }
    assert (∀ x, x = q ∨ x ∈ prefixes (Node a b p dd tl tr) →
              agree (add np) (add x) (bitlen q)) as Hnew.
    { intros x [->|Hx]; [by rewrite Hqd|]. eapply agree_le; [|by apply Hold]. lia. }
    assert (goes_right (family q) (add np) (bitlen q) = getbit (add np) d) as ->
      by (rewrite Hqd; apply goes_right_lt; lia).
    destruct (getbit (add np) d) eqn:Hside.
    - split; [|split; [|split]].
      + apply pat_node.
        * lia.
        * done.
        * intros x Hx. apply Hnew, Hmem. by left.
        * intros x Hx. by apply elem_of_nil in Hx.
        * intros x Hx. rewrite Hqd, Hbitd; done.
        * done.
        * by rewrite Hqd.
      + intros y Hy. apply Hmem. by left.
      + done.
      + exists q. split; [simpl; by left|]. apply agree_refl.
    - split; [|split; [|split]].
      + apply pat_node.
        * lia.
        * done.
        * intros x Hx. apply Hnew, Hmem. by right.
        * intros x Hx. rewrite Hqd, Hbitd; done.
        * intros x Hx. by apply elem_of_nil in Hx.
        * by rewrite Hqd.
        * done.
      + intros y Hy. apply Hmem. by right.
      + simpl. by rewrite app_nil_r.
      + exists q. split; [simpl; by left|]. apply agree_refl. }
  (* a glue node above *)
  assert (d < bitlen q) as Hdq by lia.
  assert (getbit (add q) d ≠ getbit (add np) d) as Hne by (apply Hdiffer; lia).
  assert (∀ x, x ∈ prefixes (Node glue d None None (Node a b p dd tl tr) (new_leaf new q)) ∨
               x ∈ prefixes (Node glue d None None (new_leaf new q) (Node a b p dd tl tr)) →
            x = q ∨ x ∈ prefixes (Node a b p dd tl tr)) as Hmem.
  { intros x [Hx|Hx]; apply elem_of_prefixes_node in Hx as [[=]|[Hx|Hx]]; auto;
      apply elem_of_prefixes_new_leaf in Hx; auto. }
  assert (∀ x, x = q ∨ x ∈ prefixes (Node a b p dd tl tr) →
            agree (add np) (add x) d) as Hnew.
  { intros x [->|Hx]; [done|]. eapply agree_le; [|by apply Hold]. lia. }
  rewrite goes_right_lt by lia.
  destruct (getbit (add q) d) eqn:Hside.
  - split; [|split; [|split]].
    + apply pat_node.
      * lia.
      * done.
      * intros x Hx. apply Hnew, Hmem. by left.
      * intros x Hx. rewrite Hbitd by done. by destruct (getbit (add np) d).
      * by intros x ->%elem_of_prefixes_new_leaf.
      * done.
      * apply pat_new_leaf. lia.
    + intros y Hy. apply Hmem. by left.
    + cbn [locs new_leaf]. rewrite app_nil_r.
      rewrite (Permutation_app_comm _ [new]). simpl. apply perm_swap.
    + exists q. split; [simpl; right; right; by left|]. apply agree_refl.
  - split; [|split; [|split]].
    + apply pat_node.
      * lia.
      * done.
      * intros x Hx. apply Hnew, Hmem. by right.
      * by intros x ->%elem_of_prefixes_new_leaf.
      * intros x Hx. rewrite Hbitd by done. by destruct (getbit (add np) d).
      * apply pat_new_leaf. lia.
      * done.
    + intros y Hy. apply Hmem. by right.
    + simpl. apply perm_swap.
    + exists q. split; [simpl; right; left; by left|]. apply agree_refl.
Qed.

Lemma ins_pat t :
  ∀ lo aL x bx,
    0 ≤ lo → lo ≤ d → pat (family q) lo t →
    landing q t = Some (aL, bitlen np, Some np) →
    target q d t = Some (x, bx) →
    ins_post q d new glue lo t (ins_t q (add np) d new glue t) x bx.
Proof.
  induction t as [|a b p dd tl IHl tr IHr]; intros lo aL x bx Hlo Hlod Hpat Hland Htarget;
    [done|].
  cbn [ins_t target] in *. destruct (Z.leb_spec d b) as [Hdb|Hdb].
  { injection Htarget as <- <-. by eapply attach_pat. }
  pose proof Hpat as (Hb & Hp & Hag & Hleft & Hright & Hpl & Hpr).
  pose proof bitlen_le_maxbits as Hqmax.
  destruct (landing_real _ _ _ _ _ _ _ Hpat Hland) as (np' & [= <-] & Hnp & _).
  assert (∀ x, x ∈ prefixes (Node a b p dd tl tr) → agree (add np) (add x) b) as Hold
    by (intros y Hy; by apply Hag).
  assert (agree (add np) (add q) b) as Hnpq.
  { apply agree_sym. eapply agree_le; [|done]. lia. }
  cbn [landing] in Hland.
  rewrite (proj2 (Z.ltb_lt b (bitlen q))) in Hland by lia. simpl in Hland.
  destruct (landing q (if goes_right (family q) (add q) b then tr else tl))
    as [below|] eqn:Hbelow; [|injection Hland as ? ? ?; lia].
  injection Hland as ->.
  assert (getbit (add q) b = goes_right (family q) (add q) b) as Hgb
    by (rewrite goes_right_lt; [done|lia]).
  destruct (goes_right (family q) (add q) b) eqn:Hside.
  - destruct (IHr (b + 1) aL x bx) as (H1 & H2 & H3 & p' & H4 & H5); [lia..|done|done|done|].
    split; [|split; [|split]].
    + apply pat_node; try done.
      * destruct p as [?|]; [done|]. split; [apply Hp|].
        apply ins_t_not_Leaf. intros ->. done.
      * intros y [Hy|[Hy|Hy]]%elem_of_prefixes_node.
        -- apply Hold, elem_of_prefixes_node. auto.
        -- apply Hold, elem_of_prefixes_node. auto.
        -- destruct (H2 _ Hy) as [->|Hy']; [done|].
           apply Hold, elem_of_prefixes_node. auto.
      * intros y Hy. destruct (H2 _ Hy) as [->|Hy']; auto.
    + intros y [Hy|[Hy|Hy]]%elem_of_prefixes_node.
      * right. apply elem_of_prefixes_node. auto.
      * right. apply elem_of_prefixes_node. auto.
      * destruct (H2 _ Hy) as [->|Hy']; [by left|].
        right. apply elem_of_prefixes_node. auto.
    + cbn [locs]. rewrite H3.
      apply (Permutation_app_swap_app (a :: locs tl)).
    + exists p'. split; [|done]. simpl. auto.
  - destruct (IHl (b + 1) aL x bx) as (H1 & H2 & H3 & p' & H4 & H5); [lia..|done|done|done|].
    split; [|split; [|split]].
    + apply pat_node; try done.
      * destruct p as [?|]; [done|]. split; [|apply Hp].
        apply ins_t_not_Leaf. intros ->. done.
      * intros y [Hy|[Hy|Hy]]%elem_of_prefixes_node.
        -- apply Hold, elem_of_prefixes_node. auto.
        -- destruct (H2 _ Hy) as [->|Hy']; [done|].
           apply Hold, elem_of_prefixes_node. auto.
        -- apply Hold, elem_of_prefixes_node. auto.
      * intros y Hy. destruct (H2 _ Hy) as [->|Hy']; auto.
    + intros y [Hy|[Hy|Hy]]%elem_of_prefixes_node.
      * right. apply elem_of_prefixes_node. auto.
      * destruct (H2 _ Hy) as [->|Hy']; [by left|].
        right. apply elem_of_prefixes_node. auto.
      * right. apply elem_of_prefixes_node. auto.
    + cbn [locs]. rewrite H3. rewrite <- app_assoc.
      apply Permutation_middle.
    + exists p'. split; [|done]. simpl. auto.
Qed.
End ins_pure.

(** * The invariant and [radix_lookup] *)

Lemma inv_fam_inv h t fam : inv h t ↔ ∃ T O, fam_inv h t fam T O.
Proof.
  assert (∀ (l1 l2 : list loc), NoDup (l1 ++ l2) → NoDup (l2 ++ l1)) as Hnd.
  { intros l1 l2 H. by rewrite (Permutation_app_comm l2 l1). }
  assert (∀ (l1 l2 : list loc), length (l1 ++ l2) = length (l2 ++ l1)) as Hlen.
  { intros l1 l2. rewrite !length_app. lia. }
  unfold inv, tree_inv, fam_inv. destruct fam; simpl.
  - done.
  - split.
    + intros (t4 & t6 & H1 & H2 & H3 & H4 & H5 & H6 & H7 & H8).
      exists t6, t4. rewrite (Hlen (locs t6)). auto 10.
    + intros (t6 & t4 & H1 & H2 & H3 & H4 & H5 & H6 & H7 & H8).
      exists t4, t6. rewrite (Hlen (locs t4)). auto 10.
Qed.

Lemma tree_inv_fam h t t4 t6 fam :
  tree_inv h t t4 t6 →
  fam_inv h t fam (match fam with AF_INET => t4 | AF_INET6 => t6 end)
                  (match fam with AF_INET => t6 | AF_INET6 => t4 end).
Proof.
  intros (H1 & H2 & H3 & H4 & H5 & H6 & H7 & H8). destruct fam.
  - done.
  - unfold fam_inv. simpl. split; [done|]. split; [done|]. split; [done|].
    split; [done|]. split; [by rewrite Permutation_app_comm|].
    split; [done|]. split; [done|]. rewrite H8, !length_app. lia.
Qed.

Lemma fam_inv_tree h t fam T O :
  fam_inv h t fam T O →
  tree_inv h t (match fam with AF_INET => T | AF_INET6 => O end)
               (match fam with AF_INET => O | AF_INET6 => T end).
Proof.
  intros (H1 & H2 & H3 & H4 & H5 & H6 & H7 & H8). destruct fam.
  - done.
  - unfold tree_inv. simpl in *. split; [done|]. split; [done|]. split; [done|].
    split; [done|]. split; [by rewrite Permutation_app_comm|].
    split; [done|]. split; [done|]. rewrite H8, !length_app. lia.
Qed.

Lemma other_ne fam : other fam ≠ fam.
Proof. by destruct fam. Qed.

Lemma alloc_list_length q d b new glue :
  Z.of_nat (length (alloc_list q d b new glue)) = allocs q d b.
Proof. unfold alloc_list, allocs. repeat case_match; done. Qed.

Lemma alloc_list_sub q d b new glue x :
  x ∈ alloc_list q d b new glue → x = new ∨ x = glue.
Proof.
  unfold alloc_list. repeat case_match; rewrite ?elem_of_cons, ?elem_of_nil; tauto.
Qed.

Lemma alloc_list_NoDup q d b new glue : new ≠ glue → NoDup (alloc_list q d b new glue).
Proof.
  intros Hne. unfold alloc_list. repeat case_match.
  - apply NoDup_nil_2.
  - apply NoDup_singleton.
  - apply NoDup_singleton.
  - apply NoDup_cons. split; [by intros ?%list_elem_of_singleton|apply NoDup_singleton].
Qed.

(** A successful lookup does not depend on the allocator beyond its
    success. *)
Lemma radix_lookup_attach_ok ok1 ok2 h t q ta d x h' t' n :
  radix_lookup_attach ok1 ok2 h t q ta d x = Ok (h', t', Some n) →
  radix_lookup_attach true true h t q ta d x = Ok (h', t', Some n).
Proof.
  unfold radix_lookup_attach. destruct (deref h x) as [nx|]; [|done].
  cbn [mbind res_bind]. destruct ((d =? bitlen q) && (bit nx =? bitlen q)); [done|].
  destruct ok1; [|done]. cbn [PyMem_Malloc].
  destruct (bit nx =? d); [done|]. destruct (bitlen q =? d); [done|].
  destruct ok2; done.
Qed.

Lemma radix_lookup_ok ok1 ok2 h t q h' t' n :
  radix_lookup ok1 ok2 h t q = Ok (h', t', Some n) →
  radix_lookup true true h t q = Ok (h', t', Some n).
Proof.
  unfold radix_lookup. destruct (RADIX_HEAD_BY_PREFIX t q).
  - destruct (radix_lookup_descend _ _ _ _ _ _) as [a|]; [|done]. cbn [mbind res_bind].
    destruct (deref h a) as [na|]; [|done]. cbn [mbind res_bind].
    destruct (prefix na); [|done].
    destruct (radix_lookup_ascend _ _ _ _) as [x|]; [|done]. cbn [mbind res_bind].
    apply radix_lookup_attach_ok.
  - by destruct ok1.
Qed.

(** What a lookup that allocates freely does to a state that satisfies
    the invariant; the nodes of the trie stay in the trie, and the nodes
    that join it are new in the heap. *)
Lemma radix_lookup_spec_nodes h t q T O :
  valid_prefix q → fam_inv h t (family q) T O →
  ∃ h' t' n T' p',
    radix_lookup true true h t q = Ok (h', t', Some n) ∧
    fam_inv h' t' (family q) T' O ∧
    node_in T' n (bitlen q) (Some p') ∧ agree (add p') (add q) (bitlen q) ∧
    (∀ y, y ∈ prefixes T' → y = q ∨ y ∈ prefixes T) ∧
    (∀ y, y ∈ locs O → h' !! y = h !! y) ∧
    (∀ y, y ∈ locs T → y ∈ locs T') ∧
    (∀ y, y ∈ locs T' → y ∈ locs T ∨ h !! y = None).
Proof.
  intros Hq (Hhead & Hheado & HrT & HrO & Hnd & HpT & HpO & Hnum).
  assert (h !! fresh (dom h) = None) as Hnew by apply fresh_None.
  unfold radix_lookup. rewrite head_by_prefix, Hhead.
  destruct T as [|a b p dd tl tr] eqn:ET.
  { (* the first prefix of the family *)
    cbn [root PyMem_Malloc]. set (new := fresh (dom h)) in *.
    eexists _, _, new, (new_leaf new q), q. split; [done|].
    assert (new ∉ locs O) as HnO by (by eapply repr_fresh).
    split; [|split; [simpl; by left|split; [apply agree_refl|split]]].
    - split; [|split; [|split; [|split; [|split; [|split; [|split]]]]]].
      + by rewrite head_of_set_num, head_of_set_head.
      + rewrite head_of_set_num, head_of_set_head_ne by apply other_ne. done.
      + simpl. by rewrite lookup_insert_eq.
      + by apply repr_insert_fresh.
      + simpl. apply NoDup_cons. split; [done|]. by simpl in Hnd.
      + apply pat_new_leaf; [done..|apply Hq].
      + done.
      + simpl in *. rewrite num_active_set_head. lia.
    - intros y Hy. left. simpl in Hy. by apply list_elem_of_singleton in Hy.
    - split; [|split].
      + intros y Hy. apply lookup_insert_ne. intros <-. done.
      + by intros y ?%elem_of_nil.
      + intros y Hy. right. simpl in Hy. by apply list_elem_of_singleton in Hy as ->. }
  rewrite <- ET in *. assert (root T = Some a) as Hroot by (by subst T).
  rewrite Hroot. clear ET.
  apply NoDup_app in Hnd as (HndT & HdisTO & HndO).
  destruct (landing_is_Some q T) as [[[aL bL] pL] Hland]; [by intros ->|].
  destruct (landing_real _ _ _ _ _ _ _ HpT Hland) as (np & -> & Hnp & HbL).
  destruct (pat_prefixes _ _ _ _ HpT Hnp) as (Hfam & Hvnp & Hnp0).
  destruct (descend_landing q h T Hq 0 None (fuel_of h) a aL bL (Some np))
    as (Hdesc & HaL & nL & HnL & HbitL & HprefL); [done|done|done| |done|done|].
  { pose proof (height_fuel _ _ _ HndT HrT). lia. }
  rewrite maxbits_by_prefix, Hdesc. cbn [mbind res_bind].
  rewrite (deref_Some _ _ _ HnL). cbn [mbind res_bind]. rewrite HprefL, HbitL.
  set (d := find_differ_bit (add q) (add np) bL (bitlen q)).
  destruct (find_differ_bit_spec (add q) (add np) bL (bitlen q))
    as (Hd & Hagree & Hdiffer); [apply Hq|apply Hvnp|lia|apply Hq|].
  fold d in Hd, Hagree, Hdiffer.
  destruct (ascend_target q h d T Hq 0 None (fuel_of h) aL bL (Some np))
    as (x & bx & Htarget & Hasc & Hx & Hdx); [done|done|done| |done|lia|done|].
  { by apply (height_fuel _ None). }
  rewrite Hasc. cbn [mbind res_bind].
  set (new := fresh (dom h)) in *.
  set (glue := fresh (dom (<[new := new_real_node q]> h))).
  destruct (ins_spec h t q (add np) d Hq) with (sub := T) (lo := 0) (par := @None loc)
    (x := x) (bx := bx) as (h' & t' & Hcall & Hres & Hcnt); [| lia |done..|].
  { destruct Hvnp as (_ & Hlen & _). by rewrite Hlen, Hfam. }
  fold new glue in Hcall, Hres.
  destruct Hres as (HrT' & Hframe & Hhead' & Hheads').
  subst bL.
  destruct (ins_pat q np d new glue Hq) with (t := T) (lo := 0) (aL := aL) (x := x) (bx := bx)
    as (HpT' & Hpref' & Hlocs' & p' & Hnode & Hagp); [lia|done|done|lia|lia|done|done|done|].
  assert ((<[new := new_real_node q]> h) !! glue = None) as Hglue by apply fresh_None.
  assert (glue ≠ new) as Hgn by (intros Heq; by rewrite Heq, lookup_insert_eq in Hglue).
  assert (h !! glue = None) as Hglue' by (by rewrite lookup_insert_ne in Hglue).
  assert (∀ y, is_Some (h !! y) → y ∉ [new; glue]) as Hfl.
  { intros y [ny Hy]. rewrite !not_elem_of_cons. split; [congruence|].
    split; [congruence|apply not_elem_of_nil]. }
  eexists h', t', _, _, p'. split; [exact Hcall|].
  split; [|split; [done|split; [done|split; [done|]]]].
  - split; [done|]. split; [by rewrite Hheads' by apply other_ne|].
    split; [done|]. split.
    { apply (repr_frame h); [|done]. intros y Hy. apply Hframe; [|apply Hfl|done].
      - intros HyT. by eapply HdisTO.
      - by eapply repr_is_Some. }
    split.
    { rewrite Hlocs'. rewrite <- app_assoc. apply NoDup_app.
      split; [by apply alloc_list_NoDup|]. split; [|by apply NoDup_app].
      intros y Hy Hy'. apply alloc_list_sub in Hy.
      apply elem_of_app in Hy' as [Hy'|Hy'].
      - destruct (repr_is_Some _ _ _ _ HrT Hy') as [? ?]. destruct Hy; congruence.
      - destruct (repr_is_Some _ _ _ _ HrO Hy') as [? ?]. destruct Hy; congruence. }
    split; [done|]. split; [done|].
    rewrite Hcnt, Hnum. rewrite !length_app, Hlocs', length_app.
    pose proof (alloc_list_length q d bx new glue). lia.
  - split; [|split].
    + intros y Hy. apply Hframe; [|apply Hfl|done].
      * intros HyT. by eapply HdisTO.
      * by eapply repr_is_Some.
    + intros y Hy. rewrite Hlocs'. apply elem_of_app. by right.
    + intros y Hy. rewrite Hlocs' in Hy. apply elem_of_app in Hy as [Hy|Hy]; [|by left].
      right. apply alloc_list_sub in Hy as [-> | ->]; done.
Qed.

Lemma radix_lookup_spec h t q T O :
  valid_prefix q → fam_inv h t (family q) T O →
  ∃ h' t' n T' p',
    radix_lookup true true h t q = Ok (h', t', Some n) ∧
    fam_inv h' t' (family q) T' O ∧
    node_in T' n (bitlen q) (Some p') ∧ agree (add p') (add q) (bitlen q) ∧
    (∀ y, y ∈ prefixes T' → y = q ∨ y ∈ prefixes T) ∧
    (∀ y, y ∈ locs O → h' !! y = h !! y).
Proof.
  intros Hq Hinv.
  destruct (radix_lookup_spec_nodes h t q T O Hq Hinv)
    as (h' & t' & n & T' & p' & H1 & H2 & H3 & H4 & H5 & H6 & _).
  by exists h', t', n, T', p'.
Qed.

(** * Deletion *)

Lemma del_t_notin x t : x ∉ locs t → del_t x t = t.
Proof.
  induction t as [|a b p d tl IHl tr IHr]; [done|]. simpl.
  rewrite not_elem_of_cons, not_elem_of_app. intros (Hne & Hl & Hr).
  rewrite bool_decide_eq_false_2 by done.
  assert (∀ c, x ∉ locs c → is_leaf_node c x = false) as Hleaf.
  { intros [|c cb cp cd [|] [|]] Hc; simpl; try done.
    apply bool_decide_eq_false_2. intros ->. apply Hc. left. }
  rewrite !Hleaf, !andb_false_r by done. by rewrite IHl, IHr.
Qed.

Lemma is_leaf_node_true t x :
  is_leaf_node t x = true → ∃ b p d, t = Node x b p d Leaf Leaf.
Proof.
  destruct t as [|a b p d [|] [|]]; simpl; try done.
  intros ->%bool_decide_eq_true. eauto.
Qed.

(** The node itself is removed: two children, no child, or one child. *)
Lemma remove_here h t x b np dd tl tr par :
  repr h par (Node x b (Some np) dd tl tr) →
  NoDup (locs (Node x b (Some np) dd tl tr)) →
  slot_ok h t (family np) par (Node x b (Some np) dd tl tr) →
  match par with
  | Some pa => tl = Leaf → tr = Leaf → ∃ pn, h !! pa = Some pn ∧ prefix pn ≠ None
  | None => True
  end →
  ∃ h' t',
    radix_remove h t x = Ok (h', t') ∧
    restructured h t h' t' (family np) par (Node x b (Some np) dd tl tr)
      (del_t x (Node x b (Some np) dd tl tr)) [] ∧
    num_active_node t' =
      num_active_node t - (if non_null (root tl) && non_null (root tr) then 0 else 1).
Proof.
  intros Hrepr Hnd Hslot Hpar.
  pose proof Hrepr as (Hx & Hrl & Hrr).
  apply NoDup_node in Hnd as (Hxl & Hxr & Hndl & Hndr & Hdisj).
  assert (match par with
          | None => True
          | Some pa => pa ≠ x ∧ (pa ∉ locs tl) ∧ (pa ∉ locs tr) ∧
                       ∃ pn, h !! pa = Some pn ∧ replace_child pn x (Some x) = pn
          end) as Hpar'.
  { destruct par as [pa|]; [|done]. destruct Hslot as (Hpa & pn & Hpn & Hor).
    simpl in Hpa. rewrite not_elem_of_cons, not_elem_of_app in Hpa.
    destruct Hpa as (? & ? & ?).
    split; [done|]. split; [done|]. split; [done|]. exists pn. split; [done|].
    by apply replace_child_same. }
  unfold radix_remove. rewrite (deref_Some _ _ _ Hx).
  cbn [mbind res_bind prefix r l parent del_t]. rewrite bool_decide_eq_true_2 by done.
  destruct tr as [|rc rb rp rd rl rr] eqn:Etr; destruct tl as [|lc lb lp ld ll lr] eqn:Etl;
    cbn [root non_null andb].
  - (* no child *)
    unfold PyMem_Free. destruct par as [pa|].
    + destruct Hpar as (pn & Hpn & Hreal); [done..|].
      destruct Hpar' as (? & _ & _ & pn' & Hpn' & _).
      assert (pn' = pn) as -> by congruence.
      rewrite (deref_Some _ pa pn) by (look; done). cbn [mbind res_bind].
      assert ((if bool_decide (r pn = Some x)
               then store (delete x h) pa (set_r None) ≫= λ h0, Ok (h0, l pn)
               else store (delete x h) pa (set_l None) ≫= λ h0, Ok (h0, r pn)) =
              Ok (<[pa := replace_child pn x None]> (delete x h),
                  if bool_decide (r pn = Some x) then l pn else r pn)) as ->.
      { unfold replace_child. case_bool_decide; by store_step. }
      cbn [mbind res_bind]. destruct (prefix pn) as [pp|] eqn:Hpp; [|done].
      eexists _, _. split; [done|]. split; [|simpl; lia].
      split; [done|]. split; [frame_rest0|]. split; [|done].
      split; [done|]. intros pn0 c Hpn0 [= <-]. look. simpl. congruence.
    + eexists _, _. split; [done|]. split; [|rewrite num_active_set_head; simpl; lia].
      split; [done|]. split; [frame_rest0|]. split.
      * by rewrite head_of_set_head.
      * intros fam' Hfam. by rewrite head_of_set_head_ne, head_of_set_num.
  - (* the left child only *)
    destruct Hrl as (Hlc & Hrll & Hrlr).
    apply NoDup_node in Hndl as (? & ? & _ & _ & _).
    assert (lc ≠ x) as Hlcx by (intros ->; apply Hxl; left).
    norm_notin. store_step. unfold PyMem_Free.
    destruct par as [pa|].
    + destruct Hpar' as (? & Hpal & _ & pn & Hpn & _).
      assert (pa ≠ lc) by (intros ->; apply Hpal; left). norm_notin.
      erewrite replace_in_parent_Some by (look; done).
      eexists _, _. split; [done|]. split; [|simpl; lia].
      split; [|split; [frame_rest0|split; [|done]]].
      * simpl. split; [look; done|]. split; frame_subtree.
      * split; [done|]. intros pn0 c Hpn0 [= <-]. look. simpl. congruence.
    + unfold replace_in_parent.
      eexists _, _. split; [done|]. split; [|rewrite num_active_set_head; simpl; lia].
      split; [|split; [frame_rest0|split]].
      * simpl. split; [look; done|]. split; frame_subtree.
      * by rewrite head_of_set_head.
      * intros fam' Hfam. by rewrite head_of_set_head_ne, head_of_set_num.
  - (* the right child only *)
    destruct Hrr as (Hrc & Hrrl & Hrrr).
    apply NoDup_node in Hndr as (? & ? & _ & _ & _).
    assert (rc ≠ x) as Hrcx by (intros ->; apply Hxr; left).
    norm_notin. store_step. unfold PyMem_Free.
    destruct par as [pa|].
    + destruct Hpar' as (? & _ & Hpar' & pn & Hpn & _).
      assert (pa ≠ rc) by (intros ->; apply Hpar'; left). norm_notin.
      erewrite replace_in_parent_Some by (look; done).
      eexists _, _. split; [done|]. split; [|simpl; lia].
      split; [|split; [frame_rest0|split; [|done]]].
      * simpl. split; [look; done|]. split; frame_subtree.
      * split; [done|]. intros pn0 c Hpn0 [= <-]. look. simpl. congruence.
    + unfold replace_in_parent.
      eexists _, _. split; [done|]. split; [|rewrite num_active_set_head; simpl; lia].
      split; [|split; [frame_rest0|split]].
      * simpl. split; [look; done|]. split; frame_subtree.
      * by rewrite head_of_set_head.
      * intros fam' Hfam. by rewrite head_of_set_head_ne, head_of_set_num.
  - (* two children: the node becomes a glue node *)
    repeat store_step.
    eexists _, _. split; [done|]. split; [|lia].
    split; [|split; [frame_rest0|split; [|done]]].
    + split; [look; done|]. split; frame_subtree.
    + destruct par as [pa|]; [|done]. split; [done|].
      destruct Hpar' as (? & _ & _ & pn & Hpn & Hsame).
      intros pn0 c Hpn0 [= <-]. look. simpl. congruence.
Qed.

(** A leaf below a glue node is removed with the glue node. *)
Lemma remove_below_glue (side : bool) h t x a b dd tl tr par xb np xd :
  (if side then tr else tl) = Node x xb (Some np) xd Leaf Leaf →
  (if side then tl else tr) ≠ Leaf →
  repr h par (Node a b None dd tl tr) →
  NoDup (locs (Node a b None dd tl tr)) →
  slot_ok h t (family np) par (Node a b None dd tl tr) →
  ∃ h' t',
    radix_remove h t x = Ok (h', t') ∧
    restructured h t h' t' (family np) par (Node a b None dd tl tr)
      (if side then tl else tr) [] ∧
    num_active_node t' = num_active_node t - 2.
Proof.
  intros Hleaf Hsib Hrepr Hnd Hslot.
  pose proof Hrepr as (Ha & Hrl & Hrr).
  apply NoDup_node in Hnd as (Hal & Har & Hndl & Hndr & Hdisj).
  assert (match par with
          | None => True
          | Some pa => pa ≠ a ∧ (pa ∉ locs tl) ∧ (pa ∉ locs tr) ∧ ∃ pn, h !! pa = Some pn
          end) as Hpar'.
  { destruct par as [pa|]; [|done]. destruct Hslot as (Hpa & pn & Hpn & Hor).
    norm_notin. split; [done|]. split; [done|]. split; [done|]. by exists pn. }
  unfold radix_remove.
  destruct side.
  - subst tr. destruct tl as [|c cb cp cd cl cr]; [done|].
    destruct Hrr as (Hx & _). destruct Hrl as (Hc & Hrcl & Hrcr).
    apply NoDup_node in Hndl as (? & ? & _ & _ & _).
    assert (x ≠ a ∧ c ≠ a ∧ c ≠ x) as (? & ? & ?).
    { split; [intros ->; apply Har; left|]. split; [intros ->; apply Hal; left|].
      intros ->. eapply Hdisj; left. }
    assert ((x ∉ locs cl) ∧ x ∉ locs cr) as [? ?].
    { split; intros Hin; eapply (Hdisj x); try left; simpl; rewrite elem_of_cons, elem_of_app;
        auto. }
    norm_notin.
    rewrite (deref_Some _ _ _ Hx). cbn [mbind res_bind prefix r l parent].
    unfold PyMem_Free. rewrite (deref_Some _ a _) by (look; done).
    cbn [mbind res_bind prefix r l parent root].
    rewrite bool_decide_eq_true_2 by done. store_step.
    destruct par as [pa|].
    + destruct Hpar' as (? & Hpal & Hpar2 & pn & Hpn). norm_notin.
      erewrite replace_in_parent_Some by (look; done). cbn [mbind res_bind].
      store_step.
      eexists _, _. split; [done|]. split; [|simpl; lia].
      split; [|split; [frame_rest0|split; [|done]]].
      * simpl. split; [look; done|]. split; frame_subtree.
      * split; [done|]. intros pn0 c0 Hpn0 [= <-]. look. simpl. congruence.
    + unfold replace_in_parent. cbn [mbind res_bind]. store_step.
      eexists _, _. split; [done|]. split; [|simpl; rewrite num_active_set_head; simpl; lia].
      split; [|split; [frame_rest0|split]].
      * simpl. split; [look; done|]. split; frame_subtree.
      * by rewrite ?head_of_set_num, head_of_set_head.
      * intros fam' Hfam. by rewrite ?head_of_set_num, head_of_set_head_ne, ?head_of_set_num.
  - subst tl. destruct tr as [|c cb cp cd cl cr]; [done|].
    destruct Hrl as (Hx & _). destruct Hrr as (Hc & Hrcl & Hrcr).
    apply NoDup_node in Hndr as (? & ? & _ & _ & _).
    assert (x ≠ a ∧ c ≠ a ∧ c ≠ x) as (? & ? & ?).
    { split; [intros ->; apply Hal; left|]. split; [intros ->; apply Har; left|].
      intros ->. eapply Hdisj; left. }
    assert ((x ∉ locs cl) ∧ x ∉ locs cr) as [? ?].
    { split; intros Hin; eapply (Hdisj x); try left; simpl; rewrite elem_of_cons, elem_of_app;
        auto. }
    norm_notin.
    rewrite (deref_Some _ _ _ Hx). cbn [mbind res_bind prefix r l parent].
    unfold PyMem_Free. rewrite (deref_Some _ a _) by (look; done).
    cbn [mbind res_bind prefix r l parent root].
    rewrite bool_decide_eq_false_2 by congruence. store_step.
    destruct par as [pa|].
    + destruct Hpar' as (? & Hpal & Hpar2 & pn & Hpn). norm_notin.
      erewrite replace_in_parent_Some by (look; done). cbn [mbind res_bind].
      store_step.
      eexists _, _. split; [done|]. split; [|simpl; lia].
      split; [|split; [frame_rest0|split; [|done]]].
      * simpl. split; [look; done|]. split; frame_subtree.
      * split; [done|]. intros pn0 c0 Hpn0 [= <-]. look. simpl. congruence.
    + unfold replace_in_parent. cbn [mbind res_bind]. store_step.
      eexists _, _. split; [done|]. split; [|simpl; rewrite num_active_set_head; simpl; lia].
      split; [|split; [frame_rest0|split]].
      * simpl. split; [look; done|]. split; frame_subtree.
      * by rewrite ?head_of_set_num, head_of_set_head.
      * intros fam' Hfam. by rewrite ?head_of_set_num, head_of_set_head_ne, ?head_of_set_num.
Qed.

(** [radix_remove] restructures the subtree that holds the node into
    [del_t]. *)
Lemma del_spec h t x nx np :
  h !! x = Some nx → prefix nx = Some np →
  ∀ sub lo par,
    pat (family np) lo sub → repr h par sub → NoDup (locs sub) →
    slot_ok h t (family np) par sub → x ∈ locs sub →
    match par with
    | Some pa => is_leaf_node sub x = true → ∃ pn, h !! pa = Some pn ∧ prefix pn ≠ None
    | None => True
    end →
    ∃ h' t',
      radix_remove h t x = Ok (h', t') ∧
      restructured h t h' t' (family np) par sub (del_t x sub) [] ∧
      num_active_node t' + Z.of_nat (length (locs sub)) =
        num_active_node t + Z.of_nat (length (locs (del_t x sub))) ∧
      (if non_null (l nx) && non_null (r nx)
       then num_active_node t' = num_active_node t
       else num_active_node t - 2 ≤ num_active_node t' < num_active_node t).
Proof.
  intros Hx Hnp.
  induction sub as [|a b p dd tl IHl tr IHr]; intros lo par Hpat Hrepr Hnd Hslot Hin Hpar.
  { by apply elem_of_nil in Hin. }
  pose proof Hpat as (Hb & Hp & Hag & Hleft & Hright & Hpl & Hpr).
  pose proof Hrepr as (Ha & Hrl & Hrr).
  pose proof Hnd as (Hal & Har & Hndl & Hndr & Hdisj)%NoDup_node.
  destruct (decide (a = x)) as [->|Hne].
  { assert (p = Some np) as -> by (rewrite Ha in Hx; injection Hx as <-; done).
    destruct (remove_here h t x b np dd tl tr par) as (h' & t' & Hcall & Hres & Hcnt);
      [done..| |].
    { destruct par as [pa|]; [|done]. intros -> ->. apply Hpar. simpl.
      by apply bool_decide_eq_true_2. }
    exists h', t'. split; [done|]. split; [done|]. rewrite Hcnt.
    cbn [del_t]. rewrite bool_decide_eq_true_2 by done.
    rewrite Ha in Hx. injection Hx as <-. cbn [l r].
    split; [destruct tr, tl; simpl; rewrite ?length_app; simpl; lia|].
    destruct (non_null (root tl) && non_null (root tr)); lia. }
  cbn [del_t]. rewrite bool_decide_eq_false_2 by done.
  apply elem_of_cons in Hin as [?|Hin]; [done|].
  destruct (negb (non_null p) && is_leaf_node tr x) eqn:Hgr.
  { apply andb_true_iff in Hgr as [Hglue Hleaf].
    destruct p as [?|]; [done|]. destruct Hp as [Hnl Hnr].
    destruct (is_leaf_node_true _ _ Hleaf) as (xb & xp & xd & Etr).
    assert (xp = Some np) as ->.
    { subst tr. destruct Hrr as (Hx' & _). rewrite Hx' in Hx. injection Hx as <-. done. }
    assert (l nx = None ∧ r nx = None) as [Hlx Hrx].
    { subst tr. destruct Hrr as (Hx' & _). rewrite Hx' in Hx. by injection Hx as <-. }
    destruct (remove_below_glue true h t x a b dd tl tr par xb np xd)
      as (h' & t' & Hcall & Hres & Hcnt); [done..|].
    exists h', t'. split; [done|]. split; [done|]. rewrite Hcnt, Hlx, Hrx.
    subst tr. simpl. rewrite !length_app. simpl. lia. }
  destruct (negb (non_null p) && is_leaf_node tl x) eqn:Hgl.
  { apply andb_true_iff in Hgl as [Hglue Hleaf].
    destruct p as [?|]; [done|]. destruct Hp as [Hnl Hnr].
    destruct (is_leaf_node_true _ _ Hleaf) as (xb & xp & xd & Etl).
    assert (xp = Some np) as ->.
    { subst tl. destruct Hrl as (Hx' & _). rewrite Hx' in Hx. injection Hx as <-. done. }
    assert (l nx = None ∧ r nx = None) as [Hlx Hrx].
    { subst tl. destruct Hrl as (Hx' & _). rewrite Hx' in Hx. by injection Hx as <-. }
    destruct (remove_below_glue false h t x a b dd tl tr par xb np xd)
      as (h' & t' & Hcall & Hres & Hcnt); [done..|].
    exists h', t'. split; [done|]. split; [done|]. rewrite Hcnt, Hlx, Hrx.
    subst tl. simpl. lia. }
  assert (∀ y, y ∈ @nil loc → h !! y = None) as Hfl by (by intros y ?%elem_of_nil).
  apply elem_of_app in Hin as [Hin|Hin].
  - assert (x ∉ locs tr) as Hxr by (by apply Hdisj).
    rewrite (del_t_notin x tr) by done.
    destruct (IHl (b + 1) (Some a)) as (h' & t' & Hcall & Hres & Hcnt & Hcnt');
      [done|done|done| |done| |].
    { split; [done|]. eexists. split; [done|]. by right. }
    { intros Hleaf. rewrite Hleaf, andb_true_r in Hgl.
      eexists. split; [done|]. simpl. by destruct p. }
    exists h', t'. split; [done|]. split.
    + apply (restructured_child false); try done.
      destruct tl; [by apply elem_of_nil in Hin|done].
    + split; [|done]. simpl. rewrite !length_app. lia.
  - assert (x ∉ locs tl) as Hxl by (intros ?; by eapply Hdisj).
    rewrite (del_t_notin x tl) by done.
    destruct (IHr (b + 1) (Some a)) as (h' & t' & Hcall & Hres & Hcnt & Hcnt');
      [done|done|done| |done| |].
    { split; [done|]. eexists. split; [done|]. by left. }
    { intros Hleaf. rewrite Hleaf, andb_true_r in Hgr.
      eexists. split; [done|]. simpl. by destruct p. }
    exists h', t'. split; [done|]. split.
    + apply (restructured_child true); try done.
      destruct tr; [by apply elem_of_nil in Hin|done].
    + split; [|done]. simpl. rewrite !length_app. lia.
Qed.

(** ** Deletion keeps the Patricia invariant *)

Lemma del_pat fam x t :
  ∀ lo, pat fam lo t →
    pat fam lo (del_t x t) ∧
    (∀ y, y ∈ prefixes (del_t x t) → y ∈ prefixes t) ∧
    locs (del_t x t) `sublist_of` locs t ∧
    (del_t x t = Leaf → t = Leaf ∨ is_leaf_node t x = true).
Proof.
  induction t as [|a b p d tl IHl tr IHr]; intros lo Hpat.
  { simpl. split; [done|]. split; [done|]. split; [done|]. by left. }
  pose proof Hpat as (Hb & Hp & Hag & Hleft & Hright & Hpl & Hpr).
  cbn [del_t]. case_bool_decide as Hax.
  { subst a. destruct tr as [|rc rb rp rd rl rr] eqn:Etr;
      destruct tl as [|lc lb lp ld ll lr] eqn:Etl.
    - split; [done|]. split; [by intros y ?%elem_of_nil|]. split; [apply sublist_nil_l|].
      intros _. right. simpl. by apply bool_decide_eq_true_2.
    - split; [eapply pat_le; [|done]; lia|].
      split; [intros y Hy; apply elem_of_prefixes_node; auto|].
      split; [|done]. cbn [locs]. apply sublist_cons. rewrite app_nil_r. done.
    - split; [eapply pat_le; [|done]; lia|].
      split; [intros y Hy; apply elem_of_prefixes_node; auto|].
      split; [|done]. cbn [locs]. apply sublist_cons. done.
    - split; [|split; [|split; [done|done]]].
      + split; [done|]. split; [done|]. split; [|done].
        intros y z Hy Hz. apply Hag; apply elem_of_app; by right.
      + intros y Hy. apply elem_of_prefixes_node in Hy as [?|Hy]; [done|].
        apply elem_of_prefixes_node. by right. }
  destruct (negb (non_null p) && is_leaf_node tr x) eqn:Hgr.
  { apply andb_true_iff in Hgr as [Hglue Hleaf].
    destruct p as [?|]; [done|]. destruct Hp as [Hnl Hnr].
    split; [eapply pat_le; [|done]; lia|].
    split; [intros y Hy; apply elem_of_prefixes_node; auto|].
    split; [|by intros ->]. cbn [locs]. apply sublist_cons. by apply sublist_inserts_r. }
  destruct (negb (non_null p) && is_leaf_node tl x) eqn:Hgl.
  { apply andb_true_iff in Hgl as [Hglue Hleaf].
    destruct p as [?|]; [done|]. destruct Hp as [Hnl Hnr].
    split; [eapply pat_le; [|done]; lia|].
    split; [intros y Hy; apply elem_of_prefixes_node; auto|].
    split; [|by intros ->]. cbn [locs]. apply sublist_cons. by apply sublist_inserts_l. }
  destruct (IHl _ Hpl) as (Hl1 & Hl2 & Hl3 & Hl4).
  destruct (IHr _ Hpr) as (Hr1 & Hr2 & Hr3 & Hr4).
  assert (∀ y, y ∈ prefixes (Node a b p d (del_t x tl) (del_t x tr)) →
            y ∈ prefixes (Node a b p d tl tr)) as Hsub.
  { intros y Hy. apply elem_of_prefixes_node in Hy as [?|[Hy|Hy]];
      apply elem_of_prefixes_node; auto. }
  split; [|split; [done|split; [|done]]].
  - split; [done|]. split; [|split; [|split; [|split; [|done]]]].
    + destruct p as [?|]; [done|]. destruct Hp as [Hnl Hnr]. simpl in Hgr, Hgl.
      split; intros Heq.
      * destruct (Hl4 Heq) as [?|?]; [done|congruence].
      * destruct (Hr4 Heq) as [?|?]; [done|congruence].
    + intros y z Hy Hz. apply Hag; by apply Hsub.
    + intros y Hy. by apply Hleft, Hl2.
    + intros y Hy. by apply Hright, Hr2.
  - cbn [locs]. apply sublist_skip. by apply sublist_app.
Qed.

Lemma repr_node_in h par t x nx :
  repr h par t → x ∈ locs t → h !! x = Some nx → node_in t x (bit nx) (prefix nx).
Proof.
  revert par. induction t as [|a b p d tl IHl tr IHr]; intros par Hrepr Hin Hx.
  { by apply elem_of_nil in Hin. }
  destruct Hrepr as (Ha & Hrl & Hrr). simpl.
  apply elem_of_cons in Hin as [->|Hin].
  - left. rewrite Ha in Hx. by injection Hx as <-.
  - right. apply elem_of_app in Hin as [Hin|Hin]; [left|right]; eauto.
Qed.

Lemma node_in_prefixes t x b p : node_in t x b (Some p) → p ∈ prefixes t.
Proof.
  induction t as [|a' b' p' d tl IHl tr IHr]; [done|].
  intros [(_ & _ & ->)|[H|H]]; apply elem_of_prefixes_node; auto.
Qed.

Lemma node_in_locs t x b p : node_in t x b p → x ∈ locs t.
Proof.
  induction t as [|a' b' p' d tl IHl tr IHr]; [done|].
  simpl. rewrite elem_of_cons, elem_of_app. intros [(-> & _)|[H|H]]; auto.
Qed.

(** What [radix_remove] of a real node of the trie does to a state that
    satisfies the invariant. *)
Lemma radix_remove_spec h t fam T O x nx :
  fam_inv h t fam T O → x ∈ locs T → h !! x = Some nx → prefix nx ≠ None →
  ∃ h' t',
    radix_remove h t x = Ok (h', t') ∧
    fam_inv h' t' fam (del_t x T) O ∧
    (if non_null (l nx) && non_null (r nx)
     then num_active_node t' = num_active_node t
     else num_active_node t - 2 ≤ num_active_node t' < num_active_node t) ∧
    (∀ y, y ∈ locs O → h' !! y = h !! y).
Proof.
  intros (Hhead & Hheado & HrT & HrO & Hnd & HpT & HpO & Hnum) Hin Hx Hreal.
  destruct (prefix nx) as [np|] eqn:Hnp; [|done].
  pose proof (repr_node_in _ _ _ _ _ HrT Hin Hx) as Hnode. rewrite Hnp in Hnode.
  destruct (pat_prefixes _ _ _ _ HpT (node_in_prefixes _ _ _ _ Hnode)) as (Hfam & _ & _).
  subst fam.
  apply NoDup_app in Hnd as (HndT & HdisTO & HndO).
  destruct (del_spec h t x nx np Hx Hnp T 0 None)
    as (h' & t' & Hcall & Hres & Hcnt & Hcnt'); [done..|].
  destruct Hres as (HrT' & Hframe & Hhead' & Hheads').
  destruct (del_pat (family np) x T 0 HpT) as (HpT' & Hpref' & Hlocs' & _).
  assert (∀ y, y ∈ locs O → h' !! y = h !! y) as HfrO.
  { intros y Hy. apply Hframe; [|apply not_elem_of_nil|done].
    intros HyT. by eapply HdisTO. }
  exists h', t'. split; [done|]. split; [|split; [done|done]].
  split; [done|]. split; [by rewrite Hheads' by apply other_ne|].
  split; [done|]. split; [by apply (repr_frame h)|].
  split.
  { apply NoDup_app. split; [by apply (sublist_NoDup _ (locs T))|]. split; [|done].
    intros y Hy. apply HdisTO. by apply (elem_of_sublist (locs (del_t x T))). }
  split; [done|]. split; [done|].
  rewrite !length_app in Hnum |- *. lia.
Qed.

(** * Reachable states satisfy the invariant *)

Lemma radix_walk_repr h t :
  ∀ par fuel, repr h par t → (height t < fuel)%nat → radix_walk fuel h (root t) = locs t.
Proof.
  induction t as [|a b p d tl IHl tr IHr]; intros par fuel Hrepr Hfuel.
  { by destruct fuel. }
  destruct Hrepr as (Ha & Hrl & Hrr). destruct fuel as [|fuel]; [lia|].
  simpl in *. rewrite Ha. simpl.
  rewrite (IHl (Some a)), (IHr (Some a)) by (done || lia). done.
Qed.

Lemma tree_nodes_inv h t t4 t6 :
  tree_inv h t t4 t6 → tree_nodes h t = locs t4 ++ locs t6.
Proof.
  intros (H4 & H6 & Hr4 & Hr6 & Hnd & _).
  apply NoDup_app in Hnd as (Hnd4 & _ & Hnd6).
  unfold tree_nodes. rewrite H4, H6.
  rewrite (radix_walk_repr _ _ None), (radix_walk_repr _ _ None);
    [done|done|by apply (height_fuel _ None)|done|by apply (height_fuel _ None)].
Qed.

Lemma set_data_t_root x o t : root (set_data_t x o t) = root t.
Proof. by destruct t. Qed.

Lemma set_data_t_locs x o t : locs (set_data_t x o t) = locs t.
Proof. induction t as [|a b p d tl IHl tr IHr]; simpl; congruence. Qed.

Lemma set_data_t_prefixes x o t : prefixes (set_data_t x o t) = prefixes t.
Proof. induction t as [|a b p d tl IHl tr IHr]; simpl; congruence. Qed.

Lemma set_data_t_pat fam x o t : ∀ lo, pat fam lo t → pat fam lo (set_data_t x o t).
Proof.
  induction t as [|a b p d tl IHl tr IHr]; intros lo; [done|].
  intros (Hb & Hp & Hag & Hleft & Hright & Hpl & Hpr). simpl.
  rewrite !set_data_t_prefixes. split; [done|]. split.
  { destruct p; [done|]. destruct Hp. split; by destruct tl, tr. }
  eauto 10.
Qed.

Lemma set_data_t_notin x o t : x ∉ locs t → set_data_t x o t = t.
Proof.
  induction t as [|a b p d tl IHl tr IHr]; [done|]. simpl.
  rewrite not_elem_of_cons, not_elem_of_app. intros (Hne & Hl & Hr).
  rewrite bool_decide_eq_false_2 by done. by rewrite IHl, IHr.
Qed.

Lemma set_data_repr h x nx o t :
  h !! x = Some nx →
  ∀ par, NoDup (locs t) → repr h par t →
    repr (<[x := set_data o nx]> h) par (set_data_t x o t).
Proof.
  intros Hx. induction t as [|a b p d tl IHl tr IHr]; intros par Hnd Hrepr; [done|].
  destruct Hrepr as (Ha & Hrl & Hrr).
  apply NoDup_node in Hnd as (Hal & Har & Hndl & Hndr & Hdisj).
  simpl. rewrite !set_data_t_root. split; [|split; auto].
  case_bool_decide as Hax.
  - subst a. rewrite lookup_insert_eq. rewrite Ha in Hx. by injection Hx as <-.
  - by rewrite lookup_insert_ne.
Qed.

Lemma inv_node h t x :
  inv h t → x ∈ tree_nodes h t → ∃ fam T O, fam_inv h t fam T O ∧ x ∈ locs T.
Proof.
  intros (t4 & t6 & Hinv) Hin. rewrite (tree_nodes_inv _ _ _ _ Hinv) in Hin.
  apply elem_of_app in Hin as [Hin|Hin].
  - exists AF_INET, t4, t6. split; [|done]. by apply (tree_inv_fam _ _ _ _ AF_INET).
  - exists AF_INET6, t6, t4. split; [|done]. by apply (tree_inv_fam _ _ _ _ AF_INET6).
Qed.

Lemma fam_inv_inv h t fam T O : fam_inv h t fam T O → inv h t.
Proof. intros H%fam_inv_tree. by eexists _, _. Qed.

Lemma set_data_spec h t fam T O x nx o :
  fam_inv h t fam T O → x ∈ locs T → h !! x = Some nx →
  fam_inv (<[x := set_data o nx]> h) t fam (set_data_t x o T) O.
Proof.
  intros (H1 & H2 & H3 & H4 & H5 & H6 & H7 & H8) Hin Hx.
  pose proof H5 as (HndT & Hdis & HndO)%NoDup_app.
  split; [by rewrite set_data_t_root|]. split; [done|].
  split; [by apply (set_data_repr h x nx)|].
  split; [apply repr_insert_fresh; [by apply Hdis|done]|].
  rewrite set_data_t_locs. split; [done|]. split; [by apply set_data_t_pat|done].
Qed.

Theorem reachable_inv h t : reachable h t → inv h t.
Proof.
  induction 1 as [|h t ok1 ok2 p h' t' n _ IH Hp Hcall
                  |h t x h' t' _ IH Hreal Hcall
                  |h t x o h' _ IH Hreal Hcall].
  - exists Leaf, Leaf. repeat split; try done. simpl. apply NoDup_nil_2.
  - apply radix_lookup_ok in Hcall.
    apply (inv_fam_inv _ _ (family p)) in IH as (T & O & Hinv).
    destruct (radix_lookup_spec h t p T O Hp Hinv)
      as (h'' & t'' & n' & T' & p' & Hcall' & Hinv' & _).
    rewrite Hcall in Hcall'. injection Hcall' as <- <- <-.
    by eapply fam_inv_inv.
  - destruct Hreal as (Hin & nx & Hx & Hpx).
    destruct (inv_node _ _ _ IH Hin) as (fam & T & O & Hinv & HinT).
    destruct (radix_remove_spec _ _ _ _ _ _ _ Hinv HinT Hx Hpx)
      as (h'' & t'' & Hcall' & Hinv'' & _).
    rewrite Hcall in Hcall'. injection Hcall' as <- <-.
    by eapply fam_inv_inv.
  - destruct Hreal as (Hin & nx & Hx & Hpx).
    destruct (inv_node _ _ _ IH Hin) as (fam & T & O & Hinv & HinT).
    rewrite (store_Some _ _ _ _ Hx) in Hcall. injection Hcall as <-.
    eapply fam_inv_inv. by apply set_data_spec.
Qed.

(** * Properties of the tree *)

Lemma reachable_inserts ps :
  ∀ h t h' t', reachable h t → Forall valid_prefix ps →
    inserts h t ps = Some (h', t') → reachable h' t'.
Proof.
  induction ps as [|p ps IH]; intros h t h' t' Hreach Hvalid; simpl.
  - by intros [= <- <-].
  - apply Forall_cons in Hvalid as [Hp Hps].
    destruct (radix_lookup true true h t p) as [[[h1 t1] [n|]]|] eqn:Hcall; try done.
    apply IH; [|done]. by eapply reach_lookup.
Qed.

Ltac solve_valid_prefixes :=
  repeat first
    [ apply Forall_nil_2
    | apply Forall_cons; split
    | split
    | (unfold byte_ok; simpl; lia) ].

(** ** The counter of active nodes when every lookup returns a node *)

(** After every sequence, from a new tree, of lookups that return a node,
    of removals of real nodes and of stores of a payload,
    [num_active_node] is the number of nodes, real and glue, reachable from
    [head_ipv4] and [head_ipv6]. *)
Theorem active_node_count h t :
  reachable h t → num_active_node t = Z.of_nat (length (tree_nodes h t)).
Proof.
  intros (t4 & t6 & Hinv)%reachable_inv.
  rewrite (tree_nodes_inv _ _ _ _ Hinv). apply Hinv.
Qed.

Lemma active_node_count_witness :
  ∃ h t, inserts ∅ New_Radix two_children = Some (h, t) ∧
         num_active_node t = Z.of_nat (length (tree_nodes h t)).
Proof.
  eexists _, _. split; [vm_compute; reflexivity|].
  apply active_node_count.
  eapply (reachable_inserts two_children ∅ New_Radix);
    [apply reach_new| |vm_compute; reflexivity].
  unfold two_children, ipv4, valid_prefix. solve_valid_prefixes.
Defined.

(** ** C9: a real ancestor contains its real descendants *)

(** The subtree at a node of the trie. *)
Lemma subtree_at fam h T :
  ∀ lo par, pat fam lo T → repr h par T → NoDup (locs T) →
  ∀ x, x ∈ locs T →
    ∃ S lo' par', root S = Some x ∧ pat fam lo' S ∧ repr h par' S ∧ NoDup (locs S) ∧
                  (∀ y, y ∈ locs S → y ∈ locs T) ∧
                  (∀ y, y ∈ prefixes S → y ∈ prefixes T).
Proof.
  induction T as [|a b p d tl IHl tr IHr]; intros lo par Hpat Hrepr Hnd x Hin.
  { by apply elem_of_nil in Hin. }
  pose proof Hpat as (Hb & Hp & Hag & Hleft & Hright & Hpl & Hpr).
  pose proof Hrepr as (Ha & Hrl & Hrr).
  pose proof Hnd as (Hal & Har & Hndl & Hndr & Hdisj)%NoDup_node.
  apply elem_of_cons in Hin as [->|Hin].
  { exists (Node a b p d tl tr), lo, par. done. }
  apply elem_of_app in Hin as [Hin|Hin].
  - destruct (IHl _ _ Hpl Hrl Hndl x Hin) as (S & lo' & par' & H1 & H2 & H3 & H4 & H5 & H6).
    exists S, lo', par'. split; [done|]. split; [done|]. split; [done|]. split; [done|].
    split.
    + intros y Hy. simpl. rewrite elem_of_cons, elem_of_app. auto.
    + intros y Hy. apply elem_of_prefixes_node. auto.
  - destruct (IHr _ _ Hpr Hrr Hndr x Hin) as (S & lo' & par' & H1 & H2 & H3 & H4 & H5 & H6).
    exists S, lo', par'. split; [done|]. split; [done|]. split; [done|]. split; [done|].
    split.
    + intros y Hy. simpl. rewrite elem_of_cons, elem_of_app. auto.
    + intros y Hy. apply elem_of_prefixes_node. auto.
Qed.

(** C9: in every reachable tree, the prefix of a real node [A] contains the
    prefix of every real node [D] of the subtree below [A]: the two agree on
    the first [bitlen] bits of the prefix of [A]. *)
Theorem ancestor_contains_descendant h t A D nA nD pA pD :
  reachable h t →
  A ∈ tree_nodes h t → h !! A = Some nA → prefix nA = Some pA →
  D ∈ radix_walk (fuel_of h) h (Some A) → h !! D = Some nD → prefix nD = Some pD →
  contains pA pD.
Proof.
  intros Hinv%reachable_inv HA HnA HpA HD HnD HpD.
  destruct (inv_node _ _ _ Hinv HA) as (fam & T & O & HinvT & HAT).
  destruct HinvT as (_ & _ & HrT & _ & Hnd & HpT & _).
  apply NoDup_app in Hnd as (HndT & _).
  destruct (subtree_at fam h T 0 None HpT HrT HndT A HAT)
    as (S & lo & par & Hroot & HpS & HrS & HndS & _).
  rewrite <- Hroot in HD.
  rewrite (radix_walk_repr _ _ par) in HD by (done || by apply (height_fuel _ par)).
  destruct S as [|a b p d tl tr]; [done|]. injection Hroot as ->.
  pose proof HpS as (Hb & Hp & Hag & _).
  pose proof HrS as (HA' & _). rewrite HA' in HnA. injection HnA as <-.
  simpl in HpA. subst p. destruct Hp as (_ & _ & Hlen).
  pose proof (repr_node_in _ _ _ _ _ HrS HD HnD) as Hnode. rewrite HpD in Hnode.
  apply node_in_prefixes in Hnode.
  assert (pat fam b (Node A b (Some pA) d tl tr)) as HpS'.
  { eapply pat_weaken; [|done]. simpl. lia. }
  destruct (pat_prefixes _ _ _ _ HpS' Hnode) as (_ & _ & Hle).
  split; [lia|]. rewrite Hlen. apply Hag; [|done].
  apply (elem_of_prefixes_node A b (Some pA) d tl tr). by left.
Qed.

Lemma ancestor_contains_descendant_witness :
  ∃ h t, inserts ∅ New_Radix two_children = Some (h, t) ∧
         contains (ipv4 10 0 0 0 8) (ipv4 10 0 0 0 16).
Proof.
  eexists _, _. split; [vm_compute; reflexivity|].
  eapply (ancestor_contains_descendant _ _ 1%positive 2%positive).
  - eapply (reachable_inserts two_children ∅ New_Radix);
      [apply reach_new| |vm_compute; reflexivity].
    unfold two_children, ipv4, valid_prefix. solve_valid_prefixes.
  - vm_compute. apply list_elem_of_here.
  - vm_compute. reflexivity.
  - reflexivity.
  - vm_compute. apply list_elem_of_further, list_elem_of_here.
  - vm_compute. reflexivity.
  - reflexivity.
Defined.

(** ** C10: the bit tests of radix_lookup stay within the address *)

Lemma radix_lookup_attach_total ok1 ok2 h t q ta d x res :
  radix_lookup_attach true true h t q ta d x = Ok res →
  ∃ res', radix_lookup_attach ok1 ok2 h t q ta d x = Ok res'.
Proof.
  unfold radix_lookup_attach. destruct (deref h x) as [nx|]; [|done].
  cbn [mbind res_bind]. destruct ((d =? bitlen q) && (bit nx =? bitlen q)); [by eauto|].
  destruct ok1; [|by eauto]. cbn [PyMem_Malloc].
  destruct (bit nx =? d); [by eauto|]. destruct (bitlen q =? d); [by eauto|].
  destruct ok2; by eauto.
Qed.

Lemma radix_lookup_total ok1 ok2 h t q res :
  radix_lookup true true h t q = Ok res →
  ∃ res', radix_lookup ok1 ok2 h t q = Ok res'.
Proof.
  unfold radix_lookup. destruct (RADIX_HEAD_BY_PREFIX t q).
  - destruct (radix_lookup_descend _ _ _ _ _ _) as [a|]; [|done]. cbn [mbind res_bind].
    destruct (deref h a) as [na|]; [|done]. cbn [mbind res_bind].
    destruct (prefix na); [|done].
    destruct (radix_lookup_ascend _ _ _ _) as [x|]; [|done]. cbn [mbind res_bind].
    apply radix_lookup_attach_total.
  - destruct ok1; by eauto.
Qed.

(** A guarded bit test reads a bit of the address, or none: the guard keeps
    the index below the width of the family. *)
Lemma guarded_bit_test_in_range fam addr b e :
  8 * Z.of_nat (length addr) = maxbits fam →
  guarded_bit_test (maxbits fam) addr b ≠ Err e.
Proof.
  intros Hlen. unfold guarded_bit_test, BIT_TEST_SEARCH_BIT.
  destruct (Z.ltb_spec b (maxbits fam)) as [Hlt|Hge]; [|done].
  destruct (lookup_lt_is_Some_2 addr (Z.to_nat (Z.shiftr b 3))) as [x Hx]; [|by rewrite Hx].
  rewrite Z.shiftr_div_pow2 by lia. change (2 ^ 3) with 8.
  destruct (Z.le_gt_cases 0 b) as [Hb|Hb].
  - apply Nat2Z.inj_lt. rewrite Z2Nat.id by (apply Z.div_pos; lia).
    apply Z.div_lt_upper_bound; lia.
  - assert (b / 8 < 0) by (apply Z.div_lt_upper_bound; lia).
    assert (0 < maxbits fam) by (by destruct fam). lia.
Qed.

(** C10: in a reachable tree a lookup of a valid prefix, a full-length one
    included, ends without a fault whatever the allocator does; in
    particular none of its bit tests, which are all guarded by a comparison
    of the index with the width of the family, reads outside of the
    address. *)
Theorem lookup_bit_tests_in_range h t p ok1 ok2 :
  reachable h t → valid_prefix p →
  (∃ res, radix_lookup ok1 ok2 h t p = Ok res) ∧
  radix_lookup ok1 ok2 h t p ≠ Err BitOutOfRange.
Proof.
  intros Hinv%reachable_inv Hp.
  apply (inv_fam_inv _ _ (family p)) in Hinv as (T & O & Hinv).
  destruct (radix_lookup_spec h t p T O Hp Hinv) as (h' & t' & n & T' & p' & Hcall & _).
  destruct (radix_lookup_total ok1 ok2 _ _ _ _ Hcall) as [res Hres].
  split; [by eauto|]. by rewrite Hres.
Qed.

Lemma lookup_bit_tests_in_range_witness :
  ∃ h t, inserts ∅ New_Radix [ipv4 10 0 0 0 8; ipv4 10 0 0 1 32] = Some (h, t) ∧
         (∃ res, radix_lookup true true h t (ipv4 10 0 0 1 32) = Ok res) ∧
         radix_lookup true true h t (ipv4 10 0 0 1 32) ≠ Err BitOutOfRange.
Proof.
  eexists _, _. split; [vm_compute; reflexivity|].
  apply lookup_bit_tests_in_range.
  - eapply (reachable_inserts [ipv4 10 0 0 0 8; ipv4 10 0 0 1 32] ∅ New_Radix);
      [apply reach_new| |vm_compute; reflexivity].
    unfold ipv4, valid_prefix. solve_valid_prefixes.
  - unfold ipv4, valid_prefix. solve_valid_prefixes.
Defined.

(** ** C3: lookup of a stored prefix *)

Lemma node_in_pat fam T n b p :
  ∀ lo, pat fam lo T → node_in T n b (Some p) → bitlen p = b ∧ lo ≤ b.
Proof.
  induction T as [|a b' p' d tl IHl tr IHr]; intros lo; [done|].
  intros (Hb & Hp & Hag & Hleft & Hright & Hpl & Hpr) [(-> & -> & ->)|[H|H]].
  - split; [apply Hp|lia].
  - destruct (IHl _ Hpl H). split; [done|lia].
  - destruct (IHr _ Hpr H). split; [done|lia].
Qed.

(** The descent for a prefix that is stored ends on its node, and so does
    the ascent. *)
Lemma landing_stored q T n p' :
  valid_prefix q →
  ∀ lo, 0 ≤ lo → pat (family q) lo T →
    node_in T n (bitlen q) (Some p') → agree (add p') (add q) (bitlen q) →
    landing q T = Some (n, bitlen q, Some p') ∧
    target q (bitlen q) T = Some (n, bitlen q).
Proof.
  intros Hq. induction T as [|a b p d tl IHl tr IHr]; intros lo Hlo Hpat Hnode Hag'; [done|].
  pose proof Hpat as (Hb & Hp & Hag & Hleft & Hright & Hpl & Hpr).
  cbn [landing target].
  destruct Hnode as [(-> & -> & ->)|Hnode].
  { rewrite Z.ltb_irrefl, Z.leb_refl. done. }
  assert (∀ c, (c = tl ∨ c = tr) → node_in c n (bitlen q) (Some p') →
            b < bitlen q ∧ p' ∈ prefixes c) as Hbelow.
  { intros c Hc Hin. split; [|by eapply node_in_prefixes].
    assert (pat (family q) (b + 1) c) as Hpc by (by destruct Hc as [-> | ->]).
    destruct (node_in_pat _ _ _ _ _ _ Hpc Hin). lia. }
  assert (bitlen q ≤ maxbits (family q)) as Hqmax by apply Hq.
  destruct Hnode as [Hnode|Hnode].
  - destruct (Hbelow tl) as [Hlt Hin]; [by left|done|].
    assert (goes_right (family q) (add q) b = false) as ->.
    { rewrite goes_right_lt by lia. rewrite <- (Hag' b) by lia. by apply Hleft. }
    rewrite (proj2 (Z.ltb_lt _ _) Hlt), (proj2 (Z.leb_gt _ _) Hlt). simpl.
    destruct (IHl (b + 1)) as [-> ->]; [lia|done..].
  - destruct (Hbelow tr) as [Hlt Hin]; [by right|done|].
    assert (goes_right (family q) (add q) b = true) as ->.
    { rewrite goes_right_lt by lia. rewrite <- (Hag' b) by lia. by apply Hright. }
    rewrite (proj2 (Z.ltb_lt _ _) Hlt), (proj2 (Z.leb_gt _ _) Hlt). simpl.
    destruct (IHr (b + 1)) as [-> ->]; [lia|done..].
Qed.

(** A lookup of a prefix that is stored returns its node and changes
    nothing, whatever the allocator would do. *)
Lemma lookup_existing ok1 ok2 h t q T O n p' :
  valid_prefix q → fam_inv h t (family q) T O →
  node_in T n (bitlen q) (Some p') → agree (add p') (add q) (bitlen q) →
  radix_lookup ok1 ok2 h t q = Ok (h, t, Some n).
Proof.
  intros Hq (Hhead & _ & HrT & _ & Hnd & HpT & _) Hnode Hag.
  apply NoDup_app in Hnd as (HndT & _).
  destruct (landing_stored q T n p' Hq 0 (Z.le_refl 0) HpT Hnode Hag) as [Hland Htarget].
  destruct (landing_root _ _ _ Hland) as [a Hroot].
  destruct (pat_prefixes _ _ _ _ HpT (node_in_prefixes _ _ _ _ Hnode)) as (_ & Hvp & _).
  unfold radix_lookup. rewrite head_by_prefix, Hhead, Hroot.
  destruct (descend_landing q h T Hq 0 None (fuel_of h) a n (bitlen q) (Some p'))
    as (Hdesc & _ & nn & Hnn & Hbit & Hpref); [done|done|done| |done|done|].
  { pose proof (height_fuel _ _ _ HndT HrT). lia. }
  rewrite maxbits_by_prefix, Hdesc. cbn [mbind res_bind].
  rewrite (deref_Some _ _ _ Hnn). cbn [mbind res_bind]. rewrite Hpref, Hbit.
  destruct (find_differ_bit_spec (add q) (add p') (bitlen q) (bitlen q))
    as (Hd & Hagd & Hdiff); [apply Hq|apply Hvp|apply Hq|apply Hq|].
  assert (find_differ_bit (add q) (add p') (bitlen q) (bitlen q) = bitlen q) as ->.
  { destruct (decide (find_differ_bit (add q) (add p') (bitlen q) (bitlen q) = bitlen q))
      as [|Hne]; [done|]. exfalso. apply Hdiff; [lia|]. symmetry. apply Hag. lia. }
  destruct (ascend_target q h (bitlen q) T Hq 0 None (fuel_of h) n (bitlen q) (Some p'))
    as (x & bx & Htarget' & Hasc & _); [done|done|done| |done|lia|done|].
  { by apply (height_fuel _ None). }
  rewrite Htarget in Htarget'. injection Htarget' as <- <-.
  rewrite Hasc. cbn [mbind res_bind].
  unfold radix_lookup_attach. rewrite (deref_Some _ _ _ Hnn). cbn [mbind res_bind].
  rewrite Hbit, Z.eqb_refl, Hpref. done.
Qed.

(** C3: [lookup(P)] twice in succession returns the same node both times,
    and the second call leaves the heap, the tree structure and the counter
    of active nodes as they are. *)
Theorem lookup_twice h t p ok1 ok2 h1 t1 n ok1' ok2' :
  reachable h t → valid_prefix p →
  radix_lookup ok1 ok2 h t p = Ok (h1, t1, Some n) →
  radix_lookup ok1' ok2' h1 t1 p = Ok (h1, t1, Some n).
Proof.
  intros Hinv%reachable_inv Hp Hcall%radix_lookup_ok.
  apply (inv_fam_inv _ _ (family p)) in Hinv as (T & O & Hinv).
  destruct (radix_lookup_spec h t p T O Hp Hinv)
    as (h' & t' & n' & T' & p' & Hcall' & Hinv' & Hnode & Hag & _).
  rewrite Hcall in Hcall'. injection Hcall' as <- <- <-.
  by eapply lookup_existing.
Qed.

Lemma lookup_twice_witness :
  ∃ h t h1 t1 n,
    inserts ∅ New_Radix one_prefix = Some (h, t) ∧
    radix_lookup true true h t (ipv4 10 1 0 0 16) = Ok (h1, t1, Some n) ∧
    radix_lookup true true h1 t1 (ipv4 10 1 0 0 16) = Ok (h1, t1, Some n).
Proof.
  eexists _, _, _, _, _. split; [vm_compute; reflexivity|].
  split; [vm_compute; reflexivity|].
  eapply (lookup_twice _ _ (ipv4 10 1 0 0 16) true true).
  - eapply (reachable_inserts one_prefix ∅ New_Radix);
      [apply reach_new| |vm_compute; reflexivity].
    unfold one_prefix, ipv4, valid_prefix. solve_valid_prefixes.
  - unfold ipv4, valid_prefix. solve_valid_prefixes.
  - vm_compute. reflexivity.
Defined.

(** ** C8: the counter of active nodes and the lookups that return NULL *)

(** Runs a computation of the error monad that is known to succeed: one
    case per step, the failing ones closed. *)
Ltac head_scrutinee e :=
  lazymatch e with
  | match ?s with _ => _ end => head_scrutinee s
  | _ => e
  end.

Ltac run_ok H :=
  repeat (unfold mbind, res_bind in H; cbn beta iota zeta in H;
          lazymatch type of H with
          | (match ?s with _ => _ end) = Ok _ =>
            let s' := head_scrutinee s in
            destruct s' eqn:?; try discriminate H
          end).

(** [radix_lookup] and [radix_remove] read the counter of active nodes only
    to add to it: a shift of the counter before the call is a shift of the
    counter after it. *)
Lemma add_count_incr d e t :
  set_num_active_node (num_active_node (add_count d t) + e) (add_count d t)
  = add_count d (set_num_active_node (num_active_node t + e) t).
Proof. unfold add_count, set_num_active_node. simpl. f_equal. lia. Qed.

Lemma add_count_decr d e t :
  set_num_active_node (num_active_node (add_count d t) - e) (add_count d t)
  = add_count d (set_num_active_node (num_active_node t - e) t).
Proof. unfold add_count, set_num_active_node. simpl. f_equal. lia. Qed.

Lemma add_count_set_head d p v t :
  set_head_by_prefix p v (add_count d t) = add_count d (set_head_by_prefix p v t).
Proof. unfold set_head_by_prefix. by destruct (family p). Qed.

Lemma add_count_head d t p :
  RADIX_HEAD_BY_PREFIX (add_count d t) p = RADIX_HEAD_BY_PREFIX t p.
Proof. unfold RADIX_HEAD_BY_PREFIX. by destruct (family p). Qed.

Lemma add_count_0 t : add_count 0 t = t.
Proof. destruct t. unfold add_count, set_num_active_node. simpl. f_equal. lia. Qed.

Lemma add_count_add_count d e t : add_count d (add_count e t) = add_count (e + d) t.
Proof. unfold add_count, set_num_active_node. simpl. f_equal. lia. Qed.

Lemma tree_nodes_add_count d h t : tree_nodes h (add_count d t) = tree_nodes h t.
Proof. done. Qed.

Lemma replace_in_parent_add_count d h t p up node by_node :
  replace_in_parent h (add_count d t) p up node by_node
  = match replace_in_parent h t p up node by_node with
    | Ok (h', t') => Ok (h', add_count d t')
    | Err e => Err e
    end.
Proof.
  unfold replace_in_parent. destruct up as [up|]; [|by rewrite add_count_set_head].
  destruct (deref h up) as [pn|]; cbn [mbind res_bind]; [|done].
  by destruct (bool_decide _), (store _ _ _).
Qed.

(** One case per step of a computation and of its shifted copy. *)
Ltac shift_steps :=
  repeat first
    [ progress cbn [mbind res_bind]
    | rewrite add_count_incr
    | rewrite add_count_decr
    | rewrite add_count_set_head
    | rewrite replace_in_parent_add_count
    | done
    | lazymatch goal with
      | |- context [replace_in_parent ?h ?t ?p ?u ?x ?y] =>
        destruct (replace_in_parent h t p u x y) as [[? ?]|]
      | |- context [store ?h ?a ?f] => destruct (store h a f)
      | |- context [deref ?h ?a] => destruct (deref h a)
      | |- context [guarded_bit_test ?m ?a ?b] =>
        destruct (guarded_bit_test m a b) as [[|]|]
      end ].

Lemma radix_lookup_attach_add_count d ok1 ok2 h t p ta db x :
  radix_lookup_attach ok1 ok2 h (add_count d t) p ta db x
  = match radix_lookup_attach ok1 ok2 h t p ta db x with
    | Ok (h', t', res) => Ok (h', add_count d t', res)
    | Err e => Err e
    end.
Proof.
  unfold radix_lookup_attach.
  destruct (deref h x) as [n|]; cbn [mbind res_bind]; [|done].
  destruct (_ && _).
  { destruct (prefix n); [done|]. shift_steps. }
  destruct (PyMem_Malloc ok1 h) as [new|]; [|done]. cbn zeta.
  destruct (bit n =? db); [shift_steps|].
  destruct (bitlen p =? db); [shift_steps|].
  destruct (PyMem_Malloc ok2 _) as [glue|]; [|by rewrite add_count_incr]. cbn zeta.
  shift_steps.
Qed.

Lemma radix_lookup_add_count d ok1 ok2 h t p :
  radix_lookup ok1 ok2 h (add_count d t) p
  = match radix_lookup ok1 ok2 h t p with
    | Ok (h', t', res) => Ok (h', add_count d t', res)
    | Err e => Err e
    end.
Proof.
  unfold radix_lookup. rewrite add_count_head.
  destruct (RADIX_HEAD_BY_PREFIX t p) as [head|].
  - destruct (radix_lookup_descend _ _ _ _ _ _) as [a|]; cbn [mbind res_bind]; [|done].
    destruct (deref h a) as [na|]; cbn [mbind res_bind]; [|done].
    destruct (prefix na); [|done].
    destruct (radix_lookup_ascend _ _ _ _) as [x|]; cbn [mbind res_bind]; [|done].
    apply radix_lookup_attach_add_count.
  - destruct (PyMem_Malloc ok1 h) as [node|]; [|done]. cbn zeta.
    by rewrite add_count_set_head, add_count_incr.
Qed.

Lemma radix_remove_add_count d h t x :
  radix_remove h (add_count d t) x
  = match radix_remove h t x with
    | Ok (h', t') => Ok (h', add_count d t')
    | Err e => Err e
    end.
Proof.
  unfold radix_remove.
  destruct (deref h x) as [n|]; cbn [mbind res_bind]; [|done].
  destruct (prefix n) as [np|]; [|done].
  destruct (r n) as [rc|], (l n) as [lc|]; cbn zeta.
  - shift_steps.
  - shift_steps.
  - shift_steps.
  - destruct (parent n) as [up|].
    + destruct (deref _ up) as [pn|]; cbn [mbind res_bind]; [|done].
      destruct (bool_decide _); shift_steps.
      all: destruct (prefix pn); [done|]; shift_steps.
      all: match goal with |- context [match ?c with Some _ => _ | None => _ end] =>
             destruct c end; shift_steps.
    + by rewrite add_count_decr, add_count_set_head.
Qed.

(** The two ways in which [radix_lookup] returns NULL: the first allocation
    fails, and nothing has changed; or the first allocation succeeds and
    that of the glue node fails, and the new real node stays allocated and
    counted. *)
Lemma radix_lookup_null ok1 ok2 h t p h' t' :
  radix_lookup ok1 ok2 h t p = Ok (h', t', None) →
  if ok1
  then ok2 = false ∧ h' = <[fresh (dom h) := new_real_node p]> h ∧ t' = add_count 1 t
  else h' = h ∧ t' = t.
Proof.
  intros Hcall. unfold radix_lookup in Hcall.
  destruct (RADIX_HEAD_BY_PREFIX t p) as [head|].
  - unfold radix_lookup_attach, PyMem_Malloc in Hcall. run_ok Hcall.
    all: by injection Hcall as <- <-.
  - unfold PyMem_Malloc in Hcall. destruct ok1; [done|]. by injection Hcall as <- <-.
Qed.

Lemma inv_new : inv ∅ New_Radix.
Proof. exists Leaf, Leaf. repeat split; try done. simpl. apply NoDup_nil_2. Qed.

Lemma inv_lookup ok1 ok2 h t p h' t' n :
  inv h t → valid_prefix p →
  radix_lookup ok1 ok2 h t p = Ok (h', t', Some n) → inv h' t'.
Proof.
  intros Hinv Hp Hcall%radix_lookup_ok.
  apply (inv_fam_inv _ _ (family p)) in Hinv as (T & O & Hinv).
  destruct (radix_lookup_spec h t p T O Hp Hinv)
    as (h'' & t'' & n' & T' & p' & Hcall' & Hinv' & _).
  rewrite Hcall in Hcall'. injection Hcall' as <- <- <-.
  by eapply fam_inv_inv.
Qed.

Lemma inv_remove h t x h' t' :
  inv h t → real_node h t x → radix_remove h t x = Ok (h', t') → inv h' t'.
Proof.
  intros Hinv (Hin & nx & Hx & Hpx) Hcall.
  destruct (inv_node _ _ _ Hinv Hin) as (fam & T & O & HinvT & HinT).
  destruct (radix_remove_spec _ _ _ _ _ _ _ HinvT HinT Hx Hpx)
    as (h'' & t'' & Hcall' & Hinv'' & _).
  rewrite Hcall in Hcall'. injection Hcall' as <- <-.
  by eapply fam_inv_inv.
Qed.

Lemma inv_data h t x o h' :
  inv h t → real_node h t x → store h x (set_data o) = Ok h' → inv h' t.
Proof.
  intros Hinv (Hin & nx & Hx & Hpx) Hcall.
  destruct (inv_node _ _ _ Hinv Hin) as (fam & T & O & HinvT & HinT).
  rewrite (store_Some _ _ _ _ Hx) in Hcall. injection Hcall as <-.
  eapply fam_inv_inv. by apply set_data_spec.
Qed.

(** A node that no walk reaches does not disturb the tries. *)
Lemma inv_leak h t n : inv h t → inv (<[fresh (dom h) := n]> h) t.
Proof.
  intros (t4 & t6 & H4 & H6 & Hr4 & Hr6 & Hrest). exists t4, t6.
  pose proof (fresh_None h) as Hfresh.
  split; [done|]. split; [done|].
  split; [apply repr_insert_fresh; [by eapply repr_fresh|done]|].
  split; [apply repr_insert_fresh; [by eapply repr_fresh|done]|done].
Qed.

(** With the counter lowered by the number of failed glue allocations, the
    state is one of two Patricia tries with their nodes counted. *)
Lemma reachable_with_failures_inv k h t :
  reachable_with_failures k h t → inv h (add_count (- Z.of_nat k) t).
Proof.
  induction 1 as [|k h t ok1 ok2 p h' t' n _ IH Hp Hcall
                  |k h t ok2 p h' t' _ IH Hcall
                  |k h t p h' t' _ IH Hcall
                  |k h t x h' t' _ IH Hreal Hcall
                  |k h t x o h' _ IH Hreal Hcall].
  - apply inv_new.
  - eapply inv_lookup; [exact IH|exact Hp|].
    rewrite radix_lookup_add_count, Hcall. done.
  - by apply radix_lookup_null in Hcall as [-> ->].
  - apply radix_lookup_null in Hcall as (_ & -> & ->).
    rewrite add_count_add_count.
    replace (1 + - Z.of_nat (S k)) with (- Z.of_nat k) by lia.
    by apply inv_leak.
  - eapply inv_remove; [exact IH|exact Hreal|].
    rewrite radix_remove_add_count, Hcall. done.
  - eapply inv_data; [exact IH|exact Hreal|exact Hcall].
Qed.

Lemma reachable_without_failures h t :
  reachable h t → reachable_with_failures 0 h t.
Proof.
  induction 1; [apply reachf_new|by eapply reachf_lookup|by eapply reachf_remove
               |by eapply reachf_data].
Qed.

(** C8: the counter of active nodes is the number of nodes, real and glue,
    that the walks from [head_ipv4] and [head_ipv6] reach, plus the number
    of lookups so far that returned NULL from the allocation of the glue
    node: after every sequence of inserts and deletes without such a
    failure the two numbers agree, and every such failure leaves the
    counter one higher than the number of nodes, for all the operations
    that follow. *)
Theorem active_node_count_with_failures k h t :
  reachable_with_failures k h t →
  num_active_node t = Z.of_nat (length (tree_nodes h t)) + Z.of_nat k.
Proof.
  intros (t4 & t6 & Hinv)%reachable_with_failures_inv.
  pose proof (tree_nodes_inv _ _ _ _ Hinv) as Hnodes.
  rewrite tree_nodes_add_count in Hnodes.
  destruct Hinv as (_ & _ & _ & _ & _ & _ & _ & Hnum).
  rewrite Hnodes. simpl in Hnum. lia.
Qed.

Lemma active_node_count_with_failures_witness :
  ∃ h1 t1 h2 t2 h3 t3 n,
    inserts ∅ New_Radix one_prefix = Some (h1, t1) ∧
    radix_lookup true false h1 t1 (ipv4 10 1 0 0 16) = Ok (h2, t2, None) ∧
    radix_lookup true true h2 t2 (ipv4 10 1 0 0 16) = Ok (h3, t3, Some n) ∧
    num_active_node t1 = 1 ∧ length (tree_nodes h1 t1) = 1%nat ∧
    num_active_node t2 = 2 ∧ length (tree_nodes h2 t2) = 1%nat ∧
    num_active_node t3 = 4 ∧ length (tree_nodes h3 t3) = 3%nat ∧
    num_active_node t3 = Z.of_nat (length (tree_nodes h3 t3)) + Z.of_nat 1.
Proof.
  pose (s1 := default (∅, New_Radix) (inserts ∅ New_Radix one_prefix)).
  pose (s2 := match radix_lookup true false s1.1 s1.2 (ipv4 10 1 0 0 16) with
              | Ok (h, t, _) => (h, t)
              | Err _ => s1
              end).
  pose (s3 := match radix_lookup true true s2.1 s2.2 (ipv4 10 1 0 0 16) with
              | Ok (h, t, _) => (h, t)
              | Err _ => s2
              end).
  assert (inserts ∅ New_Radix one_prefix = Some (s1.1, s1.2)) as H1
    by (vm_compute; reflexivity).
  assert (radix_lookup true false s1.1 s1.2 (ipv4 10 1 0 0 16)
          = Ok (s2.1, s2.2, None)) as H2 by (vm_compute; reflexivity).
  assert (radix_lookup true true s2.1 s2.2 (ipv4 10 1 0 0 16)
          = Ok (s3.1, s3.2, Some 3%positive)) as H3 by (vm_compute; reflexivity).
  assert (reachable_with_failures 1 s3.1 s3.2) as Hreach.
  { apply (reachf_lookup 1 s2.1 s2.2 true true (ipv4 10 1 0 0 16) s3.1 s3.2 3%positive);
      [|unfold ipv4, valid_prefix; solve_valid_prefixes|exact H3].
    apply (reachf_fail_glue 0 s1.1 s1.2 (ipv4 10 1 0 0 16) s2.1 s2.2); [|exact H2].
    apply reachable_without_failures.
    apply (reachable_inserts one_prefix ∅ New_Radix s1.1 s1.2);
      [apply reach_new| |exact H1].
    unfold one_prefix, ipv4, valid_prefix. solve_valid_prefixes. }
  exists s1.1, s1.2, s2.1, s2.2, s3.1, s3.2, 3%positive.
  split; [exact H1|]. split; [exact H2|]. split; [exact H3|].
  split; [vm_compute; reflexivity|]. split; [vm_compute; reflexivity|].
  split; [vm_compute; reflexivity|]. split; [vm_compute; reflexivity|].
  split; [vm_compute; reflexivity|]. split; [vm_compute; reflexivity|].
  exact (active_node_count_with_failures 1 s3.1 s3.2 Hreach).
Defined.

(** ** C4: removal, the counter of active nodes and the generation *)

Lemma fam_inv_tree_nodes h t fam T O x :
  fam_inv h t fam T O → x ∈ locs T → x ∈ tree_nodes h t.
Proof.
  intros Hinv%fam_inv_tree Hin. rewrite (tree_nodes_inv _ _ _ _ Hinv).
  apply elem_of_app. destruct fam; [by left|by right].
Qed.

(** The descent of an exact search stays in the trie. *)
Lemma radix_search_foreach_locs oob h p T :
  ∀ par fuel a, repr h par T →
    radix_search_foreach fuel oob h p (root T) = Ok (Some a) → a ∈ locs T.
Proof.
  induction T as [|a0 b p0 d tl IHl tr IHr]; intros par fuel a Hrepr;
    (destruct fuel as [|f]; [done|]); [done|].
  destruct Hrepr as (Ha & Hrl & Hrr). cbn [radix_search_foreach root locs].
  rewrite (deref_Some _ _ _ Ha). cbn [mbind res_bind bit].
  destruct (b <? bitlen p).
  - unfold search_next. cbn [l r]. intros Hcall. apply elem_of_cons. right.
    apply elem_of_app. destruct (BIT_TEST_SEARCH _ _ _); [right|left]; eauto.
  - intros [= <-]. apply list_elem_of_here.
Qed.

Lemma radix_search_exact_real oob h t p x T O :
  fam_inv h t (family p) T O → radix_search_exact oob h t p = Ok (Some x) →
  real_node h t x.
Proof.
  intros Hinv Hcall. pose proof Hinv as (Hhead & _ & HrT & _).
  unfold radix_search_exact in Hcall. rewrite head_by_prefix, Hhead in Hcall.
  destruct (root T) as [a|] eqn:Hroot; [|done]. rewrite <- Hroot in Hcall.
  destruct (radix_search_foreach _ _ _ _ _) as [[y|]|] eqn:Hdesc; [|done..].
  apply radix_search_foreach_locs with (par := None) in Hdesc; [|done].
  cbn [mbind res_bind] in Hcall. unfold deref in Hcall.
  destruct (h !! y) as [n|] eqn:Hy; [|done]. cbn [mbind res_bind] in Hcall.
  destruct (bitlen p <? bit n); [done|].
  destruct (prefix n) as [np|] eqn:Hnp; [|done].
  destruct (comp_with_mask _ _ _); [|done]. injection Hcall as <-.
  split; [by eapply fam_inv_tree_nodes|]. exists n. by rewrite Hnp.
Qed.

(** A node with two children keeps its place as a glue node when it is
    removed, and the counter of active nodes stays as it is: removing
    10.0.0.0/8 from above 10.0.0.0/16 and 10.128.0.0/16 leaves three
    nodes. *)
Lemma remove_two_children_keeps_count :
  ∃ h t h' t',
    inserts ∅ New_Radix two_children = Some (h, t) ∧
    real_node h t 1%positive ∧
    radix_remove h t 1%positive = Ok (h', t') ∧
    num_active_node t' = num_active_node t.
Proof.
  eexists _, _, _, _. split; [vm_compute; reflexivity|].
  split; [|split; vm_compute; reflexivity].
  split; [vm_compute; apply list_elem_of_here|].
  eexists. split; [vm_compute; reflexivity|done].
Qed.

(** C4, as the code behaves: the removal of a real node of the tree
    succeeds.  A node with two children is left in its place as a glue
    node: its prefix and its payload are cleared, its bit index and its
    pointers stay, no other node changes, and the tree structure, the
    counter of active nodes included, is as it was.  Otherwise the counter
    is lowered by one or by two.  A [Radix.delete] that finds its prefix
    removes a real node of the tree and adds one to the generation, modulo
    2^32. *)
Theorem remove_count_and_generation h t :
  reachable h t →
  (∀ x nx, real_node h t x → h !! x = Some nx →
     ∃ h' t', radix_remove h t x = Ok (h', t') ∧
       if non_null (l nx) && non_null (r nx)
       then num_active_node t' = num_active_node t ∧ t' = t ∧
            h' !! x = Some {| bit := bit nx; prefix := None; l := l nx; r := r nx;
                              parent := parent nx; data := None |} ∧
            ∀ y, y ≠ x → h' !! y = h !! y
       else num_active_node t - 2 ≤ num_active_node t' < num_active_node t) ∧
  (∀ oob w p w', nodes w = h → rt (self w) = t →
     Radix_delete oob w p = Ok (w', Return ()) →
     ∃ x, radix_search_exact oob h t p = Ok (Some x) ∧ real_node h t x ∧
          radix_remove h t x = Ok (nodes w', rt (self w')) ∧
          gen_id (self w') = (gen_id (self w) + 1) mod 2 ^ 32).
Proof.
  intros Hinv%reachable_inv. split.
  - intros x nx (Hin & n & Hx & Hpx) Hx'. rewrite Hx in Hx'. injection Hx' as ->.
    destruct (inv_node _ _ _ Hinv Hin) as (fam & T & O & HinvT & HinT).
    destruct (radix_remove_spec _ _ _ _ _ _ _ HinvT HinT Hx Hpx)
      as (h' & t' & Hcall & _ & Hcount & _).
    exists h', t'. split; [done|].
    destruct (l nx) as [lc|] eqn:Hl, (r nx) as [rc|] eqn:Hr; try done.
    cbn [non_null andb] in Hcount |- *. split; [done|].
    unfold radix_remove in Hcall. rewrite (deref_Some _ _ _ Hx) in Hcall.
    cbn [mbind res_bind] in Hcall.
    destruct (prefix nx) as [np|] eqn:Hnp; [|done]. rewrite Hl, Hr in Hcall.
    rewrite (store_Some _ _ _ _ Hx) in Hcall. cbn [mbind res_bind] in Hcall.
    rewrite (store_Some _ _ (set_prefix None nx)) in Hcall by apply lookup_insert_eq.
    cbn [mbind res_bind] in Hcall. injection Hcall as <- <-.
    split; [done|]. split.
    + rewrite lookup_insert_eq. unfold set_data, set_prefix. simpl.
      by rewrite Hl, Hr.
    + intros y Hy. by rewrite !lookup_insert_ne.
  - intros oob w p w' <- <-. unfold Radix_delete.
    destruct (radix_search_exact oob (nodes w) (rt (self w)) p) as [[x|]|] eqn:Hfind;
      [|done..].
    cbn [mbind res_bind]. destruct (deref (nodes w) x) as [n|]; [|done].
    cbn [mbind res_bind].
    destruct (radix_remove (nodes w) (rt (self w)) x) as [[h' t']|] eqn:Hrem; [|done].
    simpl. intros [= <-]. exists x. split; [done|]. split; [|split; [done|reflexivity]].
    apply (inv_fam_inv _ _ (family p)) in Hinv as (T & O & HinvT).
    by eapply radix_search_exact_real.
Qed.

Lemma remove_count_and_generation_witness :
  ∃ h t h' t',
    inserts ∅ New_Radix two_children = Some (h, t) ∧
    radix_remove h t 2%positive = Ok (h', t') ∧
    num_active_node t - 2 ≤ num_active_node t' < num_active_node t.
Proof.
  eexists _, _. 
  assert (reachable
            (default (∅, New_Radix) (inserts ∅ New_Radix two_children)).1
            (default (∅, New_Radix) (inserts ∅ New_Radix two_children)).2) as Hreach.
  { eapply (reachable_inserts two_children ∅ New_Radix);
      [apply reach_new| |vm_compute; reflexivity].
    unfold two_children, ipv4, valid_prefix. solve_valid_prefixes. }
  destruct (proj1 (remove_count_and_generation _ _ Hreach) 2%positive
              {| bit := 16; prefix := Some (ipv4 10 0 0 0 16); l := None; r := None;
                 parent := Some 1%positive; data := None |})
    as (h' & t' & Hcall & Hcount).
  - split; [vm_compute; apply list_elem_of_further, list_elem_of_here|].
    eexists. split; [vm_compute; reflexivity|done].
  - vm_compute. reflexivity.
  - exists h', t'. split; [vm_compute; reflexivity|]. split; [exact Hcall|exact Hcount].
Defined.

(** ** C5: the generation *)

(** An [add] of a prefix that is stored already returns its node object,
    leaves the nodes and the tree structure as they are, and still adds one
    to the generation. *)
Lemma add_stored_prefix_bumps_generation :
  ∃ w1 o w2,
    Radix_add true true true newRadixObject (ipv4 10 0 0 0 16) = Ok (w1, Return o) ∧
    Radix_add true true true w1 (ipv4 10 0 0 0 16) = Ok (w2, Return o) ∧
    nodes w2 = nodes w1 ∧ rt (self w2) = rt (self w1) ∧
    gen_id (self w1) = 1 ∧ gen_id (self w2) = 2.
Proof. eexists _, _, _. repeat split; vm_compute; reflexivity. Qed.

Lemma Radix_add_gen_id ok1 ok2 ok3 w p w' res :
  Radix_add ok1 ok2 ok3 w p = Ok (w', res) →
  gen_id (self w') = match res with
                     | Return _ => (gen_id (self w) + 1) mod 2 ^ 32
                     | Raise _ => gen_id (self w)
                     end.
Proof.
  unfold Radix_add, create_add_node.
  destruct (radix_lookup ok1 ok2 (nodes w) (rt (self w)) p) as [[[h t] [x|]]|];
    cbn [mbind res_bind]; [|by intros [= <- <-]|done].
  destruct (deref h x) as [n|]; cbn [mbind res_bind]; [|done].
  destruct (data n) as [o|]; cbn [mbind res_bind].
  { by intros [= <- <-]. }
  destruct (newRadixNodeObject _ _ _ _) as [[o objs]|]; cbn [mbind res_bind].
  - destruct (store h x (set_data (Some o))) as [h1|]; cbn [mbind res_bind]; [|done].
    by intros [= <- <-].
  - by intros [= <- <-].
Qed.

Lemma Radix_delete_gen_id oob w p w' res :
  Radix_delete oob w p = Ok (w', res) →
  gen_id (self w') = match res with
                     | Return _ => (gen_id (self w) + 1) mod 2 ^ 32
                     | Raise _ => gen_id (self w)
                     end.
Proof.
  unfold Radix_delete.
  destruct (radix_search_exact oob (nodes w) (rt (self w)) p) as [[x|]|];
    cbn [mbind res_bind]; [|by intros [= <- <-]|done].
  destruct (deref (nodes w) x) as [n|]; cbn [mbind res_bind]; [|done].
  destruct (radix_remove (nodes w) (rt (self w)) x) as [[h t]|];
    cbn [mbind res_bind]; [|done].
  by intros [= <- <-].
Qed.

(** C5, as the code behaves: every [add] that returns a node object, the
    one of a prefix that is stored already included, and every [delete]
    that finds its prefix adds one to the generation, modulo 2^32; an [add]
    or a [delete] that raises and a store into the payload of a node leave
    the generation as it is. *)
Theorem generation_counter w :
  (∀ ok1 ok2 ok3 p w' res,
     Radix_add ok1 ok2 ok3 w p = Ok (w', res) →
     gen_id (self w') = match res with
                        | Return _ => (gen_id (self w) + 1) mod 2 ^ 32
                        | Raise _ => gen_id (self w)
                        end) ∧
  (∀ oob p w' res,
     Radix_delete oob w p = Ok (w', res) →
     gen_id (self w') = match res with
                        | Return _ => (gen_id (self w) + 1) mod 2 ^ 32
                        | Raise _ => gen_id (self w)
                        end) ∧
  (∀ o k v, gen_id (self (data_setitem o k v w)) = gen_id (self w)).
Proof.
  split; [|split; [|done]].
  - intros ok1 ok2 ok3 p w' res. apply Radix_add_gen_id.
  - intros oob p w' res. apply Radix_delete_gen_id.
Qed.

Lemma generation_counter_witness :
  ∃ w' o, Radix_add true true true newRadixObject (ipv4 10 0 0 0 16) = Ok (w', Return o) ∧
          gen_id (self w') = (gen_id (self newRadixObject) + 1) mod 2 ^ 32.
Proof.
  eexists _, _. split; [vm_compute; reflexivity|].
  apply (proj1 (generation_counter newRadixObject) true true true (ipv4 10 0 0 0 16)
           _ (Return 1%positive)).
  vm_compute. reflexivity.
Defined.

(** ** C7: allocation failures in radix_lookup *)

(** When the allocation of the root node or of the new real node fails,
    [radix_lookup] returns NULL with the heap and the tree structure as they
    were. *)
Lemma first_allocation_failure_unchanged ok2 h t p h' t' :
  radix_lookup false ok2 h t p = Ok (h', t', None) → h' = h ∧ t' = t.
Proof.
  unfold radix_lookup. destruct (RADIX_HEAD_BY_PREFIX t p); [|by intros [= <- <-]].
  destruct (radix_lookup_descend _ _ _ _ _ _) as [a|]; [|done]. cbn [mbind res_bind].
  destruct (deref h a) as [na|]; [|done]. cbn [mbind res_bind].
  destruct (prefix na); [|done].
  destruct (radix_lookup_ascend _ _ _ _) as [x|]; [|done]. cbn [mbind res_bind].
  unfold radix_lookup_attach. destruct (deref h x) as [nx|]; [|done].
  cbn [mbind res_bind]. destruct ((_ =? _) && (_ =? _)).
  - destruct (prefix nx); [done|]. destruct (store _ _ _); [|done]. done.
  - by intros [= <- <-].
Qed.

(** C7: the failure of the allocation of the glue node. With 10.0.0.0/16
    stored, a lookup of 10.1.0.0/16 whose second allocation fails returns
    NULL with the counter of active nodes one higher than before, and with
    the new real node still allocated although no walk of the tree reaches
    it. *)
Theorem glue_allocation_failure_leaks :
  ∃ h t h' t' new,
    inserts ∅ New_Radix one_prefix = Some (h, t) ∧
    radix_lookup true false h t (ipv4 10 1 0 0 16) = Ok (h', t', None) ∧
    num_active_node t' = num_active_node t + 1 ∧
    tree_nodes h' t' = tree_nodes h t ∧
    h !! new = None ∧ is_Some (h' !! new) ∧ new ∉ tree_nodes h' t'.
Proof.
  eexists _, _, _, _, 2%positive. split; [vm_compute; reflexivity|].
  split; [vm_compute; reflexivity|].
  split; [vm_compute; reflexivity|].
  split; [vm_compute; reflexivity|].
  split; [vm_compute; reflexivity|].
  split; [vm_compute; eexists; reflexivity|].
  vm_compute. intros [H|H]%elem_of_cons; [done|]. by apply elem_of_nil in H.
Qed.

(** ** C1: the best match *)

Lemma best_t_above fam q inclusive T lo :
  pat fam lo T → bitlen q < lo → best_t q inclusive T = None.
Proof.
  destruct T as [|a b p d tl tr]; [done|]. intros (Hb & _) Hlt. simpl.
  by rewrite (proj2 (Z.leb_gt _ _)) by lia.
Qed.

Lemma pat_top_leaves fam lo a b p d tl tr :
  pat fam lo (Node a b p d tl tr) → maxbits fam ≤ b → tl = Leaf ∧ tr = Leaf.
Proof.
  intros (Hb & _ & _ & _ & _ & Hpl & Hpr) Hge.
  split; [destruct tl as [|? b' ? ? ? ?]|destruct tr as [|? b' ? ? ? ?]]; try done.
  - destruct Hpl as (Hb' & _). lia.
  - destruct Hpr as (Hb' & _). lia.
Qed.

(** The next node of a search below a node of the trie: the child on the
    side of the bit of [q], when the bit index of the node is at most the
    length of [q]. A read past the address happens at bit index [maxbits]
    only, where the node has no children. *)
Lemma search_next_child oob q fam lo a b p d tl tr par :
  valid_prefix q → family q = fam → 0 ≤ lo →
  pat fam lo (Node a b p d tl tr) → b ≤ bitlen q →
  search_next oob q {| bit := b; prefix := p; l := root tl; r := root tr;
                       parent := par; data := d |}
  = root (if getbit (add q) b then tr else tl).
Proof.
  intros Hq <- Hlo Hpat Hle. unfold search_next, BIT_TEST_SEARCH. cbn [bit l r].
  pose proof Hpat as (Hb & _).
  destruct (Z.lt_ge_cases b (maxbits (family q))) as [Hlt|Hge].
  - rewrite valid_prefix_bit_in_range by (done || lia). simpl.
    by destruct (getbit (add q) b).
  - destruct (pat_top_leaves _ _ _ _ _ _ _ _ Hpat Hge) as [-> ->].
    by repeat case_match.
Qed.

(** The stack search and the scan compute [best_t]. *)
Lemma search_best_refines oob h q inclusive T :
  valid_prefix q →
  ∀ lo par fuel stack, 0 ≤ lo → pat (family q) lo T → repr h par T →
    (height T < fuel)%nat →
    ∃ st, radix_search_stack fuel oob h q inclusive (root T) stack = Ok st ∧
          radix_best_scan h q st =
          match best_t q inclusive T with
          | Some (a, _) => Ok (Some a)
          | None => radix_best_scan h q stack
          end.
Proof.
  intros Hq. induction T as [|a b p d tl IHl tr IHr];
    intros lo par fuel stack Hlo Hpat Hrepr Hfuel;
    (destruct fuel as [|f]; [simpl in Hfuel; lia|]).
  { exists stack. done. }
  pose proof Hpat as (Hb & Hp & Hag & Hleft & Hright & Hpl & Hpr).
  pose proof Hrepr as (Ha & Hrl & Hrr).
  cbn [radix_search_stack root best_t]. rewrite (deref_Some _ _ _ Ha).
  cbn [mbind res_bind bit prefix].
  destruct (Z.leb_spec b (bitlen q)) as [Hle|Hgt]; [|by exists stack].
  rewrite (search_next_child oob q (family q) lo a b p d tl tr par) by done.
  set (stack' := if non_null p && (inclusive || negb (b =? bitlen q))
                 then a :: stack else stack).
  assert (∃ st, radix_search_stack f oob h q inclusive
                  (root (if getbit (add q) b then tr else tl)) stack' = Ok st ∧
                radix_best_scan h q st =
                match best_t q inclusive (if getbit (add q) b then tr else tl) with
                | Some (a, _) => Ok (Some a)
                | None => radix_best_scan h q stack'
                end) as (st & Hst & Hscan).
  { simpl in Hfuel. destruct (getbit (add q) b).
    - apply (IHr (b + 1) (Some a)); [lia|done|done|lia].
    - apply (IHl (b + 1) (Some a)); [lia|done|done|lia]. }
  exists st. split; [done|]. rewrite Hscan.
  destruct (best_t q inclusive (if getbit (add q) b then tr else tl)) as [[a' P]|];
    [done|].
  subst stack'. destruct p as [np|]; [|done]. cbn [non_null andb].
  destruct (inclusive || negb (b =? bitlen q)); [|done].
  cbn [radix_best_scan andb]. rewrite (deref_Some _ _ _ Ha).
  simpl. by destruct (comp_with_mask _ _ _ && _).
Qed.

(** What the test of the scan says of a prefix of the trie. *)
Lemma scan_test_contains fam lo T np q :
  valid_prefix q → pat fam lo T → family q = fam → np ∈ prefixes T →
  comp_with_mask (add np) (add q) (bitlen np) && (bitlen np <=? bitlen q) = true
  ↔ contains np q.
Proof.
  intros Hq Hpat Hfam Hin.
  destruct (pat_prefixes _ _ _ _ Hpat Hin) as (Hf & Hv & _).
  destruct Hq as (Hql & Hqlen & Hqb). destruct Hv as (Hl & Hlen & Hbytes).
  assert (length (add np) = length (add q)) as Hlens by (rewrite Hf, <- Hfam in Hlen; lia).
  unfold contains. rewrite andb_true_iff, Z.leb_le.
  rewrite comp_with_mask_agree by (done || lia). tauto.
Qed.

(** Soundness and maximality of [best_t] on a Patricia trie. *)
Lemma best_t_spec q inclusive T :
  valid_prefix q →
  ∀ lo, 0 ≤ lo → pat (family q) lo T →
    match best_t q inclusive T with
    | Some (a, P) =>
      node_in T a (bitlen P) (Some P) ∧ contains P q ∧
      (inclusive = false → bitlen P < bitlen q) ∧
      ∀ P', P' ∈ prefixes T → contains P' q →
            inclusive = true ∨ bitlen P' ≠ bitlen q → bitlen P' ≤ bitlen P
    | None =>
      ∀ P', P' ∈ prefixes T → contains P' q → inclusive = false ∧ bitlen P' = bitlen q
    end.
Proof.
  intros Hq. induction T as [|a b p d tl IHl tr IHr]; intros lo Hlo Hpat.
  { simpl. intros P' HP'. by apply elem_of_nil in HP'. }
  pose proof Hpat as (Hb & Hp & Hag & Hleft & Hright & Hpl & Hpr).
  cbn [best_t].
  destruct (Z.leb_spec b (bitlen q)) as [Hle|Hgt].
  2: { intros P' HP' [Hlen _].
       destruct (pat_prefixes _ _ _ _ Hpat HP') as (_ & _ & Hlo').
       apply elem_of_prefixes_node in HP' as [HP'|[HP'|HP']].
       - subst p. destruct Hp as (_ & _ & Hp). lia.
       - destruct (pat_prefixes _ _ _ _ Hpl HP') as (_ & _ & ?). lia.
       - destruct (pat_prefixes _ _ _ _ Hpr HP') as (_ & _ & ?). lia. }
  set (child := if getbit (add q) b then tr else tl).
  set (sibling := if getbit (add q) b then tl else tr).
  assert (pat (family q) (b + 1) child) as Hpc by (subst child; by destruct (getbit _ _)).
  assert (∀ P', P' ∈ prefixes sibling → contains P' q → False) as Hsib.
  { intros P' HP' [Hlen Hagree].
    assert (b + 1 ≤ bitlen P') as Hlo'.
    { subst sibling. destruct (getbit (add q) b);
        [destruct (pat_prefixes _ _ _ _ Hpl HP') as (_ & _ & ?)
        |destruct (pat_prefixes _ _ _ _ Hpr HP') as (_ & _ & ?)]; lia. }
    specialize (Hagree b ltac:(lia)). subst sibling.
    destruct (getbit (add q) b); [rewrite Hleft in Hagree|rewrite Hright in Hagree]; done. }
  assert (∀ P', P' ∈ prefixes (Node a b p d tl tr) →
            p = Some P' ∨ P' ∈ prefixes child ∨ P' ∈ prefixes sibling) as Hsplit.
  { intros P' HP'. apply elem_of_prefixes_node in HP'. subst child sibling.
    destruct (getbit (add q) b); tauto. }
  assert (∀ P', p = Some P' → bitlen P' = b) as Hown.
  { intros P' ->. by destruct Hp as (_ & _ & Hp). }
  assert (∀ a' P, node_in child a' (bitlen P) (Some P) →
            node_in (Node a b p d tl tr) a' (bitlen P) (Some P)) as Hnode.
  { intros a' P HP. simpl. subst child. destruct (getbit (add q) b); auto. }
  specialize (IHl (b + 1) ltac:(lia) Hpl). specialize (IHr (b + 1) ltac:(lia) Hpr).
  assert (match best_t q inclusive child with
          | Some (a, P) =>
            node_in child a (bitlen P) (Some P) ∧ contains P q ∧
            (inclusive = false → bitlen P < bitlen q) ∧
            ∀ P', P' ∈ prefixes child → contains P' q →
                  inclusive = true ∨ bitlen P' ≠ bitlen q → bitlen P' ≤ bitlen P
          | None =>
            ∀ P', P' ∈ prefixes child → contains P' q →
                  inclusive = false ∧ bitlen P' = bitlen q
          end) as IH by (subst child; by destruct (getbit _ _)).
  clear IHl IHr. fold child.
  destruct (best_t q inclusive child) as [[a' P]|].
  - destruct IH as (Hin & Hcont & Hincl & Hmax). split; [by apply Hnode|].
    split; [done|]. split; [done|]. intros P' HP' Hc Hfilter.
    destruct (Hsplit _ HP') as [HP''|[HP''|HP'']].
    + rewrite (Hown _ HP'').
      destruct (node_in_pat _ _ _ _ _ _ Hpc Hin). lia.
    + by apply Hmax.
    + destruct (Hsib _ HP'' Hc).
  - destruct p as [np|].
    + assert (np ∈ prefixes (Node a b (Some np) d tl tr)) as Hnp.
      { apply elem_of_prefixes_node. by left. }
      pose proof (scan_test_contains _ _ _ np q Hq Hpat eq_refl Hnp) as Htest.
      destruct Hp as (_ & _ & Hnb).
      destruct ((inclusive || negb (b =? bitlen q)) && _) eqn:Hfilter.
      * apply andb_true_iff in Hfilter as [Hf1 Hf2]. apply Htest in Hf2.
        split; [left; by rewrite Hnb|]. split; [done|]. split.
        { intros ->. simpl in Hf1. apply negb_true_iff, Z.eqb_neq in Hf1. lia. }
        intros P' HP' Hc Hfilter.
        destruct (Hsplit _ HP') as [HP''|[HP''|HP'']].
        -- injection HP'' as <-. lia.
        -- destruct (IH _ HP'' Hc) as [-> ?]. by destruct Hfilter.
        -- destruct (Hsib _ HP'' Hc).
      * intros P' HP' Hc.
        destruct (Hsplit _ HP') as [HP''|[HP''|HP'']].
        -- injection HP'' as <-. apply Htest in Hc. rewrite Hc in Hfilter.
           rewrite andb_true_r in Hfilter. apply orb_false_iff in Hfilter as [-> Hf].
           apply negb_false_iff, Z.eqb_eq in Hf. split; [done|lia].
        -- by apply IH.
        -- destruct (Hsib _ HP'' Hc).
    + intros P' HP' Hc.
      destruct (Hsplit _ HP') as [HP''|[HP''|HP'']].
      * done.
      * by apply IH.
      * destruct (Hsib _ HP'' Hc).
Qed.

(** The stored prefixes of a family are the prefixes of its trie. *)
Lemma stored_in_trie h t fam T O x P :
  fam_inv h t fam T O → stored h t x P → family P = fam →
  node_in T x (bitlen P) (Some P).
Proof.
  intros Hinv (Hin & n & Hx & HP) Hfam.
  pose proof Hinv as (_ & _ & HrT & HrO & _ & HpT & HpO & _).
  assert (x ∈ locs T ∨ x ∈ locs O) as [HinT|HinO].
  { rewrite (tree_nodes_inv _ _ _ _ (fam_inv_tree _ _ _ _ _ Hinv)) in Hin.
    apply elem_of_app in Hin. destruct fam; tauto. }
  - pose proof (repr_node_in _ _ _ _ _ HrT HinT Hx) as Hnode. rewrite HP in Hnode.
    by destruct (node_in_pat _ _ _ _ _ _ HpT Hnode) as [-> _].
  - pose proof (repr_node_in _ _ _ _ _ HrO HinO Hx) as Hnode. rewrite HP in Hnode.
    apply node_in_prefixes in Hnode.
    destruct (pat_prefixes _ _ _ _ HpO Hnode) as (Hf & _).
    rewrite Hfam in Hf. by destruct fam.
Qed.

Lemma node_in_repr h par T x b p :
  repr h par T → node_in T x b p →
  ∃ n, h !! x = Some n ∧ bit n = b ∧ prefix n = p.
Proof.
  revert par. induction T as [|a b' p' d tl IHl tr IHr]; intros par; [done|].
  intros (Ha & Hrl & Hrr) [(<- & <- & <-)|[H|H]]; eauto.
Qed.

Lemma node_in_stored h t fam T O x b P :
  fam_inv h t fam T O → node_in T x b (Some P) → stored h t x P ∧ family P = fam.
Proof.
  intros Hinv Hnode. pose proof Hinv as (_ & _ & HrT & _ & _ & HpT & _).
  destruct (node_in_repr _ _ _ _ _ _ HrT Hnode) as (n & Hx & _ & Hp).
  split; [|by destruct (pat_prefixes _ _ _ _ HpT (node_in_prefixes _ _ _ _ Hnode))].
  split; [|by eauto]. eapply fam_inv_tree_nodes; [done|]. by eapply node_in_locs.
Qed.

(** The search for the best match returns the root of [best_t]. *)
Lemma radix_search_best2_best_t oob h t q inclusive T O :
  valid_prefix q → fam_inv h t (family q) T O →
  radix_search_best2 oob h t q inclusive = Ok (fst <$> best_t q inclusive T).
Proof.
  intros Hq (Hhead & _ & HrT & _ & Hnd & HpT & _).
  apply NoDup_app in Hnd as (HndT & _).
  unfold radix_search_best2. rewrite head_by_prefix, Hhead.
  destruct (root T) as [a|] eqn:Hroot; [|by destruct T].
  rewrite <- Hroot.
  destruct (search_best_refines oob h q inclusive T Hq 0 None (fuel_of h) [])
    as (st & -> & Hscan); [done|done|done|by apply (height_fuel _ None)|].
  cbn [mbind res_bind]. rewrite Hscan. by destruct (best_t q inclusive T) as [[? ?]|].
Qed.

(** C1: in every reachable tree, [radix_search_best2] for a valid prefix
    [q] returns a node whose prefix is a stored prefix of the family of [q]
    that contains [q] and is the longest of those, the candidates of the
    length of [q] left out when [inclusive] is 0; it returns none exactly
    when no candidate contains [q]. *)
Theorem search_best_maximal oob h t q inclusive :
  reachable h t → valid_prefix q →
  ∃ res, radix_search_best2 oob h t q inclusive = Ok res ∧
    match res with
    | Some x =>
      ∃ P, stored h t x P ∧ family P = family q ∧ contains P q ∧
           (inclusive = false → bitlen P < bitlen q) ∧
           ∀ y P', stored h t y P' → family P' = family q → contains P' q →
                   inclusive = true ∨ bitlen P' ≠ bitlen q → bitlen P' ≤ bitlen P
    | None =>
      ∀ y P', stored h t y P' → family P' = family q → contains P' q →
              inclusive = false ∧ bitlen P' = bitlen q
    end.
Proof.
  intros Hinv%reachable_inv Hq.
  apply (inv_fam_inv _ _ (family q)) in Hinv as (T & O & Hinv).
  eexists. split; [by apply (radix_search_best2_best_t _ _ _ _ _ T O)|].
  pose proof Hinv as (_ & _ & _ & _ & _ & HpT & _).
  pose proof (best_t_spec q inclusive T Hq 0 (Z.le_refl 0) HpT) as Hspec.
  destruct (best_t q inclusive T) as [[x P]|]; simpl.
  - destruct Hspec as (Hnode & Hcont & Hincl & Hmax).
    destruct (node_in_stored _ _ _ _ _ _ _ _ Hinv Hnode) as [Hst Hfam].
    exists P. repeat (split; [done|]). intros y P' Hst' Hfam' Hc Hfilter.
    apply Hmax; [|done..]. eapply node_in_prefixes.
    by eapply stored_in_trie.
  - intros y P' Hst' Hfam' Hc. apply Hspec; [|done].
    eapply node_in_prefixes. by eapply stored_in_trie.
Qed.

Lemma search_best_maximal_witness :
  ∃ h t res,
    inserts ∅ New_Radix two_children = Some (h, t) ∧
    radix_search_best2 false h t (ipv4 10 0 1 0 24) true = Ok res ∧
    match res with
    | Some x =>
      ∃ P, stored h t x P ∧ family P = AF_INET ∧ contains P (ipv4 10 0 1 0 24) ∧
           (true = false → bitlen P < 24) ∧
           ∀ y P', stored h t y P' → family P' = AF_INET →
                   contains P' (ipv4 10 0 1 0 24) →
                   true = true ∨ bitlen P' ≠ 24 → bitlen P' ≤ bitlen P
    | None =>
      ∀ y P', stored h t y P' → family P' = AF_INET → contains P' (ipv4 10 0 1 0 24) →
              true = false ∧ bitlen P' = 24
    end.
Proof.
  eexists _, _.
  destruct (search_best_maximal false
              (default (∅, New_Radix) (inserts ∅ New_Radix two_children)).1
              (default (∅, New_Radix) (inserts ∅ New_Radix two_children)).2
              (ipv4 10 0 1 0 24) true) as (res & Hcall & Hres).
  - eapply (reachable_inserts two_children ∅ New_Radix);
      [apply reach_new| |vm_compute; reflexivity].
    unfold two_children, ipv4, valid_prefix. solve_valid_prefixes.
  - unfold ipv4, valid_prefix. solve_valid_prefixes.
  - exists res. split; [vm_compute; reflexivity|]. split; [exact Hcall|exact Hres].
Defined.

(** ** C2: the covering and the covered prefixes *)

(** *** Real nodes above and below a node *)

Lemma real_loc_elem a p z : z ∈ real_loc a p → z = a.
Proof.
  destruct p; simpl; [by intros ->%list_elem_of_singleton|by intros ?%elem_of_nil].
Qed.

Lemma NoDup_real_loc a p : NoDup (real_loc a p).
Proof. destruct p; simpl; [apply NoDup_singleton|apply NoDup_nil_2]. Qed.

Lemma ups_locs x T z : z ∈ ups x T → z ∈ locs T.
Proof.
  induction T as [|a b p d tl IHl tr IHr]; simpl; [done|].
  rewrite elem_of_cons, elem_of_app.
  repeat case_bool_decide; rewrite ?elem_of_app.
  - intros Hz%real_loc_elem. auto.
  - intros [Hz|Hz%real_loc_elem]; auto.
  - intros [Hz|Hz%real_loc_elem]; auto.
  - by intros Hz%elem_of_nil.
Qed.

Lemma NoDup_ups x T : NoDup (locs T) → NoDup (ups x T).
Proof.
  induction T as [|a b p d tl IHl tr IHr]; simpl; [by intros; apply NoDup_nil_2|].
  intros (Hal & Har & Hndl & Hndr & Hdisj)%NoDup_node.
  repeat case_bool_decide; try apply NoDup_real_loc; try apply NoDup_nil_2.
  - apply NoDup_app. split; [by apply IHl|]. split; [|apply NoDup_real_loc].
    intros z Hz%ups_locs ->%real_loc_elem. done.
  - apply NoDup_app. split; [by apply IHr|]. split; [|apply NoDup_real_loc].
    intros z Hz%ups_locs ->%real_loc_elem. done.
Qed.

Lemma post_locs T z : z ∈ post T → z ∈ locs T.
Proof.
  induction T as [|a b p d tl IHl tr IHr]; simpl; [done|].
  rewrite elem_of_cons, !elem_of_app. intros [H|[H|H]]; eauto using real_loc_elem.
Qed.

Lemma NoDup_post T : NoDup (locs T) → NoDup (post T).
Proof.
  induction T as [|a b p d tl IHl tr IHr]; simpl; [by intros; apply NoDup_nil_2|].
  intros (Hal & Har & Hndl & Hndr & Hdisj)%NoDup_node.
  apply NoDup_app. split; [by apply IHl|]. split.
  - intros z Hz%post_locs [Hz'%post_locs| ->%real_loc_elem]%elem_of_app; [|done].
    by apply (Hdisj z).
  - apply NoDup_app. split; [by apply IHr|]. split; [|apply NoDup_real_loc].
    intros z Hz%post_locs ->%real_loc_elem. done.
Qed.

Lemma node_in_post T x b P : node_in T x b (Some P) → x ∈ post T.
Proof.
  induction T as [|a b' p d tl IHl tr IHr]; [done|]. simpl.
  rewrite !elem_of_app. intros [(-> & _ & ->)|[H|H]]; auto.
  right. right. apply list_elem_of_here.
Qed.

Lemma called_once_NoDup x calls : x ∈ calls → NoDup calls → called_once x calls.
Proof.
  intros (l1 & l2 & ->)%list_elem_of_split Hnd. exists l1, l2. split; [done|].
  apply NoDup_app in Hnd as (_ & Hdisj & [Hx _]%NoDup_cons).
  split; [|done]. intros Hx1. apply (Hdisj _ Hx1). apply list_elem_of_here.
Qed.

(** A prefix of the trie that contains another one sits on the way from
    the other one up to the root, and has the other one in its subtree. *)
Lemma containing_above fam T y Q x P :
  ∀ lo, 0 ≤ lo → pat fam lo T → NoDup (locs T) →
    node_in T y (bitlen Q) (Some Q) → node_in T x (bitlen P) (Some P) →
    contains Q P → y ∈ ups x T.
Proof.
  induction T as [|a b p d tl IHl tr IHr]; intros lo Hlo Hpat Hnd Hy Hx [Hlen Hag]; [done|].
  pose proof Hpat as (Hb & Hp & _ & Hleft & Hright & Hpl & Hpr).
  pose proof Hnd as (Hal & Har & Hndl & Hndr & Hdisj)%NoDup_node.
  assert (∀ c z R, (c = tl ∨ c = tr) → node_in c z (bitlen R) (Some R) →
            b + 1 ≤ bitlen R ∧ R ∈ prefixes c ∧ z ∈ locs c) as Hbelow.
  { intros c z R Hc Hin. assert (pat fam (b + 1) c) as Hpc by (by destruct Hc as [-> | ->]).
    destruct (node_in_pat _ _ _ _ _ _ Hpc Hin).
    eauto using node_in_prefixes, node_in_locs. }
  cbn [ups]. destruct Hx as [(-> & Hbx & ->)|[Hx|Hx]].
  - rewrite bool_decide_eq_true_2 by done. simpl.
    destruct Hy as [(-> & _)|[Hy|Hy]]; [apply list_elem_of_here| |].
    + destruct (Hbelow tl y Q) as (? & _); [by left|done|lia].
    + destruct (Hbelow tr y Q) as (? & _); [by right|done|lia].
  - destruct (Hbelow tl x P) as (HbP & HPin & Hxin); [by left|done|].
    rewrite bool_decide_eq_false_2 by (by intros ->).
    rewrite bool_decide_eq_true_2 by done. apply elem_of_app.
    destruct Hy as [(-> & _ & ->)|[Hy|Hy]].
    + right. apply list_elem_of_here.
    + left. by apply (IHl (b + 1)); [lia|..].
    + destruct (Hbelow tr y Q) as (HbQ & HQin & _); [by right|done|].
      specialize (Hag b ltac:(lia)). rewrite (Hright Q), (Hleft P) in Hag; done.
  - destruct (Hbelow tr x P) as (HbP & HPin & Hxin); [by right|done|].
    rewrite bool_decide_eq_false_2 by (by intros ->).
    rewrite bool_decide_eq_false_2 by (intros Hxl; by apply (Hdisj x)).
    rewrite bool_decide_eq_true_2 by done. apply elem_of_app.
    destruct Hy as [(-> & _ & ->)|[Hy|Hy]].
    + right. apply list_elem_of_here.
    + destruct (Hbelow tl y Q) as (HbQ & HQin & _); [by left|done|].
      specialize (Hag b ltac:(lia)). rewrite (Hleft Q), (Hright P) in Hag; done.
    + left. by apply (IHr (b + 1)); [lia|..].
Qed.

Lemma contained_below fam h T y Q :
  ∀ lo par, 0 ≤ lo → pat fam lo T → repr h par T → NoDup (locs T) →
    node_in T y (bitlen Q) (Some Q) →
    ∃ S par', root S = Some y ∧ repr h par' S ∧ NoDup (locs S) ∧
      (∀ z, z ∈ locs S → z ∈ locs T) ∧
      ∀ x P, node_in T x (bitlen P) (Some P) → contains Q P →
             node_in S x (bitlen P) (Some P).
Proof.
  induction T as [|a b p d tl IHl tr IHr]; intros lo par Hlo Hpat Hrepr Hnd Hy; [done|].
  pose proof Hpat as (Hb & Hp & _ & Hleft & Hright & Hpl & Hpr).
  pose proof Hrepr as (Ha & Hrl & Hrr).
  pose proof Hnd as (Hal & Har & Hndl & Hndr & Hdisj)%NoDup_node.
  assert (∀ c z R, (c = tl ∨ c = tr) → node_in c z (bitlen R) (Some R) →
            b + 1 ≤ bitlen R ∧ R ∈ prefixes c) as Hbelow.
  { intros c z R Hc Hin. assert (pat fam (b + 1) c) as Hpc by (by destruct Hc as [-> | ->]).
    destruct (node_in_pat _ _ _ _ _ _ Hpc Hin). eauto using node_in_prefixes. }
  destruct Hy as [(-> & Hby & ->)|[Hy|Hy]].
  - exists (Node y b (Some Q) d tl tr), par. by repeat split.
  - destruct (Hbelow tl y Q) as (HbQ & HQin); [by left|done|].
    destruct (IHl (b + 1) (Some a)) as (S & par' & H1 & H2 & H3 & H4 & H5);
      [lia|done..|].
    exists S, par'. split; [done|]. split; [done|]. split; [done|]. split.
    { intros z Hz. simpl. rewrite elem_of_cons, elem_of_app. auto. }
    intros x P Hx [Hlen Hag]. apply H5; [|done].
    destruct Hx as [(-> & HbP & ->)|[Hx|Hx]]; [lia|done|].
    destruct (Hbelow tr x P) as (HbP & HPin); [by right|done|].
    specialize (Hag b ltac:(lia)). rewrite (Hleft Q), (Hright P) in Hag; done.
  - destruct (Hbelow tr y Q) as (HbQ & HQin); [by right|done|].
    destruct (IHr (b + 1) (Some a)) as (S & par' & H1 & H2 & H3 & H4 & H5);
      [lia|done..|].
    exists S, par'. split; [done|]. split; [done|]. split; [done|]. split.
    { intros z Hz. simpl. rewrite elem_of_cons, elem_of_app. auto. }
    intros x P Hx [Hlen Hag]. apply H5; [|done].
    destruct Hx as [(-> & HbP & ->)|[Hx|Hx]]; [lia| |done].
    destruct (Hbelow tl x P) as (HbP & HPin); [by left|done|].
    specialize (Hag b ltac:(lia)). rewrite (Hright Q), (Hleft P) in Hag; done.
Qed.

(** *** The covering walk *)

(** The best match of a prefix that is stored is its own node. *)
Lemma best_t_stored q T x P :
  valid_prefix q →
  ∀ lo, 0 ≤ lo → pat (family q) lo T →
    node_in T x (bitlen q) (Some P) → agree (add P) (add q) (bitlen q) →
    best_t q true T = Some (x, P).
Proof.
  intros Hq. induction T as [|a b p d tl IHl tr IHr]; intros lo Hlo Hpat Hx Hag; [done|].
  pose proof Hpat as (Hb & Hp & _ & Hleft & Hright & Hpl & Hpr).
  cbn [best_t]. destruct Hx as [(-> & -> & ->)|Hx].
  - rewrite Z.leb_refl.
    rewrite (best_t_above (family q) q true _ (bitlen q + 1))
      by (by destruct (getbit _ _) || lia).
    destruct Hp as (_ & _ & Hlen). cbn [orb andb].
    assert (P ∈ prefixes (Node x (bitlen q) (Some P) d tl tr)) as HP.
    { apply elem_of_prefixes_node. by left. }
    rewrite (proj2 (scan_test_contains _ _ _ P q Hq Hpat eq_refl HP)); [done|].
    split; [lia|]. by rewrite Hlen.
  - assert (∀ c, (c = tl ∨ c = tr) → node_in c x (bitlen q) (Some P) →
              b < bitlen q ∧ P ∈ prefixes c) as Hbelow.
    { intros c Hc Hin. assert (pat (family q) (b + 1) c) as Hpc by (by destruct Hc as [-> | ->]).
      destruct (node_in_pat _ _ _ _ _ _ Hpc Hin). split; [lia|by eapply node_in_prefixes]. }
    destruct Hx as [Hx|Hx].
    + destruct (Hbelow tl) as [Hlt HP]; [by left|done|].
      rewrite (proj2 (Z.leb_le _ _)) by lia.
      rewrite <- (Hag b) by lia. rewrite (Hleft P HP).
      by rewrite (IHl (b + 1)) by (done || lia).
    + destruct (Hbelow tr) as [Hlt HP]; [by right|done|].
      rewrite (proj2 (Z.leb_le _ _)) by lia.
      rewrite <- (Hag b) by lia. rewrite (Hright P HP).
      by rewrite (IHr (b + 1)) by (done || lia).
Qed.

Lemma depth_height x T : (depth x T ≤ height T)%nat.
Proof.
  induction T as [|a b p d tl IHl tr IHr]; simpl; [done|].
  repeat case_bool_decide; lia.
Qed.

Lemma radix_covering_walk_node h func f a n calls :
  (∀ z, func z = 0) → h !! a = Some n →
  radix_covering_walk (S f) h func a calls =
  match parent n with
  | None => Ok (calls ++ real_loc a (prefix n), 0)
  | Some up => radix_covering_walk f h func up (calls ++ real_loc a (prefix n))
  end.
Proof.
  intros Hf Ha. cbn [radix_covering_walk]. rewrite (deref_Some _ _ _ Ha).
  cbn [mbind res_bind]. destruct (prefix n); simpl.
  - by rewrite Hf.
  - by rewrite app_nil_r.
Qed.

(** With a callback that returns 0 the covering walk calls it on the real
    nodes from its start up to the root. *)
Lemma radix_covering_walk_ups h func :
  (∀ z, func z = 0) →
  ∀ T par x fuel calls, repr h par T → NoDup (locs T) → x ∈ locs T →
    (depth x T ≤ fuel)%nat →
    radix_covering_walk fuel h func x calls =
    match par with
    | None => Ok (calls ++ ups x T, 0)
    | Some up => radix_covering_walk (fuel - depth x T) h func up (calls ++ ups x T)
    end.
Proof.
  intros Hf. induction T as [|a b p d tl IHl tr IHr];
    intros par x fuel calls Hrepr Hnd Hx Hfuel.
  { by apply elem_of_nil in Hx. }
  pose proof Hrepr as (Ha & Hrl & Hrr).
  pose proof Hnd as (Hal & Har & Hndl & Hndr & Hdisj)%NoDup_node.
  cbn [ups depth] in *. apply elem_of_cons in Hx as [->|Hx].
  - rewrite !bool_decide_eq_true_2 in * by done.
    destruct fuel as [|f]; [lia|].
    rewrite (radix_covering_walk_node _ _ _ _ _ _ Hf Ha). simpl.
    by rewrite Nat.sub_0_r.
  - assert (a ≠ x) as Hne.
    { intros ->. apply elem_of_app in Hx as [?|?]; done. }
    rewrite !(bool_decide_eq_false_2 (a = x)) in * by done.
    apply elem_of_app in Hx as [Hx|Hx].
    + rewrite !(bool_decide_eq_true_2 (x ∈ locs tl)) in * by done.
      rewrite (IHl (Some a) x fuel calls) by (done || lia).
      destruct (fuel - depth x tl)%nat as [|f] eqn:Hf'; [lia|].
      rewrite (radix_covering_walk_node _ _ _ _ _ _ Hf Ha). simpl.
      rewrite <- !app_assoc.
      by replace (fuel - S (depth x tl))%nat with f by lia.
    + assert (x ∉ locs tl) as Hxl by (intros Hxl; by apply (Hdisj x)).
      rewrite !(bool_decide_eq_false_2 (x ∈ locs tl)) in * by done.
      rewrite !(bool_decide_eq_true_2 (x ∈ locs tr)) in * by done.
      rewrite (IHr (Some a) x fuel calls) by (done || lia).
      destruct (fuel - depth x tr)%nat as [|f] eqn:Hf'; [lia|].
      rewrite (radix_covering_walk_node _ _ _ _ _ _ Hf Ha). simpl.
      rewrite <- !app_assoc.
      by replace (fuel - S (depth x tr))%nat with f by lia.
Qed.

(** The covering prefixes of a stored prefix: the real nodes from its node
    up to the root. *)
Lemma radix_search_covering_stored oob h t func P T O x :
  (∀ z, func z = 0) → fam_inv h t (family P) T O →
  node_in T x (bitlen P) (Some P) →
  radix_search_covering oob h t P func = Ok (ups x T, 0).
Proof.
  intros Hf Hinv Hx. pose proof Hinv as (_ & _ & HrT & _ & Hnd & HpT & _).
  apply NoDup_app in Hnd as (HndT & _).
  destruct (pat_prefixes _ _ _ _ HpT (node_in_prefixes _ _ _ _ Hx)) as (_ & HP & _).
  unfold radix_search_covering, radix_search_best.
  rewrite (radix_search_best2_best_t _ _ _ _ _ T O) by done.
  rewrite (best_t_stored P T x P HP 0) by (done || apply agree_refl).
  cbn [fmap option_fmap option_map fst mbind res_bind].
  rewrite (radix_covering_walk_ups h func Hf T None x); [done..| |].
  - by eapply node_in_locs.
  - pose proof (depth_height x T). pose proof (height_fuel _ _ _ HndT HrT). lia.
Qed.

(** *** The covered enumeration *)

(** The descent for a prefix that is stored stops on its node. *)
Lemma radix_covered_descend_stored oob h Q T y :
  valid_prefix Q →
  ∀ lo par fuel prev pref, 0 ≤ lo → pat (family Q) lo T → repr h par T →
    (height T < fuel)%nat → node_in T y (bitlen Q) (Some Q) →
    ∃ pref', radix_covered_descend fuel oob h Q (root T) prev pref
             = Ok (Some y, Some y, pref').
Proof.
  intros HQ. induction T as [|a b p d tl IHl tr IHr];
    intros lo par fuel prev pref Hlo Hpat Hrepr Hfuel Hy; [done|].
  destruct fuel as [|f]; [simpl in Hfuel; lia|].
  pose proof Hpat as (Hb & Hp & _ & Hleft & Hright & Hpl & Hpr).
  pose proof Hrepr as (Ha & Hrl & Hrr).
  cbn [radix_covered_descend root]. rewrite (deref_Some _ _ _ Ha).
  cbn [mbind res_bind bit prefix].
  destruct Hy as [(-> & -> & ->)|Hy].
  { rewrite Z.leb_refl, Z.eqb_refl. by eexists. }
  assert (∀ c, (c = tl ∨ c = tr) → node_in c y (bitlen Q) (Some Q) →
            b < bitlen Q ∧ Q ∈ prefixes c) as Hbelow.
  { intros c Hc Hin. assert (pat (family Q) (b + 1) c) as Hpc by (by destruct Hc as [-> | ->]).
    destruct (node_in_pat _ _ _ _ _ _ Hpc Hin). split; [lia|by eapply node_in_prefixes]. }
  simpl in Hfuel.
  assert (b < bitlen Q) as Hlt'.
  { destruct Hy as [Hy|Hy]; [apply (Hbelow tl)|apply (Hbelow tr)]; auto. }
  rewrite (search_next_child oob Q (family Q) lo a b p d tl tr par) by (done || lia).
  destruct Hy as [Hy|Hy].
  - destruct (Hbelow tl) as [Hlt HQin]; [by left|done|].
    rewrite (proj2 (Z.leb_le _ _)) by lia. rewrite (proj2 (Z.eqb_neq _ _)) by lia.
    rewrite (Hleft Q HQin). apply (IHl (b + 1) (Some a)); [lia|done|done|lia|done].
  - destruct (Hbelow tr) as [Hlt HQin]; [by right|done|].
    rewrite (proj2 (Z.leb_le _ _)) by lia. rewrite (proj2 (Z.eqb_neq _ _)) by lia.
    rewrite (Hright Q HQin). apply (IHr (b + 1) (Some a)); [lia|done|done|lia|done].
Qed.

(** One turn of the loop on a frame whose [checked] flag is set and whose
    state is LEFT or RIGHT. *)
Lemma radix_covered_loop_child h q func inclusive f a st pn below calls :
  h !! a = Some pn → st ≠ RADIX_STATE_SELF →
  radix_covered_loop (S f) h q func inclusive
    ({| f_node := a; f_state := st; f_checked := true |} :: below) calls =
  match (match st with RADIX_STATE_LEFT => l pn | _ => r pn end) with
  | None =>
    radix_covered_loop f h q func inclusive
      ({| f_node := a;
          f_state := match st with
                     | RADIX_STATE_LEFT => RADIX_STATE_RIGHT
                     | _ => RADIX_STATE_SELF
                     end;
          f_checked := true |} :: below) calls
  | Some c =>
    cn ← deref h c;
    radix_covered_loop f h q func inclusive
      ({| f_node := c; f_state := RADIX_STATE_LEFT; f_checked := true |}
       :: {| f_node := a;
             f_state := match st with
                        | RADIX_STATE_LEFT => RADIX_STATE_RIGHT
                        | _ => RADIX_STATE_SELF
                        end;
             f_checked := true |} :: below) calls
  end.
Proof.
  intros Ha Hst. cbn [radix_covered_loop f_node f_state f_checked].
  rewrite (deref_Some _ _ _ Ha). cbn [mbind res_bind].
  destruct st; [| |done].
  - destruct (l pn) as [c|]; [|done]. by destruct (deref h c).
  - destruct (r pn) as [c|]; [|done]. by destruct (deref h c).
Qed.

(** One turn of the loop on a frame in state SELF. *)
Lemma radix_covered_loop_self h q func f a chk pn below calls :
  (∀ z, func z = 0) → h !! a = Some pn →
  below ≠ [] ∨ bitlen q ≤ bit pn →
  radix_covered_loop (S f) h q func true
    ({| f_node := a; f_state := RADIX_STATE_SELF; f_checked := chk |} :: below) calls =
  radix_covered_loop f h q func true below (calls ++ real_loc a (prefix pn)).
Proof.
  intros Hf Ha Hcond. cbn [radix_covered_loop f_node f_state f_checked].
  rewrite (deref_Some _ _ _ Ha). cbn [mbind res_bind].
  assert (negb (bool_decide (below = [])) || (bitlen q <=? bit pn) = true) as ->.
  { destruct Hcond as [Hne|Hle].
    - by rewrite bool_decide_eq_false_2.
    - rewrite (proj2 (Z.leb_le _ _)) by done. apply orb_true_r. }
  destruct (prefix pn); simpl.
  - by rewrite Hf.
  - by rewrite app_nil_r.
Qed.

(** A frame whose state is LEFT or RIGHT visits the subtree on that side. *)
Lemma radix_covered_loop_visit h q func a st pn C k below calls :
  h !! a = Some pn → st ≠ RADIX_STATE_SELF →
  root C = match st with RADIX_STATE_LEFT => l pn | _ => r pn end →
  repr h (Some a) C →
  (∀ c k' below' calls', root C = Some c → below' ≠ [] →
     radix_covered_loop (3 * length (locs C) + k') h q func true
       ({| f_node := c; f_state := RADIX_STATE_LEFT; f_checked := true |} :: below')
       calls' =
     radix_covered_loop k' h q func true below' (calls' ++ post C)) →
  radix_covered_loop (S (3 * length (locs C) + k)) h q func true
    ({| f_node := a; f_state := st; f_checked := true |} :: below) calls =
  radix_covered_loop k h q func true
    ({| f_node := a;
        f_state := match st with
                   | RADIX_STATE_LEFT => RADIX_STATE_RIGHT
                   | _ => RADIX_STATE_SELF
                   end;
        f_checked := true |} :: below) (calls ++ post C).
Proof.
  intros Ha Hst Hroot Hrepr IH.
  rewrite (radix_covered_loop_child _ _ _ _ _ _ _ _ _ _ Ha Hst). rewrite <- Hroot.
  destruct C as [|c b p d tl tr].
  - simpl. by rewrite app_nil_r.
  - cbn [root]. destruct Hrepr as (Hc & _). rewrite (deref_Some _ _ _ Hc).
    cbn [mbind res_bind]. by apply IH.
Qed.

(** With a callback that returns 0, a frame in state LEFT whose [checked]
    flag is set visits its subtree, children first. *)
Lemma radix_covered_loop_post h q func :
  (∀ z, func z = 0) →
  ∀ Sub par a k below calls, repr h par Sub → root Sub = Some a →
    below ≠ [] ∨ match Sub with Node _ b _ _ _ _ => bitlen q ≤ b | Leaf => True end →
    radix_covered_loop (3 * length (locs Sub) + k) h q func true
      ({| f_node := a; f_state := RADIX_STATE_LEFT; f_checked := true |} :: below) calls =
    radix_covered_loop k h q func true below (calls ++ post Sub).
Proof.
  intros Hf. induction Sub as [|a' b p d tl IHl tr IHr];
    intros par a k below calls Hrepr Hroot Hcond; [done|].
  injection Hroot as ->. destruct Hrepr as (Ha & Hrl & Hrr).
  replace (3 * length (locs (Node a b p d tl tr)) + k)%nat
    with (S (3 * length (locs tl) + S (3 * length (locs tr) + S k)))
    by (simpl; rewrite length_app; lia).
  rewrite (radix_covered_loop_visit h q func a RADIX_STATE_LEFT _ tl _ below calls Ha);
    [|done|done|done|].
  2: { intros c k' below' calls' Hc Hne. apply (IHl (Some a)); auto. }
  rewrite (radix_covered_loop_visit h q func a RADIX_STATE_RIGHT _ tr _ below _ Ha);
    [|done|done|done|].
  2: { intros c k' below' calls' Hc Hne. apply (IHr (Some a)); auto. }
  rewrite (radix_covered_loop_self h q func _ a true _ below _ Hf Ha) by done.
  cbn [post prefix]. by rewrite <- !app_assoc.
Qed.

(** The covered prefixes of a stored prefix: the real nodes of the subtree
    at its node. *)
Lemma radix_search_covered_stored oob h t func Q T O y :
  (∀ z, func z = 0) → fam_inv h t (family Q) T O →
  node_in T y (bitlen Q) (Some Q) →
  ∃ Sub, radix_search_covered oob h t Q func true = Ok (post Sub, 0) ∧
       NoDup (locs Sub) ∧
       ∀ x P, node_in T x (bitlen P) (Some P) → contains Q P →
              node_in Sub x (bitlen P) (Some P).
Proof.
  intros Hf Hinv Hy. pose proof Hinv as (Hhead & _ & HrT & _ & Hnd & HpT & _).
  apply NoDup_app in Hnd as (HndT & _).
  destruct (pat_prefixes _ _ _ _ HpT (node_in_prefixes _ _ _ _ Hy)) as (_ & HQ & _).
  destruct (contained_below (family Q) h T y Q 0 None)
    as (Sub & par & Hroot & HrS & HndS & Hsub & Hin); [done..|].
  exists Sub. split; [|done].
  destruct (radix_covered_descend_stored oob h Q T y HQ 0 None (fuel_of h) None None)
    as (pref & Hdesc); [done|done|done|by apply (height_fuel _ None)|done|].
  destruct (node_in_repr _ _ _ _ _ _ HrT Hy) as (n & Hn & Hbit & Hpref).
  unfold radix_search_covered. rewrite head_by_prefix, Hhead, Hdesc.
  cbn [mbind res_bind]. rewrite (deref_Some _ _ _ Hn). cbn [mbind res_bind non_null].
  rewrite Hpref. cbn [non_null andb]. rewrite (deref_Some _ _ _ Hn).
  cbn [mbind res_bind]. rewrite Hpref.
  assert (COMP_NODE_PREFIX Q Q = true) as ->.
  { unfold COMP_NODE_PREFIX, RADIX_MIN. rewrite Z.ltb_irrefl.
    destruct HQ as (Hl & Hlen & Hbytes).
    apply comp_with_mask_agree; [done|done|done|lia|apply agree_refl]. }
  cbn [negb]. rewrite bool_decide_eq_true_2 by done.
  rewrite Hbit, Z.leb_refl. cbn [andb].
  pose proof (locs_size _ _ _ HndS HrS) as Hsize.
  replace (3 * fuel_of h)%nat
    with (3 * length (locs Sub) + S (3 * fuel_of h - 3 * length (locs Sub) - 1))%nat
    by (unfold fuel_of; lia).
  rewrite (radix_covered_loop_post h Q func Hf Sub par y); [done|done|done|].
  right. destruct Sub as [|a b p d tl tr]; [done|].
  injection Hroot as ->. destruct HrS as (Hy' & _). rewrite Hn in Hy'.
  injection Hy' as ->. simpl in Hbit. lia.
Qed.

(** C2: in every reachable tree, for stored prefixes [P] and [Q] of one
    family such that [Q] contains [P], and a callback that returns 0, the
    enumeration of the prefixes that [Q] covers, [Q] included, calls the
    callback on the node of [P] exactly once, and the enumeration of the
    prefixes that cover [P] calls it on the node of [Q] exactly once. *)
Theorem covering_covered_duality oob h t func x P y Q :
  reachable h t → (∀ z, func z = 0) →
  stored h t x P → stored h t y Q → family P = family Q → contains Q P →
  (∃ calls, radix_search_covered oob h t Q func true = Ok (calls, 0) ∧
            called_once x calls) ∧
  (∃ calls, radix_search_covering oob h t P func = Ok (calls, 0) ∧
            called_once y calls).
Proof.
  intros Hinv%reachable_inv Hf HP HQ Hfam Hcont.
  apply (inv_fam_inv _ _ (family Q)) in Hinv as (T & O & Hinv).
  pose proof (stored_in_trie _ _ _ _ _ _ _ Hinv HP Hfam) as Hx.
  pose proof (stored_in_trie _ _ _ _ _ _ _ Hinv HQ eq_refl) as Hy.
  pose proof Hinv as (_ & _ & _ & _ & Hnd & HpT & _).
  apply NoDup_app in Hnd as (HndT & _). split.
  - destruct (radix_search_covered_stored oob h t func Q T O y Hf Hinv Hy)
      as (S & Hcall & HndS & Hin).
    exists (post S). split; [done|]. apply called_once_NoDup.
    + eapply node_in_post. by apply Hin.
    + by apply NoDup_post.
  - exists (ups x T). split.
    + apply (radix_search_covering_stored oob h t func P T O x Hf); [|done].
      by rewrite Hfam.
    + apply called_once_NoDup; [|by apply NoDup_ups].
      by apply (containing_above (family Q) T y Q x P 0).
Qed.

Lemma covering_covered_duality_witness :
  ∃ h t,
    inserts ∅ New_Radix two_children = Some (h, t) ∧
    (∃ calls, radix_search_covered false h t (ipv4 10 0 0 0 8) (λ _, 0) true
              = Ok (calls, 0) ∧ called_once 2%positive calls) ∧
    (∃ calls, radix_search_covering false h t (ipv4 10 0 0 0 16) (λ _, 0)
              = Ok (calls, 0) ∧ called_once 1%positive calls).
Proof.
  eexists _, _. split; [vm_compute; reflexivity|].
  apply (covering_covered_duality false _ _ (λ _, 0)
           2%positive (ipv4 10 0 0 0 16) 1%positive (ipv4 10 0 0 0 8)).
  - eapply (reachable_inserts two_children ∅ New_Radix);
      [apply reach_new| |vm_compute; reflexivity].
    unfold two_children, ipv4, valid_prefix. solve_valid_prefixes.
  - reflexivity.
  - split; [vm_compute; apply list_elem_of_further, list_elem_of_here|].
    eexists. split; [vm_compute; reflexivity|reflexivity].
  - split; [vm_compute; apply list_elem_of_here|].
    eexists. split; [vm_compute; reflexivity|reflexivity].
  - reflexivity.
  - split; [simpl; lia|apply agree_refl].
Defined.

(** ** C6: the iterator *)

Lemma locs_all_is_Some h ts x :
  Forall (λ sub, ∃ par, repr h par sub) ts → x ∈ locs_all ts → is_Some (h !! x).
Proof.
  induction 1 as [|sub subs [par Hr] _ IH]; simpl.
  - by intros ?%elem_of_nil.
  - intros [Hx|Hx]%elem_of_app; [by eapply repr_is_Some|by apply IH].
Qed.

Lemma iter_ok_size h t it rem : iter_ok h t it rem → (length rem ≤ size h)%nat.
Proof.
  intros (cur & pending & rest & _ & _ & Hsubs & Hrest & _ & _ & -> & Hnd).
  assert (locs_all (cur :: pending) ++ locs rest ⊆+ elements (dom h)) as Hsub.
  { apply NoDup_submseteq; [done|]. intros x Hx.
    apply elem_of_elements, elem_of_dom. apply elem_of_app in Hx as [Hx|Hx].
    - by eapply locs_all_is_Some.
    - by eapply repr_is_Some. }
  apply submseteq_length in Hsub.
  rewrite <- size_dom. unfold size, set_size. exact Hsub.
Qed.

(** A new iterator has the walk of the two tries before it. *)
Lemma iter_ok_new w :
  reachable (nodes w) (rt (self w)) →
  iter_ok (nodes w) (rt (self w)) (newRadixIterObject w)
    (tree_nodes (nodes w) (rt (self w))).
Proof.
  intros (t4 & t6 & Hinv)%reachable_inv.
  rewrite (tree_nodes_inv _ _ _ _ Hinv).
  destruct Hinv as (H4 & H6 & Hr4 & Hr6 & Hnd & _).
  exists t4, [], t6. simpl. rewrite app_nil_r.
  repeat split; try done. apply Forall_singleton. by exists None.
Qed.

Lemma iter_ok_intro h t it rem cur pending rest :
  root cur = iter_rn it → map root pending = map Some (iterstack it) →
  (∃ par, repr h par cur) → Forall (λ sub, ∃ par, repr h par sub) pending →
  repr h None rest →
  root rest = match af it with AF_INET => head_ipv6 t | AF_INET6 => None end →
  (cur = Leaf → pending = []) →
  rem = locs cur ++ locs_all pending ++ locs rest → NoDup rem →
  iter_ok h t it rem.
Proof.
  intros H1 H2 H3 H4 H5 H6 H7 -> H9. exists cur, pending, rest.
  repeat (split; [done|]). split; [by apply Forall_cons|]. do 3 (split; [done|]).
  simpl. by rewrite <- app_assoc.
Qed.

Lemma RadixIter_again_spec h t :
  ∀ fuel it rem, iter_ok h t it rem → (iter_steps it rem ≤ fuel)%nat →
    ∃ it', RadixIter_again fuel h t it
           = Ok (it', match next_payload h rem with
                      | Some (o, _) => Yield o
                      | None => StopIteration
                      end) ∧
           iter_gen_id it' = iter_gen_id it ∧
           match next_payload h rem with
           | Some (_, rem') => iter_ok h t it' rem'
           | None => True
           end.
Proof.
  induction fuel as [|f IH]; intros it rem Hok Hfuel.
  { unfold iter_steps in Hfuel. destruct (af it); lia. }
  destruct Hok as (cur & pending & rest & Hcur & Hpend & Hsubs & Hrest & Hroot & Hleaf
                   & -> & Hnd).
  cbn [RadixIter_again]. rewrite <- Hcur. destruct cur as [|a b p d tl tr].
  - (* both stacks of the walk are empty *)
    rewrite (Hleaf eq_refl) in *. cbn [root map locs_all locs app] in *.
    destruct (af it) eqn:Haf.
    + destruct (IH {| iterstack := []; iter_rn := head_ipv6 t; af := AF_INET6;
                      iter_gen_id := iter_gen_id it |} (locs rest)) as (it' & Hcall & Hgen & Hok').
      * exists rest, [], Leaf. simpl. rewrite !app_nil_r.
        repeat split; try done. apply Forall_singleton. by exists None.
      * unfold iter_steps in *. rewrite Haf in Hfuel. simpl. lia.
      * exists it'. done.
    + destruct rest; [|done]. exists it. done.
  - (* at the node [a] *)
    apply Forall_cons in Hsubs as [[par (Ha & Hrl & Hrr)] Hsubs].
    cbn [root]. rewrite (deref_Some _ _ _ Ha). cbn [mbind res_bind l r prefix data].
    cbn [locs_all locs] in Hnd, Hfuel |- *.
    set (tail := (locs tl ++ locs tr) ++ locs_all pending ++ locs rest).
    assert (((a :: locs tl ++ locs tr) ++ locs_all pending) ++ locs rest
            = a :: tail) as Hrem by (subst tail; simpl; by rewrite <- !app_assoc).
    rewrite Hrem in *. apply NoDup_cons in Hnd as [_ Hnd].
    set (it' := match root tl, root tr, iterstack it with
                | Some lc, Some rc, sp =>
                  {| iterstack := rc :: sp; iter_rn := Some lc; af := af it;
                     iter_gen_id := iter_gen_id it |}
                | Some lc, None, sp =>
                  {| iterstack := sp; iter_rn := Some lc; af := af it;
                     iter_gen_id := iter_gen_id it |}
                | None, Some rc, sp =>
                  {| iterstack := sp; iter_rn := Some rc; af := af it;
                     iter_gen_id := iter_gen_id it |}
                | None, None, top :: sp =>
                  {| iterstack := sp; iter_rn := Some top; af := af it;
                     iter_gen_id := iter_gen_id it |}
                | None, None, [] =>
                  {| iterstack := []; iter_rn := None; af := af it;
                     iter_gen_id := iter_gen_id it |}
                end).
    assert (iter_ok h t it' tail ∧ af it' = af it ∧ iter_gen_id it' = iter_gen_id it)
      as (Hok' & Haf' & Hgen').
    { assert (∀ sub, sub = tl ∨ sub = tr → ∃ par, repr h par sub) as Hchild.
      { intros sub [-> | ->]; by exists (Some a). }
      subst it' tail.
      destruct tl as [|lc bl pl dl tll tlr], tr as [|rc br pr dr trl trr];
        cbn [root locs app] in *.
      - destruct pending as [|sub pending], (iterstack it) as [|top sp]; try done.
        + split; [|done].
          apply (iter_ok_intro _ _ _ _ Leaf [] rest); try done. by exists None.
        + injection Hpend as Htop Hpend. split; [|done].
          apply Forall_cons in Hsubs as [Hsub Hsubs].
          apply (iter_ok_intro _ _ _ _ sub pending rest); try done;
            try (simpl; by repeat (rewrite <- app_assoc || rewrite <- app_comm_cons)).
          by intros ->.
      - split; [|done].
        apply (iter_ok_intro _ _ _ _ (Node rc br pr dr trl trr) pending rest); try done;
          try (apply Hchild; by auto);
          try (simpl; by repeat (rewrite <- app_assoc || rewrite <- app_comm_cons)).
      - split; [|done]. rewrite app_nil_r in *.
        apply (iter_ok_intro _ _ _ _ (Node lc bl pl dl tll tlr) pending rest); try done;
          try (apply Hchild; by auto);
          try (simpl; by repeat (rewrite <- app_assoc || rewrite <- app_comm_cons)).
      - split; [|done].
        apply (iter_ok_intro _ _ _ _ (Node lc bl pl dl tll tlr)
                 (Node rc br pr dr trl trr :: pending) rest); try done;
          try (apply Hchild; by auto).
        + simpl. by rewrite Hpend.
        + apply Forall_cons. split; [apply Hchild; by auto|done].
        + simpl. by repeat (rewrite <- app_assoc || rewrite <- app_comm_cons). }
    fold it'. cbn [next_payload]. rewrite Ha. cbn [prefix data].
    destruct p as [np|], d as [o|]; try (by exists it');
      (destruct (IH it' tail Hok') as (it'' & Hcall & Hgen'' & Hok'');
       [unfold iter_steps in *; rewrite Haf'; simpl in Hfuel; lia|];
       exists it''; split; [done|]; split; [congruence|done]).
Qed.

(** The operations of the binding keep the tree among the reachable
    ones. *)
Lemma Radix_add_reachable ok1 ok2 ok3 w p w' o :
  reachable (nodes w) (rt (self w)) → valid_prefix p →
  Radix_add ok1 ok2 ok3 w p = Ok (w', Return o) →
  reachable (nodes w') (rt (self w')).
Proof.
  intros Hreach Hp. unfold Radix_add, create_add_node.
  destruct (radix_lookup ok1 ok2 (nodes w) (rt (self w)) p) as [[[h t] [x|]]|] eqn:Hcall;
    cbn [mbind res_bind]; [|done..].
  assert (reachable h t) as Hreach' by (by eapply reach_lookup).
  assert (real_node h t x) as Hreal.
  { apply radix_lookup_ok in Hcall. apply reachable_inv in Hreach.
    apply (inv_fam_inv _ _ (family p)) in Hreach as (T & O & Hinv).
    destruct (radix_lookup_spec _ _ p T O Hp Hinv)
      as (h1 & t1 & n & T' & p' & Hcall' & Hinv' & Hnode & _).
    rewrite Hcall in Hcall'. injection Hcall' as <- <- <-.
    destruct (node_in_stored _ _ _ _ _ _ _ _ Hinv' Hnode) as [(Hin & m & Hm & Hpm) _].
    split; [done|]. exists m. by rewrite Hpm. }
  destruct (deref h x) as [n|]; cbn [mbind res_bind]; [|done].
  destruct (data n) as [o'|]; cbn [mbind res_bind].
  { by intros [= <- <-]. }
  destruct (newRadixNodeObject _ _ _ _) as [[o' objs]|]; cbn [mbind res_bind]; [|done].
  destruct (store h x (set_data (Some o'))) as [h1|] eqn:Hstore; cbn [mbind res_bind];
    [|done].
  intros [= <- <-]. simpl. by eapply reach_data.
Qed.

Lemma Radix_delete_reachable oob w p w' :
  reachable (nodes w) (rt (self w)) →
  Radix_delete oob w p = Ok (w', Return ()) →
  reachable (nodes w') (rt (self w')).
Proof.
  intros Hreach. unfold Radix_delete.
  destruct (radix_search_exact oob (nodes w) (rt (self w)) p) as [[x|]|] eqn:Hfind;
    cbn [mbind res_bind]; [|done..].
  destruct (deref (nodes w) x) as [n|]; cbn [mbind res_bind]; [|done].
  destruct (radix_remove (nodes w) (rt (self w)) x) as [[h t]|] eqn:Hrem;
    cbn [mbind res_bind]; [|done].
  intros [= <-]. simpl. eapply reach_remove; [done| |done].
  pose proof (reachable_inv _ _ Hreach) as Hinv.
  apply (inv_fam_inv _ _ (family p)) in Hinv as (T & O & Hinv).
  by eapply radix_search_exact_real.
Qed.

Lemma gen_id_incr_ne g : (g + 1) mod 2 ^ 32 ≠ g.
Proof.
  change (2 ^ 32) with 4294967296. intros Heq.
  pose proof (Z.div_mod (g + 1) 4294967296 ltac:(done)) as Hdm.
  rewrite Heq in Hdm. lia.
Qed.

(** The walk keeps the generation the iterator holds, and never gives the
    warning of a modification: only the comparison of the generations
    does. *)
Lemma RadixIter_again_gen h t fuel : ∀ it it' res,
  RadixIter_again fuel h t it = Ok (it', res) →
  iter_gen_id it' = iter_gen_id it ∧ res ≠ RuntimeWarning.
Proof.
  induction fuel as [|f IH]; intros it it' res; [done|]. cbn [RadixIter_again].
  destruct (iter_rn it) as [node|].
  - destruct (deref h node) as [n|]; cbn [mbind res_bind]; [|done].
    set (next := match l n, r n, iterstack it with
                 | Some lc, Some rc, sp => _ | Some lc, None, sp => _
                 | None, Some rc, sp => _ | None, None, top :: sp => _
                 | None, None, [] => _ end).
    assert (iter_gen_id next = iter_gen_id it) as Hnext.
    { subst next. by destruct (l n), (r n), (iterstack it). }
    destruct (prefix n), (data n);
      first [ by intros [= <- <-]
            | intros Hcall; apply IH in Hcall as [Hgen Hres]; split; [congruence|done] ].
  - destruct (af it).
    + intros Hcall. by apply IH in Hcall.
    + by intros [= <- <-].
Qed.

(** C6: a new iterator holds the generation of the tree at its
    construction and has the whole walk of the two tries before it. A call
    of [next], on every iterator, fresh or stale, leaves the generation the
    iterator holds as it is, and fails with the warning of a modification
    exactly when that generation is not the current one of the tree; the
    stale iterator is returned as it was. When the generations agree, the
    call yields the payload of the next node of the walk that has a prefix
    and a payload and moves the iterator behind that node, or ends the
    iteration when no such node remains. After an [add] that returned a node
    and after a [delete] that removed one, the next call fails, on the
    iterator made before the update and on every iterator that held the
    generation of the tree; a store into the payload of a node changes
    nothing for the iterator. *)
Theorem iterator_next w it :
  (iter_gen_id (newRadixIterObject w) = gen_id (self w) ∧
   (reachable (nodes w) (rt (self w)) →
    iter_ok (nodes w) (rt (self w)) (newRadixIterObject w)
      (tree_nodes (nodes w) (rt (self w))))) ∧
  (iter_gen_id it ≠ gen_id (self w) →
   RadixIter_iternext w it = Ok (it, RuntimeWarning)) ∧
  (∀ it' res,
     RadixIter_iternext w it = Ok (it', res) →
     iter_gen_id it' = iter_gen_id it ∧
     (res = RuntimeWarning ↔ iter_gen_id it ≠ gen_id (self w))) ∧
  (∀ rem,
     iter_ok (nodes w) (rt (self w)) it rem →
     ∃ it' res,
       RadixIter_iternext w it = Ok (it', res) ∧
       iter_gen_id it' = iter_gen_id it ∧
       (res = RuntimeWarning ↔ iter_gen_id it ≠ gen_id (self w)) ∧
       (iter_gen_id it = gen_id (self w) →
        match next_payload (nodes w) rem with
        | Some (o, rem') => res = Yield o ∧ iter_ok (nodes w) (rt (self w)) it' rem'
        | None => res = StopIteration
        end)) ∧
  (∀ ok1 ok2 ok3 p w' o,
     Radix_add ok1 ok2 ok3 w p = Ok (w', Return o) →
     RadixIter_iternext w' (newRadixIterObject w)
       = Ok (newRadixIterObject w, RuntimeWarning) ∧
     (iter_gen_id it = gen_id (self w) →
      RadixIter_iternext w' it = Ok (it, RuntimeWarning))) ∧
  (∀ oob p w',
     Radix_delete oob w p = Ok (w', Return ()) →
     RadixIter_iternext w' (newRadixIterObject w)
       = Ok (newRadixIterObject w, RuntimeWarning) ∧
     (iter_gen_id it = gen_id (self w) →
      RadixIter_iternext w' it = Ok (it, RuntimeWarning))) ∧
  (∀ o k v, RadixIter_iternext (data_setitem o k v w) it = RadixIter_iternext w it).
Proof.
  assert (∀ w' j, gen_id (self w') = (gen_id (self w) + 1) mod 2 ^ 32 →
            iter_gen_id j = gen_id (self w) →
            RadixIter_iternext w' j = Ok (j, RuntimeWarning)) as Hstale.
  { intros w' j Hgen Hj. unfold RadixIter_iternext.
    rewrite bool_decide_eq_false_2; [done|].
    rewrite Hj, Hgen. intros Heq. by apply (gen_id_incr_ne (gen_id (self w))). }
  split; [|split; [|split; [|split; [|split; [|split; [|done]]]]]].
  - split; [done|]. apply iter_ok_new.
  - intros Hgen. unfold RadixIter_iternext. by rewrite bool_decide_eq_false_2.
  - intros it' res. unfold RadixIter_iternext. case_bool_decide as Hgen.
    + intros [Hgen' Hres]%RadixIter_again_gen. split; [done|]. by split.
    + intros [= <- <-]. by split.
  - intros rem Hok. unfold RadixIter_iternext. case_bool_decide as Hgen.
    + destruct (RadixIter_again_spec (nodes w) (rt (self w))
                  (2 * fuel_of (nodes w)) it rem Hok) as (it' & Hcall & Hgen' & Hok').
      { pose proof (iter_ok_size _ _ _ _ Hok). unfold iter_steps, fuel_of.
        destruct (af it); lia. }
      eexists it', _. split; [done|]. split; [done|]. split.
      * split; [|done]. by destruct (next_payload _ _) as [[? ?]|].
      * intros _. by destruct (next_payload _ _) as [[? ?]|].
    + exists it, RuntimeWarning. done.
  - intros ok1 ok2 ok3 p w' o Hadd%Radix_add_gen_id. split; [by apply Hstale|].
    intros Hgen. by apply Hstale.
  - intros oob p w' Hdel%Radix_delete_gen_id. split; [by apply Hstale|].
    intros Hgen. by apply Hstale.
Qed.

Lemma iterator_next_witness :
  ∃ w o w',
    Radix_add true true true newRadixObject (ipv4 10 0 0 0 16) = Ok (w, Return o) ∧
    Radix_delete false w (ipv4 10 0 0 0 16) = Ok (w', Return ()) ∧
    (∃ it' res,
       RadixIter_iternext w (newRadixIterObject w) = Ok (it', res) ∧
       iter_gen_id it' = iter_gen_id (newRadixIterObject w) ∧
       (res = RuntimeWarning ↔ iter_gen_id (newRadixIterObject w) ≠ gen_id (self w)) ∧
       (iter_gen_id (newRadixIterObject w) = gen_id (self w) →
        match next_payload (nodes w) (tree_nodes (nodes w) (rt (self w))) with
        | Some (o', rem') =>
          res = Yield o' ∧ iter_ok (nodes w) (rt (self w)) it' rem'
        | None => res = StopIteration
        end)) ∧
    RadixIter_iternext w' (newRadixIterObject w)
      = Ok (newRadixIterObject w, RuntimeWarning).
Proof.
  pose (w := match Radix_add true true true newRadixObject (ipv4 10 0 0 0 16) with
             | Ok (w, _) => w
             | Err _ => newRadixObject
             end).
  pose (w' := match Radix_delete false w (ipv4 10 0 0 0 16) with
              | Ok (w', _) => w'
              | Err _ => newRadixObject
              end).
  assert (Radix_add true true true newRadixObject (ipv4 10 0 0 0 16)
          = Ok (w, Return 1%positive)) as Hadd by (vm_compute; reflexivity).
  assert (Radix_delete false w (ipv4 10 0 0 0 16) = Ok (w', Return ())) as Hdel
    by (vm_compute; reflexivity).
  assert (reachable (nodes w) (rt (self w))) as Hreach.
  { eapply (Radix_add_reachable true true true newRadixObject (ipv4 10 0 0 0 16));
      [apply reach_new| |exact Hadd].
    unfold ipv4, valid_prefix. solve_valid_prefixes. }
  destruct (iterator_next w (newRadixIterObject w))
    as ((_ & Hnew) & _ & _ & Hnext & _ & Hdelete & _).
  exists w, 1%positive, w'. split; [exact Hadd|]. split; [exact Hdel|]. split.
  - exact (Hnext _ (Hnew Hreach)).
  - exact (proj1 (Hdelete _ _ _ Hdel)).
Defined.

(** * More of the searches *)

(** ** The exact search *)

(** The descent of the exact search ends on [stop_t]; it reads bits of the
    address below the length of [q] only. *)
Lemma radix_search_foreach_stop oob h q T :
  valid_prefix q →
  ∀ lo par fuel, 0 ≤ lo → pat (family q) lo T → repr h par T →
    (height T < fuel)%nat →
    radix_search_foreach fuel oob h q (root T) = Ok ((λ r, r.1.1) <$> stop_t q T).
Proof.
  intros Hq. induction T as [|a b p d tl IHl tr IHr];
    intros lo par fuel Hlo Hpat Hrepr Hfuel;
    (destruct fuel as [|f]; [simpl in Hfuel; lia|]); [done|].
  pose proof Hpat as (Hb & Hp & Hag & Hleft & Hright & Hpl & Hpr).
  pose proof Hrepr as (Ha & Hrl & Hrr).
  cbn [radix_search_foreach root stop_t]. rewrite (deref_Some _ _ _ Ha).
  cbn [mbind res_bind bit].
  destruct (Z.ltb_spec b (bitlen q)) as [Hlt|Hge]; [|done].
  rewrite (search_next_child oob q (family q) lo a b p d tl tr par) by (done || lia).
  simpl in Hfuel. destruct (getbit (add q) b).
  - apply (IHr (b + 1) (Some a)); [lia|done|done|lia].
  - apply (IHl (b + 1) (Some a)); [lia|done|done|lia].
Qed.

Lemma stop_t_node_in q T a b p : stop_t q T = Some (a, b, p) → node_in T a b p ∧ bitlen q ≤ b.
Proof.
  induction T as [|a' b' p' d tl IHl tr IHr]; [done|]. cbn [stop_t node_in].
  destruct (Z.ltb_spec b' (bitlen q)) as [Hlt|Hge].
  - destruct (getbit (add q) b'); intros H.
    + destruct (IHr H). auto.
    + destruct (IHl H). auto.
  - intros [= -> -> ->]. auto.
Qed.

(** The descent for [q] stops on the node of a stored prefix of the
    length of [q] that agrees with [q]. *)
Lemma stop_t_stored q T x P :
  valid_prefix q →
  ∀ lo, 0 ≤ lo → pat (family q) lo T →
    node_in T x (bitlen q) (Some P) → agree (add P) (add q) (bitlen q) →
    stop_t q T = Some (x, bitlen q, Some P).
Proof.
  intros Hq. induction T as [|a b p d tl IHl tr IHr]; intros lo Hlo Hpat Hx Hag; [done|].
  pose proof Hpat as (Hb & Hp & _ & Hleft & Hright & Hpl & Hpr).
  cbn [stop_t]. destruct Hx as [(-> & -> & ->)|Hx].
  { by rewrite Z.ltb_irrefl. }
  assert (∀ c, (c = tl ∨ c = tr) → node_in c x (bitlen q) (Some P) →
            b < bitlen q ∧ P ∈ prefixes c) as Hbelow.
  { intros c Hc Hin. assert (pat (family q) (b + 1) c) as Hpc by (by destruct Hc as [-> | ->]).
    destruct (node_in_pat _ _ _ _ _ _ Hpc Hin). split; [lia|by eapply node_in_prefixes]. }
  destruct Hx as [Hx|Hx].
  - destruct (Hbelow tl) as [Hlt HP]; [by left|done|].
    rewrite (proj2 (Z.ltb_lt _ _)) by lia.
    rewrite <- (Hag b) by lia. rewrite (Hleft P HP). apply (IHl (b + 1)); [lia|done..].
  - destruct (Hbelow tr) as [Hlt HP]; [by right|done|].
    rewrite (proj2 (Z.ltb_lt _ _)) by lia.
    rewrite <- (Hag b) by lia. rewrite (Hright P HP). apply (IHr (b + 1)); [lia|done..].
Qed.

(** The test of the exact search on a prefix of the trie of the length of
    [q]. *)
Lemma exact_test_agree fam lo T np q :
  valid_prefix q → pat fam lo T → family q = fam → np ∈ prefixes T →
  comp_with_mask (add np) (add q) (bitlen q) = true ↔ agree (add np) (add q) (bitlen q).
Proof.
  intros Hq Hpat Hfam Hin.
  destruct (pat_prefixes _ _ _ _ Hpat Hin) as (Hf & Hv & _).
  destruct Hq as (Hql & Hqlen & Hqb). destruct Hv as (Hl & Hlen & Hbytes).
  assert (length (add np) = length (add q)) as Hlens by (rewrite Hf, <- Hfam in Hlen; lia).
  apply comp_with_mask_agree; [done|done|done|]. rewrite Hlens. lia.
Qed.

(** The exact search on a state that satisfies the invariant: the node of
    the stored prefix of the family and the length of [q] that agrees with
    [q], none when there is no such prefix. *)
Lemma radix_search_exact_spec oob h t q T O :
  valid_prefix q → fam_inv h t (family q) T O →
  ∃ res, radix_search_exact oob h t q = Ok res ∧
    match res with
    | Some x =>
      (∃ P, node_in T x (bitlen q) (Some P) ∧ agree (add P) (add q) (bitlen q)) ∧
      ∀ y P, node_in T y (bitlen q) (Some P) → agree (add P) (add q) (bitlen q) → y = x
    | None => ∀ y P, node_in T y (bitlen q) (Some P) → ¬ agree (add P) (add q) (bitlen q)
    end.
Proof.
  intros Hq (Hhead & _ & HrT & _ & Hnd & HpT & _).
  apply NoDup_app in Hnd as (HndT & _).
  unfold radix_search_exact. rewrite head_by_prefix, Hhead.
  destruct (root T) as [a0|] eqn:Hroot.
  2: { exists None. split; [done|]. intros y P Hy. by destruct T. }
  rewrite <- Hroot.
  rewrite (radix_search_foreach_stop oob h q T Hq 0 None)
    by (done || by apply (height_fuel _ None)).
  assert (∀ y P, stop_t q T = None → node_in T y (bitlen q) (Some P) →
            ¬ agree (add P) (add q) (bitlen q)) as Hnone.
  { intros y P Hstop Hy Hag. by rewrite (stop_t_stored q T y P Hq 0) in Hstop. }
  destruct (stop_t q T) as [[[a b] p]|] eqn:Hstop; cbn [fmap option_fmap option_map];
    cbn [mbind res_bind fst]; [|exists None; split; [done|]; by eauto].
  destruct (stop_t_node_in _ _ _ _ _ Hstop) as [Hnode Hge].
  destruct (node_in_repr _ _ _ _ _ _ HrT Hnode) as (n & Hn & Hbit & Hpref).
  rewrite (deref_Some _ _ _ Hn). cbn [mbind res_bind]. rewrite Hbit, Hpref.
  assert (∀ y P, (b ≠ bitlen q ∨ p = None ∨
                  ∃ np, p = Some np ∧ ¬ agree (add np) (add q) (bitlen q)) →
            node_in T y (bitlen q) (Some P) → ¬ agree (add P) (add q) (bitlen q)) as Hmiss.
  { intros y P Hwhy Hy Hag. rewrite (stop_t_stored q T y P Hq 0) in Hstop by done.
    injection Hstop as <- <- <-. destruct Hwhy as [?|[?|(np & [= <-] & ?)]]; done. }
  destruct (Z.ltb_spec (bitlen q) b) as [Hlt|Hle].
  { exists None. split; [done|]. intros y P. apply Hmiss. left. lia. }
  assert (b = bitlen q) as -> by lia.
  destruct p as [np|]; [|exists None; split; [done|]; intros y P; apply Hmiss; auto].
  pose proof (exact_test_agree _ _ _ np q Hq HpT eq_refl (node_in_prefixes _ _ _ _ Hnode))
    as Htest.
  destruct (comp_with_mask (add np) (add q) (bitlen q)) eqn:Hcomp.
  - exists (Some a). split; [done|]. split.
    + exists np. split; [done|]. by apply Htest.
    + intros y P Hy Hag. rewrite (stop_t_stored q T y P Hq 0) in Hstop by done.
      by injection Hstop as ->.
  - exists None. split; [done|]. intros y P. apply Hmiss. right. right.
    exists np. split; [done|]. intros Hag%Htest. done.
Qed.

(** In every reachable tree the exact search for a valid prefix [q] returns
    the node of the stored prefix of the family and the length of [q] that
    agrees with [q] on these bits, the only such node, and NULL when no
    stored prefix does; the bits of [q] behind its length play no part. *)
Theorem search_exact_finds_stored oob h t q :
  reachable h t → valid_prefix q →
  ∃ res, radix_search_exact oob h t q = Ok res ∧
    match res with
    | Some x =>
      (∃ P, stored h t x P ∧ family P = family q ∧ bitlen P = bitlen q ∧
            agree (add P) (add q) (bitlen q)) ∧
      ∀ y P, stored h t y P → family P = family q → bitlen P = bitlen q →
             agree (add P) (add q) (bitlen q) → y = x
    | None =>
      ∀ y P, stored h t y P → family P = family q → bitlen P = bitlen q →
             ¬ agree (add P) (add q) (bitlen q)
    end.
Proof.
  intros Hinv%reachable_inv Hq.
  apply (inv_fam_inv _ _ (family q)) in Hinv as (T & O & Hinv).
  destruct (radix_search_exact_spec oob h t q T O Hq Hinv) as (res & Hcall & Hres).
  exists res. split; [done|]. destruct res as [x|].
  - destruct Hres as [(P & Hnode & Hag) Huniq]. split.
    + destruct (node_in_stored _ _ _ _ _ _ _ _ Hinv Hnode) as [Hst Hfam].
      pose proof Hinv as (_ & _ & _ & _ & _ & HpT & _).
      destruct (node_in_pat _ _ _ _ _ _ HpT Hnode) as [Hlen _].
      exists P. done.
    + intros y P' Hst Hfam Hlen Hag'. apply (Huniq y P'); [|done].
      rewrite <- Hlen. by eapply stored_in_trie.
  - intros y P Hst Hfam Hlen. apply (Hres y P). rewrite <- Hlen. by eapply stored_in_trie.
Qed.

Lemma search_exact_finds_stored_witness :
  ∃ h t res,
    inserts ∅ New_Radix two_children = Some (h, t) ∧
    radix_search_exact false h t (ipv4 10 0 99 7 16) = Ok res ∧
    match res with
    | Some x =>
      (∃ P, stored h t x P ∧ family P = AF_INET ∧ bitlen P = 16 ∧
            agree (add P) [10; 0; 99; 7] 16) ∧
      ∀ y P, stored h t y P → family P = AF_INET → bitlen P = 16 →
             agree (add P) [10; 0; 99; 7] 16 → y = x
    | None =>
      ∀ y P, stored h t y P → family P = AF_INET → bitlen P = 16 →
             ¬ agree (add P) [10; 0; 99; 7] 16
    end.
Proof.
  eexists _, _.
  destruct (search_exact_finds_stored false
              (default (∅, New_Radix) (inserts ∅ New_Radix two_children)).1
              (default (∅, New_Radix) (inserts ∅ New_Radix two_children)).2
              (ipv4 10 0 99 7 16)) as (res & Hcall & Hres).
  - eapply (reachable_inserts two_children ∅ New_Radix);
      [apply reach_new| |vm_compute; reflexivity].
    unfold two_children, ipv4, valid_prefix. solve_valid_prefixes.
  - unfold ipv4, valid_prefix. solve_valid_prefixes.
  - exists res. split; [vm_compute; reflexivity|]. split; [exact Hcall|exact Hres].
Defined.

(** ** The worst match *)

(** The stack of the inclusive search holds [path_stack], the last push
    first. *)
Lemma radix_search_stack_path oob h q inclusive T :
  valid_prefix q →
  ∀ lo par fuel stack, 0 ≤ lo → pat (family q) lo T → repr h par T →
    (height T < fuel)%nat →
    radix_search_stack fuel oob h q inclusive (root T) stack
    = Ok (rev (path_stack q inclusive T) ++ stack).
Proof.
  intros Hq. induction T as [|a b p d tl IHl tr IHr];
    intros lo par fuel stack Hlo Hpat Hrepr Hfuel;
    (destruct fuel as [|f]; [simpl in Hfuel; lia|]); [done|].
  pose proof Hpat as (Hb & Hp & Hag & Hleft & Hright & Hpl & Hpr).
  pose proof Hrepr as (Ha & Hrl & Hrr).
  cbn [radix_search_stack root path_stack]. rewrite (deref_Some _ _ _ Ha).
  cbn [mbind res_bind bit prefix].
  destruct (Z.leb_spec b (bitlen q)) as [Hle|Hgt]; [|done].
  rewrite (search_next_child oob q (family q) lo a b p d tl tr par) by done.
  assert (∀ st, radix_search_stack f oob h q inclusive
                  (root (if getbit (add q) b then tr else tl)) st =
                Ok (rev (path_stack q inclusive (if getbit (add q) b then tr else tl))
                    ++ st)) as ->.
  { intros st. simpl in Hfuel. destruct (getbit (add q) b).
    - apply (IHr (b + 1) (Some a)); [lia|done|done|lia].
    - apply (IHl (b + 1) (Some a)); [lia|done|done|lia]. }
  rewrite rev_app_distr, <- app_assoc.
  by destruct (non_null p && (inclusive || negb (b =? bitlen q))).
Qed.

(** The scan from the first push on computes [worst_t]. *)
Lemma radix_worst_scan_path h q inclusive T :
  ∀ par, repr h par T →
    radix_worst_scan h q (path_stack q inclusive T) = Ok (fst <$> worst_t q inclusive T).
Proof.
  induction T as [|a b p d tl IHl tr IHr]; intros par Hrepr; [done|].
  destruct Hrepr as (Ha & Hrl & Hrr). cbn [path_stack worst_t].
  destruct (b <=? bitlen q); [|done].
  assert (radix_worst_scan h q (path_stack q inclusive (if getbit (add q) b then tr else tl))
          = Ok (fst <$> worst_t q inclusive (if getbit (add q) b then tr else tl))) as IH.
  { destruct (getbit (add q) b); [by apply (IHr (Some a))|by apply (IHl (Some a))]. }
  destruct p as [np|]; [|done]. cbn [non_null andb].
  destruct (inclusive || negb (b =? bitlen q)); [|done].
  cbn [app radix_worst_scan andb]. rewrite (deref_Some _ _ _ Ha). simpl.
  by destruct (comp_with_mask (add np) (add q) (bitlen np)).
Qed.

Lemma radix_search_worst2_worst_t oob h t q inclusive T O :
  valid_prefix q → fam_inv h t (family q) T O →
  radix_search_worst2 oob h t q inclusive = Ok (fst <$> worst_t q inclusive T).
Proof.
  intros Hq (Hhead & _ & HrT & _ & Hnd & HpT & _).
  apply NoDup_app in Hnd as (HndT & _).
  unfold radix_search_worst2. rewrite head_by_prefix, Hhead.
  destruct (root T) as [a|] eqn:Hroot; [|by destruct T].
  rewrite <- Hroot.
  rewrite (radix_search_stack_path oob h q inclusive T Hq 0 None)
    by (done || by apply (height_fuel _ None)).
  cbn [mbind res_bind]. rewrite app_nil_r, rev_involutive.
  by apply (radix_worst_scan_path _ _ _ _ None).
Qed.

(** Soundness and minimality of [worst_t] on a Patricia trie. *)
Lemma worst_t_spec q inclusive T :
  valid_prefix q →
  ∀ lo, 0 ≤ lo → pat (family q) lo T →
    match worst_t q inclusive T with
    | Some (a, P) =>
      node_in T a (bitlen P) (Some P) ∧ contains P q ∧
      (inclusive = false → bitlen P < bitlen q) ∧
      ∀ P', P' ∈ prefixes T → contains P' q →
            inclusive = true ∨ bitlen P' ≠ bitlen q → bitlen P ≤ bitlen P'
    | None =>
      ∀ P', P' ∈ prefixes T → contains P' q → inclusive = false ∧ bitlen P' = bitlen q
    end.
Proof.
  intros Hq. induction T as [|a b p d tl IHl tr IHr]; intros lo Hlo Hpat.
  { simpl. intros P' HP'. by apply elem_of_nil in HP'. }
  pose proof Hpat as (Hb & Hp & Hag & Hleft & Hright & Hpl & Hpr).
  cbn [worst_t].
  destruct (Z.leb_spec b (bitlen q)) as [Hle|Hgt].
  2: { intros P' HP' [Hlen _].
       destruct (pat_prefixes _ _ _ _ Hpat HP') as (_ & _ & Hlo').
       apply elem_of_prefixes_node in HP' as [HP'|[HP'|HP']].
       - subst p. destruct Hp as (_ & _ & Hp). lia.
       - destruct (pat_prefixes _ _ _ _ Hpl HP') as (_ & _ & ?). lia.
       - destruct (pat_prefixes _ _ _ _ Hpr HP') as (_ & _ & ?). lia. }
  set (child := if getbit (add q) b then tr else tl).
  set (sibling := if getbit (add q) b then tl else tr).
  assert (pat (family q) (b + 1) child) as Hpc by (subst child; by destruct (getbit _ _)).
  assert (∀ P', P' ∈ prefixes sibling → contains P' q → False) as Hsib.
  { intros P' HP' [Hlen Hagree].
    assert (b + 1 ≤ bitlen P') as Hlo'.
    { subst sibling. destruct (getbit (add q) b);
        [destruct (pat_prefixes _ _ _ _ Hpl HP') as (_ & _ & ?)
        |destruct (pat_prefixes _ _ _ _ Hpr HP') as (_ & _ & ?)]; lia. }
    specialize (Hagree b ltac:(lia)). subst sibling.
    destruct (getbit (add q) b); [rewrite Hleft in Hagree|rewrite Hright in Hagree]; done. }
  assert (∀ P', P' ∈ prefixes (Node a b p d tl tr) →
            p = Some P' ∨ P' ∈ prefixes child ∨ P' ∈ prefixes sibling) as Hsplit.
  { intros P' HP'. apply elem_of_prefixes_node in HP'. subst child sibling.
    destruct (getbit (add q) b); tauto. }
  assert (∀ a' P, node_in child a' (bitlen P) (Some P) →
            node_in (Node a b p d tl tr) a' (bitlen P) (Some P)) as Hnode.
  { intros a' P HP. simpl. subst child. destruct (getbit (add q) b); auto. }
  specialize (IHl (b + 1) ltac:(lia) Hpl). specialize (IHr (b + 1) ltac:(lia) Hpr).
  assert (match worst_t q inclusive child with
          | Some (a, P) =>
            node_in child a (bitlen P) (Some P) ∧ contains P q ∧
            (inclusive = false → bitlen P < bitlen q) ∧
            ∀ P', P' ∈ prefixes child → contains P' q →
                  inclusive = true ∨ bitlen P' ≠ bitlen q → bitlen P ≤ bitlen P'
          | None =>
            ∀ P', P' ∈ prefixes child → contains P' q →
                  inclusive = false ∧ bitlen P' = bitlen q
          end) as IH by (subst child; by destruct (getbit _ _)).
  clear IHl IHr.
  assert (match worst_t q inclusive child with
          | Some (a', P) =>
            node_in (Node a b p d tl tr) a' (bitlen P) (Some P) ∧ contains P q ∧
            (inclusive = false → bitlen P < bitlen q) ∧
            ∀ P', P' ∈ prefixes child ∨ P' ∈ prefixes sibling → contains P' q →
                  inclusive = true ∨ bitlen P' ≠ bitlen q → bitlen P ≤ bitlen P'
          | None =>
            ∀ P', P' ∈ prefixes child ∨ P' ∈ prefixes sibling → contains P' q →
                  inclusive = false ∧ bitlen P' = bitlen q
          end) as Hbelow.
  { destruct (worst_t q inclusive child) as [[a' P]|].
    - destruct IH as (H1 & H2 & H3 & H4). repeat split; auto; try apply H2.
      intros P' [HP'|HP'] Hc Hf; [by apply H4|destruct (Hsib _ HP' Hc)].
    - intros P' [HP'|HP'] Hc; [by apply IH|destruct (Hsib _ HP' Hc)]. }
  clear IH. fold child.
  destruct p as [np|].
  - assert (np ∈ prefixes (Node a b (Some np) d tl tr)) as Hnp.
    { apply elem_of_prefixes_node. by left. }
    pose proof (scan_test_contains _ _ _ np q Hq Hpat eq_refl Hnp) as Htest.
    destruct Hp as (_ & _ & Hnb).
    rewrite (proj2 (Z.leb_le (bitlen np) (bitlen q))), andb_true_r in Htest by lia.
    destruct ((inclusive || negb (b =? bitlen q)) && _) eqn:Hfilter.
    + apply andb_true_iff in Hfilter as [Hf1 Hf2]. apply Htest in Hf2.
      split; [left; by rewrite Hnb|]. split; [done|]. split.
      { intros ->. simpl in Hf1. apply negb_true_iff, Z.eqb_neq in Hf1. lia. }
      intros P' HP' Hc Hfilter.
      assert (pat (family q) b (Node a b (Some np) d tl tr)) as Hpat'.
      { eapply pat_weaken; [|done]. simpl. lia. }
      destruct (pat_prefixes _ _ _ _ Hpat' HP') as (_ & _ & ?). lia.
    + destruct (worst_t q inclusive child) as [[a' P]|].
      * destruct Hbelow as (H1 & H2 & H3 & H4). repeat split; auto; try apply H2.
        intros P' HP' Hc Hf. destruct (Hsplit _ HP') as [[= <-]|HP'']; [|by apply H4; tauto].
        apply Htest in Hc. rewrite Hc, andb_true_r in Hfilter.
        apply orb_false_iff in Hfilter as [-> Hf'].
        apply negb_false_iff, Z.eqb_eq in Hf'. destruct Hf; [done|lia].
      * intros P' HP' Hc. destruct (Hsplit _ HP') as [[= <-]|HP'']; [|apply Hbelow; tauto].
        apply Htest in Hc. rewrite Hc, andb_true_r in Hfilter.
        apply orb_false_iff in Hfilter as [-> Hf'].
        apply negb_false_iff, Z.eqb_eq in Hf'. split; [done|lia].
  - destruct (worst_t q inclusive child) as [[a' P]|].
    + destruct Hbelow as (H1 & H2 & H3 & H4). repeat split; auto; try apply H2.
      intros P' HP' Hc Hf. destruct (Hsplit _ HP') as [?|HP'']; [done|by apply H4; tauto].
    + intros P' HP' Hc. destruct (Hsplit _ HP') as [?|HP'']; [done|apply Hbelow; tauto].
Qed.

(** In every reachable tree, [radix_search_worst2] for a valid prefix [q]
    returns the node of the shortest stored prefix of the family of [q]
    that contains [q], the candidates of the length of [q] left out when
    [inclusive] is 0, and NULL exactly when no candidate contains [q]. *)
Theorem search_worst_minimal oob h t q inclusive :
  reachable h t → valid_prefix q →
  ∃ res, radix_search_worst2 oob h t q inclusive = Ok res ∧
    match res with
    | Some x =>
      ∃ P, stored h t x P ∧ family P = family q ∧ contains P q ∧
           (inclusive = false → bitlen P < bitlen q) ∧
           ∀ y P', stored h t y P' → family P' = family q → contains P' q →
                   inclusive = true ∨ bitlen P' ≠ bitlen q → bitlen P ≤ bitlen P'
    | None =>
      ∀ y P', stored h t y P' → family P' = family q → contains P' q →
              inclusive = false ∧ bitlen P' = bitlen q
    end.
Proof.
  intros Hinv%reachable_inv Hq.
  apply (inv_fam_inv _ _ (family q)) in Hinv as (T & O & Hinv).
  eexists. split; [by apply (radix_search_worst2_worst_t _ _ _ _ _ T O)|].
  pose proof Hinv as (_ & _ & _ & _ & _ & HpT & _).
  pose proof (worst_t_spec q inclusive T Hq 0 (Z.le_refl 0) HpT) as Hspec.
  destruct (worst_t q inclusive T) as [[x P]|]; simpl.
  - destruct Hspec as (Hnode & Hcont & Hincl & Hmin).
    destruct (node_in_stored _ _ _ _ _ _ _ _ Hinv Hnode) as [Hst Hfam].
    exists P. repeat (split; [done|]). intros y P' Hst' Hfam' Hc Hfilter.
    apply Hmin; [|done..]. eapply node_in_prefixes. by eapply stored_in_trie.
  - intros y P' Hst' Hfam' Hc. apply Hspec; [|done].
    eapply node_in_prefixes. by eapply stored_in_trie.
Qed.

Lemma search_worst_minimal_witness :
  ∃ h t res,
    inserts ∅ New_Radix two_children = Some (h, t) ∧
    radix_search_worst2 false h t (ipv4 10 0 1 0 24) true = Ok res ∧
    match res with
    | Some x =>
      ∃ P, stored h t x P ∧ family P = AF_INET ∧ contains P (ipv4 10 0 1 0 24) ∧
           (true = false → bitlen P < 24) ∧
           ∀ y P', stored h t y P' → family P' = AF_INET →
                   contains P' (ipv4 10 0 1 0 24) →
                   true = true ∨ bitlen P' ≠ 24 → bitlen P ≤ bitlen P'
    | None =>
      ∀ y P', stored h t y P' → family P' = AF_INET → contains P' (ipv4 10 0 1 0 24) →
              true = false ∧ bitlen P' = 24
    end.
Proof.
  eexists _, _.
  destruct (search_worst_minimal false
              (default (∅, New_Radix) (inserts ∅ New_Radix two_children)).1
              (default (∅, New_Radix) (inserts ∅ New_Radix two_children)).2
              (ipv4 10 0 1 0 24) true) as (res & Hcall & Hres).
  - eapply (reachable_inserts two_children ∅ New_Radix);
      [apply reach_new| |vm_compute; reflexivity].
    unfold two_children, ipv4, valid_prefix. solve_valid_prefixes.
  - unfold ipv4, valid_prefix. solve_valid_prefixes.
  - exists res. split; [vm_compute; reflexivity|]. split; [exact Hcall|exact Hres].
Defined.

(** ** The covering walk, for any prefix and any callback *)

Lemma run_cb_app func l1 l2 :
  run_cb func (l1 ++ l2) =
  let '(c1, rc1) := run_cb func l1 in
  if rc1 =? 0
  then let '(c2, rc2) := run_cb func l2 in (c1 ++ c2, rc2)
  else (c1, rc1).
Proof.
  induction l1 as [|y l1 IH]; simpl.
  - by destruct (run_cb func l2).
  - destruct (Z.eqb_spec (func y) 0) as [Hy|Hy].
    + rewrite IH. destruct (run_cb func l1) as [c1 rc1].
      destruct (rc1 =? 0); [|done]. by destruct (run_cb func l2).
    + by rewrite (proj2 (Z.eqb_neq _ _) Hy).
Qed.

Lemma run_cb_zero func l : (∀ z, z ∈ l → func z = 0) → run_cb func l = (l, 0).
Proof.
  induction l as [|y l IH]; intros Hf; simpl; [done|].
  rewrite (Hf y) by left. simpl. rewrite IH; [done|].
  intros z Hz. apply Hf. by right.
Qed.

(** The callback is called on a part of the nodes, from the first on, and
    the walk returns 0 exactly when it passed all of them. *)
Lemma run_cb_prefix func l calls rc :
  run_cb func l = (calls, rc) →
  calls `prefix_of` l ∧
  (rc = 0 → calls = l ∧ ∀ z, z ∈ l → func z = 0) ∧
  (rc ≠ 0 → ∃ before z, calls = before ++ [z] ∧ func z = rc ∧
                        ∀ y, y ∈ before → func y = 0).
Proof.
  revert calls rc. induction l as [|y l IH]; intros calls rc; simpl.
  - intros [= <- <-]. split; [done|]. split; [|done]. split; [done|].
    by intros z ?%elem_of_nil.
  - destruct (Z.eqb_spec (func y) 0) as [Hy|Hy].
    + destruct (run_cb func l) as [c rc'] eqn:Hrun. intros [= <- <-].
      destruct (IH _ _ eq_refl) as (Hpre & Hzero & Hstop).
      split; [by apply prefix_cons|]. split.
      * intros Hrc. destruct (Hzero Hrc) as [-> Hall]. split; [done|].
        intros z [->|Hz]%elem_of_cons; auto.
      * intros Hrc. destruct (Hstop Hrc) as (before & z & -> & Hz & Hall).
        exists (y :: before), z. split; [done|]. split; [done|].
        intros y' [->|Hy']%elem_of_cons; auto.
    + intros [= <- <-]. split; [by apply prefix_cons, prefix_nil|].
      split; [done|]. intros _. exists [], y. split; [done|]. split; [done|].
      by intros ? ?%elem_of_nil.
Qed.

Lemma radix_covering_walk_step h func f a n calls :
  h !! a = Some n →
  radix_covering_walk (S f) h func a calls =
  let '(c, rc) := run_cb func (real_loc a (prefix n)) in
  if rc =? 0
  then match parent n with
       | None => Ok (calls ++ c, 0)
       | Some up => radix_covering_walk f h func up (calls ++ c)
       end
  else Ok (calls ++ c, rc).
Proof.
  intros Ha. cbn [radix_covering_walk]. rewrite (deref_Some _ _ _ Ha).
  cbn [mbind res_bind]. destruct (prefix n); simpl.
  - destruct (Z.eqb_spec (func a) 0) as [Hy|Hy]; simpl; [done|].
    by rewrite (proj2 (Z.eqb_neq _ _) Hy).
  - by rewrite app_nil_r.
Qed.

(** The covering walk from the node [x] calls the callback on the real
    nodes from [x] up to the root, until the callback returns a value other
    than 0. *)
Lemma radix_covering_walk_run h func :
  ∀ T par x fuel calls, repr h par T → NoDup (locs T) → x ∈ locs T →
    (depth x T ≤ fuel)%nat →
    radix_covering_walk fuel h func x calls =
    let '(c, rc) := run_cb func (ups x T) in
    if rc =? 0
    then match par with
         | None => Ok (calls ++ c, 0)
         | Some up => radix_covering_walk (fuel - depth x T) h func up (calls ++ c)
         end
    else Ok (calls ++ c, rc).
Proof.
  induction T as [|a b p d tl IHl tr IHr];
    intros par x fuel calls Hrepr Hnd Hx Hfuel.
  { by apply elem_of_nil in Hx. }
  pose proof Hrepr as (Ha & Hrl & Hrr).
  pose proof Hnd as (Hal & Har & Hndl & Hndr & Hdisj)%NoDup_node.
  assert (∀ sub, (sub = tl ∨ sub = tr) → x ∈ locs sub → (depth x sub < fuel)%nat →
            (∀ fuel calls, (depth x sub ≤ fuel)%nat →
               radix_covering_walk fuel h func x calls =
               let '(c, rc) := run_cb func (ups x sub) in
               if rc =? 0
               then radix_covering_walk (fuel - depth x sub) h func a (calls ++ c)
               else Ok (calls ++ c, rc)) →
            radix_covering_walk fuel h func x calls =
            let '(c, rc) := run_cb func (ups x sub ++ real_loc a p) in
            if rc =? 0
            then match par with
                 | None => Ok (calls ++ c, 0)
                 | Some up =>
                   radix_covering_walk (fuel - S (depth x sub)) h func up (calls ++ c)
                 end
            else Ok (calls ++ c, rc)) as Hbelow.
  { intros sub Hsub Hxs Hdepth IH. rewrite IH by lia. rewrite run_cb_app.
    destruct (run_cb func (ups x sub)) as [c1 rc1].
    destruct (rc1 =? 0) eqn:Hrc1; [|by rewrite Hrc1].
    destruct (fuel - depth x sub)%nat as [|f] eqn:Hf'; [lia|].
    rewrite (radix_covering_walk_step _ _ _ _ _ _ Ha). cbn [prefix parent].
    destruct (run_cb func (real_loc a p)) as [c2 rc2]. rewrite <- !app_assoc.
    by replace (fuel - S (depth x sub))%nat with f by lia. }
  cbn [ups depth] in *. apply elem_of_cons in Hx as [->|Hx].
  - rewrite !bool_decide_eq_true_2 in * by done.
    destruct fuel as [|f]; [lia|].
    rewrite (radix_covering_walk_step _ _ _ _ _ _ Ha). cbn [prefix parent].
    by replace (S f - 1)%nat with f by lia.
  - assert (a ≠ x) as Hne.
    { intros ->. apply elem_of_app in Hx as [?|?]; done. }
    rewrite !(bool_decide_eq_false_2 (a = x)) in * by done.
    apply elem_of_app in Hx as [Hx|Hx].
    + rewrite !(bool_decide_eq_true_2 (x ∈ locs tl)) in * by done.
      apply Hbelow; [by left|done|lia|].
      intros fuel' calls' Hfuel'. by apply (IHl (Some a)).
    + assert (x ∉ locs tl) as Hxl by (intros Hxl; by apply (Hdisj x)).
      rewrite !(bool_decide_eq_false_2 (x ∈ locs tl)) in * by done.
      rewrite !(bool_decide_eq_true_2 (x ∈ locs tr)) in * by done.
      apply Hbelow; [by right|done|lia|].
      intros fuel' calls' Hfuel'. by apply (IHr (Some a)).
Qed.

Lemma radix_search_covering_run oob h t q func T O :
  valid_prefix q → fam_inv h t (family q) T O →
  radix_search_covering oob h t q func = Ok (run_cb func (cover_t q T)).
Proof.
  intros Hq Hinv. pose proof Hinv as (_ & _ & HrT & _ & Hnd & HpT & _).
  apply NoDup_app in Hnd as (HndT & _).
  unfold radix_search_covering, radix_search_best, cover_t.
  rewrite (radix_search_best2_best_t _ _ _ _ _ T O) by done.
  pose proof (best_t_spec q true T Hq 0 (Z.le_refl 0) HpT) as Hspec.
  destruct (best_t q true T) as [[x P]|]; [|done].
  destruct Hspec as (Hx & _). cbn [fmap option_fmap option_map fst mbind res_bind].
  rewrite (radix_covering_walk_run h func T None x); [|done|done| |].
  - destruct (run_cb func (ups x T)) as [c rc] eqn:Hrun. simpl.
    destruct (Z.eqb_spec rc 0) as [->|Hrc]; done.
  - by eapply node_in_locs.
  - pose proof (depth_height x T). pose proof (height_fuel _ _ _ HndT HrT). lia.
Qed.

Lemma contains_trans A B C : contains A B → contains B C → contains A C.
Proof.
  intros [Hl1 Ha1] [Hl2 Ha2]. split; [lia|].
  eapply agree_trans; [done|]. eapply agree_le; [|done]. lia.
Qed.

Lemma contains_refl A : contains A A.
Proof. split; [lia|apply agree_refl]. Qed.

(** With addresses that are not shared, an address names one node. *)
Lemma node_in_here a b p d tl tr b' p' :
  NoDup (locs (Node a b p d tl tr)) →
  node_in (Node a b p d tl tr) a b' p' → b' = b ∧ p' = p.
Proof.
  intros (Hal & Har & _)%NoDup_node [(_ & -> & ->)|[H|H]]; [done|..];
    apply node_in_locs in H; done.
Qed.

Lemma node_in_left a b p d tl tr x b' p' :
  NoDup (locs (Node a b p d tl tr)) → x ∈ locs tl →
  node_in (Node a b p d tl tr) x b' p' → node_in tl x b' p'.
Proof.
  intros (Hal & Har & _ & _ & Hdisj)%NoDup_node Hx [(-> & _)|[H|H]]; [done..|].
  apply node_in_locs in H. by destruct (Hdisj x).
Qed.

Lemma node_in_right a b p d tl tr x b' p' :
  NoDup (locs (Node a b p d tl tr)) → x ∈ locs tr →
  node_in (Node a b p d tl tr) x b' p' → node_in tr x b' p'.
Proof.
  intros (Hal & Har & _ & _ & Hdisj)%NoDup_node Hx [(-> & _)|[H|H]]; [done| |done].
  apply node_in_locs in H. by destruct (Hdisj x).
Qed.

(** The real nodes above a real node hold prefixes that contain its
    prefix. *)
Lemma ups_contain fam T x P y :
  ∀ lo, pat fam lo T → NoDup (locs T) →
    node_in T x (bitlen P) (Some P) → y ∈ ups x T →
    ∃ Q, node_in T y (bitlen Q) (Some Q) ∧ contains Q P.
Proof.
  induction T as [|a b p d tl IHl tr IHr]; intros lo Hpat Hnd Hx Hy; [done|].
  pose proof Hpat as (Hb & Hp & Hag & Hleft & Hright & Hpl & Hpr).
  pose proof Hnd as (Hal & Har & Hndl & Hndr & Hdisj)%NoDup_node.
  assert (∀ Q, p = Some Q → y = a → P ∈ prefixes (Node a b p d tl tr) →
            b ≤ bitlen P →
            ∃ Q, node_in (Node a b p d tl tr) y (bitlen Q) (Some Q) ∧ contains Q P) as Hroot.
  { intros Q -> -> HP Hle. destruct Hp as (_ & _ & Hlen). exists Q.
    split; [left; by rewrite Hlen|]. split; [lia|]. rewrite Hlen.
    apply Hag; [|done]. apply (elem_of_prefixes_node a b (Some Q) d tl tr). by left. }
  pose proof (node_in_prefixes _ _ _ _ Hx) as HP.
  cbn [ups] in Hy. repeat case_bool_decide.
  - subst x. destruct (node_in_here _ _ _ _ _ _ _ _ Hnd Hx) as [Hlen <-].
    apply real_loc_elem in Hy. apply (Hroot P); [done|done|done|lia].
  - pose proof (node_in_left _ _ _ _ _ _ _ _ _ Hnd ltac:(done) Hx) as Hx'.
    destruct (node_in_pat _ _ _ _ _ _ Hpl Hx') as [_ Hle].
    apply elem_of_app in Hy as [Hy|Hy].
    + destruct (IHl _ Hpl Hndl Hx' Hy) as (Q & HQ & Hc). exists Q. simpl. auto.
    + destruct p as [Q|]; [|by apply elem_of_nil in Hy].
      apply real_loc_elem in Hy. apply (Hroot Q); [done|done|done|lia].
  - pose proof (node_in_right _ _ _ _ _ _ _ _ _ Hnd ltac:(done) Hx) as Hx'.
    destruct (node_in_pat _ _ _ _ _ _ Hpr Hx') as [_ Hle].
    apply elem_of_app in Hy as [Hy|Hy].
    + destruct (IHr _ Hpr Hndr Hx' Hy) as (Q & HQ & Hc). exists Q. simpl. auto.
    + destruct p as [Q|]; [|by apply elem_of_nil in Hy].
      apply real_loc_elem in Hy. apply (Hroot Q); [done|done|done|lia].
  - by apply elem_of_nil in Hy.
Qed.

(** The nodes of [cover_t] are the nodes of the prefixes of the trie that
    contain [q]. *)
Lemma cover_t_spec q T y :
  valid_prefix q → pat (family q) 0 T → NoDup (locs T) →
  y ∈ cover_t q T ↔ ∃ Q, node_in T y (bitlen Q) (Some Q) ∧ contains Q q.
Proof.
  intros Hq HpT Hnd. unfold cover_t.
  pose proof (best_t_spec q true T Hq 0 (Z.le_refl 0) HpT) as Hspec.
  destruct (best_t q true T) as [[x P]|].
  - destruct Hspec as (Hx & HPq & _ & Hmax). split.
    + intros Hy. destruct (ups_contain _ _ _ _ _ _ HpT Hnd Hx Hy) as (Q & HQ & Hc).
      exists Q. split; [done|]. by eapply contains_trans.
    + intros (Q & HQ & HQq).
      apply (containing_above (family q) T y Q x P 0); [done..|].
      pose proof (Hmax Q (node_in_prefixes _ _ _ _ HQ) HQq (or_introl eq_refl)) as Hle.
      split; [done|]. destruct HQq as [_ HQq]. destruct HPq as [_ HPq].
      eapply agree_trans; [done|]. apply agree_sym. eapply agree_le; [|done]. lia.
  - split; [by intros ?%elem_of_nil|]. intros (Q & HQ & HQq).
    by destruct (Hspec Q (node_in_prefixes _ _ _ _ HQ) HQq).
Qed.

Lemma sorted_by_app R l1 l2 :
  sorted_by R l1 → sorted_by R l2 → (∀ y z, y ∈ l1 → z ∈ l2 → R y z) →
  sorted_by R (l1 ++ l2).
Proof.
  induction l1 as [|y l1 IH]; intros H1 H2 H12; [done|]. simpl.
  destruct H1 as [Hy H1]. split.
  - apply Forall_app. split; [done|]. apply Forall_forall. intros z Hz.
    apply H12; [left|done].
  - apply IH; [done..|]. intros y' z Hy' Hz. apply H12; [by right|done].
Qed.

Lemma sorted_by_real_loc R a p : sorted_by R (real_loc a p).
Proof. destruct p; simpl; auto. Qed.

Lemma repr_bit_lo fam h T y :
  ∀ lo par, pat fam lo T → repr h par T → y ∈ locs T →
    ∃ n, h !! y = Some n ∧ lo ≤ bit n.
Proof.
  induction T as [|a b p d tl IHl tr IHr]; intros lo par Hpat Hrepr Hy.
  { by apply elem_of_nil in Hy. }
  destruct Hpat as (Hb & _ & _ & _ & _ & Hpl & Hpr). destruct Hrepr as (Ha & Hrl & Hrr).
  apply elem_of_cons in Hy as [->|Hy]; [eexists; split; [done|simpl; lia]|].
  apply elem_of_app in Hy as [Hy|Hy].
  - destruct (IHl _ _ Hpl Hrl Hy) as (n & Hn & Hle). exists n. split; [done|lia].
  - destruct (IHr _ _ Hpr Hrr Hy) as (n & Hn & Hle). exists n. split; [done|lia].
Qed.

(** From a node up to the root the bit indices decrease. *)
Lemma ups_sorted fam h T x :
  ∀ lo par, pat fam lo T → repr h par T →
    sorted_by (λ y z, ∀ ny nz, h !! y = Some ny → h !! z = Some nz → bit nz < bit ny)
      (ups x T).
Proof.
  induction T as [|a b p d tl IHl tr IHr]; intros lo par Hpat Hrepr; [done|].
  destruct Hpat as (Hb & _ & _ & _ & _ & Hpl & Hpr). destruct Hrepr as (Ha & Hrl & Hrr).
  cbn [ups]. repeat case_bool_decide; try apply sorted_by_real_loc; [| |done].
  - apply sorted_by_app; [by eapply IHl|apply sorted_by_real_loc|].
    intros y z Hy%ups_locs ->%real_loc_elem ny nz Hny Hnz.
    destruct (repr_bit_lo _ _ _ _ _ _ Hpl Hrl Hy) as (n & Hn & Hle).
    rewrite Ha in Hnz. rewrite Hn in Hny. injection Hnz as <-. injection Hny as <-.
    simpl. lia.
  - apply sorted_by_app; [by eapply IHr|apply sorted_by_real_loc|].
    intros y z Hy%ups_locs ->%real_loc_elem ny nz Hny Hnz.
    destruct (repr_bit_lo _ _ _ _ _ _ Hpr Hrr Hy) as (n & Hn & Hle).
    rewrite Ha in Hnz. rewrite Hn in Hny. injection Hnz as <-. injection Hny as <-.
    simpl. lia.
Qed.

Lemma sorted_by_impl (R R' : loc → loc → Prop) l :
  (∀ y z, R y z → R' y z) → sorted_by R l → sorted_by R' l.
Proof.
  intros HR. induction l as [|y l IH]; [done|]. simpl. intros [Hy Hl].
  split; [|by apply IH]. eapply Forall_impl; [done|]. auto.
Qed.

Lemma stored_bit h t x P n :
  inv h t → stored h t x P → h !! x = Some n → bit n = bitlen P.
Proof.
  intros Hinv Hst Hn.
  apply (inv_fam_inv _ _ (family P)) in Hinv as (T & O & Hinv).
  pose proof (stored_in_trie _ _ _ _ _ _ _ Hinv Hst eq_refl) as Hnode.
  destruct Hinv as (_ & _ & HrT & _).
  destruct (node_in_repr _ _ _ _ _ _ HrT Hnode) as (n' & Hn' & Hbit & _).
  rewrite Hn in Hn'. by injection Hn' as <-.
Qed.

(** The nodes of the prefixes that cover [q], in a trie of a reachable
    tree. *)
Lemma cover_t_props h t q T O :
  inv h t → valid_prefix q → fam_inv h t (family q) T O →
  (∀ y, y ∈ cover_t q T ↔ ∃ Q, stored h t y Q ∧ family Q = family q ∧ contains Q q) ∧
  NoDup (cover_t q T) ∧
  sorted_by (λ y z, ∀ Py Pz, stored h t y Py → stored h t z Pz →
                             bitlen Pz < bitlen Py) (cover_t q T).
Proof.
  intros Hinv0 Hq Hinv.
  pose proof Hinv as (_ & _ & HrT & _ & Hnd & HpT & _).
  apply NoDup_app in Hnd as (HndT & _).
  split; [|split].
  - intros y. rewrite (cover_t_spec q T y Hq HpT HndT). split.
    + intros (Q & HQ & Hc). exists Q.
      destruct (node_in_stored _ _ _ _ _ _ _ _ Hinv HQ). done.
    + intros (Q & Hst & Hfam & Hc). exists Q. split; [|done]. by eapply stored_in_trie.
  - unfold cover_t. destruct (best_t q true T) as [[x P]|]; [|apply NoDup_nil_2].
    by apply NoDup_ups.
  - unfold cover_t. destruct (best_t q true T) as [[x P]|]; [|done].
    eapply sorted_by_impl; [|by eapply ups_sorted].
    intros y z Hyz Py Pz Hy Hz.
    pose proof Hy as (_ & ny & Hny & _). pose proof Hz as (_ & nz & Hnz & _).
    rewrite <- (stored_bit _ _ _ _ _ Hinv0 Hy Hny), <- (stored_bit _ _ _ _ _ Hinv0 Hz Hnz).
    by apply Hyz.
Qed.

(** In every reachable tree the covering search for a valid prefix [q]
    walks over the nodes of the stored prefixes of the family of [q] that
    contain [q], each of them once, from the longest prefix to the
    shortest, and calls the callback on them until it returns a value other
    than 0, which the search returns. *)
Theorem search_covering_enumerates oob h t q :
  reachable h t → valid_prefix q →
  ∃ cover,
    (∀ y, y ∈ cover ↔ ∃ Q, stored h t y Q ∧ family Q = family q ∧ contains Q q) ∧
    NoDup cover ∧
    sorted_by (λ y z, ∀ Py Pz, stored h t y Py → stored h t z Pz →
                               bitlen Pz < bitlen Py) cover ∧
    ∀ func, radix_search_covering oob h t q func = Ok (run_cb func cover).
Proof.
  intros Hinv0%reachable_inv Hq. pose proof Hinv0 as Hinv.
  apply (inv_fam_inv _ _ (family q)) in Hinv as (T & O & Hinv).
  destruct (cover_t_props h t q T O Hinv0 Hq Hinv) as (Hmem & Hnd & Hsorted).
  exists (cover_t q T). repeat (split; [done|]).
  intros func. by apply (radix_search_covering_run _ _ _ _ _ T O).
Qed.

Lemma search_covering_enumerates_witness :
  ∃ h t cover,
    inserts ∅ New_Radix two_children = Some (h, t) ∧
    (∀ y, y ∈ cover ↔ ∃ Q, stored h t y Q ∧ family Q = AF_INET ∧
                           contains Q (ipv4 10 0 1 0 24)) ∧
    NoDup cover ∧
    sorted_by (λ y z, ∀ Py Pz, stored h t y Py → stored h t z Pz →
                               bitlen Pz < bitlen Py) cover ∧
    ∀ func, radix_search_covering false h t (ipv4 10 0 1 0 24) func
            = Ok (run_cb func cover).
Proof.
  eexists _, _.
  destruct (search_covering_enumerates false
              (default (∅, New_Radix) (inserts ∅ New_Radix two_children)).1
              (default (∅, New_Radix) (inserts ∅ New_Radix two_children)).2
              (ipv4 10 0 1 0 24)) as (cover & Hcover).
  - eapply (reachable_inserts two_children ∅ New_Radix);
      [apply reach_new| |vm_compute; reflexivity].
    unfold two_children, ipv4, valid_prefix. solve_valid_prefixes.
  - unfold ipv4, valid_prefix. solve_valid_prefixes.
  - exists cover. split; [vm_compute; reflexivity|]. exact Hcover.
Defined.

(** ** The covered enumeration, for any prefix and any callback *)

Lemma visit_unfold q chk self a b p d tl tr :
  visit q chk self (Node a b p d tl tr) =
  visit_child q chk tl ++ visit_child q chk tr ++ (if self then real_loc a p else []).
Proof. done. Qed.

Lemma visited_unfold q chk a b p d tl tr :
  visited q chk (Node a b p d tl tr) = S (visited_child q chk tl + visited_child q chk tr).
Proof. done. Qed.

Lemma visited_le q t : ∀ chk, (visited q chk t ≤ length (locs t))%nat.
Proof.
  induction t as [|a b p d tl IHl tr IHr]; intros chk; [done|].
  rewrite visited_unfold. cbn [locs length]. rewrite length_app.
  assert (∀ c, (∀ chk, (visited q chk c ≤ length (locs c))%nat) →
            (visited_child q chk c ≤ length (locs c))%nat) as Hc.
  { intros c IH. unfold visited_child. destruct c as [|? ? pc ? ? ?]; [done|].
    destruct (foreign q chk pc); [lia|apply IH]. }
  pose proof (Hc tl IHl). pose proof (Hc tr IHr). lia.
Qed.

Lemma visit_locs q t : ∀ chk self z, z ∈ visit q chk self t → z ∈ locs t.
Proof.
  induction t as [|a b p d tl IHl tr IHr]; intros chk self z; [done|].
  rewrite visit_unfold. cbn [locs].
  assert (∀ c, (∀ chk self z, z ∈ visit q chk self c → z ∈ locs c) →
            z ∈ visit_child q chk c → z ∈ locs c) as Hc.
  { intros c IH. unfold visit_child. destruct c as [|? ? pc ? ? ?]; [done|].
    destruct (foreign q chk pc); [by intros ?%elem_of_nil|apply IH]. }
  rewrite elem_of_cons, !elem_of_app. intros [Hz|[Hz|Hz]]; [auto..|].
  destruct self; [|by apply elem_of_nil in Hz]. apply real_loc_elem in Hz. auto.
Qed.

Lemma NoDup_visit q t : ∀ chk self, NoDup (locs t) → NoDup (visit q chk self t).
Proof.
  induction t as [|a b p d tl IHl tr IHr]; intros chk self; [by intros; apply NoDup_nil_2|].
  intros (Hal & Har & Hndl & Hndr & Hdisj)%NoDup_node. rewrite visit_unfold.
  assert (∀ c, (∀ chk self, NoDup (locs c) → NoDup (visit q chk self c)) →
            NoDup (locs c) → NoDup (visit_child q chk c)) as Hc.
  { intros c IH Hnd. unfold visit_child. destruct c as [|? ? pc ? ? ?]; [apply NoDup_nil_2|].
    destruct (foreign q chk pc); [apply NoDup_nil_2|by apply IH]. }
  assert (∀ c z, z ∈ visit_child q chk c → z ∈ locs c) as Hin.
  { intros c z. unfold visit_child. destruct c as [|? ? pc ? ? ?]; [done|].
    destruct (foreign q chk pc); [by intros ?%elem_of_nil|apply visit_locs]. }
  assert (∀ z, z ∈ (if self then real_loc a p else []) → z = a) as Hself.
  { intros z. destruct self; [apply real_loc_elem|by intros ?%elem_of_nil]. }
  apply NoDup_app. split; [by apply Hc|]. split.
  - intros z Hz%Hin [Hz'%Hin| ->%Hself]%elem_of_app; [|done]. by apply (Hdisj z).
  - apply NoDup_app. split; [by apply Hc|]. split.
    + intros z Hz%Hin ->%Hself. done.
    + destruct self; [apply NoDup_real_loc|apply NoDup_nil_2].
Qed.

(** *** The loop *)

(** One turn of the loop on a frame in state LEFT or RIGHT. *)
Lemma radix_covered_loop_turn h q func inclusive f a st chk pn below calls :
  h !! a = Some pn → st ≠ RADIX_STATE_SELF →
  radix_covered_loop (S f) h q func inclusive
    ({| f_node := a; f_state := st; f_checked := chk |} :: below) calls =
  let pst' := {| f_node := a;
                 f_state := match st with
                            | RADIX_STATE_LEFT => RADIX_STATE_RIGHT
                            | _ => RADIX_STATE_SELF
                            end;
                 f_checked := chk |} in
  match (match st with RADIX_STATE_LEFT => l pn | _ => r pn end) with
  | None => radix_covered_loop f h q func inclusive (pst' :: below) calls
  | Some c =>
    cn ← deref h c;
    if foreign q chk (prefix cn)
    then radix_covered_loop f h q func inclusive (pst' :: below) calls
    else radix_covered_loop f h q func inclusive
           ({| f_node := c; f_state := RADIX_STATE_LEFT;
               f_checked := chk || non_null (prefix cn) |} :: pst' :: below) calls
  end.
Proof.
  intros Ha Hst. cbn [radix_covered_loop f_node f_state f_checked].
  rewrite (deref_Some _ _ _ Ha). cbn [mbind res_bind].
  destruct st; [| |done].
  - destruct (l pn) as [c|]; [|done]. by destruct (deref h c).
  - destruct (r pn) as [c|]; [|done]. by destruct (deref h c).
Qed.

(** The turn of the loop on a frame in state SELF. *)
Lemma radix_covered_loop_emit h q func inclusive f a chk pn below calls :
  h !! a = Some pn →
  radix_covered_loop (S f) h q func inclusive
    ({| f_node := a; f_state := RADIX_STATE_SELF; f_checked := chk |} :: below) calls =
  let '(c, rc) :=
    run_cb func
      (if negb (bool_decide (below = [])) ||
          (if inclusive then bitlen q <=? bit pn else bitlen q <? bit pn)
       then real_loc a (prefix pn) else []) in
  if rc =? 0
  then radix_covered_loop f h q func inclusive below (calls ++ c)
  else Ok (calls ++ c, rc).
Proof.
  intros Ha. cbn [radix_covered_loop f_node f_state f_checked].
  rewrite (deref_Some _ _ _ Ha). cbn [mbind res_bind].
  destruct (negb (bool_decide (below = [])) || _); simpl; [|by rewrite app_nil_r].
  destruct (prefix pn); simpl; [|by rewrite app_nil_r].
  destruct (Z.eqb_spec (func a) 0) as [Hy|Hy]; simpl; [done|].
  by rewrite (proj2 (Z.eqb_neq _ _) Hy).
Qed.

(** A frame in state LEFT or RIGHT passes the child on that side. *)
Lemma radix_covered_loop_pass h q func inclusive a st pn chk C k below calls :
  h !! a = Some pn → st ≠ RADIX_STATE_SELF →
  root C = match st with RADIX_STATE_LEFT => l pn | _ => r pn end →
  repr h (Some a) C →
  (∀ c chk' k' below' calls', root C = Some c → below' ≠ [] →
     radix_covered_loop (3 * visited q chk' C + k') h q func inclusive
       ({| f_node := c; f_state := RADIX_STATE_LEFT; f_checked := chk' |} :: below')
       calls' =
     let '(cs, rc) := run_cb func (visit q chk' true C) in
     if rc =? 0
     then radix_covered_loop k' h q func inclusive below' (calls' ++ cs)
     else Ok (calls' ++ cs, rc)) →
  radix_covered_loop (S (3 * visited_child q chk C + k)) h q func inclusive
    ({| f_node := a; f_state := st; f_checked := chk |} :: below) calls =
  let '(cs, rc) := run_cb func (visit_child q chk C) in
  if rc =? 0
  then radix_covered_loop k h q func inclusive
         ({| f_node := a;
             f_state := match st with
                        | RADIX_STATE_LEFT => RADIX_STATE_RIGHT
                        | _ => RADIX_STATE_SELF
                        end;
             f_checked := chk |} :: below) (calls ++ cs)
  else Ok (calls ++ cs, rc).
Proof.
  intros Ha Hst Hroot Hrepr IH.
  rewrite (radix_covered_loop_turn _ _ _ _ _ _ _ _ _ _ _ Ha Hst). cbn zeta.
  rewrite <- Hroot. destruct C as [|c b p d tl tr].
  - simpl. by rewrite app_nil_r.
  - cbn [root]. pose proof Hrepr as (Hc & _). rewrite (deref_Some _ _ _ Hc).
    cbn [mbind res_bind prefix]. unfold visit_child, visited_child.
    destruct (foreign q chk p).
    + simpl. by rewrite app_nil_r.
    + by apply IH.
Qed.

(** A frame in state LEFT passes what [visit] lists, until the callback
    returns a value other than 0. *)
Lemma radix_covered_loop_frame h q func inclusive :
  ∀ Sub par a chk k below calls, repr h par Sub → root Sub = Some a →
    radix_covered_loop (3 * visited q chk Sub + k) h q func inclusive
      ({| f_node := a; f_state := RADIX_STATE_LEFT; f_checked := chk |} :: below) calls =
    let '(cs, rc) :=
      run_cb func
        (visit q chk
           (negb (bool_decide (below = [])) ||
            match Sub with
            | Node _ b _ _ _ _ => if inclusive then bitlen q <=? b else bitlen q <? b
            | Leaf => false
            end) Sub) in
    if rc =? 0
    then radix_covered_loop k h q func inclusive below (calls ++ cs)
    else Ok (calls ++ cs, rc).
Proof.
  induction Sub as [|a' b p d tl IHl tr IHr];
    intros par a chk k below calls Hrepr Hroot; [done|].
  injection Hroot as ->. destruct Hrepr as (Ha & Hrl & Hrr).
  rewrite visited_unfold, visit_unfold.
  replace (3 * S (visited_child q chk tl + visited_child q chk tr) + k)%nat
    with (S (3 * visited_child q chk tl + S (3 * visited_child q chk tr + S k)))
    by lia.
  assert (∀ C, (∀ par a chk k below calls, repr h par C → root C = Some a →
                  radix_covered_loop (3 * visited q chk C + k) h q func inclusive
                    ({| f_node := a; f_state := RADIX_STATE_LEFT; f_checked := chk |}
                     :: below) calls =
                  let '(cs, rc) :=
                    run_cb func
                      (visit q chk
                         (negb (bool_decide (below = [])) ||
                          match C with
                          | Node _ b _ _ _ _ =>
                            if inclusive then bitlen q <=? b else bitlen q <? b
                          | Leaf => false
                          end) C) in
                  if rc =? 0
                  then radix_covered_loop k h q func inclusive below (calls ++ cs)
                  else Ok (calls ++ cs, rc)) →
            repr h (Some a) C →
            ∀ c chk' k' below' calls', root C = Some c → below' ≠ [] →
              radix_covered_loop (3 * visited q chk' C + k') h q func inclusive
                ({| f_node := c; f_state := RADIX_STATE_LEFT; f_checked := chk' |}
                 :: below') calls' =
              let '(cs, rc) := run_cb func (visit q chk' true C) in
              if rc =? 0
              then radix_covered_loop k' h q func inclusive below' (calls' ++ cs)
              else Ok (calls' ++ cs, rc)) as Hsub.
  { intros C IH HrC c chk' k' below' calls' Hc Hne.
    rewrite (IH (Some a) c chk' k' below' calls' HrC Hc).
    by rewrite bool_decide_eq_false_2. }
  rewrite (radix_covered_loop_pass h q func inclusive a RADIX_STATE_LEFT _ chk tl _
             below calls Ha); [|done|done|done|by apply Hsub].
  rewrite !run_cb_app.
  destruct (run_cb func (visit_child q chk tl)) as [c1 rc1].
  destruct (rc1 =? 0) eqn:Hrc1; [|by rewrite Hrc1].
  rewrite (radix_covered_loop_pass h q func inclusive a RADIX_STATE_RIGHT _ chk tr _
             below _ Ha); [|done|done|done|by apply Hsub].
  destruct (run_cb func (visit_child q chk tr)) as [c2 rc2].
  destruct (rc2 =? 0) eqn:Hrc2; [|by rewrite Hrc2, app_assoc].
  rewrite (radix_covered_loop_emit h q func inclusive _ a chk _ below _ Ha).
  cbn [bit prefix].
  destruct (negb (bool_decide (below = [])) || _).
  - destruct (run_cb func (real_loc a p)) as [c3 rc3]. rewrite !app_assoc.
    by destruct (rc3 =? 0).
  - simpl. by rewrite !app_nil_r, app_assoc.
Qed.

(** *** The descent *)

(** The descent of [radix_search_covered] computes [cdesc]; it reads bits
    of the address below the length of [q] only. *)
Lemma radix_covered_descend_cdesc oob h q :
  valid_prefix q →
  ∀ t lo par fuel prev pref, 0 ≤ lo → pat (family q) lo t → repr h par t →
    (height t < fuel)%nat →
    radix_covered_descend fuel oob h q (root t) (root prev) (fst <$> pref) =
    let '(node, prev', pref') := cdesc q t prev pref in
    Ok (root node, root prev', fst <$> pref').
Proof.
  intros Hq. induction t as [|a b p d tl IHl tr IHr];
    intros lo par fuel prev pref Hlo Hpat Hrepr Hfuel;
    (destruct fuel as [|f]; [simpl in Hfuel; lia|]); [done|].
  pose proof Hpat as (Hb & Hp & Hag & Hleft & Hright & Hpl & Hpr).
  pose proof Hrepr as (Ha & Hrl & Hrr).
  cbn [radix_covered_descend root cdesc]. rewrite (deref_Some _ _ _ Ha).
  cbn [mbind res_bind bit prefix].
  destruct (Z.leb_spec b (bitlen q)) as [Hle|Hgt]; [|done].
  destruct (Z.eqb_spec b (bitlen q)) as [Heq|Hne]; [done|].
  rewrite (search_next_child oob q (family q) lo a b p d tl tr par) by done.
  assert ((if non_null p then Some a else fst <$> pref)
          = fst <$> (match p with Some np => Some (a, np) | None => pref end)) as ->
    by (by destruct p).
  change (Some a) with (root (Node a b p d tl tr)).
  simpl in Hfuel. destruct (getbit (add q) b).
  - apply (IHr (b + 1) (Some a)); [lia|done|done|lia].
  - apply (IHl (b + 1) (Some a)); [lia|done|done|lia].
Qed.

Lemma cdesc_heap h q :
  ∀ t par prev pref, repr h par t → NoDup (locs t) →
    (∃ par', repr h par' prev) → NoDup (locs prev) → pref_heap h pref →
    let '(node, prev', pref') := cdesc q t prev pref in
    (∃ par', repr h par' node) ∧ NoDup (locs node) ∧
    (∃ par', repr h par' prev') ∧ NoDup (locs prev') ∧ pref_heap h pref'.
Proof.
  induction t as [|a b p d tl IHl tr IHr]; intros par prev pref Hrepr Hnd Hprev Hndp Hpref.
  { simpl. split; [by exists None|]. split; [apply NoDup_nil_2|done]. }
  cbn [cdesc]. destruct (b <=? bitlen q); [|by eauto 10].
  destruct (b =? bitlen q); [by eauto 10|].
  pose proof Hrepr as (Ha & Hrl & Hrr).
  pose proof Hnd as (Hal & Har & Hndl & Hndr & Hdisj)%NoDup_node.
  assert (pref_heap h (match p with Some np => Some (a, np) | None => pref end)) as Hpref'.
  { destruct p; [|done]. by eexists. }
  destruct (getbit (add q) b).
  - apply (IHr (Some a)); eauto.
  - apply (IHl (Some a)); eauto.
Qed.

(** The covered search on a state that satisfies the invariant. *)
Lemma radix_search_covered_run oob h t q func inclusive T O :
  valid_prefix q → fam_inv h t (family q) T O →
  radix_search_covered oob h t q func inclusive
  = Ok (run_cb func (covered_t q inclusive T)).
Proof.
  intros Hq (Hhead & _ & HrT & _ & Hnd & HpT & _).
  apply NoDup_app in Hnd as (HndT & _).
  unfold radix_search_covered, covered_t. rewrite head_by_prefix, Hhead.
  change (@None loc) with (root Leaf) at 1.
  change (@None loc) with (fst <$> (@None (loc * prefix_t))).
  rewrite (radix_covered_descend_cdesc oob h q Hq T 0 None)
    by (done || by apply (height_fuel _ None)).
  pose proof (cdesc_heap h q T None Leaf None HrT HndT) as Hfacts.
  destruct (cdesc q T Leaf None) as [[node prev] pref].
  destruct Hfacts as ([parn Hrn] & Hndn & [parp Hrp] & Hndp & Hpref);
    [by exists None|apply NoDup_nil_2|done|].
  cbn [mbind res_bind cfinish].
  set (start := match node with Leaf => prev | Node _ _ _ _ _ _ => node end).
  assert (match root node with
          | None => match root prev with
                    | None => None
                    | Some a => Some (a, fst <$> pref)
                    end
          | Some a => Some (a, fst <$> pref)
          end = (λ a, (a, fst <$> pref)) <$> root start) as ->.
  { subst start. destruct node; [|done]. by destruct prev. }
  assert (∃ par, repr h par start) as [pars Hrs] by (subst start; destruct node; eauto).
  assert (NoDup (locs start)) as Hnds by (subst start; by destruct node).
  destruct start as [|a b p d tl tr] eqn:Hstart; [done|].
  cbn [root fmap option_fmap option_map]. pose proof Hrs as (Ha & _).
  rewrite (deref_Some _ _ _ Ha). cbn [mbind res_bind prefix bit].
  set (pref' := match node, p with
                | Node _ _ _ _ _ _, Some np => Some (a, np)
                | _, _ => pref
                end).
  assert ((if non_null (root node) && non_null p then Some a else fst <$> pref)
          = fst <$> pref') as ->.
  { subst pref'. destruct node; [done|]. by destruct p. }
  assert (pref_heap h pref') as Hpref'.
  { subst pref'. destruct node; [done|]. destruct p; [|done]. by eexists. }
  assert (match fst <$> pref' with
          | Some pa =>
            pn ← deref h pa;
            match prefix pn with
            | Some pp => Ok (negb (COMP_NODE_PREFIX pp q))
            | None => Err NullDeref
            end
          | None => Ok false
          end = Ok (match pref' with
                    | Some (_, pp) => negb (COMP_NODE_PREFIX pp q)
                    | None => false
                    end)) as ->.
  { destruct pref' as [[pa pp]|]; [|done]. destruct Hpref' as (n & Hn & Hpn).
    cbn [fmap option_fmap option_map fst]. rewrite (deref_Some _ _ _ Hn).
    cbn [mbind res_bind]. by rewrite Hpn. }
  cbn [mbind res_bind].
  destruct (match pref' with
            | Some (_, pp) => negb (COMP_NODE_PREFIX pp q)
            | None => false
            end); [done|].
  set (chk := bool_decide (Some a = fst <$> pref') && (bitlen q <=? b)).
  rewrite <- Hstart in *.
  pose proof (visited_le q start chk) as Hv.
  pose proof (locs_size _ _ _ Hnds Hrs) as Hsize.
  replace (3 * fuel_of h)%nat
    with (3 * visited q chk start + S (3 * fuel_of h - 3 * visited q chk start - 1))%nat
    by (unfold fuel_of; lia).
  rewrite (radix_covered_loop_frame h q func inclusive start pars a);
    [|done|by rewrite Hstart].
  rewrite bool_decide_eq_true_2 by done. rewrite Hstart at 1. cbn [negb orb].
  destruct (run_cb func _) as [cs rc]. simpl.
  destruct (Z.eqb_spec rc 0) as [->|Hrc]; done.
Qed.

(** *** What the enumeration passes *)

Lemma COMP_NODE_PREFIX_agree P q :
  valid_prefix P → valid_prefix q → family P = family q →
  COMP_NODE_PREFIX P q = true ↔ agree (add P) (add q) (Z.min (bitlen P) (bitlen q)).
Proof.
  intros (HPl & HPlen & HPb) (Hql & Hqlen & Hqb) Hfam.
  unfold COMP_NODE_PREFIX, RADIX_MIN.
  assert ((if bitlen P <? bitlen q then bitlen P else bitlen q)
          = Z.min (bitlen P) (bitlen q)) as -> by (destruct (Z.ltb_spec (bitlen P) (bitlen q)); lia).
  apply comp_with_mask_agree; [done|done| |]; rewrite Hfam in HPlen; lia.
Qed.

Lemma post_real T x : x ∈ post T → ∃ b P, node_in T x b (Some P).
Proof.
  induction T as [|a b p d tl IHl tr IHr]; [by intros ?%elem_of_nil|].
  cbn [post node_in]. rewrite !elem_of_app. intros [H|[H|H]].
  - destruct (IHl H) as (b' & P & ?). eauto.
  - destruct (IHr H) as (b' & P & ?). eauto.
  - destruct p as [P|]; [|by apply elem_of_nil in H].
    apply real_loc_elem in H as ->. exists b, P. by left.
Qed.

(** A checked frame passes every real node. *)
Lemma visit_checked q T : visit q true true T = post T ∧ visit_child q true T = post T.
Proof.
  induction T as [|a b p d tl [IHl IHl'] tr [IHr IHr']]; [done|].
  assert (visit q true true (Node a b p d tl tr) = post (Node a b p d tl tr)) as Hv.
  { rewrite visit_unfold. cbn [post]. by rewrite IHl', IHr'. }
  split; [done|]. unfold visit_child. by cbn [foreign negb andb orb].
Qed.

(** Below the length of [q] a frame that is not checked passes the real
    nodes whose prefixes agree with [q]. *)
Lemma visit_child_deep q c :
  valid_prefix q →
  ∀ lo, pat (family q) lo c → bitlen q ≤ lo →
  ∀ x, x ∈ visit_child q false c ↔
       ∃ P, node_in c x (bitlen P) (Some P) ∧ agree (add q) (add P) (bitlen q).
Proof.
  intros Hq. induction c as [|a b p d tl IHl tr IHr]; intros lo Hpat Hlo x.
  { split; [by intros ?%elem_of_nil|by intros (? & ? & _)]. }
  pose proof Hpat as (Hb & Hp & Hag & Hleft & Hright & Hpl & Hpr).
  unfold visit_child. destruct p as [cp|]; cbn [foreign negb andb orb non_null].
  - destruct Hp as (Hfam & Hcp & Hlen).
    assert (cp ∈ prefixes (Node a b (Some cp) d tl tr)) as Hcpin.
    { apply elem_of_prefixes_node. by left. }
    pose proof (COMP_NODE_PREFIX_agree cp q Hcp Hq Hfam) as Hcomp.
    rewrite Z.min_r in Hcomp by lia.
    assert (∀ P, P ∈ prefixes (Node a b (Some cp) d tl tr) →
              agree (add P) (add cp) (bitlen q)) as Hall.
    { intros P HP. eapply agree_le; [|by apply Hag]. lia. }
    destruct (COMP_NODE_PREFIX cp q) eqn:Hc; cbn [negb].
    + rewrite (proj1 (visit_checked q _)). split.
      * intros (b' & P & Hnode)%post_real.
        destruct (node_in_pat _ _ _ _ _ _ Hpat Hnode) as [<- _]. exists P. split; [done|].
        apply agree_sym. eapply agree_trans; [apply Hall; by eapply node_in_prefixes|].
        by apply Hcomp.
      * intros (P & Hnode & _). by eapply node_in_post.
    + split; [by intros ?%elem_of_nil|]. intros (P & Hnode & HqP).
      assert (agree (add cp) (add q) (bitlen q)) as Hcq; [|by apply Hcomp in Hcq].
      apply agree_sym. eapply agree_trans; [done|].
      apply Hall. by eapply node_in_prefixes.
  - rewrite visit_unfold. cbn [real_loc]. rewrite app_nil_r, elem_of_app.
    rewrite (IHl (b + 1)), (IHr (b + 1)) by (done || lia).
    cbn [node_in]. split.
    + intros [(P & ? & ?)|(P & ? & ?)]; exists P; auto.
    + intros (P & [(_ & _ & ?)|[?|?]] & ?); [done|left|right]; by exists P.
Qed.

(** A frame that is not checked passes nothing of a subtree whose prefixes
    differ from [q] in a bit that both have. *)
Lemma visit_child_mismatch q c β :
  valid_prefix q →
  ∀ lo, pat (family q) lo c → 0 ≤ β < lo → β < bitlen q →
    (∀ P, P ∈ prefixes c → getbit (add P) β ≠ getbit (add q) β) →
    visit_child q false c = [].
Proof.
  intros Hq. induction c as [|a b p d tl IHl tr IHr]; intros lo Hpat Hβ Hβq Hdiff; [done|].
  pose proof Hpat as (Hb & Hp & Hag & Hleft & Hright & Hpl & Hpr).
  unfold visit_child. destruct p as [cp|]; cbn [foreign negb andb orb non_null].
  - destruct Hp as (Hfam & Hcp & Hlen).
    destruct (COMP_NODE_PREFIX cp q) eqn:Hc; [|done].
    apply (COMP_NODE_PREFIX_agree cp q Hcp Hq Hfam) in Hc.
    destruct (Hdiff cp); [apply elem_of_prefixes_node; by left|]. apply Hc. lia.
  - rewrite visit_unfold. cbn [real_loc].
    rewrite (IHl (b + 1)), (IHr (b + 1)); [done|done|lia|done| |done|lia|done|].
    + intros P HP. apply Hdiff. apply elem_of_prefixes_node. auto.
    + intros P HP. apply Hdiff. apply elem_of_prefixes_node. auto.
Qed.

(** The enumeration from a node of the path of [q] whose bit index is not
    below the length of [q]. *)
Lemma cfinish_here q inclusive a b p d tl tr prev pref :
  valid_prefix q →
  ∀ lo, pat (family q) lo (Node a b p d tl tr) → bitlen q ≤ b →
    pref_ok q (family q) (Node a b p d tl tr) pref →
    ∀ x, x ∈ cfinish q inclusive (Node a b p d tl tr, prev, pref) ↔
         ∃ P, node_in (Node a b p d tl tr) x (bitlen P) (Some P) ∧ contains q P ∧
              (inclusive = true ∨ bitlen q < bitlen P).
Proof.
  intros Hq lo Hpat Hle Hpref x.
  pose proof Hpat as (Hb & Hp & Hag & Hleft & Hright & Hpl & Hpr).
  assert (∀ c P, (c = tl ∨ c = tr) → P ∈ prefixes c → b + 1 ≤ bitlen P) as Hlen.
  { intros c P [-> | ->] HP;
      [destruct (pat_prefixes _ _ _ _ Hpl HP) as (_ & _ & ?)
      |destruct (pat_prefixes _ _ _ _ Hpr HP) as (_ & _ & ?)]; done. }
  cbn [cfinish]. destruct p as [np|].
  - destruct Hp as (Hfam & Hnp & Hnb).
    assert (np ∈ prefixes (Node a b (Some np) d tl tr)) as Hnpin.
    { apply elem_of_prefixes_node. by left. }
    pose proof (COMP_NODE_PREFIX_agree np q Hnp Hq Hfam) as Hcomp.
    rewrite Z.min_r in Hcomp by lia.
    assert (∀ P, P ∈ prefixes (Node a b (Some np) d tl tr) →
              agree (add P) (add np) (bitlen q)) as Hall.
    { intros P HP. eapply agree_le; [|by apply Hag]. lia. }
    destruct (COMP_NODE_PREFIX np q) eqn:Hc; cbn [negb].
    + assert (agree (add np) (add q) (bitlen q)) as Hnq by (by apply Hcomp).
      cbn [fmap option_fmap option_map fst]. rewrite bool_decide_eq_true_2 by done.
      rewrite (proj2 (Z.leb_le _ _) Hle). cbn [andb].
      rewrite visit_unfold, !(proj2 (visit_checked q _)), !elem_of_app.
      assert (∀ c, (c = tl ∨ c = tr) →
                (x ∈ post c ↔
                 ∃ P, node_in c x (bitlen P) (Some P) ∧ contains q P ∧
                      (inclusive = true ∨ bitlen q < bitlen P))) as Hchild.
      { intros c Hside.
        assert (pat (family q) (b + 1) c) as Hpc by (by destruct Hside as [-> | ->]).
        split.
        - intros (b' & P & Hnode)%post_real.
          destruct (node_in_pat _ _ _ _ _ _ Hpc Hnode) as [<- Hge].
          exists P. split; [done|]. split; [|right; lia]. split; [lia|].
          apply agree_sym. eapply agree_trans; [|done].
          apply Hall. apply elem_of_prefixes_node.
          destruct Hside as [-> | ->]; eauto using node_in_prefixes.
        - intros (P & Hnode & _). by eapply node_in_post. }
      rewrite (Hchild tl), (Hchild tr) by auto. cbn [node_in]. split.
      * intros [(P & ? & ?)|[(P & ? & ?)|Hself]]; [exists P; auto..|].
        exists np. rewrite Hnb.
        destruct inclusive.
        -- apply real_loc_elem in Hself as ->.
           split; [by left|]. split; [|by left]. split; [lia|by apply agree_sym].
        -- destruct (Z.ltb_spec (bitlen q) b); [|by apply elem_of_nil in Hself].
           apply real_loc_elem in Hself as ->.
           split; [by left|]. split; [|right; lia]. split; [lia|by apply agree_sym].
      * intros (P & [(-> & HbP & [= ->])|[?|?]] & Hc' & Hf);
          [|left; by exists P|right; left; by exists P].
        right. right. rewrite Hnb in Hf.
        assert ((if inclusive then true else bitlen q <? b) = true) as ->.
        { destruct inclusive; [done|]. apply Z.ltb_lt. destruct Hf; [done|lia]. }
        apply list_elem_of_here.
    + split; [by intros ?%elem_of_nil|]. intros (P & Hnode & [_ HqP] & _).
      assert (agree (add np) (add q) (bitlen q)) as Hcq; [|by apply Hcomp in Hcq].
      apply agree_sym. eapply agree_trans; [done|].
      apply Hall. by eapply node_in_prefixes.
  - assert (∀ P, node_in (Node a b None d tl tr) x (bitlen P) (Some P) →
              node_in tl x (bitlen P) (Some P) ∨ node_in tr x (bitlen P) (Some P)) as Hsub.
    { intros P [(_ & _ & ?)|[?|?]]; [done|auto..]. }
    assert (match pref with
            | Some (_, pp) => negb (COMP_NODE_PREFIX pp q)
            | None => false
            end = true →
            ∀ P, P ∈ prefixes (Node a b None d tl tr) → ¬ agree (add q) (add P) (bitlen q))
      as Hforeign.
    { destruct pref as [[pa pp]|]; [|done].
      destruct Hpref as (_ & Hpp & Hfam & Hplen & Hpag).
      intros Hc%negb_true_iff P HP HqP.
      assert (COMP_NODE_PREFIX pp q = true) as Hc'; [|by rewrite Hc' in Hc].
      apply (COMP_NODE_PREFIX_agree pp q Hpp Hq Hfam). rewrite Z.min_l by lia.
      eapply agree_trans; [by apply Hpag|]. apply agree_sym. eapply agree_le; [|done]. lia. }
    destruct (match pref with
              | Some (_, pp) => negb (COMP_NODE_PREFIX pp q)
              | None => false
              end).
    + split; [by intros ?%elem_of_nil|]. intros (P & Hnode & [_ HqP] & _).
      by destruct (Hforeign eq_refl P (node_in_prefixes _ _ _ _ Hnode)).
    + assert (bool_decide (Some a = fst <$> pref) = false) as ->.
      { apply bool_decide_eq_false_2. destruct pref as [[pa pp]|]; [|done].
        destruct Hpref as (Hpa & _). simpl. intros [= <-]. apply Hpa. left. }
      cbn [andb]. rewrite visit_unfold.
      assert ((if if inclusive then bitlen q <=? b else bitlen q <? b
               then real_loc a None else []) = []) as -> by (by destruct (if inclusive then _ else _)).
      rewrite app_nil_r, elem_of_app.
      rewrite (visit_child_deep q tl Hq (b + 1)), (visit_child_deep q tr Hq (b + 1))
        by (done || lia).
      split.
      * intros [(P & Hnode & HqP)|(P & Hnode & HqP)]; exists P.
        -- pose proof (Hlen tl P (or_introl eq_refl) (node_in_prefixes _ _ _ _ Hnode)).
           split; [simpl; auto|]. split; [split; [lia|done]|right; lia].
        -- pose proof (Hlen tr P (or_intror eq_refl) (node_in_prefixes _ _ _ _ Hnode)).
           split; [simpl; auto|]. split; [split; [lia|done]|right; lia].
      * intros (P & Hnode & [_ HqP] & _).
        destruct (Hsub P Hnode); [left|right]; by exists P.
Qed.

(** The enumeration passes the nodes of the prefixes of the trie that [q]
    contains. *)
Lemma cfinish_spec q inclusive :
  valid_prefix q →
  ∀ t lo prev pref, 0 ≤ lo → pat (family q) lo t → NoDup (locs t) →
    prev_ok q (family q) t prev → pref_ok q (family q) t pref →
    ∀ x, x ∈ cfinish q inclusive (cdesc q t prev pref) ↔
         ∃ P, node_in t x (bitlen P) (Some P) ∧ contains q P ∧
              (inclusive = true ∨ bitlen q < bitlen P).
Proof.
  intros Hq. induction t as [|a b p d tl IHl tr IHr];
    intros lo prev pref Hlo Hpat Hnd Hprev Hpref x.
  - (* the descent left the trie *)
    cbn [cdesc cfinish node_in]. split; [|by intros (? & ? & _)].
    destruct prev as [|ap bp pp dp tlp trp]; [by intros ?%elem_of_nil|].
    destruct Hprev as (Hbp & Hside & Hpsib & Hdiff).
    destruct (match pref with Some _ => _ | None => _ end); [by intros ?%elem_of_nil|].
    rewrite (proj2 (Z.leb_gt _ _)), (proj2 (Z.ltb_ge _ _)), andb_false_r by lia.
    assert ((if inclusive then false else false) = false) as -> by (by destruct inclusive).
    rewrite visit_unfold, app_nil_r.
    destruct (getbit (add q) bp) eqn:Hbit; subst.
    + rewrite (visit_child_mismatch q tlp bp Hq (bp + 1));
        [by intros ?%elem_of_nil|done|lia|lia|].
      intros P HP. rewrite Hbit. by apply Hdiff.
    + rewrite (visit_child_mismatch q trp bp Hq (bp + 1));
        [by intros ?%elem_of_nil|done|lia|lia|].
      intros P HP. rewrite Hbit. by apply Hdiff.
  - pose proof Hpat as (Hb & Hp & Hag & Hleft & Hright & Hpl & Hpr).
    pose proof Hnd as (Hal & Har & Hndl & Hndr & Hdisj)%NoDup_node.
    cbn [cdesc]. destruct (Z.leb_spec b (bitlen q)) as [Hle|Hgt];
      [|apply (cfinish_here _ _ _ _ _ _ _ _ _ _ Hq lo); [done|lia|done]].
    destruct (Z.eqb_spec b (bitlen q)) as [Heq|Hne];
      [apply (cfinish_here _ _ _ _ _ _ _ _ _ _ Hq lo); [done|lia|done]|].
    set (child := if getbit (add q) b then tr else tl).
    set (sibling := if getbit (add q) b then tl else tr).
    set (pref' := match p with Some np => Some (a, np) | None => pref end).
    assert (x ∈ cfinish q inclusive (cdesc q child (Node a b p d tl tr) pref') ↔
            ∃ P, node_in child x (bitlen P) (Some P) ∧ contains q P ∧
                 (inclusive = true ∨ bitlen q < bitlen P)) as ->.
    { assert (prev_ok q (family q) child (Node a b p d tl tr)) as Hprev'.
      { split; [lia|]. split; [done|]. subst child.
        destruct (getbit (add q) b); split; try done.
        - intros P HP. by rewrite (Hleft P HP).
        - intros P HP. by rewrite (Hright P HP). }
      assert (pref_ok q (family q) child pref') as Hpref'.
      { subst pref' child. destruct p as [np|].
        - destruct Hp as (Hfam & Hnp & Hnb). split; [by destruct (getbit _ _)|].
          split; [done|]. split; [done|]. split; [lia|]. intros P HP. rewrite Hnb.
          apply Hag; [apply (elem_of_prefixes_node a b (Some np) d tl tr); by left|].
          apply (elem_of_prefixes_node a b (Some np) d tl tr).
          destruct (getbit (add q) b); auto.
        - destruct pref as [[pa pp]|]; [|done].
          destruct Hpref as (Hpa & Hpp & Hfam & Hplen & Hpag).
          split; [|split; [done|split; [done|split; [done|]]]].
          + intros Hin. apply Hpa. simpl. rewrite elem_of_cons, elem_of_app.
            destruct (getbit (add q) b); auto.
          + intros P HP. apply Hpag. apply elem_of_prefixes_node.
            destruct (getbit (add q) b); auto. }
      subst child. destruct (getbit (add q) b).
      - by apply (IHr (b + 1)); [lia|..].
      - by apply (IHl (b + 1)); [lia|..]. }
    split.
    + intros (P & Hnode & Hrest). exists P. split; [|done]. simpl. subst child.
      destruct (getbit (add q) b); auto.
    + intros (P & Hnode & [Hlen HqP] & Hf). exists P. split; [|done].
      destruct Hnode as [(-> & HbP & [= ->])|Hnode]; [destruct Hp as (_ & _ & ?); lia|].
      assert (∀ c, (c = tl ∨ c = tr) → node_in c x (bitlen P) (Some P) → P ∈ prefixes c)
        as Hin by (intros c _; apply node_in_prefixes).
      specialize (HqP b ltac:(lia)). subst child.
      destruct Hnode as [Hnode|Hnode].
      * rewrite (Hleft P) in HqP by (by apply (Hin tl); auto). by rewrite HqP.
      * rewrite (Hright P) in HqP by (by apply (Hin tr); auto). by rewrite HqP.
Qed.

Lemma NoDup_cfinish q inclusive :
  ∀ t prev pref, NoDup (locs t) → NoDup (locs prev) →
    NoDup (cfinish q inclusive (cdesc q t prev pref)).
Proof.
  assert (∀ node prev pref, NoDup (locs node) → NoDup (locs prev) →
            NoDup (cfinish q inclusive (node, prev, pref))) as Hfin.
  { intros node prev pref Hn Hp. cbn [cfinish].
    set (start := match node with Leaf => prev | Node _ _ _ _ _ _ => node end).
    assert (NoDup (locs start)) as Hs by (subst start; by destruct node).
    destruct start as [|a b p d tl tr] eqn:Hstart; [apply NoDup_nil_2|].
    destruct (match _ with Some _ => _ | None => _ end); [apply NoDup_nil_2|].
    by apply NoDup_visit. }
  induction t as [|a b p d tl IHl tr IHr]; intros prev pref Hnd Hndp.
  - by apply Hfin.
  - cbn [cdesc]. destruct (b <=? bitlen q); [|by apply Hfin].
    destruct (b =? bitlen q); [by apply Hfin|].
    pose proof Hnd as (Hal & Har & Hndl & Hndr & Hdisj)%NoDup_node.
    destruct (getbit (add q) b); [by apply IHr|by apply IHl].
Qed.

(** The nodes of the prefixes that [q] covers, in a trie of a tree. *)
Lemma covered_t_props h t q inclusive T O :
  valid_prefix q → fam_inv h t (family q) T O →
  (∀ x, x ∈ covered_t q inclusive T ↔
        ∃ P, stored h t x P ∧ family P = family q ∧ contains q P ∧
             (inclusive = true ∨ bitlen q < bitlen P)) ∧
  NoDup (covered_t q inclusive T).
Proof.
  intros Hq Hinv.
  pose proof Hinv as (_ & _ & HrT & _ & Hnd & HpT & _).
  apply NoDup_app in Hnd as (HndT & _).
  split.
  - intros x. unfold covered_t.
    rewrite (cfinish_spec q inclusive Hq T 0 Leaf None) by done. split.
    + intros (P & HP & Hc & Hf). exists P.
      destruct (node_in_stored _ _ _ _ _ _ _ _ Hinv HP). done.
    + intros (P & Hst & Hfam & Hc & Hf). exists P. split; [|done].
      by eapply stored_in_trie.
  - apply NoDup_cfinish; [done|apply NoDup_nil_2].
Qed.

(** In every reachable tree the covered search for a valid prefix [q]
    walks over the nodes of the stored prefixes of the family of [q] that
    [q] contains, those of the length of [q] left out when [inclusive] is
    0, each of them once, and calls the callback on them until it returns a
    value other than 0, which the search returns. *)
Theorem search_covered_enumerates oob h t q inclusive :
  reachable h t → valid_prefix q →
  ∃ covered,
    (∀ x, x ∈ covered ↔
          ∃ P, stored h t x P ∧ family P = family q ∧ contains q P ∧
               (inclusive = true ∨ bitlen q < bitlen P)) ∧
    NoDup covered ∧
    ∀ func, radix_search_covered oob h t q func inclusive = Ok (run_cb func covered).
Proof.
  intros Hinv%reachable_inv Hq.
  apply (inv_fam_inv _ _ (family q)) in Hinv as (T & O & Hinv).
  destruct (covered_t_props h t q inclusive T O Hq Hinv) as (Hmem & Hnd).
  exists (covered_t q inclusive T). repeat (split; [done|]).
  intros func. by apply (radix_search_covered_run _ _ _ _ _ _ T O).
Qed.

Lemma search_covered_enumerates_witness :
  ∃ h t covered,
    inserts ∅ New_Radix two_children = Some (h, t) ∧
    (∀ x, x ∈ covered ↔
          ∃ P, stored h t x P ∧ family P = AF_INET ∧ contains (ipv4 10 0 0 0 9) P ∧
               (false = true ∨ 9 < bitlen P)) ∧
    NoDup covered ∧
    ∀ func, radix_search_covered false h t (ipv4 10 0 0 0 9) func false
            = Ok (run_cb func covered).
Proof.
  eexists _, _.
  destruct (search_covered_enumerates false
              (default (∅, New_Radix) (inserts ∅ New_Radix two_children)).1
              (default (∅, New_Radix) (inserts ∅ New_Radix two_children)).2
              (ipv4 10 0 0 0 9) false) as (covered & Hcovered).
  - eapply (reachable_inserts two_children ∅ New_Radix);
      [apply reach_new| |vm_compute; reflexivity].
    unfold two_children, ipv4, valid_prefix. solve_valid_prefixes.
  - unfold ipv4, valid_prefix. solve_valid_prefixes.
  - exists covered. split; [vm_compute; reflexivity|]. exact Hcovered.
Defined.

(** ** The intersecting prefixes *)

(** In every reachable tree [radix_search_intersect] for a valid prefix
    [q] walks over the nodes of the stored prefixes of the family of [q]
    that contain [q] or that [q] contains, each of them once, the
    containing ones first, and calls the callback on them until it returns
    a value other than 0, which the search returns. *)
Theorem search_intersect_enumerates oob h t q :
  reachable h t → valid_prefix q →
  ∃ nodes,
    (∀ x, x ∈ nodes ↔
          ∃ P, stored h t x P ∧ family P = family q ∧ (contains P q ∨ contains q P)) ∧
    NoDup nodes ∧
    ∀ func, radix_search_intersect oob h t q func = Ok (run_cb func nodes).
Proof.
  intros Hinv%reachable_inv Hq.
  apply (inv_fam_inv _ _ (family q)) in Hinv as (T & O & Hinv).
  pose proof Hinv as (_ & _ & HrT & _ & Hnd & HpT & _).
  apply NoDup_app in Hnd as (HndT & _).
  assert (∀ x, x ∈ cover_t q T ↔ ∃ Q, node_in T x (bitlen Q) (Some Q) ∧ contains Q q)
    as Hcover by (intros x; by apply cover_t_spec).
  assert (∀ x, x ∈ covered_t q false T ↔
               ∃ P, node_in T x (bitlen P) (Some P) ∧ contains q P ∧
                    (false = true ∨ bitlen q < bitlen P)) as Hcovered.
  { intros x. unfold covered_t. by rewrite (cfinish_spec q false Hq T 0 Leaf None). }
  exists (cover_t q T ++ covered_t q false T). split; [|split].
  - intros x. rewrite elem_of_app, Hcover, Hcovered. split.
    + intros [(P & HP & Hc)|(P & HP & Hc & _)]; exists P;
        destruct (node_in_stored _ _ _ _ _ _ _ _ Hinv HP); auto.
    + intros (P & Hst & Hfam & Hc).
      pose proof (stored_in_trie _ _ _ _ _ _ _ Hinv Hst Hfam) as HP.
      destruct Hc as [Hc|Hc]; [left; by exists P|].
      destruct (decide (bitlen q < bitlen P)) as [Hlt|Hge].
      * right. exists P. auto.
      * left. exists P. split; [done|]. destruct Hc as [Hle Hag].
        split; [lia|]. apply agree_sym. eapply agree_le; [|done]. lia.
  - apply NoDup_app. split; [|split].
    + unfold cover_t. destruct (best_t q true T) as [[x P]|]; [|apply NoDup_nil_2].
      by apply NoDup_ups.
    + intros x (Q & HQ & [Hle _])%Hcover (P & HP & _ & [?|Hlt])%Hcovered; [done|].
      destruct (node_in_repr _ _ _ _ _ _ HrT HQ) as (n & Hn & Hbit & _).
      destruct (node_in_repr _ _ _ _ _ _ HrT HP) as (n' & Hn' & Hbit' & _).
      rewrite Hn in Hn'. injection Hn' as <-. lia.
    + apply NoDup_cfinish; [done|apply NoDup_nil_2].
  - intros func. unfold radix_search_intersect.
    rewrite (radix_search_covering_run _ _ _ _ _ T O) by done.
    rewrite (radix_search_covered_run _ _ _ _ _ _ T O) by done.
    rewrite run_cb_app. destruct (run_cb func (cover_t q T)) as [c1 rc1].
    cbn [mbind res_bind]. destruct (rc1 =? 0); [|done].
    by destruct (run_cb func (covered_t q false T)).
Qed.

Lemma search_intersect_enumerates_witness :
  ∃ h t nodes,
    inserts ∅ New_Radix two_children = Some (h, t) ∧
    (∀ x, x ∈ nodes ↔
          ∃ P, stored h t x P ∧ family P = AF_INET ∧
               (contains P (ipv4 10 0 0 0 12) ∨ contains (ipv4 10 0 0 0 12) P)) ∧
    NoDup nodes ∧
    ∀ func, radix_search_intersect false h t (ipv4 10 0 0 0 12) func
            = Ok (run_cb func nodes).
Proof.
  eexists _, _.
  destruct (search_intersect_enumerates false
              (default (∅, New_Radix) (inserts ∅ New_Radix two_children)).1
              (default (∅, New_Radix) (inserts ∅ New_Radix two_children)).2
              (ipv4 10 0 0 0 12)) as (nodes & Hnodes).
  - eapply (reachable_inserts two_children ∅ New_Radix);
      [apply reach_new| |vm_compute; reflexivity].
    unfold two_children, ipv4, valid_prefix. solve_valid_prefixes.
  - unfold ipv4, valid_prefix. solve_valid_prefixes.
  - exists nodes. split; [vm_compute; reflexivity|]. exact Hnodes.
Defined.

(** * What insertion and removal do to the stored prefixes *)

(** ** The payload of the nodes *)

Lemma pay_lookup h y : pay h !! y = payload <$> (h !! y).
Proof. apply lookup_fmap. Qed.

Lemma pay_insert h a n : pay (<[a := n]> h) = <[a := payload n]> (pay h).
Proof. apply fmap_insert. Qed.

Lemma pay_delete h a : pay (PyMem_Free a h) = delete a (pay h).
Proof. apply fmap_delete. Qed.

Lemma deref_inv h a n : deref h a = Ok n → h !! a = Some n.
Proof. unfold deref. by destruct (h !! a) as [m|]; intros [= ->]. Qed.

Lemma store_inv h a f h' :
  store h a f = Ok h' → ∃ n, h !! a = Some n ∧ h' = <[a := f n]> h.
Proof.
  unfold store, deref. destruct (h !! a) as [n|]; [|done].
  intros [= <-]. by exists n.
Qed.

(** A store into a pointer field leaves the payloads as they are. *)
Lemma pay_store h a f h' :
  store h a f = Ok h' → (∀ n, payload (f n) = payload n) → pay h' = pay h.
Proof.
  intros (n & Hn & ->)%store_inv Hf. rewrite pay_insert, Hf.
  apply insert_id. by rewrite pay_lookup, Hn.
Qed.

Lemma pay_replace_in_parent h t p par node by_node h' t' :
  replace_in_parent h t p par node by_node = Ok (h', t') → pay h' = pay h.
Proof.
  unfold replace_in_parent. destruct par as [up|]; [|by intros [= <- _]].
  destruct (deref h up) as [pn|]; [|done]. cbn [mbind res_bind].
  destruct (bool_decide _).
  - destruct (store h up (set_r by_node)) as [h1|] eqn:Hs; [|done].
    intros [= <- _]. by eapply pay_store.
  - destruct (store h up (set_l by_node)) as [h1|] eqn:Hs; [|done].
    intros [= <- _]. by eapply pay_store.
Qed.


Ltac pay_chain :=
  repeat match goal with
  | H : store _ _ _ = Ok _ |- _ => apply pay_store in H; [|by intros []]
  | H : replace_in_parent _ _ _ _ _ _ = Ok _ |- _ => apply pay_replace_in_parent in H
  end;
  repeat first
    [ rewrite pay_insert
    | rewrite pay_delete
    | match goal with H : pay ?x = _ |- context [pay ?x] => rewrite H end ].

Lemma malloc_fresh ok h a : PyMem_Malloc ok h = Some a → h !! a = None.
Proof. destruct ok; [|done]. intros [= <-]. apply fresh_None. Qed.

Lemma radix_lookup_attach_pay ok1 ok2 h t p test_addr d x h' t' r :
  radix_lookup_attach ok1 ok2 h t p test_addr d x = Ok (h', t', r) →
  lookup_payloads h h' p r.
Proof.
  unfold radix_lookup_attach, lookup_payloads. intros H.
  run_ok H; injection H as <- <- <-;
    repeat match goal with
    | H : PyMem_Malloc _ _ = Some _ |- _ => apply malloc_fresh in H
    | H : deref _ _ = Ok _ |- _ => apply deref_inv in H
    end.
  all: try (by left).
  all: try (right; left;
            match goal with
            | H : store _ _ (set_prefix _) = Ok _ |- _ =>
              apply store_inv in H as (n & Hn & ->)
            end;
            exists x, n; rewrite pay_insert; by simplify_eq).
  all: try (right; right; left;
            match goal with
            | H : _ !! ?a = None |- _ => exists a; pay_chain; by eauto
            end).
  all: right; right; right.
  all: match goal with
       | H : _ !! ?a = None, H' : <[?a := _]> _ !! ?g = None |- _ =>
         exists a, g, d; apply lookup_insert_None in H' as [H' ?]
       end.
  all: pay_chain; by eauto 10.
Qed.

Lemma radix_lookup_pay ok1 ok2 h t p h' t' r :
  radix_lookup ok1 ok2 h t p = Ok (h', t', r) → lookup_payloads h h' p r.
Proof.
  unfold radix_lookup. destruct (RADIX_HEAD_BY_PREFIX t p) as [head|].
  - intros H. run_ok H. by eapply radix_lookup_attach_pay.
  - destruct (PyMem_Malloc ok1 h) as [new|] eqn:Hnew.
    + intros [= <- <- <-]. right; right; left. exists new.
      rewrite pay_insert. split; [by eapply malloc_fresh|]. by split; [left|].
    + intros [= <- <- <-]. by left.
Qed.

(** ** The stored prefixes, on the two tries *)

Lemma fam_inv_other h t fam T O : fam_inv h t fam T O → fam_inv h t (other fam) O T.
Proof.
  intros (H1 & H2 & H3 & H4 & H5 & H6 & H7 & H8).
  assert (other (other fam) = fam) as Hoo by (by destruct fam).
  unfold fam_inv. rewrite Hoo. split; [done|]. split; [done|].
  split; [done|]. split; [done|].
  split; [by rewrite (Permutation_app_comm (locs O) (locs T))|].
  split; [done|]. split; [done|].
  rewrite H8, !length_app. lia.
Qed.

Lemma stored_iff h t fam T O y Q :
  fam_inv h t fam T O →
  stored h t y Q ↔
  (family Q = fam ∧ node_in T y (bitlen Q) (Some Q)) ∨
  (family Q = other fam ∧ node_in O y (bitlen Q) (Some Q)).
Proof.
  intros Hinv. split.
  - intros Hst. destruct (decide (family Q = fam)) as [Hf|Hf].
    + left. split; [done|]. by eapply stored_in_trie.
    + right. assert (family Q = other fam) as Hf'.
      { destruct (family Q), fam; done. }
      split; [done|]. eapply stored_in_trie; [by apply fam_inv_other|done..].
  - intros [[Hf Hn]|[Hf Hn]].
    + by eapply node_in_stored.
    + eapply node_in_stored; [by apply fam_inv_other|done].
Qed.

(** ** Deletion on trees keeps the other real nodes *)

Lemma is_leaf_node_locs t x : is_leaf_node t x = true → locs t = [x].
Proof.
  destruct t as [|a b p d [|] [|]]; try done. simpl.
  by intros ->%bool_decide_eq_true.
Qed.

Lemma del_t_node_in x t y b P :
  node_in t y b (Some P) → y ≠ x → node_in (del_t x t) y b (Some P).
Proof.
  induction t as [|a b' p d tl IHl tr IHr]; [done|].
  intros Hn Hy. cbn [del_t]. case_bool_decide as Hax.
  { subst a. destruct Hn as [(? & _)|Hn]; [done|].
    destruct tr as [|rc rb rp rd rl rr] eqn:Etr;
      destruct tl as [|lc lb lp ld ll lr] eqn:Etl.
    - by destruct Hn.
    - by destruct Hn.
    - by destruct Hn.
    - right. done. }
  destruct (negb (non_null p) && is_leaf_node tr x) eqn:Hgr.
  { apply andb_true_iff in Hgr as [Hglue Hleaf]. destruct p as [?|]; [done|].
    destruct Hn as [(_ & _ & ?)|[Hn|Hn]]; [done|done|].
    apply node_in_locs in Hn. rewrite (is_leaf_node_locs _ _ Hleaf) in Hn.
    by apply list_elem_of_singleton in Hn. }
  destruct (negb (non_null p) && is_leaf_node tl x) eqn:Hgl.
  { apply andb_true_iff in Hgl as [Hglue Hleaf]. destruct p as [?|]; [done|].
    destruct Hn as [(_ & _ & ?)|[Hn|Hn]]; [done| |done].
    apply node_in_locs in Hn. rewrite (is_leaf_node_locs _ _ Hleaf) in Hn.
    by apply list_elem_of_singleton in Hn. }
  destruct Hn as [Hn|[Hn|Hn]]; [by left|right; left; auto|right; right; auto].
Qed.

Lemma del_t_node_in_inv x t y b P :
  NoDup (locs t) → node_in (del_t x t) y b (Some P) →
  node_in t y b (Some P) ∧ y ≠ x.
Proof.
  induction t as [|a b' p d tl IHl tr IHr]; [done|].
  cbn [locs]. intros [Ha [Hndl [Hdis Hndr]]%NoDup_app]%NoDup_cons.
  apply not_elem_of_app in Ha as [Hal Har].
  assert (∀ c, node_in c y b (Some P) → y ∈ locs c) as Hloc.
  { intros c. apply node_in_locs. }
  cbn [del_t]. case_bool_decide as Hax.
  { subst a. destruct tr as [|rc rb rp rd rl rr] eqn:Etr;
      destruct tl as [|lc lb lp ld ll lr] eqn:Etl.
    - done.
    - intros Hn. split; [right; by left|]. intros ->. by apply Hal, Hloc.
    - intros Hn. split; [right; by right|]. intros ->. by apply Har, Hloc.
    - intros [(_ & _ & ?)|[Hn|Hn]]; [done| |].
      + split; [right; by left|]. intros ->. by apply Hal, Hloc.
      + split; [right; by right|]. intros ->. by apply Har, Hloc. }
  destruct (negb (non_null p) && is_leaf_node tr x) eqn:Hgr.
  { apply andb_true_iff in Hgr as [Hglue Hleaf].
    intros Hn. split; [right; by left|]. intros ->.
    apply (Hdis x); [by apply Hloc|].
    rewrite (is_leaf_node_locs _ _ Hleaf). by apply list_elem_of_singleton. }
  destruct (negb (non_null p) && is_leaf_node tl x) eqn:Hgl.
  { apply andb_true_iff in Hgl as [Hglue Hleaf].
    intros Hn. split; [right; by right|]. intros ->.
    apply (Hdis x); [|by apply Hloc].
    rewrite (is_leaf_node_locs _ _ Hleaf). by apply list_elem_of_singleton. }
  intros [(<- & <- & <-)|[Hn|Hn]].
  - split; [by left|done].
  - destruct (IHl Hndl Hn). split; [right; by left|done].
  - destruct (IHr Hndr Hn). split; [right; by right|done].
Qed.

(** ** What [radix_lookup] does to the nodes *)

Lemma lookup_payloads_old h h' p r y ny :
  lookup_payloads h h' p r → h !! y = Some ny →
  ∃ ny', h' !! y = Some ny' ∧ bit ny' = bit ny ∧ data ny' = data ny ∧
         (prefix ny' = prefix ny ∨
          (prefix ny = None ∧ prefix ny' = Some p ∧ r = Some y)).
Proof.
  intros Hpay Hy.
  assert (pay h !! y = Some (payload ny)) as Hpy by (by rewrite pay_lookup, Hy).
  assert (∀ v, pay h' !! y = Some v →
            ∃ ny', h' !! y = Some ny' ∧ payload ny' = v) as Hback.
  { intros v. rewrite pay_lookup. destruct (h' !! y) as [ny'|]; [|done].
    intros [= <-]. by exists ny'. }
  destruct Hpay as [Heq|[(x & nx & Hx & Hnone & -> & Heq)|
                         [(new & Hnew & _ & Heq)|
                          (new & glue & gb & Hnew & Hglue & _ & _ & Heq)]]].
  - destruct (Hback (payload ny)) as (ny' & Hy' & [= Hb Hp Hd]); [by rewrite Heq|].
    exists ny'. auto.
  - destruct (decide (x = y)) as [->|Hne].
    + destruct (Hback (bit nx, Some p, data nx)) as (ny' & Hy' & [= Hb Hp Hd]).
      { by rewrite Heq, lookup_insert_eq. }
      simplify_eq. exists ny'. auto 10.
    + destruct (Hback (payload ny)) as (ny' & Hy' & [= Hb Hp Hd]).
      { by rewrite Heq, lookup_insert_ne. }
      exists ny'. auto.
  - assert (new ≠ y) by congruence.
    destruct (Hback (payload ny)) as (ny' & Hy' & [= Hb Hp Hd]).
    { by rewrite Heq, lookup_insert_ne. }
    exists ny'. auto.
  - assert (new ≠ y) by congruence. assert (glue ≠ y) by congruence.
    destruct (Hback (payload ny)) as (ny' & Hy' & [= Hb Hp Hd]).
    { by rewrite Heq, !lookup_insert_ne. }
    exists ny'. auto.
Qed.

Lemma lookup_payloads_new h h' p r y ny' :
  lookup_payloads h h' p r → h !! y = None → h' !! y = Some ny' →
  data ny' = None ∧
  (prefix ny' = None ∨ (prefix ny' = Some p ∧ (r = Some y ∨ r = None))).
Proof.
  intros Hpay Hy Hy'.
  assert (pay h !! y = None) as Hpy by (by rewrite pay_lookup, Hy).
  assert (pay h' !! y = Some (payload ny')) as Hpy' by (by rewrite pay_lookup, Hy').
  destruct Hpay as [Heq|[(x & nx & Hx & Hnone & -> & Heq)|
                         [(new & Hnew & Hr & Heq)|
                          (new & glue & gb & Hnew & Hglue & Hne & -> & Heq)]]].
  - rewrite Heq in Hpy'. congruence.
  - assert (x ≠ y) by congruence.
    rewrite Heq, lookup_insert_ne in Hpy' by done. congruence.
  - rewrite Heq in Hpy'. destruct (decide (new = y)) as [->|Hney].
    + rewrite lookup_insert_eq in Hpy'. injection Hpy' as Hb Hp Hd. auto.
    + rewrite lookup_insert_ne in Hpy' by done. congruence.
  - rewrite Heq in Hpy'. destruct (decide (glue = y)) as [->|Hgy].
    { rewrite lookup_insert_eq in Hpy'. injection Hpy' as Hb Hp Hd. auto. }
    rewrite lookup_insert_ne in Hpy' by done.
    destruct (decide (new = y)) as [->|Hney].
    + rewrite lookup_insert_eq in Hpy'. injection Hpy' as Hb Hp Hd. auto.
    + rewrite lookup_insert_ne in Hpy' by done. congruence.
Qed.

(** ** Insertion *)

(** The trie of the family after a [radix_lookup] that returns a node: the
    node has a prefix with the bits of [q], the nodes that had a prefix
    keep it, and no other node has one. *)
Lemma radix_lookup_tree ok1 ok2 h t q T O h' t' n :
  valid_prefix q → fam_inv h t (family q) T O →
  radix_lookup ok1 ok2 h t q = Ok (h', t', Some n) →
  ∃ T' P,
    fam_inv h' t' (family q) T' O ∧
    node_in T' n (bitlen q) (Some P) ∧ agree (add P) (add q) (bitlen q) ∧
    (P = q ∨ node_in T n (bitlen q) (Some P)) ∧
    (∀ y b Q, node_in T' y b (Some Q) → node_in T y b (Some Q) ∨ (y = n ∧ Q = P)) ∧
    (∀ y b Q, node_in T y b (Some Q) → node_in T' y b (Some Q)) ∧
    (∀ y, y ∈ locs O → h' !! y = h !! y) ∧
    lookup_payloads h h' q (Some n) ∧
    (n ∈ locs T ∨ h !! n = None).
Proof.
  intros Hq Hinv Hcall0.
  pose proof (radix_lookup_pay _ _ _ _ _ _ _ _ Hcall0) as Hpay.
  apply radix_lookup_ok in Hcall0.
  destruct (radix_lookup_spec_nodes h t q T O Hq Hinv)
    as (h2 & t2 & n2 & T' & P & Hcall & Hinv' & Hnode & Hag & _ & HfrO & Hkeep & Hnew).
  rewrite Hcall0 in Hcall. injection Hcall as <- <- <-.
  pose proof Hinv as (_ & _ & HrT & HrO & Hnd & HpT & _).
  pose proof Hinv' as (_ & _ & HrT' & HrO' & Hnd' & HpT' & _).
  destruct (node_in_repr _ _ _ _ _ _ HrT' Hnode) as (nn & Hn' & Hbn & HprefP).
  (* a node of the new trie that stores [Q] stored it before, or is [n] *)
  assert (∀ y b Q, node_in T' y b (Some Q) →
            node_in T y b (Some Q) ∨ (y = n ∧ Q = P)) as Hfrom.
  { intros y b Q HyQ.
    destruct (node_in_repr _ _ _ _ _ _ HrT' HyQ) as (ny' & Hy' & Hb' & Hp').
    assert (y = n → Q = P) as Hsame by (intros ->; congruence).
    destruct (Hnew y (node_in_locs _ _ _ _ HyQ)) as [HyT|HyN].
    - destruct (repr_is_Some _ _ _ _ HrT HyT) as [ny Hy].
      destruct (lookup_payloads_old _ _ _ _ _ _ Hpay Hy)
        as (ny2 & Hy2 & Hb & _ & [Hp|(_ & _ & [= ->])]); [|by right; auto].
      left. pose proof (repr_node_in _ _ _ _ _ HrT HyT Hy) as Hin.
      assert (ny2 = ny') as -> by congruence.
      by rewrite <- Hb, Hb', <- Hp, Hp' in Hin.
    - destruct (lookup_payloads_new _ _ _ _ _ _ Hpay HyN Hy')
        as (_ & [Hp|(_ & [[= ->]|?])]); [congruence|by right; auto|done]. }
  (* a node of the old trie keeps its prefix *)
  assert (∀ y b Q, node_in T y b (Some Q) → node_in T' y b (Some Q)) as Hto.
  { intros y b Q HyQ.
    destruct (node_in_repr _ _ _ _ _ _ HrT HyQ) as (ny & Hy & Hb & Hp).
    destruct (lookup_payloads_old _ _ _ _ _ _ Hpay Hy)
      as (ny' & Hy' & Hb' & _ & [Hp'|(? & _)]); [|congruence].
    pose proof (repr_node_in _ _ _ _ _ HrT' (Hkeep y (node_in_locs _ _ _ _ HyQ)) Hy') as Hin.
    by rewrite Hb', Hb, Hp', Hp in Hin. }
  exists T', P. split; [done|]. split; [done|]. split; [done|].
  split; [|by repeat (split; [done|]); apply Hnew; eapply node_in_locs].
  destruct (Hfrom _ _ _ Hnode) as [Hold|[_ Heq]]; [by right|].
  destruct (Hnew n (node_in_locs _ _ _ _ Hnode)) as [HnT|HnN].
  - destruct (repr_is_Some _ _ _ _ HrT HnT) as [ny Hy].
    destruct (lookup_payloads_old _ _ _ _ _ _ Hpay Hy)
      as (ny2 & Hy2 & Hb & _ & [Hp|(_ & Hp & _)]).
    + right. pose proof (repr_node_in _ _ _ _ _ HrT HnT Hy) as Hin.
      assert (ny2 = nn) as -> by congruence.
      by rewrite <- Hb, Hbn, <- Hp, HprefP in Hin.
    + left. congruence.
  - destruct (lookup_payloads_new _ _ _ _ _ _ Hpay HnN Hn')
      as (_ & [Hp|(Hp & _)]); [congruence|]. left. congruence.
Qed.

(** In every reachable tree [radix_lookup] of a valid prefix [q], when the
    allocations succeed, returns a node that stores a prefix of the family
    and the length of [q] with the first bits of [q]: [q] itself, or the
    prefix that was stored at this node before.  Every stored prefix stays
    stored at its node and nothing else is stored, and the exact search
    for [q] finds the node afterwards. *)
Theorem lookup_stores_prefix oob h t q :
  reachable h t → valid_prefix q →
  ∃ h' t' n P,
    radix_lookup true true h t q = Ok (h', t', Some n) ∧
    stored h' t' n P ∧
    family P = family q ∧ bitlen P = bitlen q ∧ agree (add P) (add q) (bitlen q) ∧
    (P = q ∨ stored h t n P) ∧
    (∀ y Q, stored h' t' y Q ↔ stored h t y Q ∨ (y = n ∧ Q = P)) ∧
    radix_search_exact oob h' t' q = Ok (Some n).
Proof.
  intros Hreach Hq.
  destruct (proj1 (inv_fam_inv h t (family q)) (reachable_inv _ _ Hreach)) as (T & O & Hinv).
  destruct (radix_lookup_spec h t q T O Hq Hinv) as (h' & t' & n & _ & _ & Hcall & _).
  destruct (radix_lookup_tree _ _ _ _ _ _ _ _ _ _ Hq Hinv Hcall)
    as (T' & P & Hinv' & Hnode & Hag & Hwas & Hfrom & Hto & _).
  pose proof Hinv' as (_ & _ & _ & _ & _ & HpT' & _).
  destruct (node_in_stored _ _ _ _ _ _ _ _ Hinv' Hnode) as [Hst HfamP].
  destruct (node_in_pat _ _ _ _ _ _ HpT' Hnode) as [HlenP _].
  exists h', t', n, P. split; [done|]. split; [done|]. split; [done|].
  split; [done|]. split; [done|]. split; [|split].
  - destruct Hwas as [?|Hold]; [by left|right]. by eapply node_in_stored.
  - intros y Q. rewrite (stored_iff _ _ _ _ _ y Q Hinv), (stored_iff _ _ _ _ _ y Q Hinv').
    split.
    + intros [[Hf HyQ]|[Hf HyQ]]; [|by left; right].
      destruct (Hfrom _ _ _ HyQ) as [?|?]; [by left; left|by right].
    + intros [[[Hf HyQ]|[Hf HyQ]]|[-> ->]]; [left; auto|by right|].
      left. split; [done|]. by rewrite HlenP.
  - destruct (radix_search_exact_spec oob h' t' q T' O Hq Hinv') as (res & Hres & Hspec).
    rewrite Hres. destruct res as [x|].
    + destruct Hspec as [_ Huniq]. by rewrite (Huniq n P Hnode Hag).
    + by destruct (Hspec n P Hnode).
Qed.

Lemma lookup_stores_prefix_witness :
  ∃ h t h' t' n P,
    inserts ∅ New_Radix two_children = Some (h, t) ∧
    radix_lookup true true h t (ipv4 10 0 200 9 17) = Ok (h', t', Some n) ∧
    stored h' t' n P ∧
    family P = AF_INET ∧ bitlen P = 17 ∧ agree (add P) [10; 0; 200; 9] 17 ∧
    (P = ipv4 10 0 200 9 17 ∨ stored h t n P) ∧
    (∀ y Q, stored h' t' y Q ↔ stored h t y Q ∨ (y = n ∧ Q = P)) ∧
    radix_search_exact false h' t' (ipv4 10 0 200 9 17) = Ok (Some n).
Proof.
  eexists _, _.
  destruct (lookup_stores_prefix false
              (default (∅, New_Radix) (inserts ∅ New_Radix two_children)).1
              (default (∅, New_Radix) (inserts ∅ New_Radix two_children)).2
              (ipv4 10 0 200 9 17)) as (h' & t' & n & P & Hcall & Hres).
  - eapply (reachable_inserts two_children ∅ New_Radix);
      [apply reach_new| |vm_compute; reflexivity].
    unfold two_children, ipv4, valid_prefix. solve_valid_prefixes.
  - unfold ipv4, valid_prefix. solve_valid_prefixes.
  - exists h', t', n, P. split; [vm_compute; reflexivity|]. split; [exact Hcall|exact Hres].
Defined.

(** ** Removal *)

(** In every reachable tree [radix_remove] of the node of a stored prefix
    returns, and leaves every other stored prefix stored at its node and
    no other; the exact search for the removed prefix finds nothing
    afterwards. *)
Theorem remove_forgets_prefix oob h t x P :
  reachable h t → stored h t x P →
  ∃ h' t',
    radix_remove h t x = Ok (h', t') ∧
    (∀ y Q, stored h' t' y Q ↔ stored h t y Q ∧ y ≠ x) ∧
    radix_search_exact oob h' t' P = Ok None.
Proof.
  intros Hreach Hst.
  destruct (proj1 (inv_fam_inv h t (family P)) (reachable_inv _ _ Hreach)) as (T & O & Hinv).
  pose proof (stored_in_trie _ _ _ _ _ _ _ Hinv Hst eq_refl) as Hnode.
  pose proof Hinv as (_ & _ & HrT & HrO & Hnd & HpT & _).
  destruct (node_in_repr _ _ _ _ _ _ HrT Hnode) as (nx & Hx & _ & Hpx).
  pose proof (node_in_locs _ _ _ _ Hnode) as HxT.
  destruct (radix_remove_spec h t (family P) T O x nx Hinv HxT Hx)
    as (h' & t' & Hcall & Hinv' & _ & _); [congruence|].
  apply NoDup_app in Hnd as (HndT & Hdis & _).
  destruct (pat_prefixes _ _ _ _ HpT (node_in_prefixes _ _ _ _ Hnode)) as (_ & HvP & _).
  exists h', t'. split; [done|]. split.
  - intros y Q. rewrite (stored_iff _ _ _ _ _ y Q Hinv), (stored_iff _ _ _ _ _ y Q Hinv').
    split.
    + intros [[Hf HyQ]|[Hf HyQ]].
      * destruct (del_t_node_in_inv _ _ _ _ _ HndT HyQ). auto.
      * split; [by right|]. intros ->. by eapply Hdis, node_in_locs.
    + intros [[[Hf HyQ]|[Hf HyQ]] Hne]; [left|by right].
      split; [done|]. by apply del_t_node_in.
  - destruct (radix_search_exact_spec oob h' t' P _ O HvP Hinv') as (res & Hres & Hspec).
    rewrite Hres. destruct res as [z|]; [|done].
    destruct Hspec as [(P' & Hz & Hag) _].
    destruct (del_t_node_in_inv _ _ _ _ _ HndT Hz) as [HzT Hzx].
    destruct (radix_search_exact_spec oob h t P T O HvP Hinv) as (res0 & _ & Hspec0).
    destruct res0 as [x0|].
    + destruct Hspec0 as [_ Huniq]. destruct Hzx.
      rewrite (Huniq z P' HzT Hag). symmetry. apply (Huniq x P Hnode). apply agree_refl.
    + destruct (Hspec0 x P Hnode). apply agree_refl.
Qed.

Lemma remove_forgets_prefix_witness :
  ∃ h t h' t',
    inserts ∅ New_Radix two_children = Some (h, t) ∧
    radix_remove h t 3%positive = Ok (h', t') ∧
    (∀ y Q, stored h' t' y Q ↔ stored h t y Q ∧ y ≠ 3%positive) ∧
    radix_search_exact false h' t' (ipv4 10 128 0 0 16) = Ok None.
Proof.
  eexists _, _.
  destruct (remove_forgets_prefix false
              (default (∅, New_Radix) (inserts ∅ New_Radix two_children)).1
              (default (∅, New_Radix) (inserts ∅ New_Radix two_children)).2
              3%positive (ipv4 10 128 0 0 16)) as (h' & t' & Hcall & Hres).
  - eapply (reachable_inserts two_children ∅ New_Radix);
      [apply reach_new| |vm_compute; reflexivity].
    unfold two_children, ipv4, valid_prefix. solve_valid_prefixes.
  - split; [vm_compute; repeat first [apply list_elem_of_here|apply list_elem_of_further]|].
    eexists. split; [vm_compute; reflexivity|done].
  - exists h', t'. split; [vm_compute; reflexivity|]. split; [exact Hcall|exact Hres].
Defined.

Lemma radix_remove_pay h t x h' t' :
  radix_remove h t x = Ok (h', t') → remove_payloads h h' x.
Proof.
  unfold radix_remove, remove_payloads. intros H.
  run_ok H; try injection H as <- <-;
    repeat match goal with
    | H : deref _ _ = Ok _ |- _ => apply deref_inv in H
    | H : PyMem_Free _ _ !! _ = Some _ |- _ =>
      unfold PyMem_Free in H; apply lookup_delete_Some in H as [? H]
    end;
    match goal with H : h !! x = Some ?a |- _ => exists a; split; [exact H|] end.
  { left.
    repeat match goal with
    | H : store _ _ _ = Ok _ |- _ => apply store_inv in H as (? & ? & ->)
    end.
    rewrite lookup_insert_eq in *. simplify_eq.
    by rewrite !pay_insert, insert_insert_eq. }
  all: pay_chain.
  all: first [ by right; left | right; right; eexists _, _; by eauto ].
Qed.

(** ** What the two operations leave alone *)

(** Whatever the tree and the allocator, a [radix_lookup] that returns
    frees no node and keeps the bit index and the payload of every node;
    it keeps the prefix of every node too, but of a glue node it returns,
    which gets the prefix of the call.  A node it allocates has no
    payload, and no prefix (a glue node) or the prefix of the call. *)
Theorem lookup_keeps_payloads ok1 ok2 h t q h' t' r :
  radix_lookup ok1 ok2 h t q = Ok (h', t', r) →
  (∀ y ny, h !! y = Some ny →
     ∃ ny', h' !! y = Some ny' ∧ bit ny' = bit ny ∧ data ny' = data ny ∧
            (prefix ny' = prefix ny ∨
             (prefix ny = None ∧ prefix ny' = Some q ∧ r = Some y))) ∧
  (∀ y ny', h !! y = None → h' !! y = Some ny' →
     data ny' = None ∧
     (prefix ny' = None ∨ (prefix ny' = Some q ∧ (r = Some y ∨ r = None)))).
Proof.
  intros Hpay%radix_lookup_pay. split.
  - intros y ny. by apply lookup_payloads_old.
  - intros y ny'. by apply lookup_payloads_new.
Qed.

Lemma lookup_keeps_payloads_witness :
  ∃ h t h' t' r,
    inserts ∅ New_Radix two_children = Some (h, t) ∧
    radix_lookup true true h t (ipv4 10 0 200 9 17) = Ok (h', t', r) ∧
    (∀ y ny, h !! y = Some ny →
       ∃ ny', h' !! y = Some ny' ∧ bit ny' = bit ny ∧ data ny' = data ny ∧
              (prefix ny' = prefix ny ∨
               (prefix ny = None ∧ prefix ny' = Some (ipv4 10 0 200 9 17) ∧ r = Some y))) ∧
    (∀ y ny', h !! y = None → h' !! y = Some ny' →
       data ny' = None ∧
       (prefix ny' = None ∨
        (prefix ny' = Some (ipv4 10 0 200 9 17) ∧ (r = Some y ∨ r = None)))).
Proof.
  pose (s := default (∅, New_Radix) (inserts ∅ New_Radix two_children)).
  pose (o := match radix_lookup true true s.1 s.2 (ipv4 10 0 200 9 17) with
             | Ok v => v
             | Err _ => (∅, New_Radix, None)
             end).
  assert (radix_lookup true true s.1 s.2 (ipv4 10 0 200 9 17) = Ok (o.1.1, o.1.2, o.2))
    as Hcall by (vm_compute; reflexivity).
  exists s.1, s.2, o.1.1, o.1.2, o.2.
  split; [vm_compute; reflexivity|]. split; [exact Hcall|].
  exact (lookup_keeps_payloads _ _ _ _ _ _ _ _ Hcall).
Defined.

(** Whatever the tree, a [radix_remove] that returns allocates no node and
    keeps the bit index of the nodes it leaves; it keeps their prefix and
    payload too, but of the node removed, which is left, when it is, as a
    glue node without payload.  The nodes it frees are the node removed
    and glue nodes. *)
Theorem remove_keeps_payloads h t x h' t' :
  radix_remove h t x = Ok (h', t') →
  (∀ y ny', h' !! y = Some ny' →
     ∃ ny, h !! y = Some ny ∧ bit ny' = bit ny ∧
           if decide (y = x) then prefix ny' = None ∧ data ny' = None
           else prefix ny' = prefix ny ∧ data ny' = data ny) ∧
  (∀ y ny, h !! y = Some ny → h' !! y = None → y = x ∨ prefix ny = None).
Proof.
  intros (nx & Hx & Hpay)%radix_remove_pay.
  assert (∀ y v, pay h !! y = Some v → ∃ ny, h !! y = Some ny ∧ payload ny = v) as Hback.
  { intros y v. rewrite pay_lookup. destruct (h !! y) as [ny|]; [|done].
    intros [= <-]. by exists ny. }
  split.
  - intros y ny' Hy'.
    assert (pay h' !! y = Some (payload ny')) as Hpy' by (by rewrite pay_lookup, Hy').
    destruct Hpay as [Heq|[Heq|(up & nu & Hup & Hglue & Heq)]]; rewrite Heq in Hpy'.
    + destruct (decide (y = x)) as [->|Hne].
      * rewrite lookup_insert_eq in Hpy'. injection Hpy' as Hb Hp Hd. by exists nx.
      * rewrite lookup_insert_ne in Hpy' by done.
        destruct (Hback _ _ Hpy') as (ny & Hy & [= Hb Hp Hd]). by exists ny.
    + apply lookup_delete_Some in Hpy' as [Hne Hpy'].
      destruct (Hback _ _ Hpy') as (ny & Hy & [= Hb Hp Hd]).
      exists ny. by rewrite decide_False.
    + apply lookup_delete_Some in Hpy' as [_ [Hne Hpy']%lookup_delete_Some].
      destruct (Hback _ _ Hpy') as (ny & Hy & [= Hb Hp Hd]).
      exists ny. by rewrite decide_False.
  - intros y ny Hy Hy'.
    assert (pay h !! y = Some (payload ny)) as Hpy by (by rewrite pay_lookup, Hy).
    assert (pay h' !! y = None) as Hpy' by (by rewrite pay_lookup, Hy').
    destruct (decide (y = x)) as [->|Hne]; [by left|]. right.
    destruct Hpay as [Heq|[Heq|(up & nu & Hup & Hglue & Heq)]]; rewrite Heq in Hpy'.
    + rewrite lookup_insert_ne in Hpy' by done. congruence.
    + rewrite lookup_delete_ne in Hpy' by done. congruence.
    + destruct (decide (y = up)) as [->|Hneu]; [congruence|].
      rewrite !lookup_delete_ne in Hpy' by done. congruence.
Qed.

Lemma remove_keeps_payloads_witness :
  ∃ h t h' t',
    inserts ∅ New_Radix two_children = Some (h, t) ∧
    radix_remove h t 1%positive = Ok (h', t') ∧
    (∀ y ny', h' !! y = Some ny' →
       ∃ ny, h !! y = Some ny ∧ bit ny' = bit ny ∧
             if decide (y = 1%positive) then prefix ny' = None ∧ data ny' = None
             else prefix ny' = prefix ny ∧ data ny' = data ny) ∧
    (∀ y ny, h !! y = Some ny → h' !! y = None → y = 1%positive ∨ prefix ny = None).
Proof.
  pose (s := default (∅, New_Radix) (inserts ∅ New_Radix two_children)).
  pose (o := match radix_remove s.1 s.2 1%positive with
             | Ok v => v
             | Err _ => (∅, New_Radix)
             end).
  assert (radix_remove s.1 s.2 1%positive = Ok (o.1, o.2))
    as Hcall by (vm_compute; reflexivity).
  exists s.1, s.2, o.1, o.2.
  split; [vm_compute; reflexivity|]. split; [exact Hcall|].
  exact (remove_keeps_payloads _ _ _ _ _ Hcall).
Defined.

Lemma remove_payloads_kept h h' x y ny' :
  remove_payloads h h' x → h' !! y = Some ny' → y ≠ x →
  ∃ ny, h !! y = Some ny ∧ payload ny' = payload ny.
Proof.
  intros (nx & Hx & Hpay) Hy' Hne.
  assert (pay h' !! y = Some (payload ny')) as Hpy' by (by rewrite pay_lookup, Hy').
  assert (pay h !! y = Some (payload ny') → ∃ ny, h !! y = Some ny ∧ payload ny' = payload ny)
    as Hback.
  { rewrite pay_lookup. destruct (h !! y) as [ny|]; [|done].
    intros Heq. exists ny. split; [done|]. simpl in Heq. congruence. }
  destruct Hpay as [Heq|[Heq|(up & nu & Hup & Hglue & Heq)]]; rewrite Heq in Hpy'.
  - rewrite lookup_insert_ne in Hpy' by done. auto.
  - apply lookup_delete_Some in Hpy' as [_ Hpy']. auto.
  - apply lookup_delete_Some in Hpy' as [_ [_ Hpy']%lookup_delete_Some]. auto.
Qed.

(** * Destruction of the tree *)

Lemma free_all_lookup l h y :
  free_all l h !! y = if decide (y ∈ l) then None else h !! y.
Proof.
  revert h. induction l as [|a l IH]; intros h.
  { case_decide as Hin; [by apply elem_of_nil in Hin|done]. }
  cbn [free_all foldl]. fold (free_all l (PyMem_Free a h)). rewrite IH.
  unfold PyMem_Free.
  destruct (decide (y ∈ l)) as [Hin|Hnin], (decide (y ∈ a :: l)) as [Hin'|Hnin'];
    try done.
  - destruct Hnin'. by right.
  - apply elem_of_cons in Hin' as [->|?]; [|done]. apply lookup_delete_eq.
  - apply lookup_delete_ne. intros ->. apply Hnin'. by left.
Qed.

Lemma elem_of_locs_all ts sub x : sub ∈ ts → x ∈ locs sub → x ∈ locs_all ts.
Proof.
  induction ts as [|s ts IH]; [by intros ?%elem_of_nil|].
  intros [->|Hin]%elem_of_cons Hx; simpl; apply elem_of_app; auto.
Qed.

Lemma free_all_app l1 l2 h : free_all (l1 ++ l2) h = free_all l2 (free_all l1 h).
Proof. apply foldl_app. Qed.

Lemma set_num_set_num x y t :
  set_num_active_node y (set_num_active_node x t) = set_num_active_node y t.
Proof. by destruct t. Qed.

Lemma num_set_num x t : num_active_node (set_num_active_node x t) = x.
Proof. by destruct t. Qed.

Lemma radix_clear_loop_spec func :
  ∀ fuel h t calls cur pending stack,
    Forall (λ sub, ∃ par, repr h par sub) (cur :: pending) →
    Forall (λ sub, sub ≠ Leaf) pending →
    map root pending = map Some stack →
    (cur = Leaf → pending = []) →
    NoDup (locs_all (cur :: pending)) →
    (length (locs_all (cur :: pending)) < fuel)%nat →
    radix_clear_loop fuel func h t calls stack (root cur) =
    Ok (free_all (locs_all (cur :: pending)) h,
        set_num_active_node
          (num_active_node t - Z.of_nat (length (locs_all (cur :: pending)))) t,
        calls ++ (if func then payload_nodes_all (cur :: pending) else [])).
Proof.
  induction fuel as [|f IH]; intros h t calls cur pending stack Hrepr Hnl Hst Hleaf Hnd Hfuel;
    [lia|].
  destruct cur as [|a b p d tl tr].
  { rewrite (Hleaf eq_refl). simpl. rewrite Z.sub_0_r.
    destruct t. destruct func; by rewrite app_nil_r. }
  apply Forall_cons in Hrepr as [[par (Ha & Hrl & Hrr)] Hpend].
  cbn [root radix_clear_loop]. unfold deref. rewrite Ha. cbn [mbind res_bind].
  cbn [l r prefix data].
  set (calls1 := if non_null p && (non_null d && func) then calls ++ [a] else calls).
  set (h1 := PyMem_Free a h).
  set (t1 := set_num_active_node (num_active_node t - 1) t).
  cbn [locs_all locs] in Hnd, Hfuel |- *. rewrite <- !app_comm_cons in Hnd, Hfuel |- *.
  apply NoDup_cons in Hnd as [Hafresh Hnd]. rewrite <- app_assoc in Hafresh, Hnd, Hfuel |- *.
  cbn [length] in Hfuel |- *.
  assert (∀ cur' pending' stack',
            locs_all (cur' :: pending') = locs tl ++ locs tr ++ locs_all pending →
            payload_nodes_all (cur' :: pending') =
              payload_nodes tl ++ payload_nodes tr ++ payload_nodes_all pending →
            Forall (λ sub, ∃ par, repr h par sub) (cur' :: pending') →
            Forall (λ sub, sub ≠ Leaf) pending' →
            map root pending' = map Some stack' →
            (cur' = Leaf → pending' = []) →
            radix_clear_loop f func h1 t1 calls1 stack' (root cur') =
            Ok (free_all (locs tl ++ locs tr ++ locs_all pending) h1,
                set_num_active_node
                  (num_active_node t -
                   Z.of_nat (S (length (locs tl ++ locs tr ++ locs_all pending)))) t,
                calls ++ (if func
                          then payload_nodes_all (Node a b p d tl tr :: pending)
                          else []))) as Hnext.
  { intros cur' pending' stack' Hlocs Hpay Hrepr' Hnl' Hst' Hleaf'.
    rewrite (IH h1 t1 calls1 cur' pending' stack'); [|try done..].
    - rewrite Hlocs. f_equal. f_equal; [f_equal|].
      + unfold t1. rewrite set_num_set_num, num_set_num. f_equal. lia.
      + unfold calls1. rewrite Hpay. cbn [payload_nodes_all payload_nodes].
        destruct func, (non_null p), (non_null d); simpl;
          by rewrite ?app_nil_r, <- ?app_assoc.
    - apply Forall_forall. intros sub Hin.
      destruct (proj1 (Forall_forall _ _) Hrepr' sub Hin) as [par' Hsub].
      exists par'. apply repr_delete_fresh; [|done].
      intros Hx. apply Hafresh. rewrite <- Hlocs. by eapply elem_of_locs_all.
    - by rewrite Hlocs.
    - rewrite Hlocs. lia. }
  change (free_all (a :: locs tl ++ locs tr ++ locs_all pending) h)
    with (free_all (locs tl ++ locs tr ++ locs_all pending) h1).
  destruct tl as [|la lb lp ld ll lr], tr as [|ra rb rp rd rl rr];
    cbn [root].
  - destruct pending as [|sub pending'].
    + destruct stack; [|done]. apply (Hnext Leaf [] []); try done.
      apply Forall_cons. split; [by exists None|done].
    + destruct stack as [|top sp]; [done|]. injection Hst as Htop Hst.
      apply Forall_cons in Hnl as [Hsub Hnl].
      rewrite <- Htop. apply (Hnext sub pending' sp); try done.
  - apply (Hnext (Node ra rb rp rd rl rr) pending stack); try done.
    by apply Forall_cons; eauto.
  - apply (Hnext (Node la lb lp ld ll lr) pending stack); try done.
    + by apply Forall_cons; eauto.
  - apply (Hnext (Node la lb lp ld ll lr) (Node ra rb rp rd rl rr :: pending)
             (ra :: stack)); try done.
    + repeat apply Forall_cons; eauto.
    + by apply Forall_cons.
    + cbn [map root]. by rewrite Hst.
Qed.

Lemma radix_clear_head_spec func h t calls T par :
  repr h par T → NoDup (locs T) →
  radix_clear_head func h t calls (root T) =
  Ok (free_all (locs T) h,
      set_num_active_node (num_active_node t - Z.of_nat (length (locs T))) t,
      calls ++ (if func then payload_nodes T else [])).
Proof.
  intros Hr Hnd. destruct T as [|a b p d tl tr] eqn:ET.
  { simpl. rewrite Z.sub_0_r. destruct t. destruct func; by rewrite app_nil_r. }
  rewrite <- ET in *. unfold radix_clear_head.
  replace (root T) with (Some a) at 1 by (by rewrite ET).
  rewrite (radix_clear_loop_spec func (fuel_of h) h t calls T [] []).
  - cbn [locs_all payload_nodes_all]. by rewrite !app_nil_r.
  - apply Forall_cons. split; [by exists par|done].
  - done.
  - done.
  - done.
  - cbn [locs_all]. by rewrite app_nil_r.
  - cbn [locs_all]. rewrite app_nil_r. pose proof (locs_size _ _ _ Hnd Hr).
    unfold fuel_of. lia.
Qed.

Lemma payload_nodes_filter h par T :
  repr h par T → payload_nodes T = filter (λ a, has_payload h a) (locs T).
Proof.
  revert par. induction T as [|a b p d tl IHl tr IHr]; intros par; [done|].
  intros (Ha & Hl & Hr). cbn [payload_nodes locs].
  rewrite filter_cons, filter_app, <- (IHl _ Hl), <- (IHr _ Hr).
  assert (has_payload h a = non_null p && non_null d) as Hhp.
  { unfold has_payload. by rewrite Ha. }
  case_decide as Hdec; rewrite Hhp in Hdec; by destruct (non_null p && non_null d).
Qed.

Lemma Clear_Radix_spec func h t t4 t6 :
  tree_inv h t t4 t6 →
  Clear_Radix func h t =
  Ok (free_all (tree_nodes h t) h, set_num_active_node 0 t,
      if func then filter (λ a, has_payload h a) (tree_nodes h t) else []).
Proof.
  intros Hinv. rewrite (tree_nodes_inv _ _ _ _ Hinv).
  destruct Hinv as (H4 & H6 & Hr4 & Hr6 & Hnd & _ & _ & Hnum).
  apply NoDup_app in Hnd as (Hnd4 & Hdis & Hnd6).
  unfold Clear_Radix. rewrite H4, (radix_clear_head_spec func h t [] t4 None Hr4 Hnd4).
  cbn [mbind res_bind]. replace (head_ipv6 _) with (root t6) by (by destruct t).
  rewrite (radix_clear_head_spec func _ _ _ t6 None); [|
    |done].
  - rewrite free_all_app, set_num_set_num, num_set_num. f_equal. f_equal; [f_equal|].
    + f_equal. rewrite Hnum, length_app. lia.
    + destruct func; [|done]. simpl.
      by rewrite filter_app, (payload_nodes_filter _ _ _ Hr4), (payload_nodes_filter _ _ _ Hr6).
  - eapply repr_frame; [|done]. intros a Ha. rewrite free_all_lookup.
    rewrite decide_False; [done|]. intros Ha4. by apply (Hdis a).
Qed.

(** In every reachable tree [Clear_Radix] returns after it has freed the
    nodes of the two tries and no other, with a node count of zero; the
    callback, when there is one, has been called once on every node with a
    prefix and a payload, in the order of the walk of the tree.  The two
    heads are left as they were.  [Destroy_Radix] does the same. *)
Theorem clear_radix_frees_nodes func h t :
  reachable h t →
  ∃ h' t' calls,
    Clear_Radix func h t = Ok (h', t', calls) ∧
    Destroy_Radix func h t = Ok (h', calls) ∧
    (∀ y, h' !! y = if decide (y ∈ tree_nodes h t) then None else h !! y) ∧
    calls = (if func then filter (λ a, has_payload h a) (tree_nodes h t) else []) ∧
    num_active_node t' = 0 ∧
    head_ipv4 t' = head_ipv4 t ∧ head_ipv6 t' = head_ipv6 t.
Proof.
  intros (t4 & t6 & Hinv)%reachable_inv.
  pose proof (Clear_Radix_spec func h t t4 t6 Hinv) as Hclear.
  eexists _, _, _. split; [exact Hclear|]. split.
  { unfold Destroy_Radix. by rewrite Hclear. }
  split; [apply free_all_lookup|]. by destruct t.
Qed.

Lemma clear_radix_frees_nodes_witness :
  ∃ h t h' t' calls,
    inserts ∅ New_Radix two_children = Some (h, t) ∧
    Clear_Radix true h t = Ok (h', t', calls) ∧
    Destroy_Radix true h t = Ok (h', calls) ∧
    (∀ y, h' !! y = if decide (y ∈ tree_nodes h t) then None else h !! y) ∧
    calls = filter (λ a, has_payload h a) (tree_nodes h t) ∧
    num_active_node t' = 0 ∧
    head_ipv4 t' = head_ipv4 t ∧ head_ipv6 t' = head_ipv6 t.
Proof.
  eexists _, _.
  destruct (clear_radix_frees_nodes true
              (default (∅, New_Radix) (inserts ∅ New_Radix two_children)).1
              (default (∅, New_Radix) (inserts ∅ New_Radix two_children)).2)
    as (h' & t' & calls & Hres).
  - eapply (reachable_inserts two_children ∅ New_Radix);
      [apply reach_new| |vm_compute; reflexivity].
    unfold two_children, ipv4, valid_prefix. solve_valid_prefixes.
  - exists h', t', calls. split; [vm_compute; reflexivity|]. exact Hres.
Defined.

(** * Prefixes *)

(** ** sanitise_mask *)

Lemma sanitise_loop_spec n :
  ∀ addr i, 0 ≤ i → (Z.to_nat i + n ≤ length addr)%nat →
    ∃ addr', sanitise_loop n addr i = Ok addr' ∧ length addr' = length addr ∧
      ∀ k, addr' !! k = if decide (Z.to_nat i ≤ k < Z.to_nat i + n)%nat
                        then Some 0 else addr !! k.
Proof.
  induction n as [|n IH]; intros addr i Hi Hlen.
  { exists addr. split; [done|]. split; [done|]. intros k.
    rewrite decide_False; [done|lia]. }
  cbn [sanitise_loop]. unfold store_byte.
  destruct (lookup_lt_is_Some_2 addr (Z.to_nat i)) as [x Hx]; [lia|].
  rewrite Hx. cbn [mbind res_bind].
  destruct (IH (<[Z.to_nat i := 0]> addr) (i + 1)) as (addr' & Hrun & Hl & Hk);
    [lia|rewrite length_insert; lia|].
  exists addr'. split; [done|]. split; [by rewrite Hl, length_insert|].
  intros k. rewrite Hk.
  destruct (decide (k = Z.to_nat i)) as [->|Hne].
  - rewrite decide_False by lia. rewrite decide_True by lia.
    apply list_lookup_insert_eq. lia.
  - rewrite list_lookup_insert_ne by done.
    destruct (decide (Z.to_nat (i + 1) ≤ k < Z.to_nat (i + 1) + n)%nat);
      [rewrite decide_True by lia|rewrite decide_False by lia]; done.
Qed.

Lemma sanitise_mask_bytes addr masklen maskbits :
  0 ≤ masklen ≤ maskbits → maskbits mod 8 = 0 → maskbits ≤ 8 * Z.of_nat (length addr) →
  ∃ addr', sanitise_mask addr masklen maskbits = Ok addr' ∧
    length addr' = length addr ∧
    ∀ b, 0 ≤ b →
      byte_at addr' b =
      if b <? masklen / 8 then byte_at addr b
      else if (b =? masklen / 8) && negb (masklen mod 8 =? 0)
      then Z.land (byte_at addr b) (Z.shiftl (-1) (8 - masklen mod 8)) mod 256
      else if b <? maskbits / 8 then 0 else byte_at addr b.
Proof.
  intros Hm H8 Hlen.
  pose proof (Z.div_mod masklen 8 ltac:(lia)) as Hdm.
  pose proof (Z.mod_pos_bound masklen 8 ltac:(lia)) as Hj.
  pose proof (Z.div_mod maskbits 8 ltac:(lia)) as Hdb.
  assert (0 ≤ masklen / 8) as Hi by (apply Z.div_pos; lia).
  unfold sanitise_mask.
  destruct (Z.eqb_spec (masklen mod 8) 0) as [Hj0|Hj0]; cbn [negb mbind res_bind].
  - destruct (sanitise_loop_spec (Z.to_nat (maskbits / 8 - masklen / 8)) addr (masklen / 8))
      as (addr' & Hrun & Hl & Hk); [done|lia|].
    exists addr'. split; [done|]. split; [done|]. intros b Hb.
    unfold byte_at. rewrite Hk, andb_false_r.
    destruct (Z.ltb_spec b (masklen / 8)); [rewrite decide_False by lia; done|].
    destruct (Z.ltb_spec b (maskbits / 8)); [rewrite decide_True by lia; done|].
    rewrite decide_False by lia. done.
  - unfold store_byte.
    destruct (lookup_lt_is_Some_2 addr (Z.to_nat (masklen / 8))) as [x Hx]; [lia|].
    rewrite Hx. cbn [mbind res_bind].
    set (addr1 := <[Z.to_nat (masklen / 8) := _]> addr).
    destruct (sanitise_loop_spec (Z.to_nat (maskbits / 8 - (masklen / 8 + 1))) addr1
                (masklen / 8 + 1))
      as (addr' & Hrun & Hl & Hk); [lia|unfold addr1; rewrite length_insert; lia|].
    exists addr'. split; [done|]. split; [unfold addr1 in Hl; by rewrite Hl, length_insert|].
    intros b Hb. unfold byte_at. rewrite Hk, andb_true_r.
    destruct (Z.ltb_spec b (masklen / 8)).
    { rewrite decide_False by lia. unfold addr1.
      rewrite list_lookup_insert_ne by lia. done. }
    destruct (Z.eqb_spec b (masklen / 8)) as [->|Hne].
    { rewrite decide_False by lia. unfold addr1.
      rewrite list_lookup_insert_eq by lia. by rewrite Hx. }
    destruct (Z.ltb_spec b (maskbits / 8)); [rewrite decide_True by lia; done|].
    rewrite decide_False by lia. unfold addr1.
    rewrite list_lookup_insert_ne by lia. done.
Qed.

Lemma int_mask_bits k e :
  0 < k < 8 → 0 ≤ e < 8 →
  ∀ x, Z.testbit (Z.land x (Z.shiftl (-1) (8 - k)) mod 256) (7 - e) =
       Z.testbit x (7 - e) && bool_decide (e < k).
Proof.
  intros Hk He x. change 256 with (2 ^ 8).
  rewrite Z.mod_pow2_bits_low by lia.
  rewrite Z.land_spec, Z.shiftl_spec by lia. f_equal.
  case_bool_decide.
  - apply Z.bits_m1. lia.
  - apply Z.testbit_neg_r. lia.
Qed.

Lemma Forall_byte_ok_byte_at addr :
  (∀ b, 0 ≤ b → byte_ok (byte_at addr b)) → Forall byte_ok addr.
Proof.
  intros H. apply Forall_lookup. intros k x Hx.
  specialize (H (Z.of_nat k) ltac:(lia)). unfold byte_at in H.
  by rewrite Nat2Z.id, Hx in H.
Qed.

(** The bytes of two addresses of one length are their bits. *)
Lemma agree_all_eq a b :
  Forall byte_ok a → Forall byte_ok b → length a = length b →
  agree a b (8 * Z.of_nat (length a)) → a = b.
Proof.
  intros Ha Hb Hlen Hag.
  rewrite <- (firstn_all a), <- (firstn_all b), <- Hlen.
  apply take_eq_byte_at; [lia..|]. intros j Hj.
  apply byte_at_eq_agree; [done..|lia|]. intros e He. apply Hag. lia.
Qed.

Lemma sanitise_mask_bits addr masklen maskbits :
  Forall byte_ok addr →
  0 ≤ masklen ≤ maskbits → maskbits mod 8 = 0 → maskbits ≤ 8 * Z.of_nat (length addr) →
  ∃ addr', sanitise_mask addr masklen maskbits = Ok addr' ∧
    length addr' = length addr ∧ Forall byte_ok addr' ∧
    ∀ i, 0 ≤ i →
      getbit addr' i =
      if i <? masklen then getbit addr i
      else if i <? maskbits then false else getbit addr i.
Proof.
  intros Hok Hm H8 Hlen.
  destruct (sanitise_mask_bytes addr masklen maskbits Hm H8 Hlen)
    as (addr' & Hrun & Hl & Hbytes).
  pose proof (Z.div_mod masklen 8 ltac:(lia)) as Hdm.
  pose proof (Z.mod_pos_bound masklen 8 ltac:(lia)) as Hj.
  pose proof (Z.div_mod maskbits 8 ltac:(lia)) as Hdb.
  exists addr'. split; [done|]. split; [done|]. split.
  - apply Forall_byte_ok_byte_at. intros b Hb. rewrite (Hbytes b Hb).
    destruct (b <? masklen / 8); [by apply byte_at_ok|].
    destruct ((b =? masklen / 8) && negb (masklen mod 8 =? 0)).
    { unfold byte_ok. apply Z.mod_pos_bound. lia. }
    destruct (b <? maskbits / 8); [unfold byte_ok; lia|by apply byte_at_ok].
  - intros i Hi.
    pose proof (Z.div_mod i 8 ltac:(lia)) as Hi8.
    pose proof (Z.mod_pos_bound i 8 ltac:(lia)) as He.
    assert (0 ≤ i / 8) as Hb by (apply Z.div_pos; lia).
    set (b := i / 8) in *. set (e := i mod 8) in *.
    rewrite Hi8, !getbit_split by done. rewrite (Hbytes b Hb).
    destruct (Z.ltb_spec b (masklen / 8)).
    { destruct (Z.ltb_spec (8 * b + e) masklen); [done|lia]. }
    destruct (Z.eqb_spec b (masklen / 8)) as [Hbi|Hbi];
      destruct (Z.eqb_spec (masklen mod 8) 0) as [Hj0|Hj0]; cbn [andb negb].
    2: { rewrite int_mask_bits by lia.
         destruct (Z.ltb_spec (8 * b + e) masklen).
         - rewrite bool_decide_eq_true_2 by lia. apply andb_true_r.
         - rewrite bool_decide_eq_false_2 by lia. rewrite andb_false_r.
           destruct (Z.ltb_spec (8 * b + e) maskbits); [done|lia]. }
    all: destruct (Z.ltb_spec (8 * b + e) masklen); [lia|].
    all: destruct (Z.ltb_spec b (maskbits / 8));
      destruct (Z.ltb_spec (8 * b + e) maskbits); try lia; try done.
    all: apply Z.bits_0.
Qed.

(** [sanitise_mask] of an address of at least [maskbits] bits, for a mask
    length of at most [maskbits], a multiple of 8, writes inside of the
    address only: it keeps the bits before the mask length and those from
    [maskbits] on, and clears the bits between; the length of the address
    stays.  A second call changes nothing. *)
Theorem sanitise_mask_clears_host_bits addr masklen maskbits :
  Forall byte_ok addr →
  0 ≤ masklen ≤ maskbits → maskbits mod 8 = 0 → maskbits ≤ 8 * Z.of_nat (length addr) →
  ∃ addr', sanitise_mask addr masklen maskbits = Ok addr' ∧
    length addr' = length addr ∧ Forall byte_ok addr' ∧
    (∀ i, 0 ≤ i →
       getbit addr' i =
       if i <? masklen then getbit addr i
       else if i <? maskbits then false else getbit addr i) ∧
    sanitise_mask addr' masklen maskbits = Ok addr'.
Proof.
  intros Hok Hm H8 Hlen.
  destruct (sanitise_mask_bits addr masklen maskbits Hok Hm H8 Hlen)
    as (addr' & Hrun & Hl & Hok' & Hbits).
  exists addr'. split; [done|]. split; [done|]. split; [done|]. split; [done|].
  destruct (sanitise_mask_bits addr' masklen maskbits Hok' Hm H8)
    as (addr2 & Hrun2 & Hl2 & Hok2 & Hbits2); [lia|].
  rewrite Hrun2. f_equal. apply agree_all_eq; [done|done|done|].
  intros i Hi. rewrite (Hbits2 i) by lia.
  destruct (Z.ltb_spec i masklen); [done|].
  destruct (Z.ltb_spec i maskbits); [|done].
  rewrite (Hbits i) by lia.
  destruct (Z.ltb_spec i masklen); [lia|].
  by destruct (Z.ltb_spec i maskbits); [|lia].
Qed.

Lemma sanitise_mask_clears_host_bits_witness :
  ∃ addr', sanitise_mask [10; 1; 255; 7] 17 32 = Ok addr' ∧
    length addr' = 4%nat ∧ Forall byte_ok addr' ∧
    (∀ i, 0 ≤ i →
       getbit addr' i =
       if i <? 17 then getbit [10; 1; 255; 7] i
       else if i <? 32 then false else getbit [10; 1; 255; 7] i) ∧
    sanitise_mask addr' 17 32 = Ok addr'.
Proof.
  apply (sanitise_mask_clears_host_bits [10; 1; 255; 7] 17 32).
  - repeat constructor; unfold byte_ok; lia.
  - lia.
  - reflexivity.
  - simpl. lia.
Defined.

(** Two addresses of [maskbits] bits have the same sanitised form for a
    mask length exactly when they agree on the bits before it. *)
Theorem sanitise_mask_canonical a b masklen maskbits :
  Forall byte_ok a → Forall byte_ok b →
  0 ≤ masklen ≤ maskbits →
  maskbits = 8 * Z.of_nat (length a) → maskbits = 8 * Z.of_nat (length b) →
  sanitise_mask a masklen maskbits = sanitise_mask b masklen maskbits ↔
  agree a b masklen.
Proof.
  intros Ha Hb Hm Hla Hlb.
  assert (maskbits mod 8 = 0) as H8.
  { rewrite Hla, Z.mul_comm. apply Z.mod_mul. lia. }
  destruct (sanitise_mask_bits a masklen maskbits Ha Hm H8)
    as (a' & Hra & Hl1 & Hok1 & Hbits1); [lia|].
  destruct (sanitise_mask_bits b masklen maskbits Hb Hm H8)
    as (b' & Hrb & Hl2 & Hok2 & Hbits2); [lia|].
  rewrite Hra, Hrb. split.
  - intros [= Heq] i Hi.
    pose proof (Hbits1 i ltac:(lia)) as H1. pose proof (Hbits2 i ltac:(lia)) as H2.
    destruct (Z.ltb_spec i masklen); [|lia]. by rewrite <- H1, <- H2, Heq.
  - intros Hag. f_equal. apply agree_all_eq; [done|done|lia|].
    intros i Hi. rewrite Hbits1, Hbits2 by lia.
    destruct (Z.ltb_spec i masklen); [apply Hag; lia|].
    destruct (Z.ltb_spec i maskbits); [done|lia].
Qed.

Lemma sanitise_mask_canonical_witness :
  sanitise_mask [10; 1; 255; 7] 17 32 = sanitise_mask [10; 1; 128; 0] 17 32 ↔
  agree [10; 1; 255; 7] [10; 1; 128; 0] 17.
Proof.
  apply (sanitise_mask_canonical [10; 1; 255; 7] [10; 1; 128; 0] 17 32).
  - repeat constructor; unfold byte_ok; lia.
  - repeat constructor; unfold byte_ok; lia.
  - lia.
  - reflexivity.
  - reflexivity.
Defined.

(** ** prefix_from_blob_ex *)

(** [prefix_from_blob_ex] of a buffer of [len] bytes returns a prefix
    exactly when [len] is 4 or 16, the prefix length is -1 or between 0 and
    the width of the family, and a prefix is passed or the allocation
    succeeds.  The prefix has the family of this width and the length
    asked for, the width for -1; its address is the buffer as it is, the
    bits behind the prefix length included, and it is a valid prefix. *)
Theorem prefix_from_blob_valid ok ret blob len prefixlen :
  Forall byte_ok blob → Z.of_nat (length blob) = len →
  match prefix_from_blob_ex ok ret blob len prefixlen with
  | Some p =>
    ((len = 4 ∨ len = 16) ∧ -1 ≤ prefixlen ≤ 8 * len ∧ (ret ≠ None ∨ ok = true)) ∧
    valid_prefix p ∧ add p = blob ∧
    family p = (if len =? 4 then AF_INET else AF_INET6) ∧
    bitlen p = (if prefixlen =? -1 then 8 * len else prefixlen)
  | None =>
    ¬ ((len = 4 ∨ len = 16) ∧ -1 ≤ prefixlen ≤ 8 * len ∧ (ret ≠ None ∨ ok = true))
  end.
Proof.
  intros Hok Hlen. unfold prefix_from_blob_ex, New_Prefix2.
  destruct (Z.eqb_spec len 4) as [H4|H4]; [|destruct (Z.eqb_spec len 16) as [H16|H16]].
  3: { intros ([?|?] & _); lia. }
  all: destruct (Z.eqb_spec prefixlen (-1)) as [Hm1|Hm1].
  all: repeat match goal with
       | |- context [?x <? ?y] => destruct (Z.ltb_spec x y)
       | |- context [?x <=? ?y] => destruct (Z.leb_spec x y)
       end; cbn [orb]; try lia.
  all: try (intros (_ & ? & _); lia).
  all: destruct ret as [r0|], ok; cbn [non_null orb].
  all: try (intros (_ & _ & [?|?]); done).
  all: unfold valid_prefix; cbn [family bitlen add maxbits].
  all: rewrite firstn_all2 by lia.
  all: repeat split; try done; try lia; auto.
Qed.

Lemma prefix_from_blob_valid_witness :
  match prefix_from_blob_ex true None [10; 1; 255; 7] 4 17 with
  | Some p =>
    ((4 = 4 ∨ 4 = 16) ∧ -1 ≤ 17 ≤ 8 * 4 ∧ (@None prefix_t ≠ None ∨ true = true)) ∧
    valid_prefix p ∧ add p = [10; 1; 255; 7] ∧ family p = AF_INET ∧ bitlen p = 17
  | None =>
    ¬ ((4 = 4 ∨ 4 = 16) ∧ -1 ≤ 17 ≤ 8 * 4 ∧ (@None prefix_t ≠ None ∨ true = true))
  end.
Proof.
  apply (prefix_from_blob_valid true None [10; 1; 255; 7] 4 17).
  - repeat constructor; unfold byte_ok; lia.
  - reflexivity.
Defined.

(** ** comp_with_mask *)

(** For two valid prefixes of one family, [comp_with_mask] on the length
    of the shorter one tells whether it contains the other: the test of
    the searches. *)
Theorem comp_with_mask_contains P Q :
  valid_prefix P → valid_prefix Q → family P = family Q → bitlen P ≤ bitlen Q →
  comp_with_mask (add Q) (add P) (bitlen P) = true ↔ contains P Q.
Proof.
  intros (HlP & HwP & HokP) (HlQ & HwQ & HokQ) Hfam Hle.
  rewrite comp_with_mask_agree; [|done|done|rewrite Hfam in HwP; lia|lia].
  unfold contains. split.
  - intros Hag. split; [done|]. by apply agree_sym.
  - intros [_ Hag]. by apply agree_sym.
Qed.

Lemma comp_with_mask_contains_witness :
  comp_with_mask [10; 1; 255; 7] [10; 0; 0; 0] 15 = true ↔
  contains (ipv4 10 0 0 0 15) (ipv4 10 1 255 7 24).
Proof.
  apply (comp_with_mask_contains (ipv4 10 0 0 0 15) (ipv4 10 1 255 7 24)).
  - unfold ipv4, valid_prefix. solve_valid_prefixes.
  - unfold ipv4, valid_prefix. solve_valid_prefixes.
  - reflexivity.
  - simpl. lia.
Defined.

(** * The binding *)

(** ** Payloads sit on real nodes *)

Lemma reachable_data_real h t : reachable h t → data_real h.
Proof.
  induction 1 as [|h t ok1 ok2 p h' t' n _ IH Hp Hcall
                  |h t x h' t' _ IH Hreal Hcall
                  |h t x o h' _ IH Hreal Hcall].
  - intros y n. by rewrite lookup_empty.
  - apply radix_lookup_pay in Hcall. intros y ny' Hy' Hd.
    destruct (h !! y) as [ny|] eqn:Hy.
    + destruct (lookup_payloads_old _ _ _ _ _ _ Hcall Hy)
        as (ny2 & Hy2 & _ & Hdata & [Hp'|(_ & Hp' & _)]).
      * assert (ny2 = ny') as -> by congruence. rewrite Hp'.
        apply (IH y ny Hy). congruence.
      * congruence.
    + destruct (lookup_payloads_new _ _ _ _ _ _ Hcall Hy Hy') as [Hnone _]. congruence.
  - apply radix_remove_pay in Hcall as (nx & Hx & Hpay).
    intros y ny' Hy' Hd.
    assert (pay h' !! y = Some (payload ny')) as Hpy' by (by rewrite pay_lookup, Hy').
    assert (∀ v, pay h !! y = Some v → v = payload ny' → prefix ny' ≠ None) as Hold.
    { intros v Hv ->. rewrite pay_lookup in Hv.
      destruct (h !! y) as [ny|] eqn:Hy; [|done]. injection Hv as Hb Hp' Hd'.
      rewrite <- Hp'. apply (IH y ny Hy). congruence. }
    destruct Hpay as [Heq|[Heq|(up & nu & Hup & Hglue & Heq)]]; rewrite Heq in Hpy'.
    + destruct (decide (y = x)) as [->|Hne].
      * rewrite lookup_insert_eq in Hpy'. injection Hpy' as _ _ Hd'. congruence.
      * rewrite lookup_insert_ne in Hpy' by done. by eapply Hold.
    + apply lookup_delete_Some in Hpy' as [_ Hpy']. by eapply Hold.
    + apply lookup_delete_Some in Hpy' as [_ [_ Hpy']%lookup_delete_Some]. by eapply Hold.
  - apply store_inv in Hcall as (nx & Hx & ->).
    destruct Hreal as (_ & nx' & Hx' & Hpx). assert (nx' = nx) as -> by congruence.
    intros y ny'. destruct (decide (y = x)) as [->|Hne].
    + rewrite lookup_insert_eq. intros [= <-] _. done.
    + rewrite lookup_insert_ne by done. apply IH.
Qed.

(** ** The parent of a node object *)

Lemma first_data_app l a d :
  first_data (l ++ [(a, d)]) =
  match first_data l with
  | Some r => Some r
  | None => match d with Some o => Some (a, o) | None => None end
  end.
Proof.
  induction l as [|[y [o|]] l IH]; simpl; [by destruct d|done|done].
Qed.

Lemma first_data_Some l y o :
  first_data l = Some (y, o) →
  ∃ l1 l2, l = l1 ++ (y, Some o) :: l2 ∧ Forall (λ e, e.2 = None) l1.
Proof.
  induction l as [|[z [d|]] l IH]; simpl; [done| |].
  - intros [= -> ->]. by exists [], l.
  - intros (l1 & l2 & -> & Hl1)%IH. exists ((z, None) :: l1), l2.
    split; [done|]. by apply Forall_cons.
Qed.

Lemma first_data_None l : first_data l = None → Forall (λ e, e.2 = None) l.
Proof.
  induction l as [|[z [d|]] l IH]; simpl; [done|done|].
  intros H. apply Forall_cons. auto.
Qed.

Lemma Radix_parent_loop_anc h :
  ∀ T par x fuel, repr h par T → NoDup (locs T) → x ∈ locs T →
    (depth x T ≤ fuel)%nat →
    ∃ a, root T = Some a ∧
      Radix_parent_loop fuel h (Some x) =
      match first_data (anc x T) with
      | Some (_, o) => Ok (Some o)
      | None => Radix_parent_loop (S fuel - depth x T) h (Some a)
      end.
Proof.
  induction T as [|a b p d tl IHl tr IHr]; intros par x fuel Hrepr Hnd Hx Hfuel.
  { by apply elem_of_nil in Hx. }
  pose proof Hrepr as (Ha & Hrl & Hrr).
  pose proof Hnd as (Hal & Har & Hndl & Hndr & Hdisj)%NoDup_node.
  exists a. split; [done|]. cbn [anc depth] in *.
  case_bool_decide as Hax.
  { subst x. simpl. by rewrite Nat.sub_0_r. }
  assert (∀ c, (c = tl ∨ c = tr) → x ∈ locs c → repr h (Some a) c → NoDup (locs c) →
            (S (depth x c) ≤ fuel)%nat →
            (∀ par x fuel, repr h par c → NoDup (locs c) → x ∈ locs c →
               (depth x c ≤ fuel)%nat →
               ∃ a, root c = Some a ∧
                 Radix_parent_loop fuel h (Some x) =
                 match first_data (anc x c) with
                 | Some (_, o) => Ok (Some o)
                 | None => Radix_parent_loop (S fuel - depth x c) h (Some a)
                 end) →
            Radix_parent_loop fuel h (Some x) =
            match first_data (anc x c ++ [(a, d)]) with
            | Some (_, o) => Ok (Some o)
            | None => Radix_parent_loop (S fuel - S (depth x c)) h (Some a)
            end) as Hchild.
  { intros c _ Hxc Hrc Hndc Hfc IH.
    destruct (IH (Some a) x fuel Hrc Hndc Hxc) as (ca & Hca & Hloop); [lia|].
    rewrite Hloop, first_data_app.
    destruct (first_data (anc x c)) as [[y o]|]; [done|].
    replace (S fuel - depth x c)%nat with (S (fuel - depth x c)) by lia.
    cbn [Radix_parent_loop].
    assert (∃ nc, h !! ca = Some nc ∧ parent nc = Some a) as (nc & Hnc & Hpar).
    { destruct c as [|ca' cb cp cd cl cr]; [done|]. injection Hca as ->.
      destruct Hrc as (Hc & _). eexists. split; [exact Hc|done]. }
    rewrite (deref_Some _ _ _ Hnc). cbn [mbind res_bind]. rewrite Hpar.
    rewrite (deref_Some _ _ _ Ha). cbn [mbind res_bind data].
    destruct d as [o|]; [done|]. done. }
  case_bool_decide as Hxl.
  { apply Hchild; auto. }
  case_bool_decide as Hxr.
  { apply Hchild; auto. }
  apply elem_of_cons in Hx as [?|[?|?]%elem_of_app]; done.
Qed.

Lemma Radix_parent_loop_top h T x :
  repr h None T → NoDup (locs T) → x ∈ locs T →
  Radix_parent_loop (fuel_of h) h (Some x) = Ok (snd <$> first_data (anc x T)).
Proof.
  intros Hrepr Hnd Hx.
  pose proof (depth_height x T). pose proof (height_fuel _ _ _ Hnd Hrepr).
  destruct (Radix_parent_loop_anc h T None x (fuel_of h)) as (a & Ha & Hloop);
    [done|done|done|lia|].
  rewrite Hloop. destruct (first_data (anc x T)) as [[y o]|]; [done|].
  replace (S (fuel_of h) - depth x T)%nat with (S (fuel_of h - depth x T)) by lia.
  cbn [Radix_parent_loop].
  destruct T as [|a' b p d tl tr]; [done|]. injection Ha as ->.
  destruct Hrepr as (Hn & _). by rewrite (deref_Some _ _ _ Hn).
Qed.

Lemma anc_repr h x :
  ∀ T par y d, repr h par T → (y, d) ∈ anc x T →
    y ∈ locs T ∧ ∃ ny, h !! y = Some ny ∧ data ny = d.
Proof.
  induction T as [|a b p d0 tl IHl tr IHr]; intros par y d Hrepr Hy.
  { by apply elem_of_nil in Hy. }
  destruct Hrepr as (Ha & Hrl & Hrr). cbn [anc locs] in *.
  repeat case_bool_decide; try (by apply elem_of_nil in Hy).
  - apply elem_of_app in Hy as [Hy|[= -> ->]%list_elem_of_singleton].
    + destruct (IHl _ _ _ Hrl Hy) as [Hin Hn]. split; [|done].
      right. apply elem_of_app. by left.
    + split; [by left|]. eexists. split; [exact Ha|done].
  - apply elem_of_app in Hy as [Hy|[= -> ->]%list_elem_of_singleton].
    + destruct (IHr _ _ _ Hrr Hy) as [Hin Hn]. split; [|done].
      right. apply elem_of_app. by right.
    + split; [by left|]. eexists. split; [exact Ha|done].
Qed.

Lemma anc_locs x T y d : (y, d) ∈ anc x T → y ∈ locs T.
Proof.
  induction T as [|a b p d0 tl IHl tr IHr]; [by intros ?%elem_of_nil|].
  cbn [anc locs]. repeat case_bool_decide; try (by intros ?%elem_of_nil).
  - intros [Hy|[= -> ->]%list_elem_of_singleton]%elem_of_app; [|by left].
    right. apply elem_of_app. left. auto.
  - intros [Hy|[= -> ->]%list_elem_of_singleton]%elem_of_app; [|by left].
    right. apply elem_of_app. right. auto.
Qed.

Lemma anc_ne x T y d : NoDup (locs T) → (y, d) ∈ anc x T → y ≠ x.
Proof.
  induction T as [|a b p d0 tl IHl tr IHr]; [by intros _ ?%elem_of_nil|].
  intros (Hal & Har & Hndl & Hndr & Hdisj)%NoDup_node. cbn [anc].
  repeat case_bool_decide; try (by intros ?%elem_of_nil).
  - intros [Hy|[= -> ->]%list_elem_of_singleton]%elem_of_app; [by apply IHl|congruence].
  - intros [Hy|[= -> ->]%list_elem_of_singleton]%elem_of_app; [by apply IHr|congruence].
Qed.

(** The real nodes above [x] are the nodes of [ups] but [x]. *)
Lemma anc_ups x T y d b Q :
  NoDup (locs T) → (y, d) ∈ anc x T → node_in T y b (Some Q) → y ∈ ups x T.
Proof.
  induction T as [|a b' p d0 tl IHl tr IHr]; [by intros _ ?%elem_of_nil|].
  intros (Hal & Har & Hndl & Hndr & Hdisj)%NoDup_node. cbn [anc ups].
  assert (∀ c, node_in c y b (Some Q) → y ∈ locs c) as Hloc.
  { intros c. apply node_in_locs. }
  repeat case_bool_decide; try (by intros ?%elem_of_nil).
  - intros [Hy|[= -> ->]%list_elem_of_singleton]%elem_of_app Hn; apply elem_of_app.
    + pose proof (anc_locs _ _ _ _ Hy) as Hyl.
      destruct Hn as [(-> & _)|[Hn|Hn]]; [done|left; auto|].
      destruct (Hdisj y Hyl). auto.
    + right. destruct Hn as [(_ & _ & ->)|[Hn|Hn]]; [by left| |].
      * destruct Hal. auto.
      * destruct Har. auto.
  - intros [Hy|[= -> ->]%list_elem_of_singleton]%elem_of_app Hn; apply elem_of_app.
    + pose proof (anc_locs _ _ _ _ Hy) as Hyr.
      destruct Hn as [(-> & _)|[Hn|Hn]]; [done| |left; auto].
      destruct (Hdisj y); auto.
    + right. destruct Hn as [(_ & _ & ->)|[Hn|Hn]]; [by left| |].
      * destruct Hal. auto.
      * destruct Har. auto.
Qed.

Lemma ups_anc x T y : y ∈ ups x T → y = x ∨ ∃ d, (y, d) ∈ anc x T.
Proof.
  induction T as [|a b p d0 tl IHl tr IHr]; [by intros ?%elem_of_nil|].
  cbn [anc ups]. repeat case_bool_decide; try (by intros ?%elem_of_nil).
  - intros Hy%real_loc_elem. left. congruence.
  - intros [Hy|Hy%real_loc_elem]%elem_of_app.
    + destruct (IHl Hy) as [?|[d Hd]]; [by left|]. right. exists d.
      apply elem_of_app. by left.
    + subst y. right. exists d0. apply elem_of_app. right. by apply list_elem_of_singleton.
  - intros [Hy|Hy%real_loc_elem]%elem_of_app.
    + destruct (IHr Hy) as [?|[d Hd]]; [by left|]. right. exists d.
      apply elem_of_app. by left.
    + subst y. right. exists d0. apply elem_of_app. right. by apply list_elem_of_singleton.
Qed.

Lemma anc_sorted fam h T x :
  ∀ lo par, pat fam lo T → repr h par T →
    sorted_by (λ y z, ∀ ny nz, h !! y = Some ny → h !! z = Some nz → bit nz < bit ny)
      (anc x T).*1.
Proof.
  induction T as [|a b p d tl IHl tr IHr]; intros lo par Hpat Hrepr; [done|].
  destruct Hpat as (Hb & _ & _ & _ & _ & Hpl & Hpr). destruct Hrepr as (Ha & Hrl & Hrr).
  cbn [anc]. repeat case_bool_decide; try done.
  - rewrite fmap_app. apply sorted_by_app; [by eapply IHl|simpl; auto|].
    intros y z [[y' dy] [-> Hy%anc_locs]]%list_elem_of_fmap Hz ny nz Hny Hnz.
    apply list_elem_of_singleton in Hz as ->.
    destruct (repr_bit_lo _ _ _ _ _ _ Hpl Hrl Hy) as (n & Hn & Hle).
    simpl in Hny, Hnz. rewrite Ha in Hnz. rewrite Hn in Hny.
    injection Hnz as <-. injection Hny as <-. simpl. lia.
  - rewrite fmap_app. apply sorted_by_app; [by eapply IHr|simpl; auto|].
    intros y z [[y' dy] [-> Hy%anc_locs]]%list_elem_of_fmap Hz ny nz Hny Hnz.
    apply list_elem_of_singleton in Hz as ->.
    destruct (repr_bit_lo _ _ _ _ _ _ Hpr Hrr Hy) as (n & Hn & Hle).
    simpl in Hny, Hnz. rewrite Ha in Hnz. rewrite Hn in Hny.
    injection Hnz as <-. injection Hny as <-. simpl. lia.
Qed.

Lemma sorted_by_split R l1 y l2 : sorted_by R (l1 ++ y :: l2) → Forall (R y) l2.
Proof.
  induction l1 as [|z l1 IH]; simpl; [by intros [? _]|]. intros [_ H]. auto.
Qed.

(** In every reachable tree the [parent] of a node object whose node
    stores the prefix [P] is the payload of the node of the longest stored
    prefix with a payload that contains [P], the node itself apart, and
    [None] when no stored prefix with a payload contains [P]. *)
Theorem parent_nearest_payload w o obj x P :
  reachable (nodes w) (rt (self w)) →
  objects w !! o = Some obj → rn obj = Some x →
  stored (nodes w) (rt (self w)) x P →
  ∃ r, Radix_parent w o = Ok r ∧
    match r with
    | Some d =>
      ∃ y Q ny,
        stored (nodes w) (rt (self w)) y Q ∧ nodes w !! y = Some ny ∧
        data ny = Some d ∧ y ≠ x ∧ family Q = family P ∧ contains Q P ∧
        ∀ z R nz,
          stored (nodes w) (rt (self w)) z R → nodes w !! z = Some nz →
          data nz ≠ None → z ≠ x → family R = family P → contains R P →
          bitlen R ≤ bitlen Q
    | None =>
      ∀ z R nz,
        stored (nodes w) (rt (self w)) z R → nodes w !! z = Some nz →
        z ≠ x → family R = family P → contains R P → data nz = None
    end.
Proof.
  destruct w as [h objs [t g]]. cbn [nodes rt self objects].
  intros Hreach Ho Hrn Hst.
  pose proof (reachable_data_real _ _ Hreach) as Hreal.
  destruct (proj1 (inv_fam_inv h t (family P)) (reachable_inv _ _ Hreach)) as (T & O & Hinv).
  pose proof (stored_in_trie _ _ _ _ _ _ _ Hinv Hst eq_refl) as Hx.
  pose proof Hinv as (_ & _ & HrT & _ & Hnd & HpT & _).
  apply NoDup_app in Hnd as (HndT & _).
  unfold Radix_parent. cbn [nodes objects]. rewrite Ho, Hrn.
  rewrite (Radix_parent_loop_top h T x HrT HndT (node_in_locs _ _ _ _ Hx)).
  eexists. split; [done|].
  pose proof (anc_sorted (family P) h T x 0 None HpT HrT) as Hsorted.
  (* a stored prefix that contains [P] sits above [x] *)
  assert (∀ z R nz, stored h t z R → h !! z = Some nz → z ≠ x →
            family R = family P → contains R P → (z, data nz) ∈ anc x T) as Habove.
  { intros z R nz Hz Hnz Hzx Hfam Hc.
    pose proof (stored_in_trie _ _ _ _ _ _ _ Hinv Hz Hfam) as Hzn.
    pose proof (containing_above _ _ _ _ _ _ 0 (Z.le_refl 0) HpT HndT Hzn Hx Hc) as Hup.
    destruct (ups_anc _ _ _ Hup) as [?|[d Hd]]; [done|].
    destruct (anc_repr _ _ _ _ _ _ HrT Hd) as (_ & nz' & Hnz' & <-). congruence. }
  destruct (first_data (anc x T)) as [[y d]|] eqn:Hfirst; cbn [fmap option_fmap option_map snd].
  - destruct (first_data_Some _ _ _ Hfirst) as (l1 & l2 & Hanc & Hl1).
    assert ((y, Some d) ∈ anc x T) as Hy.
    { rewrite Hanc. apply elem_of_app. right. by left. }
    destruct (anc_repr _ _ _ _ _ _ HrT Hy) as (HyT & ny & Hny & Hdy).
    destruct (prefix ny) as [Q|] eqn:HQ; [|by destruct (Hreal y ny Hny); [congruence|]].
    pose proof (repr_node_in _ _ _ _ _ HrT HyT Hny) as Hyn. rewrite HQ in Hyn.
    destruct (node_in_pat _ _ _ _ _ _ HpT Hyn) as [Hlen _].
    rewrite <- Hlen in Hyn.
    destruct (node_in_stored _ _ _ _ _ _ _ _ Hinv Hyn) as [HstQ HfamQ].
    exists y, Q, ny. split; [done|]. split; [done|]. split; [done|].
    split; [by eapply anc_ne|]. split; [done|]. split.
    + pose proof (anc_ups _ _ _ _ _ _ HndT Hy Hyn) as Hup.
      destruct (ups_contain _ _ _ _ _ _ HpT HndT Hx Hup) as (Q' & HQ' & Hc).
      destruct (node_in_repr _ _ _ _ _ _ HrT HQ') as (ny' & Hny' & _ & HpQ').
      assert (Q' = Q) as -> by congruence. done.
    + intros z R nz Hz Hnz Hdz Hzx Hfam Hc.
      pose proof (Habove z R nz Hz Hnz Hzx Hfam Hc) as Hzin.
      pose proof (stored_in_trie _ _ _ _ _ _ _ Hinv Hz Hfam) as Hzn.
      destruct (node_in_repr _ _ _ _ _ _ HrT Hzn) as (nz' & Hnz' & Hbz & _).
      assert (nz' = nz) as -> by congruence.
      rewrite Hanc in Hzin. apply elem_of_app in Hzin as [Hzin|Hzin].
      { pose proof (proj1 (Forall_forall _ _) Hl1 _ Hzin) as Hnone. done. }
      apply elem_of_cons in Hzin as [[= -> _]|Hzin].
      { assert (nz = ny) as -> by congruence. lia. }
      rewrite Hanc, fmap_app, fmap_cons in Hsorted.
      apply sorted_by_split in Hsorted.
      assert (z ∈ l2.*1) as Hz2 by (apply list_elem_of_fmap; by exists (z, data nz)).
      pose proof (proj1 (Forall_forall _ _) Hsorted z Hz2 ny nz Hny Hnz) as Hlt.
      destruct (node_in_repr _ _ _ _ _ _ HrT Hyn) as (ny' & Hny' & Hby & _).
      assert (ny' = ny) as -> by congruence. lia.
  - intros z R nz Hz Hnz Hzx Hfam Hc.
    pose proof (Habove z R nz Hz Hnz Hzx Hfam Hc) as Hzin.
    apply first_data_None in Hfirst.
    apply (proj1 (Forall_forall _ _) Hfirst _ Hzin).
Qed.

Lemma reachable_adds ps :
  ∀ w w', reachable (nodes w) (rt (self w)) → Forall valid_prefix ps →
    adds w ps = Some w' → reachable (nodes w') (rt (self w')).
Proof.
  induction ps as [|p ps IH]; intros w w' Hreach Hvalid; simpl.
  - by intros [= <-].
  - apply Forall_cons in Hvalid as [Hp Hps].
    destruct (Radix_add true true true w p) as [[w1 [o|e]]|] eqn:Hadd; [|done..].
    apply IH; [|done]. by eapply Radix_add_reachable.
Qed.

Lemma parent_nearest_payload_witness :
  ∃ w r,
    adds newRadixObject [ipv4 10 0 0 0 8; ipv4 10 0 0 0 16] = Some w ∧
    Radix_parent w 2%positive = Ok r ∧
    match r with
    | Some d =>
      ∃ y Q ny,
        stored (nodes w) (rt (self w)) y Q ∧ nodes w !! y = Some ny ∧
        data ny = Some d ∧ y ≠ 2%positive ∧ family Q = AF_INET ∧
        contains Q (ipv4 10 0 0 0 16) ∧
        ∀ z R nz,
          stored (nodes w) (rt (self w)) z R → nodes w !! z = Some nz →
          data nz ≠ None → z ≠ 2%positive → family R = AF_INET →
          contains R (ipv4 10 0 0 0 16) → bitlen R ≤ bitlen Q
    | None =>
      ∀ z R nz,
        stored (nodes w) (rt (self w)) z R → nodes w !! z = Some nz →
        z ≠ 2%positive → family R = AF_INET → contains R (ipv4 10 0 0 0 16) →
        data nz = None
    end.
Proof.
  pose (w := default newRadixObject
               (adds newRadixObject [ipv4 10 0 0 0 8; ipv4 10 0 0 0 16])).
  destruct (parent_nearest_payload w 2%positive
              {| user_attr := ∅; rn := Some 2%positive |} 2%positive (ipv4 10 0 0 0 16))
    as (r & Hcall & Hres).
  - apply (reachable_adds [ipv4 10 0 0 0 8; ipv4 10 0 0 0 16] newRadixObject);
      [apply reach_new| |vm_compute; reflexivity].
    unfold ipv4, valid_prefix. solve_valid_prefixes.
  - vm_compute. reflexivity.
  - reflexivity.
  - split; [vm_compute; repeat first [apply list_elem_of_here|apply list_elem_of_further]|].
    eexists. split; [vm_compute; reflexivity|reflexivity].
  - exists w, r. split; [vm_compute; reflexivity|]. split; [exact Hcall|exact Hres].
Defined.

(** ** Searches after [add] and [delete] *)

Lemma node_in_set_data_t x o T y b p :
  node_in (set_data_t x o T) y b p ↔ node_in T y b p.
Proof.
  induction T as [|a b' p' d tl IHl tr IHr]; [done|]. simpl. by rewrite IHl, IHr.
Qed.

(** The exact search returns the same node in two trees whose tries of the
    family have the same nodes for the prefix. *)
Lemma radix_search_exact_frame oob oob' h t h' t' T O T' O' q :
  valid_prefix q → fam_inv h t (family q) T O → fam_inv h' t' (family q) T' O' →
  (∀ z Q, agree (add Q) (add q) (bitlen q) →
     node_in T z (bitlen q) (Some Q) ↔ node_in T' z (bitlen q) (Some Q)) →
  radix_search_exact oob' h' t' q = radix_search_exact oob h t q.
Proof.
  intros Hq Hinv Hinv' Hsame.
  destruct (radix_search_exact_spec oob h t q T O Hq Hinv) as (res & Hres & Hspec).
  destruct (radix_search_exact_spec oob' h' t' q T' O' Hq Hinv') as (res' & Hres' & Hspec').
  rewrite Hres, Hres'. f_equal.
  destruct res as [x|], res' as [x'|]; try done.
  - destruct Hspec as [(P & Hx & Hag) _]. destruct Hspec' as [_ Huniq].
    f_equal. symmetry. apply (Huniq x P); [by apply Hsame|done].
  - destruct Hspec as [(P & Hx & Hag) _]. destruct (Hspec' x P); [by apply Hsame|done].
  - destruct Hspec' as [(P & Hx & Hag) _]. destruct (Hspec x' P); [by apply Hsame|done].
Qed.

Lemma Radix_add_inv ok1 ok2 ok3 w p w' o :
  Radix_add ok1 ok2 ok3 w p = Ok (w', Return o) →
  ∃ h1 t1 x n1,
    radix_lookup ok1 ok2 (nodes w) (rt (self w)) p = Ok (h1, t1, Some x) ∧
    h1 !! x = Some n1 ∧ rt (self w') = t1 ∧
    ((data n1 = Some o ∧ nodes w' = h1 ∧ objects w' = objects w) ∨
     (data n1 = None ∧ prefix n1 ≠ None ∧
      nodes w' = <[x := set_data (Some o) n1]> h1 ∧
      objects w !! o = None ∧
      objects w' = <[o := {| user_attr := ∅; rn := Some x |}]> (objects w))).
Proof.
  unfold Radix_add, create_add_node. intros H. run_ok H.
  all: injection H as <- <-.
  all: match goal with H : deref _ _ = Ok _ |- _ => apply deref_inv in H end.
  - eexists _, _, _, _. split; [done|]. split; [done|]. split; [done|]. by left.
  - match goal with H : newRadixNodeObject _ _ _ _ = Some _ |- _ =>
      unfold newRadixNodeObject in H; cbn [objects] in H;
      destruct (prefix _) eqn:Hpref; [|done]; destruct ok3; [|done];
      injection H as <- <-
    end.
    match goal with H : store _ _ _ = Ok _ |- _ =>
      apply store_inv in H as (n1 & Hn1 & ->)
    end.
    eexists _, _, _, _. split; [done|]. split; [done|]. split; [done|]. right.
    simplify_eq. split; [done|]. split; [congruence|]. split; [done|].
    split; [|done]. apply not_elem_of_dom, is_fresh.
Qed.

(** The trie of the family after an [add] that returns an object. *)
Lemma Radix_add_tree ok1 ok2 ok3 w p w' o T O :
  valid_prefix p → fam_inv (nodes w) (rt (self w)) (family p) T O →
  Radix_add ok1 ok2 ok3 w p = Ok (w', Return o) →
  ∃ Tf x P nf,
    fam_inv (nodes w') (rt (self w')) (family p) Tf O ∧
    node_in Tf x (bitlen p) (Some P) ∧ agree (add P) (add p) (bitlen p) ∧
    nodes w' !! x = Some nf ∧ data nf = Some o ∧
    (∀ y b Q, node_in Tf y b (Some Q) → node_in T y b (Some Q) ∨ (y = x ∧ Q = P)) ∧
    (∀ y b Q, node_in T y b (Some Q) → node_in Tf y b (Some Q)) ∧
    (∀ y ny, nodes w !! y = Some ny → y ≠ x →
       ∃ ny', nodes w' !! y = Some ny' ∧ data ny' = data ny) ∧
    (∀ nx, nodes w !! x = Some nx → data nx = None ∨ data nx = Some o) ∧
    (∀ y, y ∈ locs O → nodes w' !! y = nodes w !! y) ∧
    ((objects w' = objects w ∧
      ∃ nx, nodes w !! x = Some nx ∧ data nx = Some o ∧ x ∈ locs T) ∨
     (objects w !! o = None ∧
      objects w' = <[o := {| user_attr := ∅; rn := Some x |}]> (objects w))).
Proof.
  intros Hp Hinv (h1 & t1 & x & n1 & Hcall & Hx & Ht & Hcases)%Radix_add_inv.
  destruct (radix_lookup_tree _ _ _ _ _ _ _ _ _ _ Hp Hinv Hcall)
    as (T' & P & Hinv' & Hnode & Hag & _ & Hfrom & Hto & HfrO & Hpay & Hnew).
  assert (∀ y ny, nodes w !! y = Some ny →
            ∃ ny', h1 !! y = Some ny' ∧ data ny' = data ny) as Hdata.
  { intros y ny Hy.
    destruct (lookup_payloads_old _ _ _ _ _ _ Hpay Hy) as (ny' & Hy' & _ & Hd & _).
    by exists ny'. }
  assert (∀ nx, nodes w !! x = Some nx → data nx = data n1) as Hwas.
  { intros nx Hnx. destruct (Hdata x nx Hnx) as (nx' & Hnx' & <-). congruence. }
  rewrite Ht. destruct Hcases as [(Hd & -> & Hobjs)|(Hd & Hpref & -> & Hfresh & Hobjs)].
  - exists T', x, P, n1. repeat (split; [done|]).
    split; [intros y ny Hy _; by apply Hdata|].
    split; [intros nx Hnx; right; by rewrite (Hwas nx Hnx)|].
    split; [done|]. left. split; [done|].
    destruct (nodes w !! x) as [nx|] eqn:Hnx.
    + exists nx. split; [done|]. split; [rewrite (Hwas nx); [done|done]|].
      destruct Hnew as [?|?]; [done|congruence].
    + destruct (lookup_payloads_new _ _ _ _ _ _ Hpay Hnx Hx) as [? _]. congruence.
  - exists (set_data_t x (Some o) T'), x, P, (set_data (Some o) n1).
    split; [apply set_data_spec; [done|by eapply node_in_locs|done]|].
    split; [by apply node_in_set_data_t|]. split; [done|].
    split; [by rewrite lookup_insert_eq|]. split; [done|].
    split; [|split; [|split; [|split; [|split]]]].
    + intros y b Q Hy%node_in_set_data_t. by apply Hfrom.
    + intros y b Q Hy. apply node_in_set_data_t. by apply Hto.
    + intros y ny Hy Hne. rewrite lookup_insert_ne by done. by apply Hdata.
    + intros nx Hnx. left. by rewrite (Hwas nx Hnx).
    + intros y Hy. rewrite lookup_insert_ne; [by apply HfrO|]. intros ->.
      destruct Hinv' as (_ & _ & _ & _ & Hnd' & _).
      apply NoDup_app in Hnd' as (_ & Hdis & _).
      apply (Hdis y); [by eapply node_in_locs|done].
    + by right.
Qed.

(** After an [add] of a valid prefix that returns an object, in a
    reachable tree, [search_exact] of the prefix returns this object and so
    does a second [add], which changes neither the nodes nor the objects;
    [search_exact] of a prefix that is not the same entry returns what it
    returned before. *)
Theorem add_then_search ok1 ok2 ok3 w p w' o :
  reachable (nodes w) (rt (self w)) → valid_prefix p →
  Radix_add ok1 ok2 ok3 w p = Ok (w', Return o) →
  (∀ oob, Radix_search_exact oob w' p = Ok (Some o)) ∧
  (∀ ok1' ok2' ok3',
     ∃ w'', Radix_add ok1' ok2' ok3' w' p = Ok (w'', Return o) ∧
            nodes w'' = nodes w' ∧ objects w'' = objects w' ∧
            rt (self w'') = rt (self w')) ∧
  (∀ oob q, valid_prefix q → ¬ same_entry q p →
     Radix_search_exact oob w' q = Radix_search_exact oob w q).
Proof.
  intros Hreach Hp Hadd.
  destruct (proj1 (inv_fam_inv _ _ (family p)) (reachable_inv _ _ Hreach)) as (T & O & Hinv).
  destruct (Radix_add_tree _ _ _ _ _ _ _ _ _ Hp Hinv Hadd)
    as (Tf & x & P & nf & Hinv' & Hnode & Hag & Hx & Hd & Hfrom & Hto & Hdata & _).
  pose proof Hinv as (_ & _ & HrT & HrO & Hnd & HpT & _).
  pose proof Hinv' as (_ & _ & HrT' & HrO' & Hnd' & HpT' & _).
  assert (∀ oob, radix_search_exact oob (nodes w') (rt (self w')) p = Ok (Some x)) as Hfind.
  { intros oob.
    destruct (radix_search_exact_spec oob _ _ p Tf O Hp Hinv') as (res & Hres & Hspec).
    rewrite Hres. destruct res as [z|].
    - destruct Hspec as [_ Huniq]. by rewrite (Huniq x P Hnode Hag).
    - by destruct (Hspec x P Hnode). }
  split; [|split].
  - intros oob. unfold Radix_search_exact. rewrite Hfind. cbn [mbind res_bind node_object].
    rewrite (deref_Some _ _ _ Hx). cbn [mbind res_bind]. by rewrite Hd.
  - intros ok1' ok2' ok3'. unfold Radix_add, create_add_node.
    rewrite (lookup_existing ok1' ok2' _ _ p Tf O x P Hp Hinv' Hnode Hag).
    cbn [mbind res_bind]. rewrite (deref_Some _ _ _ Hx). cbn [mbind res_bind].
    rewrite Hd. cbn [mbind res_bind]. eexists. split; [done|]. done.
  - intros oob q Hq Hne. unfold Radix_search_exact.
    destruct (decide (family q = family p)) as [Hfam|Hfam].
    + rewrite <- Hfam in Hinv, Hinv'.
      assert (∀ z Q, agree (add Q) (add q) (bitlen q) →
                node_in T z (bitlen q) (Some Q) ↔ node_in Tf z (bitlen q) (Some Q)) as Hsame.
      { intros z Q HagQ. split; [apply Hto|].
        intros Hz. destruct (Hfrom _ _ _ Hz) as [?|[-> ->]]; [done|].
        destruct Hne. destruct (node_in_pat _ _ _ _ _ _ HpT' Hz) as [HlQ _].
        destruct (node_in_pat _ _ _ _ _ _ HpT' Hnode) as [HlP _].
        split; [done|]. split; [lia|].
        apply agree_trans with (add P); [by apply agree_sym|].
        eapply agree_le; [|done]. lia. }
      rewrite (radix_search_exact_frame oob oob _ _ _ _ T O Tf O q Hq Hinv Hinv' Hsame).
      destruct (radix_search_exact_spec oob _ _ q T O Hq Hinv) as (res & Hres & Hspec).
      rewrite Hres. cbn [mbind res_bind]. destruct res as [z|]; [|done].
      destruct Hspec as [(Q & Hz & HagQ) _].
      destruct (node_in_repr _ _ _ _ _ _ HrT Hz) as (nz & Hnz & _ & HpQ).
      assert (z ≠ x) as Hzx.
      { intros ->. apply Hto in Hz.
        destruct (node_in_repr _ _ _ _ _ _ HrT' Hz) as (n1 & Hn1 & _ & Hp1).
        destruct (node_in_repr _ _ _ _ _ _ HrT' Hnode) as (n2 & Hn2 & _ & Hp2).
        assert (Q = P) as -> by congruence.
        destruct Hne. destruct (node_in_pat _ _ _ _ _ _ HpT' Hnode) as [HlP _].
        destruct (node_in_pat _ _ _ _ _ _ HpT' Hz) as [HlQ _].
        split; [done|]. split; [lia|].
        apply agree_trans with (add P); [by apply agree_sym|].
        eapply agree_le; [|done]. lia. }
      destruct (Hdata z nz Hnz Hzx) as (nz' & Hnz' & Hdz).
      cbn [node_object]. rewrite (deref_Some _ _ _ Hnz), (deref_Some _ _ _ Hnz').
      cbn [mbind res_bind]. by rewrite Hdz.
    + assert (family q = other (family p)) as Hfq.
      { destruct (family q), (family p); done. }
      apply fam_inv_other in Hinv, Hinv'. rewrite <- Hfq in Hinv, Hinv'.
      rewrite (radix_search_exact_frame oob oob _ _ _ _ O T O Tf q Hq Hinv Hinv');
        [|done].
      destruct (radix_search_exact_spec oob _ _ q O T Hq Hinv) as (res & Hres & Hspec).
      rewrite Hres. cbn [mbind res_bind]. destruct res as [z|]; [|done].
      destruct Hspec as [(Q & Hz & HagQ) _].
      destruct (node_in_repr _ _ _ _ _ _ HrO Hz) as (nz & Hnz & _ & HpQ).
      assert (z ≠ x) as Hzx.
      { intros ->. apply NoDup_app in Hnd' as (_ & Hdis & _).
        apply (Hdis x); by eapply node_in_locs. }
      destruct (Hdata z nz Hnz Hzx) as (nz' & Hnz' & Hdz).
      cbn [node_object]. rewrite (deref_Some _ _ _ Hnz), (deref_Some _ _ _ Hnz').
      cbn [mbind res_bind]. by rewrite Hdz.
Qed.

Lemma Radix_delete_inv oob w p w' :
  Radix_delete oob w p = Ok (w', Return ()) →
  ∃ x nx,
    radix_search_exact oob (nodes w) (rt (self w)) p = Ok (Some x) ∧
    nodes w !! x = Some nx ∧
    radix_remove (nodes w) (rt (self w)) x = Ok (nodes w', rt (self w')) ∧
    objects w' = match data nx with
                 | None => objects w
                 | Some o => alter clear_rn o (objects w)
                 end.
Proof.
  unfold Radix_delete. intros H. run_ok H. injection H as <-.
  match goal with H : deref _ _ = Ok _ |- _ => apply deref_inv in H end.
  eexists _, _. split; [done|]. split; [done|]. simpl. split; [congruence|done].
Qed.

Lemma Radix_delete_raise oob w p w' e :
  Radix_delete oob w p = Ok (w', Raise e) → w' = w.
Proof. unfold Radix_delete. intros H. run_ok H. by injection H as <-. Qed.

(** After a [delete] of a valid prefix that finds it, in a reachable tree,
    [search_exact] of the prefix returns [None] and a second [delete]
    raises [KeyError] and changes nothing; [search_exact] of a prefix that
    is not the same entry returns what it returned before. *)
Theorem delete_then_search oob w p w' :
  reachable (nodes w) (rt (self w)) → valid_prefix p →
  Radix_delete oob w p = Ok (w', Return ()) →
  (∀ oob', Radix_search_exact oob' w' p = Ok None) ∧
  (∀ oob', Radix_delete oob' w' p = Ok (w', Raise KeyError)) ∧
  (∀ oob' q, valid_prefix q → ¬ same_entry q p →
     Radix_search_exact oob' w' q = Radix_search_exact oob' w q).
Proof.
  intros Hreach Hp (x & nx & Hfind & Hx & Hrem & _)%Radix_delete_inv.
  destruct (proj1 (inv_fam_inv _ _ (family p)) (reachable_inv _ _ Hreach)) as (T & O & Hinv).
  pose proof Hinv as (_ & _ & HrT & HrO & Hnd & HpT & _).
  destruct (radix_search_exact_spec oob _ _ p T O Hp Hinv) as (res & Hres & Hspec).
  rewrite Hfind in Hres. injection Hres as <-.
  destruct Hspec as [(P & Hnode & Hag) Huniq].
  pose proof (node_in_locs _ _ _ _ Hnode) as HxT.
  destruct (node_in_repr _ _ _ _ _ _ HrT Hnode) as (nx' & Hx' & _ & HpP).
  assert (nx' = nx) as -> by congruence.
  destruct (radix_remove_spec _ _ _ T O x nx Hinv HxT Hx)
    as (h' & t' & Hcall & Hinv' & _ & HfrO); [congruence|].
  rewrite Hrem in Hcall. injection Hcall as <- <-.
  pose proof (radix_remove_pay _ _ _ _ _ Hrem) as Hpay.
  pose proof Hinv' as (_ & _ & HrT' & _ & _ & HpT' & _).
  apply NoDup_app in Hnd as (HndT & Hdis & _).
  assert (∀ oob', radix_search_exact oob' (nodes w') (rt (self w')) p = Ok None) as Hgone.
  { intros oob'.
    destruct (radix_search_exact_spec oob' _ _ p _ O Hp Hinv') as (res & Hres & Hspec).
    rewrite Hres. destruct res as [z|]; [|done].
    destruct Hspec as [(Q & Hz & HagQ) _].
    destruct (del_t_node_in_inv _ _ _ _ _ HndT Hz) as [HzT Hzx].
    by destruct Hzx; apply (Huniq z Q). }
  split; [|split].
  - intros oob'. unfold Radix_search_exact. by rewrite Hgone.
  - intros oob'. unfold Radix_delete. by rewrite Hgone.
  - intros oob' q Hq Hne. unfold Radix_search_exact.
    destruct (decide (family q = family p)) as [Hfam|Hfam].
    + rewrite <- Hfam in Hinv, Hinv'.
      assert (∀ z Q, agree (add Q) (add q) (bitlen q) →
                node_in T z (bitlen q) (Some Q) → z ≠ x) as Hother.
      { intros z Q HagQ Hz ->.
        destruct (node_in_repr _ _ _ _ _ _ HrT Hz) as (n1 & Hn1 & _ & Hp1).
        assert (Q = P) as -> by congruence.
        destruct Hne. destruct (node_in_pat _ _ _ _ _ _ HpT Hnode) as [HlP _].
        destruct (node_in_pat _ _ _ _ _ _ HpT Hz) as [HlQ _].
        split; [done|]. split; [lia|].
        apply agree_trans with (add P); [by apply agree_sym|].
        eapply agree_le; [|done]. lia. }
      assert (∀ z Q, agree (add Q) (add q) (bitlen q) →
                node_in T z (bitlen q) (Some Q) ↔
                node_in (del_t x T) z (bitlen q) (Some Q)) as Hsame.
      { intros z Q HagQ. split.
        - intros Hz. apply del_t_node_in; [done|]. by eapply Hother.
        - intros Hz. by destruct (del_t_node_in_inv _ _ _ _ _ HndT Hz). }
      rewrite (radix_search_exact_frame oob' oob' _ _ _ _ T O _ O q Hq Hinv Hinv' Hsame).
      destruct (radix_search_exact_spec oob' _ _ q T O Hq Hinv) as (res & Hres & Hspec).
      rewrite Hres. cbn [mbind res_bind]. destruct res as [z|]; [|done].
      destruct Hspec as [(Q & Hz & HagQ) _].
      pose proof (Hother z Q HagQ Hz) as Hzx.
      destruct (node_in_repr _ _ _ _ _ _ HrT' (proj1 (Hsame z Q HagQ) Hz))
        as (nz' & Hnz' & _).
      destruct (remove_payloads_kept _ _ _ _ _ Hpay Hnz' Hzx) as (nz & Hnz & [= _ _ Hdz]).
      cbn [node_object]. rewrite (deref_Some _ _ _ Hnz), (deref_Some _ _ _ Hnz').
      cbn [mbind res_bind]. by rewrite Hdz.
    + assert (family q = other (family p)) as Hfq.
      { destruct (family q), (family p); done. }
      apply fam_inv_other in Hinv, Hinv'. rewrite <- Hfq in Hinv, Hinv'.
      rewrite (radix_search_exact_frame oob' oob' _ _ _ _ O T O _ q Hq Hinv Hinv');
        [|done].
      destruct (radix_search_exact_spec oob' _ _ q O T Hq Hinv) as (res & Hres & Hspec).
      rewrite Hres. cbn [mbind res_bind]. destruct res as [z|]; [|done].
      destruct Hspec as [(Q & Hz & HagQ) _].
      cbn [node_object]. unfold deref. by rewrite (HfrO z (node_in_locs _ _ _ _ Hz)).
Qed.

Lemma add_then_search_witness :
  ∃ w w' o,
    adds newRadixObject [ipv4 10 0 0 0 8] = Some w ∧
    Radix_add true true true w (ipv4 10 0 0 0 16) = Ok (w', Return o) ∧
    (∀ oob, Radix_search_exact oob w' (ipv4 10 0 0 0 16) = Ok (Some o)) ∧
    (∀ ok1' ok2' ok3',
       ∃ w'', Radix_add ok1' ok2' ok3' w' (ipv4 10 0 0 0 16) = Ok (w'', Return o) ∧
              nodes w'' = nodes w' ∧ objects w'' = objects w' ∧
              rt (self w'') = rt (self w')) ∧
    (∀ oob q, valid_prefix q → ¬ same_entry q (ipv4 10 0 0 0 16) →
       Radix_search_exact oob w' q = Radix_search_exact oob w q).
Proof.
  pose (w := default newRadixObject (adds newRadixObject [ipv4 10 0 0 0 8])).
  pose (r := match Radix_add true true true w (ipv4 10 0 0 0 16) with
             | Ok (w', Return o) => (w', o)
             | _ => (newRadixObject, 1%positive)
             end).
  assert (Radix_add true true true w (ipv4 10 0 0 0 16) = Ok (r.1, Return r.2)) as Hadd
    by (vm_compute; reflexivity).
  exists w, r.1, r.2. split; [vm_compute; reflexivity|]. split; [exact Hadd|].
  apply (add_then_search true true true w (ipv4 10 0 0 0 16) r.1 r.2).
  - apply (reachable_adds [ipv4 10 0 0 0 8] newRadixObject);
      [apply reach_new| |vm_compute; reflexivity].
    unfold ipv4, valid_prefix. solve_valid_prefixes.
  - unfold ipv4, valid_prefix. solve_valid_prefixes.
  - exact Hadd.
Defined.

Lemma delete_then_search_witness :
  ∃ w w',
    adds newRadixObject [ipv4 10 0 0 0 8; ipv4 10 0 0 0 16] = Some w ∧
    Radix_delete false w (ipv4 10 0 0 0 16) = Ok (w', Return ()) ∧
    (∀ oob', Radix_search_exact oob' w' (ipv4 10 0 0 0 16) = Ok None) ∧
    (∀ oob', Radix_delete oob' w' (ipv4 10 0 0 0 16) = Ok (w', Raise KeyError)) ∧
    (∀ oob' q, valid_prefix q → ¬ same_entry q (ipv4 10 0 0 0 16) →
       Radix_search_exact oob' w' q = Radix_search_exact oob' w q).
Proof.
  pose (w := default newRadixObject
               (adds newRadixObject [ipv4 10 0 0 0 8; ipv4 10 0 0 0 16])).
  pose (w' := match Radix_delete false w (ipv4 10 0 0 0 16) with
              | Ok (w', _) => w'
              | Err _ => newRadixObject
              end).
  assert (Radix_delete false w (ipv4 10 0 0 0 16) = Ok (w', Return ())) as Hdel
    by (vm_compute; reflexivity).
  exists w, w'. split; [vm_compute; reflexivity|]. split; [exact Hdel|].
  apply (delete_then_search false w (ipv4 10 0 0 0 16) w').
  - apply (reachable_adds [ipv4 10 0 0 0 8; ipv4 10 0 0 0 16] newRadixObject);
      [apply reach_new| |vm_compute; reflexivity].
    unfold ipv4, valid_prefix. solve_valid_prefixes.
  - unfold ipv4, valid_prefix. solve_valid_prefixes.
  - exact Hdel.
Defined.

(** ** The node objects and their nodes *)

(** The trie of the family after a [delete] that finds its prefix. *)
Lemma Radix_delete_tree oob w p w' T O :
  valid_prefix p → fam_inv (nodes w) (rt (self w)) (family p) T O →
  Radix_delete oob w p = Ok (w', Return ()) →
  ∃ x nx P,
    node_in T x (bitlen P) (Some P) ∧ nodes w !! x = Some nx ∧
    fam_inv (nodes w') (rt (self w')) (family p) (del_t x T) O ∧
    remove_payloads (nodes w) (nodes w') x ∧
    (∀ y, y ∈ locs O → nodes w' !! y = nodes w !! y) ∧
    objects w' = match data nx with
                 | None => objects w
                 | Some o => alter clear_rn o (objects w)
                 end.
Proof.
  intros Hp Hinv (x & nx & Hfind & Hx & Hrem & Hobjs)%Radix_delete_inv.
  pose proof Hinv as (_ & _ & HrT & _ & _ & HpT & _).
  destruct (radix_search_exact_spec oob _ _ p T O Hp Hinv) as (res & Hres & Hspec).
  rewrite Hfind in Hres. injection Hres as <-.
  destruct Hspec as [(P & Hnode & Hag) _].
  pose proof (node_in_locs _ _ _ _ Hnode) as HxT.
  destruct (node_in_pat _ _ _ _ _ _ HpT Hnode) as [HlP _].
  destruct (node_in_repr _ _ _ _ _ _ HrT Hnode) as (nx' & Hx' & _ & HpP).
  assert (nx' = nx) as -> by congruence.
  destruct (radix_remove_spec _ _ _ T O x nx Hinv HxT Hx)
    as (h' & t' & Hcall & Hinv' & _ & HfrO); [congruence|].
  rewrite Hrem in Hcall. injection Hcall as <- <-.
  exists x, nx, P. rewrite HlP. repeat (split; [done|]).
  split; [by eapply radix_remove_pay|done].
Qed.

Lemma wreach_inv w :
  wreach w →
  reachable (nodes w) (rt (self w)) ∧ objects_linked w ∧ nodes_linked w.
Proof.
  induction 1 as [|ok1 ok2 ok3 w p w' o _ (Hreach & Hlink & Hback) Hp Hadd
                  |oob w p w' r _ (Hreach & Hlink & Hback) Hp Hdel
                  |o k v w _ (Hreach & Hlink & Hback)].
  - split; [apply reach_new|]. split.
    + intros o obj x Ho. simpl in Ho. by rewrite lookup_empty in Ho.
    + intros y P ny o _ Hy. simpl in Hy. by rewrite lookup_empty in Hy.
  - split; [by eapply Radix_add_reachable|].
    pose proof (reachable_data_real _ _ Hreach) as Hreal.
    destruct (proj1 (inv_fam_inv _ _ (family p)) (reachable_inv _ _ Hreach))
      as (T & O & Hinv).
    destruct (Radix_add_tree _ _ _ _ _ _ _ _ _ Hp Hinv Hadd)
      as (Tf & x & P & nf & Hinv' & Hnode & Hag & Hx & Hd & Hfrom & Hto & Hdata
          & Hwas & HfrO & Hobjs).
    pose proof Hinv as (_ & _ & HrT & HrO & _ & HpT & _).
    pose proof Hinv' as (_ & _ & HrT' & HrO' & Hnd' & HpT' & _).
    destruct (node_in_pat _ _ _ _ _ _ HpT' Hnode) as [HlP _].
    split.
    + assert (∀ o' obj x', objects w !! o' = Some obj → rn obj = Some x' →
                ∃ P' nx', stored (nodes w') (rt (self w')) x' P' ∧
                          nodes w' !! x' = Some nx' ∧ data nx' = Some o') as Hold.
      { intros o' obj x' Ho' Hrn.
        destruct (Hlink o' obj x' Ho' Hrn) as (P' & nx' & Hst & Hnx' & Hdx').
        assert (stored (nodes w') (rt (self w')) x' P') as Hst'.
        { apply (stored_iff _ _ _ _ _ x' P' Hinv').
          apply (stored_iff _ _ _ _ _ x' P' Hinv) in Hst as [[Hf Hn]|[Hf Hn]];
            [left; auto|by right]. }
        exists P'. destruct (decide (x' = x)) as [->|Hne].
        - exists nf. split; [done|]. split; [done|].
          destruct (Hwas nx' Hnx'); congruence.
        - destruct (Hdata x' nx' Hnx' Hne) as (ny' & Hny' & Hdy').
          exists ny'. split; [done|]. split; [done|]. congruence. }
      intros o' obj x' Ho' Hrn. destruct Hobjs as [[Heq _]|[_ Heq]]; rewrite Heq in Ho'.
      * by eapply Hold.
      * destruct (decide (o' = o)) as [->|Hne].
        -- rewrite lookup_insert_eq in Ho'. injection Ho' as <-. simpl in Hrn.
           injection Hrn as <-. exists P, nf. split; [|done].
           rewrite <- HlP in Hnode. by eapply node_in_stored.
        -- rewrite lookup_insert_ne in Ho' by done. by eapply Hold.
    + intros y Q ny oy Hst Hy Hdy.
      (* the object of a node of the tree before *)
      assert (∀ ny0, stored (nodes w) (rt (self w)) y Q → nodes w !! y = Some ny0 →
                data ny0 = Some oy →
                ∃ obj, objects w' !! oy = Some obj ∧ rn obj = Some y) as Hold.
      { intros ny0 Hst0 Hy0 Hdy0.
        destruct (Hback y Q ny0 oy Hst0 Hy0 Hdy0) as (obj & Hobj & Hrn).
        exists obj. split; [|done].
        destruct Hobjs as [[-> _]|[Hfresh ->]]; [done|].
        rewrite lookup_insert_ne; [done|]. intros ->. congruence. }
      destruct (decide (y = x)) as [->|Hne].
      * assert (ny = nf) as -> by congruence. assert (oy = o) as -> by congruence.
        destruct Hobjs as [[Heq (nx & Hnx & Hdx & HxT)]|[_ ->]].
        -- pose proof (repr_node_in _ _ _ _ _ HrT HxT Hnx) as Hin.
           destruct (prefix nx) as [P0|] eqn:HP0;
             [|by destruct (Hreal x nx Hnx); [congruence|]].
           destruct (node_in_pat _ _ _ _ _ _ HpT Hin) as [Hl0 _]. rewrite <- Hl0 in Hin.
           destruct (node_in_stored _ _ _ _ _ _ _ _ Hinv Hin) as [Hst0 _].
           destruct (Hback x P0 nx o Hst0 Hnx Hdx) as (obj & Hobj & Hrn).
           exists obj. by rewrite Heq.
        -- eexists. split; [apply lookup_insert_eq|done].
      * apply (stored_iff _ _ _ _ _ y Q Hinv') in Hst as [[Hf Hn]|[Hf Hn]].
        -- destruct (Hfrom _ _ _ Hn) as [HnT|[? _]]; [|done].
           destruct (node_in_repr _ _ _ _ _ _ HrT HnT) as (ny0 & Hy0 & _).
           destruct (Hdata y ny0 Hy0 Hne) as (ny' & Hny' & Hdy').
           apply (Hold ny0); [by eapply node_in_stored|done|congruence].
        -- destruct (node_in_repr _ _ _ _ _ _ HrO Hn) as (ny0 & Hy0 & _).
           destruct (Hdata y ny0 Hy0 Hne) as (ny' & Hny' & Hdy').
           apply (Hold ny0); [|done|congruence].
           apply (stored_iff _ _ _ _ _ y Q Hinv). by right.
  - destruct r as [[]|e]; [|by rewrite (Radix_delete_raise _ _ _ _ _ Hdel)].
    split; [by eapply Radix_delete_reachable|].
    destruct (proj1 (inv_fam_inv _ _ (family p)) (reachable_inv _ _ Hreach))
      as (T & O & Hinv).
    destruct (Radix_delete_tree _ _ _ _ _ _ Hp Hinv Hdel)
      as (x & nx & P & Hnode & Hx & Hinv' & Hpay & HfrO & Hobjs).
    pose proof Hinv as (_ & _ & HrT & HrO & Hnd & HpT & _).
    pose proof Hinv' as (_ & _ & HrT' & HrO' & _).
    apply NoDup_app in Hnd as (HndT & Hdis & _).
    destruct (node_in_stored _ _ _ _ _ _ _ _ Hinv Hnode) as [Hstx _].
    split.
    + intros o' obj x' Ho' Hrn. rewrite Hobjs in Ho'.
      assert (∃ obj0, objects w !! o' = Some obj0 ∧ rn obj0 = Some x' ∧
                      data nx ≠ Some o') as (obj0 & Ho0 & Hrn0 & Hdx).
      { destruct (data nx) as [o|] eqn:Hdnx; [|by exists obj].
        destruct (decide (o' = o)) as [->|Hne].
        - rewrite lookup_alter_eq in Ho'.
          destruct (objects w !! o) as [obj0|]; [|done].
          injection Ho' as <-. done.
        - rewrite lookup_alter_ne in Ho' by done. exists obj.
          split; [done|]. split; [done|]. congruence. }
      destruct (Hlink o' obj0 x' Ho0 Hrn0) as (P' & nx' & Hst & Hnx' & Hdx').
      assert (x' ≠ x) as Hne by (intros ->; congruence).
      assert (stored (nodes w') (rt (self w')) x' P') as Hst'.
      { apply (stored_iff _ _ _ _ _ x' P' Hinv').
        apply (stored_iff _ _ _ _ _ x' P' Hinv) in Hst as [[Hf Hn]|[Hf Hn]];
          [left|by right].
        split; [done|]. by apply del_t_node_in. }
      destruct Hst' as (Hin & ny' & Hny' & Hpy').
      exists P', ny'. split; [by split; eauto|]. split; [done|].
      destruct (remove_payloads_kept _ _ _ _ _ Hpay Hny' Hne) as (ny & Hny & [= _ _ Hdy]).
      congruence.
    + intros y Q ny' oy Hst Hy' Hdy'.
      assert (stored (nodes w) (rt (self w)) y Q ∧ y ≠ x) as [Hst0 Hne].
      { apply (stored_iff _ _ _ _ _ y Q Hinv') in Hst as [[Hf Hn]|[Hf Hn]].
        - destruct (del_t_node_in_inv _ _ _ _ _ HndT Hn) as [HnT Hne].
          split; [|done]. by eapply node_in_stored.
        - split; [apply (stored_iff _ _ _ _ _ y Q Hinv); by right|].
          intros ->. apply (Hdis x); by eapply node_in_locs. }
      destruct (remove_payloads_kept _ _ _ _ _ Hpay Hy' Hne) as (ny & Hny & [= _ _ Hdy]).
      destruct (Hback y Q ny oy Hst0 Hny) as (obj & Hobj & Hrn); [congruence|].
      exists obj. split; [|done]. rewrite Hobjs.
      destruct (data nx) as [o|] eqn:Hdnx; [|done].
      rewrite lookup_alter_ne; [done|]. intros ->.
      destruct (Hback x P nx oy Hstx Hx Hdnx) as (obj' & Hobj' & Hrn').
      congruence.
  - split; [done|]. split.
    + intros o' obj x'. unfold data_setitem. cbn [objects nodes self].
      destruct (decide (o' = o)) as [->|Hne].
      * rewrite lookup_alter_eq. destruct (objects w !! o) as [obj0|] eqn:Ho0; [|done].
        intros [= <-]. simpl. by apply Hlink.
      * rewrite lookup_alter_ne by done. apply Hlink.
    + intros y Q ny oy. unfold data_setitem. cbn [objects nodes self].
      intros Hst Hy Hdy. destruct (Hback y Q ny oy Hst Hy Hdy) as (obj & Hobj & Hrn).
      destruct (decide (oy = o)) as [->|Hne].
      * exists (set_user_attr k v obj). rewrite lookup_alter_eq, Hobj. done.
      * exists obj. by rewrite lookup_alter_ne.
Qed.

Lemma wreach_adds ps :
  ∀ w w', wreach w → Forall valid_prefix ps → adds w ps = Some w' → wreach w'.
Proof.
  induction ps as [|p ps IH]; intros w w' Hreach Hvalid; simpl.
  - by intros [= <-].
  - apply Forall_cons in Hvalid as [Hp Hps].
    destruct (Radix_add true true true w p) as [[w1 [o|e]]|] eqn:Hadd; [|done..].
    apply IH; [|done]. by eapply wreach_add.
Qed.

(** In every world the binding reaches, the node objects with a back
    pointer and the nodes with a payload are linked to each other: the
    back pointer of an object leads to a node of the tree that stores a
    prefix and has the object as its payload, and the payload of such a
    node is an object whose back pointer is this node.  The [parent] of
    every node object returns. *)
Theorem node_objects_linked w :
  wreach w →
  (∀ o obj x, objects w !! o = Some obj → rn obj = Some x →
     ∃ P nx, stored (nodes w) (rt (self w)) x P ∧
             nodes w !! x = Some nx ∧ data nx = Some o) ∧
  (∀ y P ny o, stored (nodes w) (rt (self w)) y P →
     nodes w !! y = Some ny → data ny = Some o →
     ∃ obj, objects w !! o = Some obj ∧ rn obj = Some y) ∧
  (∀ o obj, objects w !! o = Some obj → ∃ r, Radix_parent w o = Ok r).
Proof.
  intros (Hreach & Hlink & Hback)%wreach_inv. split; [done|]. split; [done|].
  intros o obj Ho. unfold Radix_parent. rewrite Ho.
  destruct (rn obj) as [x|] eqn:Hrn; [|by eexists].
  destruct (Hlink o obj x Ho Hrn) as (P & nx & Hst & _).
  destruct (proj1 (inv_fam_inv _ _ (family P)) (reachable_inv _ _ Hreach))
    as (T & O & Hinv).
  pose proof (stored_in_trie _ _ _ _ _ _ _ Hinv Hst eq_refl) as Hx.
  pose proof Hinv as (_ & _ & HrT & _ & Hnd & _).
  apply NoDup_app in Hnd as (HndT & _).
  rewrite (Radix_parent_loop_top _ T x HrT HndT (node_in_locs _ _ _ _ Hx)).
  by eexists.
Qed.

Lemma node_objects_linked_witness :
  ∃ w,
    adds newRadixObject [ipv4 10 0 0 0 8; ipv4 10 0 0 0 16] = Some w ∧
    (∀ o obj x, objects w !! o = Some obj → rn obj = Some x →
       ∃ P nx, stored (nodes w) (rt (self w)) x P ∧
               nodes w !! x = Some nx ∧ data nx = Some o) ∧
    (∀ y P ny o, stored (nodes w) (rt (self w)) y P →
       nodes w !! y = Some ny → data ny = Some o →
       ∃ obj, objects w !! o = Some obj ∧ rn obj = Some y) ∧
    (∀ o obj, objects w !! o = Some obj → ∃ r, Radix_parent w o = Ok r).
Proof.
  exists (default newRadixObject
            (adds newRadixObject [ipv4 10 0 0 0 8; ipv4 10 0 0 0 16])).
  split; [vm_compute; reflexivity|].
  apply node_objects_linked.
  apply (wreach_adds [ipv4 10 0 0 0 8; ipv4 10 0 0 0 16] newRadixObject);
    [apply wreach_new| |vm_compute; reflexivity].
  unfold ipv4, valid_prefix. solve_valid_prefixes.
Defined.

(** In every world the binding reaches, a [delete] that finds its prefix
    detaches the node object that [search_exact] returned for it: the
    object stays, with its dictionary and without back pointer, and its
    [parent] is [None]; the other node objects are as they were. *)
Theorem delete_detaches_object oob w p w' o :
  wreach w → valid_prefix p →
  Radix_search_exact oob w p = Ok (Some o) →
  Radix_delete oob w p = Ok (w', Return ()) →
  ∃ obj obj',
    objects w !! o = Some obj ∧ objects w' !! o = Some obj' ∧
    rn obj' = None ∧ user_attr obj' = user_attr obj ∧
    Radix_parent w' o = Ok None ∧
    ∀ o', o' ≠ o → objects w' !! o' = objects w !! o'.
Proof.
  intros (Hreach & Hlink & Hback)%wreach_inv Hp Hsearch
    (x & nx & Hfind & Hx & Hrem & Hobjs)%Radix_delete_inv.
  unfold Radix_search_exact in Hsearch. rewrite Hfind in Hsearch.
  cbn [mbind res_bind node_object] in Hsearch.
  rewrite (deref_Some _ _ _ Hx) in Hsearch. cbn [mbind res_bind] in Hsearch.
  injection Hsearch as Hd. rewrite Hd in Hobjs.
  destruct (proj1 (inv_fam_inv _ _ (family p)) (reachable_inv _ _ Hreach))
    as (T & O & Hinv).
  pose proof (radix_search_exact_real _ _ _ _ _ _ _ Hinv Hfind) as (Hin & nx' & Hx' & Hpx).
  assert (nx' = nx) as -> by congruence.
  destruct (prefix nx) as [P|] eqn:HP; [|done].
  destruct (Hback x P nx o) as (obj & Hobj & Hrn); [by split; eauto|done|done|].
  exists obj, (clear_rn obj). split; [done|].
  assert (objects w' !! o = Some (clear_rn obj)) as Ho'.
  { by rewrite Hobjs, lookup_alter_eq, Hobj. }
  split; [done|]. split; [done|]. split; [done|]. split.
  - unfold Radix_parent. by rewrite Ho'.
  - intros o' Hne. by rewrite Hobjs, lookup_alter_ne.
Qed.

Lemma delete_detaches_object_witness :
  ∃ w w' o obj obj',
    adds newRadixObject [ipv4 10 0 0 0 8; ipv4 10 0 0 0 16] = Some w ∧
    Radix_search_exact false w (ipv4 10 0 0 0 16) = Ok (Some o) ∧
    Radix_delete false w (ipv4 10 0 0 0 16) = Ok (w', Return ()) ∧
    objects w !! o = Some obj ∧ objects w' !! o = Some obj' ∧
    rn obj' = None ∧ user_attr obj' = user_attr obj ∧
    Radix_parent w' o = Ok None ∧
    ∀ o', o' ≠ o → objects w' !! o' = objects w !! o'.
Proof.
  pose (w := default newRadixObject
               (adds newRadixObject [ipv4 10 0 0 0 8; ipv4 10 0 0 0 16])).
  pose (w' := match Radix_delete false w (ipv4 10 0 0 0 16) with
              | Ok (w', _) => w'
              | Err _ => newRadixObject
              end).
  assert (Radix_search_exact false w (ipv4 10 0 0 0 16) = Ok (Some 2%positive)) as Hsearch
    by (vm_compute; reflexivity).
  assert (Radix_delete false w (ipv4 10 0 0 0 16) = Ok (w', Return ())) as Hdel
    by (vm_compute; reflexivity).
  destruct (delete_detaches_object false w (ipv4 10 0 0 0 16) w' 2%positive)
    as (obj & obj' & Hres); [| |exact Hsearch|exact Hdel|].
  - apply (wreach_adds [ipv4 10 0 0 0 8; ipv4 10 0 0 0 16] newRadixObject);
      [apply wreach_new| |vm_compute; reflexivity].
    unfold ipv4, valid_prefix. solve_valid_prefixes.
  - unfold ipv4, valid_prefix. solve_valid_prefixes.
  - exists w, w', 2%positive, obj, obj'.
    split; [vm_compute; reflexivity|]. split; [exact Hsearch|]. split; [exact Hdel|].
    exact Hres.
Defined.

(** ** Searches of the binding *)

Lemma wreach_payload w : wreach w → all_payload w.
Proof.
  induction 1 as [|ok1 ok2 ok3 w p w' o Hw IH Hp Hadd
                  |oob w p w' r Hw IH Hp Hdel
                  |o k v w Hw IH].
  - intros y P ny _ Hy. simpl in Hy. by rewrite lookup_empty in Hy.
  - destruct (wreach_inv _ Hw) as (Hreach & _).
    destruct (proj1 (inv_fam_inv _ _ (family p)) (reachable_inv _ _ Hreach))
      as (T & O & Hinv).
    destruct (Radix_add_tree _ _ _ _ _ _ _ _ _ Hp Hinv Hadd)
      as (Tf & x & P & nf & Hinv' & Hnode & Hag & Hx & Hd & Hfrom & Hto & Hdata & _).
    pose proof Hinv as (_ & _ & HrT & HrO & _).
    intros y Q ny Hst Hy. destruct (decide (y = x)) as [->|Hne]; [congruence|].
    assert (stored (nodes w) (rt (self w)) y Q) as Hst0.
    { apply (stored_iff _ _ _ _ _ y Q Hinv).
      apply (stored_iff _ _ _ _ _ y Q Hinv') in Hst as [[Hf Hn]|[Hf Hn]]; [|by right].
      left. split; [done|]. by destruct (Hfrom _ _ _ Hn) as [?|[? _]]. }
    pose proof Hst0 as (_ & ny0 & Hy0 & _).
    destruct (Hdata y ny0 Hy0 Hne) as (ny' & Hny' & Hdy').
    assert (ny' = ny) as -> by congruence. rewrite Hdy'. by eapply IH.
  - destruct r as [[]|e]; [|by rewrite (Radix_delete_raise _ _ _ _ _ Hdel)].
    destruct (wreach_inv _ Hw) as (Hreach & _).
    destruct (proj1 (inv_fam_inv _ _ (family p)) (reachable_inv _ _ Hreach))
      as (T & O & Hinv).
    destruct (Radix_delete_tree _ _ _ _ _ _ Hp Hinv Hdel)
      as (x & nx & P & Hnode & Hx & Hinv' & Hpay & HfrO & Hobjs).
    pose proof Hinv as (_ & _ & HrT & HrO & Hnd & HpT & _).
    apply NoDup_app in Hnd as (HndT & Hdis & _).
    intros y Q ny' Hst Hy'.
    assert (stored (nodes w) (rt (self w)) y Q ∧ y ≠ x) as [Hst0 Hne].
    { apply (stored_iff _ _ _ _ _ y Q Hinv') in Hst as [[Hf Hn]|[Hf Hn]].
      - destruct (del_t_node_in_inv _ _ _ _ _ HndT Hn) as [HnT Hne].
        split; [|done]. by eapply node_in_stored.
      - split; [apply (stored_iff _ _ _ _ _ y Q Hinv); by right|].
        intros ->. apply (Hdis x); by eapply node_in_locs. }
    destruct (remove_payloads_kept _ _ _ _ _ Hpay Hy' Hne) as (ny & Hny & [= _ _ Hdy]).
    rewrite Hdy. by eapply IH.
  - done.
Qed.

(** The object of a node that stores a prefix, in a world the binding
    reaches. *)
Lemma node_object_linked w T O fam x P :
  wreach w → fam_inv (nodes w) (rt (self w)) fam T O →
  node_in T x (bitlen P) (Some P) →
  ∃ o obj, node_object (nodes w) (Some x) = Ok (Some o) ∧
           objects w !! o = Some obj ∧ rn obj = Some x ∧
           stored (nodes w) (rt (self w)) x P ∧ family P = fam.
Proof.
  intros Hw Hinv Hnode.
  destruct (wreach_inv _ Hw) as (_ & _ & Hback).
  pose proof (wreach_payload _ Hw) as Hpayload.
  destruct (node_in_stored _ _ _ _ _ _ _ _ Hinv Hnode) as [Hst Hfam].
  pose proof Hst as (_ & nx & Hx & _).
  destruct (data nx) as [o|] eqn:Hd; [|by destruct (Hpayload x P nx Hst Hx)].
  destruct (Hback x P nx o Hst Hx Hd) as (obj & Hobj & Hrn).
  exists o, obj. split; [|done]. cbn [node_object].
  rewrite (deref_Some _ _ _ Hx). cbn [mbind res_bind]. by rewrite Hd.
Qed.

(** In every world the binding reaches, [search_best] of a valid prefix
    [q] returns the node object of the longest stored prefix of the family
    of [q] that contains [q], and [None] exactly when no stored prefix
    contains [q]. *)
Theorem search_best_object oob w q :
  wreach w → valid_prefix q →
  ∃ r, Radix_search_best oob w q = Ok r ∧
    match r with
    | Some o =>
      ∃ x P obj,
        objects w !! o = Some obj ∧ rn obj = Some x ∧
        stored (nodes w) (rt (self w)) x P ∧ family P = family q ∧ contains P q ∧
        ∀ y P', stored (nodes w) (rt (self w)) y P' → family P' = family q →
                contains P' q → bitlen P' ≤ bitlen P
    | None =>
      ∀ y P', stored (nodes w) (rt (self w)) y P' → family P' = family q →
              ¬ contains P' q
    end.
Proof.
  intros Hw Hq. destruct (wreach_inv _ Hw) as (Hreach & _).
  destruct (proj1 (inv_fam_inv _ _ (family q)) (reachable_inv _ _ Hreach))
    as (T & O & Hinv).
  pose proof Hinv as (_ & _ & _ & _ & _ & HpT & _).
  unfold Radix_search_best, radix_search_best.
  rewrite (radix_search_best2_best_t _ _ _ _ _ T O Hq Hinv). cbn [mbind res_bind].
  pose proof (best_t_spec q true T Hq 0 (Z.le_refl 0) HpT) as Hspec.
  destruct (best_t q true T) as [[x P]|]; cbn [fmap option_fmap option_map fst].
  - destruct Hspec as (Hnode & Hcont & _ & Hmax).
    destruct (node_object_linked _ _ _ _ _ _ Hw Hinv Hnode)
      as (o & obj & Hno & Hobj & Hrn & Hst & Hfam).
    exists (Some o). split; [done|]. exists x, P, obj. repeat (split; [done|]).
    intros y P' Hst' Hfam' Hc. apply Hmax; [|done|by left].
    eapply node_in_prefixes. by eapply stored_in_trie.
  - exists None. split; [done|]. intros y P' Hst' Hfam' Hc.
    destruct (Hspec P'); [|done|done].
    eapply node_in_prefixes. by eapply stored_in_trie.
Qed.

Lemma search_best_object_witness :
  ∃ w r,
    adds newRadixObject [ipv4 10 0 0 0 8; ipv4 10 0 0 0 16] = Some w ∧
    Radix_search_best false w (ipv4 10 0 99 7 32) = Ok r ∧
    match r with
    | Some o =>
      ∃ x P obj,
        objects w !! o = Some obj ∧ rn obj = Some x ∧
        stored (nodes w) (rt (self w)) x P ∧ family P = AF_INET ∧
        contains P (ipv4 10 0 99 7 32) ∧
        ∀ y P', stored (nodes w) (rt (self w)) y P' → family P' = AF_INET →
                contains P' (ipv4 10 0 99 7 32) → bitlen P' ≤ bitlen P
    | None =>
      ∀ y P', stored (nodes w) (rt (self w)) y P' → family P' = AF_INET →
              ¬ contains P' (ipv4 10 0 99 7 32)
    end.
Proof.
  pose (w := default newRadixObject
               (adds newRadixObject [ipv4 10 0 0 0 8; ipv4 10 0 0 0 16])).
  destruct (search_best_object false w (ipv4 10 0 99 7 32)) as (r & Hcall & Hres).
  - apply (wreach_adds [ipv4 10 0 0 0 8; ipv4 10 0 0 0 16] newRadixObject);
      [apply wreach_new| |vm_compute; reflexivity].
    unfold ipv4, valid_prefix. solve_valid_prefixes.
  - unfold ipv4, valid_prefix. solve_valid_prefixes.
  - exists w, r. split; [vm_compute; reflexivity|]. split; [exact Hcall|exact Hres].
Defined.

(** In every world the binding reaches, [search_worst] of a valid prefix
    [q] returns the node object of the shortest stored prefix of the family
    of [q] that contains [q], and [None] exactly when no stored prefix
    contains [q]. *)
Theorem search_worst_object oob w q :
  wreach w → valid_prefix q →
  ∃ r, Radix_search_worst oob w q = Ok r ∧
    match r with
    | Some o =>
      ∃ x P obj,
        objects w !! o = Some obj ∧ rn obj = Some x ∧
        stored (nodes w) (rt (self w)) x P ∧ family P = family q ∧ contains P q ∧
        ∀ y P', stored (nodes w) (rt (self w)) y P' → family P' = family q →
                contains P' q → bitlen P ≤ bitlen P'
    | None =>
      ∀ y P', stored (nodes w) (rt (self w)) y P' → family P' = family q →
              ¬ contains P' q
    end.
Proof.
  intros Hw Hq. destruct (wreach_inv _ Hw) as (Hreach & _).
  destruct (proj1 (inv_fam_inv _ _ (family q)) (reachable_inv _ _ Hreach))
    as (T & O & Hinv).
  pose proof Hinv as (_ & _ & _ & _ & _ & HpT & _).
  unfold Radix_search_worst, radix_search_worst.
  rewrite (radix_search_worst2_worst_t _ _ _ _ _ T O Hq Hinv). cbn [mbind res_bind].
  pose proof (worst_t_spec q true T Hq 0 (Z.le_refl 0) HpT) as Hspec.
  destruct (worst_t q true T) as [[x P]|]; cbn [fmap option_fmap option_map fst].
  - destruct Hspec as (Hnode & Hcont & _ & Hmin).
    destruct (node_object_linked _ _ _ _ _ _ Hw Hinv Hnode)
      as (o & obj & Hno & Hobj & Hrn & Hst & Hfam).
    exists (Some o). split; [done|]. exists x, P, obj. repeat (split; [done|]).
    intros y P' Hst' Hfam' Hc. apply Hmin; [|done|by left].
    eapply node_in_prefixes. by eapply stored_in_trie.
  - exists None. split; [done|]. intros y P' Hst' Hfam' Hc.
    destruct (Hspec P'); [|done|done].
    eapply node_in_prefixes. by eapply stored_in_trie.
Qed.

Lemma search_worst_object_witness :
  ∃ w r,
    adds newRadixObject [ipv4 10 0 0 0 8; ipv4 10 0 0 0 16] = Some w ∧
    Radix_search_worst false w (ipv4 10 0 99 7 32) = Ok r ∧
    match r with
    | Some o =>
      ∃ x P obj,
        objects w !! o = Some obj ∧ rn obj = Some x ∧
        stored (nodes w) (rt (self w)) x P ∧ family P = AF_INET ∧
        contains P (ipv4 10 0 99 7 32) ∧
        ∀ y P', stored (nodes w) (rt (self w)) y P' → family P' = AF_INET →
                contains P' (ipv4 10 0 99 7 32) → bitlen P ≤ bitlen P'
    | None =>
      ∀ y P', stored (nodes w) (rt (self w)) y P' → family P' = AF_INET →
              ¬ contains P' (ipv4 10 0 99 7 32)
    end.
Proof.
  pose (w := default newRadixObject
               (adds newRadixObject [ipv4 10 0 0 0 8; ipv4 10 0 0 0 16])).
  destruct (search_worst_object false w (ipv4 10 0 99 7 32)) as (r & Hcall & Hres).
  - apply (wreach_adds [ipv4 10 0 0 0 8; ipv4 10 0 0 0 16] newRadixObject);
      [apply wreach_new| |vm_compute; reflexivity].
    unfold ipv4, valid_prefix. solve_valid_prefixes.
  - unfold ipv4, valid_prefix. solve_valid_prefixes.
  - exists w, r. split; [vm_compute; reflexivity|]. split; [exact Hcall|exact Hres].
Defined.

Lemma add_nodes_objects w fam T O l :
  wreach w → fam_inv (nodes w) (rt (self w)) fam T O →
  (∀ y, y ∈ l → ∃ P, node_in T y (bitlen P) (Some P)) →
  ∀ ret, ∃ objs,
    add_nodes_to_list (nodes w) ret l = Ok (ret ++ objs) ∧
    Forall2 (λ y o, ∃ obj, objects w !! o = Some obj ∧ rn obj = Some y) l objs.
Proof.
  intros Hw Hinv. induction l as [|y l IH]; intros Hl ret.
  { exists []. by rewrite app_nil_r. }
  destruct (Hl y) as [P Hy]; [by left|].
  destruct (node_object_linked _ _ _ _ _ _ Hw Hinv Hy) as (o & obj & Hno & Hobj & Hrn & _).
  cbn [add_nodes_to_list]. unfold add_node_to_list. cbn [node_object] in Hno.
  destruct (deref (nodes w) y) as [ny|]; [|done]. cbn [mbind res_bind] in Hno |- *.
  injection Hno as ->.
  destruct (IH (λ z Hz, Hl z (list_elem_of_further _ _ _ Hz)) (ret ++ [o]))
    as (objs & Hrun & Hall).
  exists (o :: objs). split.
  - rewrite Hrun. by rewrite <- app_assoc.
  - apply Forall2_cons. split; [by exists obj|done].
Qed.

(** In every world the binding reaches, [search_covering] of a valid
    prefix [q] returns the node objects of the stored prefixes of the
    family of [q] that contain [q], each once, the longest prefix first. *)
Theorem search_covering_objects oob w q :
  wreach w → valid_prefix q →
  ∃ cover objs,
    Radix_search_covering oob w q = Ok objs ∧
    (∀ y, y ∈ cover ↔
          ∃ Q, stored (nodes w) (rt (self w)) y Q ∧ family Q = family q ∧
               contains Q q) ∧
    NoDup cover ∧
    sorted_by (λ y z, ∀ Py Pz, stored (nodes w) (rt (self w)) y Py →
                               stored (nodes w) (rt (self w)) z Pz →
                               bitlen Pz < bitlen Py) cover ∧
    Forall2 (λ y o, ∃ obj, objects w !! o = Some obj ∧ rn obj = Some y) cover objs.
Proof.
  intros Hw Hq. destruct (wreach_inv _ Hw) as (Hreach & _).
  pose proof (reachable_inv _ _ Hreach) as Hinv0.
  destruct (proj1 (inv_fam_inv _ _ (family q)) Hinv0) as (T & O & Hinv).
  pose proof Hinv as (_ & _ & _ & _ & Hnd & HpT & _).
  apply NoDup_app in Hnd as (HndT & _).
  destruct (cover_t_props _ _ q T O Hinv0 Hq Hinv) as (Hmem & Hndc & Hsorted).
  destruct (add_nodes_objects w _ T O (cover_t q T) Hw Hinv) with (ret := @nil pyobj)
    as (objs & Hrun & Hall).
  { intros y Hy. apply (cover_t_spec q T y Hq HpT HndT) in Hy as (Q & HQ & _). eauto. }
  exists (cover_t q T), objs. split; [|done].
  unfold Radix_search_covering.
  rewrite (radix_search_covering_run _ _ _ _ _ T O Hq Hinv).
  rewrite run_cb_zero by done. done.
Qed.

Lemma search_covering_objects_witness :
  ∃ w cover objs,
    adds newRadixObject [ipv4 10 0 0 0 8; ipv4 10 0 0 0 16] = Some w ∧
    Radix_search_covering false w (ipv4 10 0 99 7 32) = Ok objs ∧
    (∀ y, y ∈ cover ↔
          ∃ Q, stored (nodes w) (rt (self w)) y Q ∧ family Q = AF_INET ∧
               contains Q (ipv4 10 0 99 7 32)) ∧
    NoDup cover ∧
    sorted_by (λ y z, ∀ Py Pz, stored (nodes w) (rt (self w)) y Py →
                               stored (nodes w) (rt (self w)) z Pz →
                               bitlen Pz < bitlen Py) cover ∧
    Forall2 (λ y o, ∃ obj, objects w !! o = Some obj ∧ rn obj = Some y) cover objs.
Proof.
  pose (w := default newRadixObject
               (adds newRadixObject [ipv4 10 0 0 0 8; ipv4 10 0 0 0 16])).
  destruct (search_covering_objects false w (ipv4 10 0 99 7 32))
    as (cover & objs & Hres).
  - apply (wreach_adds [ipv4 10 0 0 0 8; ipv4 10 0 0 0 16] newRadixObject);
      [apply wreach_new| |vm_compute; reflexivity].
    unfold ipv4, valid_prefix. solve_valid_prefixes.
  - unfold ipv4, valid_prefix. solve_valid_prefixes.
  - exists w, cover, objs. split; [vm_compute; reflexivity|]. exact Hres.
Defined.

(** In every world the binding reaches, [search_covered] of a valid
    prefix [q] returns the node objects of the stored prefixes of the
    family of [q] that [q] contains, each once. *)
Theorem search_covered_objects oob w q :
  wreach w → valid_prefix q →
  ∃ covered objs,
    Radix_search_covered oob w q = Ok objs ∧
    (∀ y, y ∈ covered ↔
          ∃ P, stored (nodes w) (rt (self w)) y P ∧ family P = family q ∧
               contains q P) ∧
    NoDup covered ∧
    Forall2 (λ y o, ∃ obj, objects w !! o = Some obj ∧ rn obj = Some y) covered objs.
Proof.
  intros Hw Hq. destruct (wreach_inv _ Hw) as (Hreach & _).
  destruct (proj1 (inv_fam_inv _ _ (family q)) (reachable_inv _ _ Hreach))
    as (T & O & Hinv).
  destruct (covered_t_props _ _ q true T O Hq Hinv) as (Hmem & Hndc).
  destruct (add_nodes_objects w _ T O (covered_t q true T) Hw Hinv) with (ret := @nil pyobj)
    as (objs & Hrun & Hall).
  { intros y Hy. apply Hmem in Hy as (P & HP & Hfam & _). exists P.
    by eapply stored_in_trie. }
  exists (covered_t q true T), objs. split; [|split; [|done]].
  - unfold Radix_search_covered.
    rewrite (radix_search_covered_run _ _ _ _ _ _ T O Hq Hinv).
    rewrite run_cb_zero by done. done.
  - intros y. rewrite Hmem. split.
    + intros (P & ? & ? & ? & _). by exists P.
    + intros (P & ? & ? & ?). exists P. auto.
Qed.

Lemma search_covered_objects_witness :
  ∃ w covered objs,
    adds newRadixObject [ipv4 10 0 0 0 8; ipv4 10 0 0 0 16] = Some w ∧
    Radix_search_covered false w (ipv4 10 0 0 0 12) = Ok objs ∧
    (∀ y, y ∈ covered ↔
          ∃ P, stored (nodes w) (rt (self w)) y P ∧ family P = AF_INET ∧
               contains (ipv4 10 0 0 0 12) P) ∧
    NoDup covered ∧
    Forall2 (λ y o, ∃ obj, objects w !! o = Some obj ∧ rn obj = Some y) covered objs.
Proof.
  pose (w := default newRadixObject
               (adds newRadixObject [ipv4 10 0 0 0 8; ipv4 10 0 0 0 16])).
  destruct (search_covered_objects false w (ipv4 10 0 0 0 12))
    as (covered & objs & Hres).
  - apply (wreach_adds [ipv4 10 0 0 0 8; ipv4 10 0 0 0 16] newRadixObject);
      [apply wreach_new| |vm_compute; reflexivity].
    unfold ipv4, valid_prefix. solve_valid_prefixes.
  - unfold ipv4, valid_prefix. solve_valid_prefixes.
  - exists w, covered, objs. split; [vm_compute; reflexivity|]. exact Hres.
Defined.

(** ** An [add] that cannot allocate its node object *)

(** In a reachable tree, an [add] of a valid prefix that is not stored,
    whose node is allocated and whose node object is not, raises
    [MemoryError] and leaves the generation and the node objects as they
    were; the prefix is stored in the tree all the same, without a
    payload, and [search_exact] returns [None] for it. *)
Theorem add_without_object_stores_prefix oob w p :
  reachable (nodes w) (rt (self w)) → valid_prefix p →
  radix_search_exact oob (nodes w) (rt (self w)) p = Ok None →
  ∃ w' x,
    Radix_add true true false w p = Ok (w', Raise MemoryError) ∧
    gen_id (self w') = gen_id (self w) ∧ objects w' = objects w ∧
    stored (nodes w') (rt (self w')) x p ∧
    (∀ y P, stored (nodes w) (rt (self w)) y P → stored (nodes w') (rt (self w')) y P) ∧
    radix_search_exact oob (nodes w') (rt (self w')) p = Ok (Some x) ∧
    Radix_search_exact oob w' p = Ok None.
Proof.
  intros Hreach Hp Hmiss.
  pose proof (reachable_data_real _ _ Hreach) as Hreal.
  destruct (proj1 (inv_fam_inv _ _ (family p)) (reachable_inv _ _ Hreach)) as (T & O & Hinv).
  destruct (radix_lookup_spec _ _ p T O Hp Hinv) as (h1 & t1 & x & _ & _ & Hcall & _).
  destruct (radix_lookup_tree _ _ _ _ _ _ _ _ _ _ Hp Hinv Hcall)
    as (T' & P & Hinv' & Hnode & Hag & Hwas & Hfrom & Hto & HfrO & Hpay & Hnew).
  pose proof Hinv as (_ & _ & HrT & _ & _ & HpT & _).
  pose proof Hinv' as (_ & _ & HrT' & _ & _ & HpT' & _).
  destruct (radix_search_exact_spec oob _ _ p T O Hp Hinv) as (res & Hres & Hspec).
  rewrite Hmiss in Hres. injection Hres as <-.
  assert (P = p) as ->.
  { destruct Hwas as [?|Hold]; [done|]. by destruct (Hspec x P Hold). }
  destruct (node_in_repr _ _ _ _ _ _ HrT' Hnode) as (n1 & Hx & Hb1 & Hp1).
  assert (data n1 = None) as Hd.
  { destruct (nodes w !! x) as [nx|] eqn:Hnx.
    - destruct (lookup_payloads_old _ _ _ _ _ _ Hpay Hnx)
        as (n1' & Hx' & Hb & Hdata & Hpref).
      assert (n1' = n1) as -> by congruence. rewrite Hdata.
      destruct (data nx) as [o|] eqn:Hdx; [|done].
      assert (prefix nx ≠ None) as Hpx by (apply (Hreal x nx Hnx); congruence).
      destruct Hpref as [Hsame|(? & _)]; [|done].
      destruct Hnew as [HxT|?]; [|congruence].
      pose proof (repr_node_in _ _ _ _ _ HrT HxT Hnx) as Hin.
      rewrite <- Hb, Hb1, <- Hsame, Hp1 in Hin.
      destruct (Hspec x p Hin). apply agree_refl.
    - by destruct (lookup_payloads_new _ _ _ _ _ _ Hpay Hnx Hx). }
  assert (radix_search_exact oob h1 t1 p = Ok (Some x)) as Hfind.
  { destruct (radix_search_exact_spec oob _ _ p T' O Hp Hinv') as (res & Hres & Hspec').
    rewrite Hres. destruct res as [z|].
    - destruct Hspec' as [_ Huniq]. by rewrite (Huniq x p Hnode Hag).
    - by destruct (Hspec' x p Hnode). }
  eexists _, x. split.
  { unfold Radix_add, create_add_node. rewrite Hcall. cbn [mbind res_bind].
    rewrite (deref_Some _ _ _ Hx). cbn [mbind res_bind]. rewrite Hd.
    unfold newRadixNodeObject. rewrite Hp1. cbn [mbind res_bind]. done. }
  cbn [nodes objects self rt gen_id]. split; [done|]. split; [done|].
  split; [by eapply node_in_stored|]. split; [|split; [done|]].
  - intros y Q. rewrite (stored_iff _ _ _ _ _ y Q Hinv), (stored_iff _ _ _ _ _ y Q Hinv').
    intros [[Hf Hn]|?]; [left; auto|by right].
  - unfold Radix_search_exact. cbn [nodes self rt]. rewrite Hfind.
    cbn [mbind res_bind node_object]. rewrite (deref_Some _ _ _ Hx).
    cbn [mbind res_bind]. by rewrite Hd.
Qed.

Lemma add_without_object_stores_prefix_witness :
  ∃ w w' x,
    adds newRadixObject [ipv4 10 0 0 0 8] = Some w ∧
    Radix_add true true false w (ipv4 10 0 0 0 16) = Ok (w', Raise MemoryError) ∧
    gen_id (self w') = gen_id (self w) ∧ objects w' = objects w ∧
    stored (nodes w') (rt (self w')) x (ipv4 10 0 0 0 16) ∧
    (∀ y P, stored (nodes w) (rt (self w)) y P → stored (nodes w') (rt (self w')) y P) ∧
    radix_search_exact false (nodes w') (rt (self w')) (ipv4 10 0 0 0 16) = Ok (Some x) ∧
    Radix_search_exact false w' (ipv4 10 0 0 0 16) = Ok None.
Proof.
  pose (w := default newRadixObject (adds newRadixObject [ipv4 10 0 0 0 8])).
  destruct (add_without_object_stores_prefix false w (ipv4 10 0 0 0 16))
    as (w' & x & Hres).
  - apply (reachable_adds [ipv4 10 0 0 0 8] newRadixObject);
      [apply reach_new| |vm_compute; reflexivity].
    unfold ipv4, valid_prefix. solve_valid_prefixes.
  - unfold ipv4, valid_prefix. solve_valid_prefixes.
  - vm_compute. reflexivity.
  - exists w, w', x. split; [vm_compute; reflexivity|]. exact Hres.
Defined.

(** * A loop over the tree *)

Lemma next_payload_payloads h rem :
  match next_payload h rem with
  | Some (o, rem') => payloads h rem = o :: payloads h rem' ∧
                      (length rem' < length rem)%nat
  | None => payloads h rem = []
  end.
Proof.
  induction rem as [|x rest IH]; simpl; [done|].
  destruct (h !! x) as [n|].
  - destruct (prefix n), (data n); try (split; [done|lia]).
    all: destruct (next_payload h rest) as [[o rem']|]; [|done].
    all: destruct IH; split; [done|lia].
  - destruct (next_payload h rest) as [[o rem']|]; [|done].
    destruct IH; split; [done|lia].
Qed.

Lemma drain_spec w :
  ∀ fuel it rem,
    iter_ok (nodes w) (rt (self w)) it rem →
    iter_gen_id it = gen_id (self w) → (length rem < fuel)%nat →
    drain fuel w it = Ok (payloads (nodes w) rem, StopIteration).
Proof.
  induction fuel as [|f IH]; intros it rem Hok Hgen Hfuel; [lia|].
  cbn [drain]. unfold RadixIter_iternext.
  rewrite bool_decide_eq_true_2 by done.
  destruct (RadixIter_again_spec (nodes w) (rt (self w))
              (2 * fuel_of (nodes w)) it rem Hok) as (it' & Hcall & Hgen' & Hok').
  { pose proof (iter_ok_size _ _ _ _ Hok). unfold iter_steps, fuel_of.
    destruct (af it); lia. }
  rewrite Hcall. cbn [mbind res_bind].
  pose proof (next_payload_payloads (nodes w) rem) as Hpay.
  destruct (next_payload (nodes w) rem) as [[o rem']|].
  - destruct Hpay as [-> Hlen].
    rewrite (IH it' rem' Hok') by (congruence || lia). done.
  - by rewrite Hpay.
Qed.

Lemma payloads_linked w l :
  wreach w → (∀ y, y ∈ l → y ∈ tree_nodes (nodes w) (rt (self w))) →
  Forall2 (λ y o, ∃ obj, objects w !! o = Some obj ∧ rn obj = Some y)
    (filter (λ y, is_real (nodes w) y) l) (payloads (nodes w) l).
Proof.
  intros Hw. destruct (wreach_inv _ Hw) as (_ & _ & Hback).
  pose proof (wreach_payload _ Hw) as Hpayload.
  induction l as [|x l IH]; intros Hl; [done|].
  specialize (IH (λ y Hy, Hl y (list_elem_of_further _ _ _ Hy))).
  rewrite filter_cons. cbn [payloads].
  assert (is_real (nodes w) x = match nodes w !! x with
                                | Some n => non_null (prefix n)
                                | None => false
                                end) as Hr by done.
  case_decide as Hdec; rewrite Hr in Hdec;
    destruct (nodes w !! x) as [n|] eqn:Hx; try done;
    destruct (prefix n) as [P|] eqn:HP; try done.
  assert (stored (nodes w) (rt (self w)) x P) as Hst.
  { split; [apply Hl; by left|by eauto]. }
  destruct (data n) as [o|] eqn:Hd; [|by destruct (Hpayload x P n Hst Hx)].
  apply Forall2_cons. split; [|done]. by apply (Hback x P n o).
Qed.

(** In every world the binding reaches, a loop over a new iterator of the
    tree yields the node object of every stored prefix, each once, and
    ends with [StopIteration]. *)
Theorem loop_yields_every_object w fuel :
  wreach w →
  (length (tree_nodes (nodes w) (rt (self w))) < fuel)%nat →
  ∃ real objs,
    drain fuel w (newRadixIterObject w) = Ok (objs, StopIteration) ∧
    (∀ y, y ∈ real ↔ ∃ P, stored (nodes w) (rt (self w)) y P) ∧
    NoDup real ∧
    Forall2 (λ y o, ∃ obj, objects w !! o = Some obj ∧ rn obj = Some y) real objs.
Proof.
  intros Hw Hfuel. destruct (wreach_inv _ Hw) as (Hreach & _).
  exists (filter (λ y, is_real (nodes w) y) (tree_nodes (nodes w) (rt (self w)))),
         (payloads (nodes w) (tree_nodes (nodes w) (rt (self w)))).
  split; [|split; [|split]].
  - apply drain_spec; [by apply iter_ok_new|done|done].
  - intros y. rewrite list_elem_of_filter. unfold stored, is_real. split.
    + intros [Hreal Hin].
      destruct (nodes w !! y) as [n|]; [|done].
      destruct (prefix n) as [P|] eqn:HP; [|done]. exists P. split; [done|]. by exists n.
    + intros (P & Hin & n & -> & HP). split; [|done]. by rewrite HP.
  - apply NoDup_filter.
    destruct (reachable_inv _ _ Hreach) as (t4 & t6 & Hinv).
    rewrite (tree_nodes_inv _ _ _ _ Hinv). by destruct Hinv as (_ & _ & _ & _ & Hnd & _).
  - by apply payloads_linked.
Qed.

Lemma loop_yields_every_object_witness :
  ∃ w real objs,
    adds newRadixObject [ipv4 10 0 0 0 8; ipv4 10 0 0 0 16] = Some w ∧
    drain 3 w (newRadixIterObject w) = Ok (objs, StopIteration) ∧
    (∀ y, y ∈ real ↔ ∃ P, stored (nodes w) (rt (self w)) y P) ∧
    NoDup real ∧
    Forall2 (λ y o, ∃ obj, objects w !! o = Some obj ∧ rn obj = Some y) real objs.
Proof.
  pose (w := default newRadixObject
               (adds newRadixObject [ipv4 10 0 0 0 8; ipv4 10 0 0 0 16])).
  destruct (loop_yields_every_object w 3) as (real & objs & Hres).
  - apply (wreach_adds [ipv4 10 0 0 0 8; ipv4 10 0 0 0 16] newRadixObject);
      [apply wreach_new| |vm_compute; reflexivity].
    unfold ipv4, valid_prefix. solve_valid_prefixes.
  - vm_compute. lia.
  - exists w, real, objs. split; [vm_compute; reflexivity|]. exact Hres.
Defined.
